(** * SUBDUE 5: a shallow embedding of the discovery core

    The development follows the C sources of SUBDUE 5.2 (subdue.h,
    graphops.c, subops.c, compress.c, evaluate.c, graphmatch.c,
    discover.c, extend.c, incutil.c).

    Conventions of the embedding.
    - [ULONG] is [unsigned long] on an LP64 machine: a natural number
      below [2^64]; additions and subtractions on counters wrap around
      and are written [uadd] and [usub].
    - A C array together with its element count (a vertex's [edges] and
      [numEdges], an instance's [vertices] and [numVertices], ...) is a
      list; the count is the length of the list.  The vertex and edge
      arrays of a [Graph] keep their explicit counts [numVertices] and
      [numEdges], because the code sets the counts before it fills the
      arrays.
    - Reading [a[i]] is [a !!! i] and writing a field of [a[i]] is
      [alter f i a]; out of range (undefined behaviour in C) a read
      yields a default record and a write does nothing.
    - [malloc]-ed records are filled with a default record until the
      code writes them.
    - [double] is idealised by the real numbers, [log] is the natural
      logarithm and [LOG_2] is [ln 2].
    - Functions that write through their pointer arguments return the
      updated objects (explicit state passing).
    - A list of instances or of substructures holds the objects of its
      nodes, head first.  An instance that is on two lists is held by
      both: a list of new instances is the store that [ExtendSub] and
      its callees write, and the list of a substructure holds an
      instance as it is when it is inserted (with its own [refCount];
      what is written to a shared instance afterwards, [minMatchCost]
      and [refCount], is read from the list of new instances only).
    - The search of graphmatch.c ([InexactGraphMatch]), [NewEdgeMatch],
      [SubLabelNumber] and [RecursifySub] are not embedded: the
      functions that call them are written over arbitrary functions of
      these types, and what is proved holds for all of them.
    - Output ([printf]) and [free] are left out. *)

From Stdlib Require Import ZArith NArith Lia Reals Lra String.
From stdpp Require Import base option list gmap sorting.

Local Open Scope N_scope.

(** ** Machine integers *)

Abbreviation ULONG := N (only parsing).

Definition ULONG_MODULUS : N := 18446744073709551616.
Definition MAX_UNSIGNED_LONG : ULONG := 18446744073709551615.
Definition VERTEX_UNMAPPED : ULONG := MAX_UNSIGNED_LONG.
Definition VERTEX_DELETED : ULONG := MAX_UNSIGNED_LONG - 1.
Definition LIST_SIZE_INC : ULONG := 100.

Definition EVAL_MDL : ULONG := 1.
Definition EVAL_SIZE : ULONG := 2.
Definition EVAL_SETCOVER : ULONG := 3.

Definition NEG : ULONG := 0.
Definition POS : ULONG := 1.

(** [a + b] and [a - b] on [unsigned long]. *)
Definition uadd (a b : ULONG) : ULONG := (a + b) mod ULONG_MODULUS.
Definition usub (a b : ULONG) : ULONG :=
  (a + (ULONG_MODULUS - b mod ULONG_MODULUS)) mod ULONG_MODULUS.

(** [for (i = 0; i < n; i++) body] threading a state. *)
Definition ULONG_for {S : Type} (n : ULONG) (body : ULONG → S → S) (s : S) : S :=
  foldl (λ st i, body (N.of_nat i) st) s (seq 0 (N.to_nat n)).

(** ** Floating point numbers *)

Abbreviation double := R (only parsing).

#[global] Instance Rlt_decision (a b : R) : Decision (a < b)%R := Rlt_dec a b.
#[global] Instance Rle_decision (a b : R) : Decision (a <= b)%R := Rle_dec a b.
#[global] Instance R_eq_decision : EqDecision R := Req_dec_T.

Definition dlt (a b : double) : bool := bool_decide (a < b)%R.
Definition dle (a b : double) : bool := bool_decide (a <= b)%R.
Definition deq (a b : double) : bool := bool_decide (a = b).

Definition double_of_ULONG (n : ULONG) : double := IZR (Z.of_N n).

(** ** Data types of subdue.h *)

(** The value of a label is a string or a [double]; [numericNaN] is
    the numeric label whose [double] is not a number, which [ReadLabel]
    stores when [strtod] reads "nan". *)
Inductive LabelValue : Type :=
| stringLabel (s : string)
| numericLabel (d : double)
| numericNaN.

Record Label : Type := mkLabel {
  labelValue : LabelValue;
  lused : bool
}.

Record LabelList : Type := mkLabelList {
  numLabels : ULONG;
  labels : list Label
}.

Record Edge : Type := mkEdge {
  vertex1 : ULONG;
  vertex2 : ULONG;
  elabel : ULONG;
  directed : bool;
  eused : bool;
  spansIncrement : bool;
  validPath : bool
}.

Record Vertex : Type := mkVertex {
  vlabel : ULONG;
  vedges : list ULONG;
  vmap : ULONG;
  vused : bool
}.

Definition vnumEdges (v : Vertex) : ULONG := N.of_nat (length (vedges v)).

Record Graph : Type := mkGraph {
  numVertices : ULONG;
  numEdges : ULONG;
  vertices : list Vertex;
  edges : list Edge
}.

Record VertexMap : Type := mkVertexMap {
  vm_v1 : ULONG;
  vm_v2 : ULONG
}.

Inductive Instance : Type := mkInstance {
  ivertices : list ULONG;
  iedges : list ULONG;
  minMatchCost : double;
  newVertex : ULONG;
  newEdge : ULONG;
  refCount : ULONG;
  mapping : list VertexMap;
  mappingIndex1 : ULONG;
  mappingIndex2 : ULONG;
  iused : bool;
  parentInstance : option Instance
}.

Definition inumVertices (i : Instance) : ULONG := N.of_nat (length (ivertices i)).
Definition inumEdges (i : Instance) : ULONG := N.of_nat (length (iedges i)).

(** An [InstanceList] is the list of its nodes' instances, head first. *)
Abbreviation InstanceList := (list Instance) (only parsing).

Record Substructure : Type := mkSubstructure {
  definition : Graph;
  numInstances : ULONG;
  numExamples : ULONG;
  instances : option InstanceList;
  numNegInstances : ULONG;
  numNegExamples : ULONG;
  negInstances : option InstanceList;
  value : double;
  recursive : bool;
  recursiveEdgeLabel : ULONG;
  posIncrementValue : double;
  negIncrementValue : double
}.

(** A [SubList] is the list of its nodes' substructures, head first. *)
Abbreviation SubList := (list Substructure) (only parsing).

Record Increment : Type := mkIncrement {
  incrementNum : ULONG;
  numPosVertices : ULONG;
  numPosEdges : ULONG;
  numNegVertices : ULONG;
  numNegEdges : ULONG;
  startPosVertexIndex : ULONG;
  startPosEdgeIndex : ULONG;
  startNegVertexIndex : ULONG;
  startNegEdgeIndex : ULONG;
  inc_numPosEgs : double;
  inc_numNegEgs : double
}.

(** The fields of [Parameters] that the discovery core reads or writes.
    [log2FactorialSize] is the length of [log2Factorial]. *)
Record Parameters : Type := mkParameters {
  posGraph : Graph;
  negGraph : option Graph;
  posGraphDL : double;
  negGraphDL : double;
  numPosEgs : ULONG;
  numNegEgs : ULONG;
  posEgsVertexIndices : list ULONG;
  negEgsVertexIndices : list ULONG;
  labelList : LabelList;
  beamWidth : ULONG;
  limit : ULONG;
  maxVertices : ULONG;
  minVertices : ULONG;
  numBestSubs : ULONG;
  valueBased : bool;
  prune : bool;
  outputLevel : ULONG;
  allowInstanceOverlap : bool;
  evalMethod : ULONG;
  threshold : double;
  log2Factorial : list double;
  recursion : bool;
  incremental : bool;
  incrementList : list Increment
}.

(** Default records: the contents of fresh [malloc]-ed memory and of
    reads outside an array. *)
Definition dummyEdge : Edge := mkEdge 0 0 0 false false false false.
Definition dummyVertex : Vertex := mkVertex 0 [] 0 false.
Definition dummyIncrement : Increment :=
  mkIncrement 0 0 0 0 0 0 0 0 0 0%R 0%R.
Definition dummyLabel : Label := mkLabel (stringLabel EmptyString) false.

#[global] Instance Edge_inhabited : Inhabited Edge := populate dummyEdge.
#[global] Instance Vertex_inhabited : Inhabited Vertex := populate dummyVertex.
#[global] Instance Label_inhabited : Inhabited Label := populate dummyLabel.
#[global] Instance double_inhabited : Inhabited double := populate 0%R.

(** ** Field updates *)

Definition set_vused (b : bool) (v : Vertex) : Vertex :=
  mkVertex (vlabel v) (vedges v) (vmap v) b.
Definition set_vmap (m : ULONG) (v : Vertex) : Vertex :=
  mkVertex (vlabel v) (vedges v) m (vused v).
Definition set_vlabel (l : ULONG) (v : Vertex) : Vertex :=
  mkVertex l (vedges v) (vmap v) (vused v).
Definition set_vedges (es : list ULONG) (v : Vertex) : Vertex :=
  mkVertex (vlabel v) es (vmap v) (vused v).
Definition set_eused (b : bool) (e : Edge) : Edge :=
  mkEdge (vertex1 e) (vertex2 e) (elabel e) (directed e) b
         (spansIncrement e) (validPath e).

Definition set_vertices (vs : list Vertex) (g : Graph) : Graph :=
  mkGraph (numVertices g) (numEdges g) vs (edges g).
Definition set_edges (es : list Edge) (g : Graph) : Graph :=
  mkGraph (numVertices g) (numEdges g) (vertices g) es.
Definition set_numVertices (n : ULONG) (g : Graph) : Graph :=
  mkGraph n (numEdges g) (vertices g) (edges g).
Definition set_numEdges (n : ULONG) (g : Graph) : Graph :=
  mkGraph (numVertices g) n (vertices g) (edges g).

(** [graph->vertices[i]], [graph->edges[i]] and writes to their fields. *)
Definition getV (g : Graph) (i : ULONG) : Vertex := vertices g !!! N.to_nat i.
Definition getE (g : Graph) (i : ULONG) : Edge := edges g !!! N.to_nat i.
Definition updV (g : Graph) (i : ULONG) (f : Vertex → Vertex) : Graph :=
  set_vertices (alter f (N.to_nat i) (vertices g)) g.
Definition updE (g : Graph) (i : ULONG) (f : Edge → Edge) : Graph :=
  set_edges (alter f (N.to_nat i) (edges g)) g.

(** ** graphops.c *)

Definition AllocateGraph (v e : ULONG) : Graph :=
  mkGraph v e (replicate (N.to_nat v) dummyVertex) (replicate (N.to_nat e) dummyEdge).

(** [StoreEdge] writes every field of the slot except [validPath]. *)
Definition StoreEdge (overlapEdges : list Edge) (edgeIndex v1 v2 label : ULONG)
    (directed spansIncrement : bool) : list Edge :=
  alter (λ e, mkEdge v1 v2 label directed false spansIncrement (validPath e))
        (N.to_nat edgeIndex) overlapEdges.

Definition AddEdgeToVertices (graph : Graph) (edgeIndex : ULONG) : Graph :=
  let v1 := vertex1 (getE graph edgeIndex) in
  let v2 := vertex2 (getE graph edgeIndex) in
  let graph := updV graph v1 (λ vx, set_vedges (vedges vx ++ [edgeIndex]) vx) in
  if negb (v1 =? v2)
  then updV graph v2 (λ vx, set_vedges (vedges vx ++ [edgeIndex]) vx)
  else graph.

(** [AddEdge]: the edge array grows by [LIST_SIZE_INC] slots when full. *)
Definition AddEdge (graph : Graph) (sourceVertexIndex targetVertexIndex : ULONG)
    (directed : bool) (labelIndex : ULONG) (spansIncrement : bool) : Graph :=
  let graph :=
    if N.of_nat (length (edges graph)) =? numEdges graph
    then set_edges (edges graph ++ replicate (N.to_nat LIST_SIZE_INC) dummyEdge) graph
    else graph in
  let graph :=
    updE graph (numEdges graph)
         (λ _, mkEdge sourceVertexIndex targetVertexIndex labelIndex directed
                      false spansIncrement true) in
  let graph := AddEdgeToVertices graph (numEdges graph) in
  set_numEdges (uadd (numEdges graph) 1) graph.

(** [CopyGraph] copies the first [numVertices] vertices and [numEdges]
    edges; [spansIncrement] and [validPath] of the copy are not written. *)
Definition CopyGraph (g : Graph) : Graph :=
  let nv := numVertices g in
  let ne := numEdges g in
  let gCopy := AllocateGraph nv ne in
  let gCopy :=
    ULONG_for nv (λ v gCopy,
      updV gCopy v (λ _, mkVertex (vlabel (getV g v)) (vedges (getV g v))
                                  (vmap (getV g v)) (vused (getV g v)))) gCopy in
  ULONG_for ne (λ e gCopy,
    updE gCopy e (λ old, mkEdge (vertex1 (getE g e)) (vertex2 (getE g e))
                                (elabel (getE g e)) (directed (getE g e))
                                (eused (getE g e))
                                (spansIncrement old) (validPath old))) gCopy.

(** ** incutil.c: the current increment *)

Definition GetCurrentIncrementNum (parameters : Parameters) : ULONG :=
  match last (incrementList parameters) with
  | None => 0
  | Some inc => incrementNum inc
  end.

Definition GetIncrement (incrementNum : ULONG) (parameters : Parameters)
    : option Increment :=
  last (incrementList parameters).

Definition GetCurrentIncrement (parameters : Parameters) : option Increment :=
  let currentIncrementNum := GetCurrentIncrementNum parameters in
  let increment := GetIncrement currentIncrementNum parameters in
  if currentIncrementNum =? 0 then None else increment.

(** Reading a field through an [Increment *]; the null pointer reads as
    the default record. *)
Definition deref_Increment (inc : option Increment) : Increment :=
  default dummyIncrement inc.

Definition IncrementSize (parameters : Parameters) (incrementNum graphType : ULONG)
    : ULONG :=
  let increment := deref_Increment (GetIncrement incrementNum parameters) in
  if graphType =? POS
  then uadd (numPosVertices increment) (numPosEdges increment)
  else uadd (numNegVertices increment) (numNegEdges increment).

(** ** subops.c: marking instances *)

Definition MarkInstanceVertices (instance : Instance) (graph : Graph) (value : bool)
    : Graph :=
  foldl (λ graph iv, updV graph iv (set_vused value)) graph (ivertices instance).

Definition MarkInstanceEdges (instance : Instance) (graph : Graph) (value : bool)
    : Graph :=
  foldl (λ graph ie, updE graph ie (set_eused value)) graph (iedges instance).

(** ** compress.c *)

(** [realloc] of the edge array by one slot followed by [StoreEdge] into
    the new slot. *)
Definition AppendEdge (overlapEdges : list Edge) (v1 v2 label : ULONG)
    (directed spansIncrement : bool) : list Edge :=
  StoreEdge (overlapEdges ++ [dummyEdge]) (N.of_nat (length overlapEdges))
            v1 v2 label directed spansIncrement.

Definition AddOverlapEdge (overlapEdges : list Edge)
    (sub1VertexIndex sub2VertexIndex overlapLabelIndex : ULONG) : list Edge :=
  let found :=
    existsb (λ e, (vertex1 e =? sub1VertexIndex) && (vertex2 e =? sub2VertexIndex))
            overlapEdges in
  if negb found
  then AppendEdge overlapEdges sub1VertexIndex sub2VertexIndex overlapLabelIndex
                  false false
  else overlapEdges.

Definition AddDuplicateEdges (overlapEdges : list Edge) (edge : Edge) (graph : Graph)
    (sub1VertexIndex sub2VertexIndex : ULONG) : list Edge :=
  if negb (vmap (getV graph (vertex1 edge)) =? sub1VertexIndex) then
    (* duplicate edge from external vertex *)
    let v1 := vmap (getV graph (vertex1 edge)) in
    let v2 := sub2VertexIndex in
    AppendEdge overlapEdges v1 v2 (elabel edge) (directed edge) (spansIncrement edge)
  else if negb (vmap (getV graph (vertex2 edge)) =? sub1VertexIndex) then
    (* duplicate edge to an external vertex *)
    let v1 := sub2VertexIndex in
    let v2 := vmap (getV graph (vertex2 edge)) in
    AppendEdge overlapEdges v1 v2 (elabel edge) (directed edge) (spansIncrement edge)
  else
    (* edge connects Sub1 to another (or same) vertex in Sub1 *)
    let v1 := sub1VertexIndex in
    let v2 := sub2VertexIndex in
    let overlapEdges :=
      AppendEdge overlapEdges v1 v2 (elabel edge) (directed edge)
                 (spansIncrement edge) in
    let overlapEdges :=
      if negb (vused (getV graph (vertex1 edge)))
         || negb (vused (getV graph (vertex2 edge)))
      then AppendEdge overlapEdges v2 v2 (elabel edge) (directed edge)
                      (spansIncrement edge)
      else overlapEdges in
    if vertex1 edge =? vertex2 edge then
      let overlapEdges :=
        AppendEdge overlapEdges v2 v2 (elabel edge) (directed edge)
                   (spansIncrement edge) in
      if directed edge
      then AppendEdge overlapEdges v2 v1 (elabel edge) (directed edge)
                      (spansIncrement edge)
      else overlapEdges
    else overlapEdges.

(** The loops of [AddOverlapEdges], innermost first.  [vertex1 == vertex2]
    compares two pointers into [graph->vertices]: they are equal when
    the indices are. *)

(** [for (e = 0; e < vertex1->numEdges; e++)] *)
Definition AddOverlapEdges_edges (graph : Graph) (iv1 startEdge : ULONG)
    (sub1 sub2 : ULONG) (overlapEdges : list Edge) : list Edge :=
  foldl (λ overlapEdges ei,
           let edge1 := getE graph ei in
           if negb (eused edge1) && (startEdge <=? ei)
           then AddDuplicateEdges overlapEdges edge1 graph sub1 sub2
           else overlapEdges)
        overlapEdges (vedges (getV graph iv1)).

(** [for (v2 = 0; v2 < instance2->numVertices; v2++)] *)
Definition AddOverlapEdges_vertices2 (graph : Graph) (iv1 : ULONG)
    (instance2 : Instance) (instanceNo1 instanceNo2 : ULONG)
    (overlapLabelIndex startVertex startEdge : ULONG)
    (overlapEdges : list Edge) : list Edge :=
  foldl (λ overlapEdges iv2,
           if (iv1 =? iv2) && (startVertex <=? iv1) then
             let overlapEdges :=
               AddOverlapEdge overlapEdges (usub instanceNo1 1) (usub instanceNo2 1)
                              overlapLabelIndex in
             AddOverlapEdges_edges graph iv1 startEdge
                                   (usub instanceNo1 1) (usub instanceNo2 1)
                                   overlapEdges
           else overlapEdges)
        overlapEdges (ivertices instance2).

(** [while (instanceListNode2 != NULL)] *)
Fixpoint AddOverlapEdges_instances2 (graph : Graph) (iv1 : ULONG)
    (rest : list Instance) (instanceNo1 instanceNo2 : ULONG)
    (overlapLabelIndex startVertex startEdge : ULONG)
    (overlapEdges : list Edge) : list Edge :=
  match rest with
  | [] => overlapEdges
  | instance2 :: rest =>
      let overlapEdges :=
        AddOverlapEdges_vertices2 graph iv1 instance2 instanceNo1 instanceNo2
          overlapLabelIndex startVertex startEdge overlapEdges in
      AddOverlapEdges_instances2 graph iv1 rest instanceNo1 (uadd instanceNo2 1)
        overlapLabelIndex startVertex startEdge overlapEdges
  end.

(** [for (v1 = 0; v1 < instance1->numVertices; v1++)] *)
Definition AddOverlapEdges_vertices1 (instance1 : Instance) (rest : list Instance)
    (instanceNo1 : ULONG) (overlapLabelIndex startVertex startEdge : ULONG)
    (st : Graph * list Edge) : Graph * list Edge :=
  foldl (λ '(graph, overlapEdges) iv1,
           if vused (getV graph iv1) then
             let overlapEdges :=
               AddOverlapEdges_instances2 graph iv1 rest instanceNo1
                 (uadd instanceNo1 1) overlapLabelIndex startVertex startEdge
                 overlapEdges in
             (updV graph iv1 (set_vused false), overlapEdges)
           else (graph, overlapEdges))
        st (ivertices instance1).

(** [while (instanceListNode1 != NULL)] *)
Fixpoint AddOverlapEdges_instances1 (insts : list Instance) (instanceNo1 : ULONG)
    (overlapLabelIndex startVertex startEdge : ULONG)
    (st : Graph * list Edge) : Graph * list Edge :=
  match insts with
  | [] => st
  | instance1 :: rest =>
      let st :=
        AddOverlapEdges_vertices1 instance1 rest instanceNo1 overlapLabelIndex
          startVertex startEdge st in
      AddOverlapEdges_instances1 rest (uadd instanceNo1 1) overlapLabelIndex
        startVertex startEdge st
  end.

(** Returns the compressed graph and the graph being compressed. *)
Definition AddOverlapEdges (compressedGraph graph : Graph)
    (instanceList : InstanceList) (overlapLabelIndex startVertex startEdge : ULONG)
    : Graph * Graph :=
  let '(graph, overlapEdges) :=
    AddOverlapEdges_instances1 instanceList 1 overlapLabelIndex startVertex
      startEdge (graph, []) in
  let numOverlapEdges := N.of_nat (length overlapEdges) in
  if 0 <? numOverlapEdges then
    let totalEdges := uadd (numEdges compressedGraph) numOverlapEdges in
    let compressedGraph :=
      set_edges (resize (N.to_nat totalEdges) dummyEdge (edges compressedGraph))
                compressedGraph in
    let edgeIndex := numEdges compressedGraph in
    let '(compressedGraph, edgeIndex) :=
      foldl (λ '(compressedGraph, edgeIndex) oe,
               let compressedGraph :=
                 set_edges (StoreEdge (edges compressedGraph) edgeIndex
                              (vertex1 oe) (vertex2 oe) (elabel oe) (directed oe)
                              (spansIncrement oe)) compressedGraph in
               (AddEdgeToVertices compressedGraph edgeIndex, uadd edgeIndex 1))
            (compressedGraph, edgeIndex) overlapEdges in
    (set_numEdges (uadd (numEdges compressedGraph) numOverlapEdges) compressedGraph,
     graph)
  else (compressedGraph, graph).

(** Returns the updated [g1] (its [map] fields are written) and [g2]. *)
Definition CopyUnmarkedGraph (g1 g2 : Graph) (vertexIndex : ULONG)
    (parameters : Parameters) : Graph * Graph :=
  if incremental parameters then
    let increment := deref_Increment (GetCurrentIncrement parameters) in
    let vertexOffset := startPosVertexIndex increment in
    (* Copy the newly compressed increment vertices to the new graph *)
    let '(g1, g2, vertexIndex) :=
      ULONG_for (numPosVertices increment)
        (λ v '(g1, g2, vertexIndex),
           if negb (vused (getV g1 (uadd vertexOffset v))) then
             let g2 :=
               updV g2 vertexIndex
                    (λ _, mkVertex (vlabel (getV g1 (uadd vertexOffset v))) []
                                   VERTEX_UNMAPPED false) in
             let g1 := updV g1 (uadd vertexOffset v) (set_vmap vertexIndex) in
             (g1, g2, uadd vertexIndex 1)
           else (g1, g2, vertexIndex))
        (g1, g2, vertexIndex) in
    (* Copy the newly compressed increment edges to the new graph *)
    let edgeOffset := startPosEdgeIndex increment in
    let '(g2, edgeIndex) :=
      ULONG_for (numPosEdges increment)
        (λ e '(g2, edgeIndex),
           let ed := getE g1 (uadd edgeOffset e) in
           if negb (eused ed) then
             if spansIncrement ed then
               (set_numEdges (usub (numEdges g2) 1) g2, edgeIndex)
             else
               let v1 := vmap (getV g1 (vertex1 ed)) in
               let v2 := vmap (getV g1 (vertex2 ed)) in
               let g2 :=
                 set_edges (StoreEdge (edges g2) edgeIndex v1 v2 (elabel ed)
                                      (directed ed) (spansIncrement ed)) g2 in
               (AddEdgeToVertices g2 edgeIndex, uadd edgeIndex 1)
           else (g2, edgeIndex))
        (g2, 0) in
    (g1, g2)
  else
    (* copy unused vertices from g1 to g2 *)
    let '(g1, g2, vertexIndex) :=
      ULONG_for (numVertices g1)
        (λ v '(g1, g2, vertexIndex),
           if negb (vused (getV g1 v)) then
             let g2 :=
               updV g2 vertexIndex
                    (λ _, mkVertex (vlabel (getV g1 v)) [] VERTEX_UNMAPPED false) in
             let g1 := updV g1 v (set_vmap vertexIndex) in
             (g1, g2, uadd vertexIndex 1)
           else (g1, g2, vertexIndex))
        (g1, g2, vertexIndex) in
    (* copy unused edges from g1 to g2 *)
    let '(g2, edgeIndex) :=
      ULONG_for (numEdges g1)
        (λ e '(g2, edgeIndex),
           let ed := getE g1 e in
           if negb (eused ed) then
             let v1 := vmap (getV g1 (vertex1 ed)) in
             let v2 := vmap (getV g1 (vertex2 ed)) in
             let g2 :=
               set_edges (StoreEdge (edges g2) edgeIndex v1 v2 (elabel ed)
                                    (directed ed) (spansIncrement ed)) g2 in
             (AddEdgeToVertices g2 edgeIndex, uadd edgeIndex 1)
           else (g2, edgeIndex))
        (g2, 0) in
    (g1, g2).

(** The counting loops of [CompressGraph]. *)

(** [for (v = 0; v < instance->numVertices; v++)]: add in unique vertices *)
Definition CompressGraph_markVertices (inc : bool) (startVertex instanceNo : ULONG)
    (instance : Instance) (st : Graph * ULONG) : Graph * ULONG :=
  foldl (λ '(graph, numInstanceVertices) iv,
           if negb (vused (getV graph iv)) && (negb inc || (startVertex <=? iv))
           then
             (* assign vertex to first instance it occurs in *)
             (updV graph iv (λ vx, set_vmap (usub instanceNo 1) (set_vused true vx)),
              uadd numInstanceVertices 1)
           else (graph, numInstanceVertices))
        st (ivertices instance).

(** [for (e = 0; e < instance->numEdges; e++)]: add in unique edges *)
Definition CompressGraph_markEdges (inc : bool) (startEdge : ULONG)
    (instance : Instance) (st : Graph * ULONG) : Graph * ULONG :=
  foldl (λ '(graph, numInstanceEdges) ie,
           if negb (eused (getE graph ie)) && (negb inc || (startEdge <=? ie))
           then (updE graph ie (set_eused true), uadd numInstanceEdges 1)
           else (graph, numInstanceEdges))
        st (iedges instance).

(** [while (instanceListNode != NULL)]; the state is the graph,
    [numInstanceVertices], [numInstanceEdges] and [instanceNo]. *)
Definition CompressGraph_mark (inc : bool) (startVertex startEdge : ULONG)
    (instanceList : InstanceList) (st : Graph * ULONG * ULONG * ULONG)
    : Graph * ULONG * ULONG * ULONG :=
  foldl (λ '(graph, numInstanceVertices, numInstanceEdges, instanceNo) instance,
           let '(graph, numInstanceVertices) :=
             CompressGraph_markVertices inc startVertex instanceNo instance
               (graph, numInstanceVertices) in
           let '(graph, numInstanceEdges) :=
             CompressGraph_markEdges inc startEdge instance
               (graph, numInstanceEdges) in
           (graph, numInstanceVertices, numInstanceEdges, uadd instanceNo 1))
        st instanceList.

(** reset used flag of instances' vertices and edges *)
Definition UnmarkInstances (instanceList : InstanceList) (graph : Graph) : Graph :=
  foldl (λ graph instance,
           MarkInstanceEdges instance (MarkInstanceVertices instance graph false) false)
        graph instanceList.

(** Returns the compressed graph and the graph being compressed, whose
    [map] fields have been written. *)
Definition CompressGraph (graph : Graph) (instanceList : InstanceList)
    (parameters : Parameters) : Graph * Graph :=
  let allowInstanceOverlap := allowInstanceOverlap parameters in
  let subLabelIndex := numLabels (labelList parameters) in
  let overlapLabelIndex := uadd (numLabels (labelList parameters)) 1 in
  let increment := deref_Increment (GetCurrentIncrement parameters) in
  let startVertex :=
    if incremental parameters then startPosVertexIndex increment else 0 in
  let startEdge :=
    if incremental parameters then startPosEdgeIndex increment else 0 in
  (* mark and count unique vertices and edges in graph from instances *)
  let '(graph, numInstanceVertices, numInstanceEdges, instanceNo) :=
    CompressGraph_mark (incremental parameters) startVertex startEdge instanceList
      (graph, 0, 0, 1) in
  let numInstances := usub instanceNo 1 in
  (* allocate new graph with appropriate number of vertices and edges *)
  let nv :=
    if incremental parameters
    then uadd (usub (numPosVertices increment) numInstanceVertices) numInstances
    else uadd (usub (numVertices graph) numInstanceVertices) numInstances in
  let ne :=
    if incremental parameters
    then usub (numPosEdges increment) numInstanceEdges
    else usub (numEdges graph) numInstanceEdges in
  let compressedGraph := AllocateGraph nv ne in
  (* insert SUB vertices for each instance *)
  let '(compressedGraph, vertexIndex) :=
    ULONG_for numInstances
      (λ v '(compressedGraph, vertexIndex),
         (updV compressedGraph vertexIndex
               (λ _, mkVertex subLabelIndex [] VERTEX_UNMAPPED false),
          uadd vertexIndex 1))
      (compressedGraph, 0) in
  (* insert vertices and edges from non-compressed part of graph *)
  let '(graph, compressedGraph) :=
    CopyUnmarkedGraph graph compressedGraph vertexIndex parameters in
  (* add edges describing overlap, if appropriate *)
  let '(compressedGraph, graph) :=
    if allowInstanceOverlap
    then AddOverlapEdges compressedGraph graph instanceList overlapLabelIndex
                         startVertex startEdge
    else (compressedGraph, graph) in
  (* reset used flag of instances' vertices and edges *)
  let graph := UnmarkInstances instanceList graph in
  (compressedGraph, graph).

(** ** evaluate.c: graph size *)

Definition GraphSize (graph : Graph) : ULONG :=
  uadd (numVertices graph) (numEdges graph).

(** ** compress.c: size of the compressed graph *)

(** The loops of [NumOverlapEdges], innermost first. *)

Definition NumOverlapEdges_edges (graph : Graph) (iv1 : ULONG)
    (sub1 sub2 : ULONG) (overlapEdges : list Edge) : list Edge :=
  foldl (λ overlapEdges ei,
           let edge1 := getE graph ei in
           if negb (eused edge1)
           then AddDuplicateEdges overlapEdges edge1 graph sub1 sub2
           else overlapEdges)
        overlapEdges (vedges (getV graph iv1)).

Definition NumOverlapEdges_vertices2 (graph : Graph) (iv1 : ULONG)
    (instance2 : Instance) (instanceNo1 instanceNo2 overlapLabelIndex : ULONG)
    (overlapEdges : list Edge) : list Edge :=
  foldl (λ overlapEdges iv2,
           if iv1 =? iv2 then
             let overlapEdges :=
               AddOverlapEdge overlapEdges (usub instanceNo1 1) (usub instanceNo2 1)
                              overlapLabelIndex in
             NumOverlapEdges_edges graph iv1 (usub instanceNo1 1)
                                   (usub instanceNo2 1) overlapEdges
           else overlapEdges)
        overlapEdges (ivertices instance2).

Fixpoint NumOverlapEdges_instances2 (graph : Graph) (iv1 : ULONG)
    (rest : list Instance) (instanceNo1 instanceNo2 overlapLabelIndex : ULONG)
    (overlapEdges : list Edge) : list Edge :=
  match rest with
  | [] => overlapEdges
  | instance2 :: rest =>
      let overlapEdges :=
        NumOverlapEdges_vertices2 graph iv1 instance2 instanceNo1 instanceNo2
          overlapLabelIndex overlapEdges in
      NumOverlapEdges_instances2 graph iv1 rest instanceNo1 (uadd instanceNo2 1)
        overlapLabelIndex overlapEdges
  end.

Definition NumOverlapEdges_vertices1 (instance1 : Instance) (rest : list Instance)
    (instanceNo1 overlapLabelIndex : ULONG)
    (st : Graph * list Edge) : Graph * list Edge :=
  foldl (λ '(graph, overlapEdges) iv1,
           if vused (getV graph iv1) then
             let overlapEdges :=
               NumOverlapEdges_instances2 graph iv1 rest instanceNo1
                 (uadd instanceNo1 1) overlapLabelIndex overlapEdges in
             (updV graph iv1 (set_vused false), overlapEdges)
           else (graph, overlapEdges))
        st (ivertices instance1).

Fixpoint NumOverlapEdges_instances1 (insts : list Instance)
    (instanceNo1 overlapLabelIndex : ULONG)
    (st : Graph * list Edge) : Graph * list Edge :=
  match insts with
  | [] => st
  | instance1 :: rest =>
      let st :=
        NumOverlapEdges_vertices1 instance1 rest instanceNo1 overlapLabelIndex st in
      NumOverlapEdges_instances1 rest (uadd instanceNo1 1) overlapLabelIndex st
  end.

(** Returns the number of edges and the graph, whose instance vertices
    have been unmarked. *)
Definition NumOverlapEdges (graph : Graph) (instanceList : InstanceList)
    : ULONG * Graph :=
  let overlapLabelIndex := 0 in
  let '(graph, overlapEdges) :=
    NumOverlapEdges_instances1 instanceList 1 overlapLabelIndex (graph, []) in
  (N.of_nat (length overlapEdges), graph).

(** [for (v ...)]: subtract unique vertices *)
Definition SizeOfCompressedGraph_vertices (instance : Instance)
    (st : ULONG * Graph) : ULONG * Graph :=
  foldl (λ '(size, graph) iv,
           if negb (vused (getV graph iv))
           then (usub size 1, updV graph iv (set_vused true))
           else (size, graph))
        st (ivertices instance).

(** [for (e ...)]: subtract unique edges *)
Definition SizeOfCompressedGraph_edges (instance : Instance)
    (st : ULONG * Graph) : ULONG * Graph :=
  foldl (λ '(size, graph) ie,
           if negb (eused (getE graph ie))
           then (usub size 1, updE graph ie (set_eused true))
           else (size, graph))
        st (iedges instance).

Definition SizeOfCompressedGraph (graph : Graph) (instanceList : option InstanceList)
    (parameters : Parameters) (graphType : ULONG) : ULONG * Graph :=
  let allowInstanceOverlap := allowInstanceOverlap parameters in
  let size :=
    if incremental parameters
    then IncrementSize parameters (GetCurrentIncrementNum parameters) graphType
    else GraphSize graph in
  match instanceList with
  | None => (size, graph)
  | Some instanceList =>
      if allowInstanceOverlap then
        (* reduce size by amount of unique structure, which is marked *)
        let '(size, graph) :=
          foldl (λ '(size, graph) instance,
                   let size := uadd size 1 in
                   SizeOfCompressedGraph_edges instance
                     (SizeOfCompressedGraph_vertices instance (size, graph)))
                (size, graph) instanceList in
        (* increase size by number of overlap edges *)
        let '(n, graph) := NumOverlapEdges graph instanceList in
        let size := uadd size n in
        (* reset used flag of instances' vertices and edges *)
        (size, UnmarkInstances instanceList graph)
      else
        (* no overlap, so just subtract size of instances *)
        (foldl (λ size instance,
                  usub (uadd size 1)
                       (uadd (inumVertices instance) (inumEdges instance)))
               size instanceList,
         graph)
  end.

(** ** subops.c: overlapping instances *)

(** [while ((j < nv2) && (instance2->vertices[j] < v1)) j++]: the part of
    the array of [instance2] from [j] on. *)
Fixpoint InstanceOverlap_skip (v1 : ULONG) (vs2 : list ULONG) : list ULONG :=
  match vs2 with
  | [] => []
  | x :: rest => if x <? v1 then InstanceOverlap_skip v1 rest else vs2
  end.

(** [while ((i < nv1) && (j < nv2) && (! overlap))]; [vs1] and [vs2] are
    the parts of the two arrays from [i] and from [j] on. *)
Fixpoint InstanceOverlap_loop (vs1 vs2 : list ULONG) : bool :=
  match vs1, vs2 with
  | [], _ => false
  | _, [] => false
  | v1 :: rest1, _ =>
      match InstanceOverlap_skip v1 vs2 with
      | [] => InstanceOverlap_loop rest1 []
      | x :: rest2 =>
          if v1 =? x then true else InstanceOverlap_loop rest1 (x :: rest2)
      end
  end.

Definition InstanceOverlap (instance1 instance2 : Instance) : bool :=
  InstanceOverlap_loop (ivertices instance1) (ivertices instance2).

(** A null list has no overlap; the nodes of a list hold instances. *)
Definition InstanceListOverlap (instance : Instance)
    (instanceList : option InstanceList) : bool :=
  match instanceList with
  | None => false
  | Some l => existsb (InstanceOverlap instance) l
  end.

Fixpoint InstancesOverlap_loop (l : list Instance) : bool :=
  match l with
  | [] => false
  | instance1 :: rest =>
      existsb (InstanceOverlap instance1) rest || InstancesOverlap_loop rest
  end.

Definition InstancesOverlap (instanceList : option InstanceList) : bool :=
  match instanceList with
  | None => false
  | Some l => InstancesOverlap_loop l
  end.

(** ** evaluate.c *)

Definition LOG_2 : double := ln 2.

Definition Log2 (number : ULONG) : double :=
  if number <=? 0 then 0%R else (ln (double_of_ULONG number) / LOG_2)%R.

Definition set_log2Factorial (t : list double) (p : Parameters) : Parameters :=
  {| posGraph := posGraph p; negGraph := negGraph p;
     posGraphDL := posGraphDL p; negGraphDL := negGraphDL p;
     numPosEgs := numPosEgs p; numNegEgs := numNegEgs p;
     posEgsVertexIndices := posEgsVertexIndices p;
     negEgsVertexIndices := negEgsVertexIndices p;
     labelList := labelList p; beamWidth := beamWidth p; limit := limit p;
     maxVertices := maxVertices p; minVertices := minVertices p;
     numBestSubs := numBestSubs p; valueBased := valueBased p;
     prune := prune p; outputLevel := outputLevel p;
     allowInstanceOverlap := allowInstanceOverlap p;
     evalMethod := evalMethod p; threshold := threshold p;
     log2Factorial := t; recursion := recursion p;
     incremental := incremental p; incrementList := incrementList p |}.

Definition set_posGraph (g : Graph) (p : Parameters) : Parameters :=
  {| posGraph := g; negGraph := negGraph p;
     posGraphDL := posGraphDL p; negGraphDL := negGraphDL p;
     numPosEgs := numPosEgs p; numNegEgs := numNegEgs p;
     posEgsVertexIndices := posEgsVertexIndices p;
     negEgsVertexIndices := negEgsVertexIndices p;
     labelList := labelList p; beamWidth := beamWidth p; limit := limit p;
     maxVertices := maxVertices p; minVertices := minVertices p;
     numBestSubs := numBestSubs p; valueBased := valueBased p;
     prune := prune p; outputLevel := outputLevel p;
     allowInstanceOverlap := allowInstanceOverlap p;
     evalMethod := evalMethod p; threshold := threshold p;
     log2Factorial := log2Factorial p; recursion := recursion p;
     incremental := incremental p; incrementList := incrementList p |}.

Definition set_negGraph (g : option Graph) (p : Parameters) : Parameters :=
  {| posGraph := posGraph p; negGraph := g;
     posGraphDL := posGraphDL p; negGraphDL := negGraphDL p;
     numPosEgs := numPosEgs p; numNegEgs := numNegEgs p;
     posEgsVertexIndices := posEgsVertexIndices p;
     negEgsVertexIndices := negEgsVertexIndices p;
     labelList := labelList p; beamWidth := beamWidth p; limit := limit p;
     maxVertices := maxVertices p; minVertices := minVertices p;
     numBestSubs := numBestSubs p; valueBased := valueBased p;
     prune := prune p; outputLevel := outputLevel p;
     allowInstanceOverlap := allowInstanceOverlap p;
     evalMethod := evalMethod p; threshold := threshold p;
     log2Factorial := log2Factorial p; recursion := recursion p;
     incremental := incremental p; incrementList := incrementList p |}.

Definition set_labelList (l : LabelList) (p : Parameters) : Parameters :=
  {| posGraph := posGraph p; negGraph := negGraph p;
     posGraphDL := posGraphDL p; negGraphDL := negGraphDL p;
     numPosEgs := numPosEgs p; numNegEgs := numNegEgs p;
     posEgsVertexIndices := posEgsVertexIndices p;
     negEgsVertexIndices := negEgsVertexIndices p;
     labelList := l; beamWidth := beamWidth p; limit := limit p;
     maxVertices := maxVertices p; minVertices := minVertices p;
     numBestSubs := numBestSubs p; valueBased := valueBased p;
     prune := prune p; outputLevel := outputLevel p;
     allowInstanceOverlap := allowInstanceOverlap p;
     evalMethod := evalMethod p; threshold := threshold p;
     log2Factorial := log2Factorial p; recursion := recursion p;
     incremental := incremental p; incrementList := incrementList p |}.

(** [for (i = lo; i < hi; i++) body] threading a state. *)
Definition ULONG_for_from {S : Type} (lo hi : ULONG) (body : ULONG → S → S) (s : S) : S :=
  foldl (λ st i, body (N.of_nat i) st) s (seq (N.to_nat lo) (N.to_nat hi - N.to_nat lo)).

(** [Log2Factorial] returns the value and the parameters, whose cache
    may have grown.  The slots added by [realloc] hold [0] until they
    are written. *)
Definition Log2Factorial (number : ULONG) (parameters : Parameters)
    : double * Parameters :=
  let log2FactorialSize := N.of_nat (length (log2Factorial parameters)) in
  if log2FactorialSize <=? number then
    (* add enough room to array to encompass desired value and then some *)
    let newSize := uadd number LIST_SIZE_INC in
    let table := resize (N.to_nat newSize) 0%R (log2Factorial parameters) in
    (* compute new values *)
    let table :=
      ULONG_for_from log2FactorialSize newSize
        (λ i table,
           <[N.to_nat i := (Log2 i + table !!! N.to_nat (usub i 1))%R]> table)
        table in
    (table !!! N.to_nat number, set_log2Factorial table parameters)
  else (log2Factorial parameters !!! N.to_nat number, parameters).

(** The other endpoint of an edge of [v1]. *)
Definition otherVertex (edge : Edge) (v1 : ULONG) : ULONG :=
  if vertex1 edge =? v1 then vertex2 edge else vertex1 edge.

(** [for (e = 0; e < graph->vertices[v1].numEdges; e++)]: look through
    all edges of vertex v1 *)
Definition NumUniqueEdges_count (v1 : ULONG) (es : list ULONG)
    (st : Graph * ULONG) : Graph * ULONG :=
  foldl (λ '(graph, numUniqueEdges) ei,
           let edge := getE graph ei in
           let v2 := otherVertex edge v1 in
           (* check if edge connected to unique vertex *)
           if (directed edge && (vertex1 edge =? v1))
              || (negb (directed edge) && (v1 <=? v2))
           then
             if negb (vused (getV graph v2))
             then (updV graph v2 (set_vused true), uadd numUniqueEdges 1)
             else (graph, numUniqueEdges)
           else (graph, numUniqueEdges))
        st es.

(** [for (e = 0; e < graph->vertices[v1].numEdges; e++)]: reset vertex
    used flags *)
Definition NumUniqueEdges_reset (es : list ULONG) (graph : Graph) : Graph :=
  foldl (λ graph ei,
           let edge := getE graph ei in
           updV (updV graph (vertex1 edge) (set_vused false))
                (vertex2 edge) (set_vused false))
        graph es.

(** Returns the count and the graph, whose [used] flags were set and
    reset. *)
Definition NumUniqueEdges (graph : Graph) (v1 : ULONG) : ULONG * Graph :=
  let '(graph, numUniqueEdges) :=
    NumUniqueEdges_count v1 (vedges (getV graph v1)) (graph, 0) in
  let graph := NumUniqueEdges_reset (vedges (getV graph v1)) graph in
  (numUniqueEdges, graph).

(** [for (j = i + 1; j < numEdges; j++)]: count how many edges to v2;
    [rest] holds the entries of [v1]'s edge array after [i]. *)
Definition MaxEdgesToSingleVertex_count (graph : Graph) (v1 v2 : ULONG)
    (edge1 : Edge) (rest : list ULONG) (numEdgesToVertex2 : ULONG) : ULONG :=
  foldl (λ numEdgesToVertex2 ej,
           let edge2 := getE graph ej in
           let v2j := otherVertex edge2 v1 in
           if v2j =? v2 then
             if (directed edge2 && (vertex1 edge2 =? v1))
                || (negb (directed edge1) && (v1 <=? v2j))
             then uadd numEdgesToVertex2 1
             else numEdgesToVertex2
           else numEdgesToVertex2)
        numEdgesToVertex2 rest.

(** [for (i = 0; i < numEdges; i++)]; [es] holds the entries of [v1]'s
    edge array from [i] on. *)
Fixpoint MaxEdgesToSingleVertex_loop (graph : Graph) (v1 : ULONG)
    (es : list ULONG) (maxEdges : ULONG) : ULONG :=
  match es with
  | [] => maxEdges
  | ei :: rest =>
      let edge1 := getE graph ei in
      (* get other vertex *)
      let v2 := otherVertex edge1 v1 in
      let maxEdges :=
        if (directed edge1 && (vertex1 edge1 =? v1))
           || (negb (directed edge1) && (v1 <=? v2))
        then
          let numEdgesToVertex2 :=
            MaxEdgesToSingleVertex_count graph v1 v2 edge1 rest 1 in
          if maxEdges <? numEdgesToVertex2 then numEdgesToVertex2 else maxEdges
        else maxEdges in
      MaxEdgesToSingleVertex_loop graph v1 rest maxEdges
  end.

Definition MaxEdgesToSingleVertex (graph : Graph) (v1 : ULONG) : ULONG :=
  MaxEdgesToSingleVertex_loop graph v1 (vedges (getV graph v1)) 0.

(** The state of the loop of [MDL] over the vertices. *)
Record MDL_state : Type := mkMDL_state {
  mdl_graph : Graph;
  mdl_parameters : Parameters;
  mdl_rowBits : double;
  mdl_B : ULONG;
  mdl_K : ULONG;
  mdl_M : ULONG
}.

Definition MDL_body (V : ULONG) (v1 : ULONG) (st : MDL_state) : MDL_state :=
  let '(ki, graph) := NumUniqueEdges (mdl_graph st) v1 in
  let '(lf1, parameters) := Log2Factorial ki (mdl_parameters st) in
  let '(lf2, parameters) := Log2Factorial (usub V ki) parameters in
  let rowBits := (mdl_rowBits st - (lf1 + lf2))%R in
  let B := if mdl_B st <? ki then ki else mdl_B st in
  let K := uadd (mdl_K st) ki in
  let tmpM := MaxEdgesToSingleVertex graph v1 in
  let M := if mdl_M st <? tmpM then tmpM else mdl_M st in
  mkMDL_state graph parameters rowBits B K M.

(** Returns the description length, the graph (its [used] flags were
    set and reset) and the parameters (the cache may have grown). *)
Definition MDL (graph : Graph) (numLabels : ULONG) (parameters : Parameters)
    : double * Graph * Parameters :=
  let V := numVertices graph in
  let E := numEdges graph in
  let L := numLabels in
  let vertexBits := (Log2 V + double_of_ULONG V * Log2 L)%R in
  let '(lfV, parameters) := Log2Factorial V parameters in
  let rowBits := (double_of_ULONG V * lfV)%R in
  let edgeBits := (double_of_ULONG E * (1 + Log2 L))%R in
  let st :=
    ULONG_for V (MDL_body V) (mkMDL_state graph parameters rowBits 0 0 0) in
  let rowBits :=
    (mdl_rowBits st
     + double_of_ULONG (uadd V 1) * Log2 (uadd (mdl_B st) 1))%R in
  let edgeBits :=
    (edgeBits + double_of_ULONG (uadd (mdl_K st) 1) * Log2 (mdl_M st))%R in
  let totalBits := (vertexBits + rowBits + edgeBits)%R in
  (totalBits, mdl_graph st, mdl_parameters st).

Definition ExternalEdgeBits (compressedGraph subGraph : Graph)
    (numInstances : ULONG) : double :=
  let log2SubVertices := Log2 (numVertices subGraph) in
  (* add bits for each edge connected to "SUB" vertex *)
  ULONG_for numInstances
    (λ v edgeBits,
       foldl (λ edgeBits ei,
                let edge := getE compressedGraph ei in
                let edgeBits := (edgeBits + log2SubVertices)%R in
                if vertex1 edge =? vertex2 edge (* self-edge *)
                then (edgeBits + log2SubVertices)%R
                else edgeBits)
             edgeBits (vedges (getV compressedGraph v)))
    0%R.

(** [while ((instanceListNode != NULL) && (! found))]: returns
    [numEgsCovered]. *)
Fixpoint ExamplesCovered_scan (l : list Instance)
    (egStartVertexIndex egEndVertexIndex numEgsCovered : ULONG) : ULONG :=
  match l with
  | [] => numEgsCovered
  | instance :: rest =>
      (* can check any instance vertex, so use the first *)
      let instanceVertexIndex := ivertices instance !!! 0%nat in
      if (egStartVertexIndex <=? instanceVertexIndex)
         && (instanceVertexIndex <=? egEndVertexIndex)
      then uadd numEgsCovered 1 (* found an instance covering this example *)
      else ExamplesCovered_scan rest egStartVertexIndex egEndVertexIndex
                                numEgsCovered
  end.

Definition ExamplesCovered (instanceList : option InstanceList) (graph : Graph)
    (numEgs : ULONG) (egsVertexIndices : list ULONG) (start : ULONG) : ULONG :=
  match instanceList with
  | None => 0
  | Some l =>
      (* for each example, look for a covering instance *)
      ULONG_for numEgs
        (λ i numEgsCovered,
           (* find example's starting and ending vertex indices *)
           let egStartVertexIndex := egsVertexIndices !!! N.to_nat i in
           if start <=? egStartVertexIndex then
             let egEndVertexIndex :=
               if i <? usub numEgs 1
               then usub (egsVertexIndices !!! N.to_nat (uadd i 1)) 1
               else usub (numVertices graph) 1 in
             ExamplesCovered_scan l egStartVertexIndex egEndVertexIndex
                                  numEgsCovered
           else numEgsCovered)
        0
  end.

Definition PosExamplesCovered (sub : Substructure) (parameters : Parameters) : ULONG :=
  let start :=
    if incremental parameters
    then startPosVertexIndex (deref_Increment (GetCurrentIncrement parameters))
    else 0 in
  ExamplesCovered (instances sub) (posGraph parameters) (numPosEgs parameters)
                  (posEgsVertexIndices parameters) start.

(** Reading through [parameters->negGraph]; the null pointer reads as
    the empty graph. *)
Definition deref_Graph (g : option Graph) : Graph :=
  default (mkGraph 0 0 [] []) g.

Definition NegExamplesCovered (sub : Substructure) (parameters : Parameters) : ULONG :=
  let start :=
    if incremental parameters
    then startNegVertexIndex (deref_Increment (GetCurrentIncrement parameters))
    else 0 in
  ExamplesCovered (negInstances sub) (deref_Graph (negGraph parameters))
                  (numNegEgs parameters) (negEgsVertexIndices parameters) start.

(** [(ULONG) d] for a non-negative [double]. *)
Definition ULONG_of_double (d : double) : ULONG :=
  Z.to_N (Int_part d) mod ULONG_MODULUS.

Definition IncrementNumExamples (parameters : Parameters)
    (incrementNum graphType : ULONG) : ULONG :=
  let increment := deref_Increment (GetIncrement incrementNum parameters) in
  if graphType =? POS
  then ULONG_of_double (inc_numPosEgs increment)
  else ULONG_of_double (inc_numNegEgs increment).

Definition set_definition (g : Graph) (s : Substructure) : Substructure :=
  mkSubstructure g (numInstances s) (numExamples s) (instances s)
    (numNegInstances s) (numNegExamples s) (negInstances s) (value s)
    (recursive s) (recursiveEdgeLabel s) (posIncrementValue s)
    (negIncrementValue s).
Definition set_numInstances (n : ULONG) (s : Substructure) : Substructure :=
  mkSubstructure (definition s) n (numExamples s) (instances s)
    (numNegInstances s) (numNegExamples s) (negInstances s) (value s)
    (recursive s) (recursiveEdgeLabel s) (posIncrementValue s)
    (negIncrementValue s).
Definition set_numExamples (n : ULONG) (s : Substructure) : Substructure :=
  mkSubstructure (definition s) (numInstances s) n (instances s)
    (numNegInstances s) (numNegExamples s) (negInstances s) (value s)
    (recursive s) (recursiveEdgeLabel s) (posIncrementValue s)
    (negIncrementValue s).
Definition set_instances (l : option InstanceList) (s : Substructure) : Substructure :=
  mkSubstructure (definition s) (numInstances s) (numExamples s) l
    (numNegInstances s) (numNegExamples s) (negInstances s) (value s)
    (recursive s) (recursiveEdgeLabel s) (posIncrementValue s)
    (negIncrementValue s).
Definition set_numNegInstances (n : ULONG) (s : Substructure) : Substructure :=
  mkSubstructure (definition s) (numInstances s) (numExamples s) (instances s)
    n (numNegExamples s) (negInstances s) (value s)
    (recursive s) (recursiveEdgeLabel s) (posIncrementValue s)
    (negIncrementValue s).
Definition set_numNegExamples (n : ULONG) (s : Substructure) : Substructure :=
  mkSubstructure (definition s) (numInstances s) (numExamples s) (instances s)
    (numNegInstances s) n (negInstances s) (value s)
    (recursive s) (recursiveEdgeLabel s) (posIncrementValue s)
    (negIncrementValue s).
Definition set_negInstances (l : option InstanceList) (s : Substructure) : Substructure :=
  mkSubstructure (definition s) (numInstances s) (numExamples s) (instances s)
    (numNegInstances s) (numNegExamples s) l (value s)
    (recursive s) (recursiveEdgeLabel s) (posIncrementValue s)
    (negIncrementValue s).
Definition set_value (x : double) (s : Substructure) : Substructure :=
  mkSubstructure (definition s) (numInstances s) (numExamples s) (instances s)
    (numNegInstances s) (numNegExamples s) (negInstances s) x
    (recursive s) (recursiveEdgeLabel s) (posIncrementValue s)
    (negIncrementValue s).
Definition set_posIncrementValue (x : double) (s : Substructure) : Substructure :=
  mkSubstructure (definition s) (numInstances s) (numExamples s) (instances s)
    (numNegInstances s) (numNegExamples s) (negInstances s) (value s)
    (recursive s) (recursiveEdgeLabel s) x (negIncrementValue s).
Definition set_negIncrementValue (x : double) (s : Substructure) : Substructure :=
  mkSubstructure (definition s) (numInstances s) (numExamples s) (instances s)
    (numNegInstances s) (numNegExamples s) (negInstances s) (value s)
    (recursive s) (recursiveEdgeLabel s) (posIncrementValue s) x.

(** Reading through an [InstanceList *]; the null pointer reads as the
    empty list. *)
Definition deref_InstanceList (l : option InstanceList) : InstanceList :=
  default [] l.

(** The three branches of the [switch] of [EvaluateSub] return the
    value, the substructure and the parameters. *)

Definition EvaluateSub_MDL (sub : Substructure) (parameters : Parameters)
    : double * Substructure * Parameters :=
  let negGraphPresent := negGraph parameters in
  let posGraphDL := posGraphDL parameters in
  let negGraphDL := negGraphDL parameters in
  let allowInstanceOverlap := allowInstanceOverlap parameters in
  let numLabels := numLabels (labelList parameters) in
  let '(sizeOfSub, definition', parameters) :=
    MDL (definition sub) numLabels parameters in
  let sub := set_definition definition' sub in
  let sizeOfPosGraph := posGraphDL in (* cached at beginning *)
  let '(compressedGraph, posGraph') :=
    CompressGraph (posGraph parameters) (deref_InstanceList (instances sub))
                  parameters in
  let parameters := set_posGraph posGraph' parameters in
  let numLabels := uadd numLabels 1 in (* add one for new "SUB" vertex label *)
  let numLabels :=
    if allowInstanceOverlap
       && (InstancesOverlap (instances sub) || InstancesOverlap (negInstances sub))
    then uadd numLabels 1 (* add one for new "OVERLAP" edge label *)
    else numLabels in
  let '(sizeOfCompressedPosGraph, compressedGraph, parameters) :=
    MDL compressedGraph numLabels parameters in
  (* add extra bits to describe where external edges connect to instances *)
  let sizeOfCompressedPosGraph :=
    (sizeOfCompressedPosGraph
     + ExternalEdgeBits compressedGraph (definition sub) (numInstances sub))%R in
  let subValue := (sizeOfPosGraph / (sizeOfSub + sizeOfCompressedPosGraph))%R in
  match negGraphPresent with
  | Some _ =>
      let sizeOfNegGraph := negGraphDL in (* cached at beginning *)
      let '(compressedGraph, negGraph') :=
        CompressGraph (deref_Graph (negGraph parameters))
                      (deref_InstanceList (negInstances sub)) parameters in
      let parameters := set_negGraph (Some negGraph') parameters in
      let '(sizeOfCompressedNegGraph, compressedGraph, parameters) :=
        MDL compressedGraph numLabels parameters in
      let sizeOfCompressedNegGraph :=
        (sizeOfCompressedNegGraph
         + ExternalEdgeBits compressedGraph (definition sub)
                            (numNegInstances sub))%R in
      let subValue :=
        ((sizeOfPosGraph + sizeOfNegGraph)
         / (sizeOfSub + sizeOfCompressedPosGraph + sizeOfNegGraph
            - sizeOfCompressedNegGraph))%R in
      (subValue, sub, parameters)
  | None => (subValue, sub, parameters)
  end.

Definition EvaluateSub_SIZE (sub : Substructure) (parameters : Parameters)
    : double * Substructure * Parameters :=
  let sizeOfSub := double_of_ULONG (GraphSize (definition sub)) in
  if incremental parameters then
    let sizeOfPosIncrement :=
      double_of_ULONG
        (IncrementSize parameters (GetCurrentIncrementNum parameters) POS) in
    let '(size, posGraph') :=
      SizeOfCompressedGraph (posGraph parameters) (instances sub) parameters POS in
    let parameters := set_posGraph posGraph' parameters in
    let sub := set_posIncrementValue (double_of_ULONG size) sub in
    let subValue :=
      (sizeOfPosIncrement / (sizeOfSub + posIncrementValue sub))%R in
    match negGraph parameters with
    | Some negGraph =>
        let sizeOfNegIncrement :=
          double_of_ULONG
            (IncrementSize parameters (GetCurrentIncrementNum parameters) NEG) in
        let '(size, negGraph') :=
          SizeOfCompressedGraph negGraph (negInstances sub) parameters NEG in
        let parameters := set_negGraph (Some negGraph') parameters in
        let sub := set_negIncrementValue (double_of_ULONG size) sub in
        let subValue :=
          ((sizeOfPosIncrement + sizeOfNegIncrement)
           / (sizeOfSub + posIncrementValue sub + sizeOfNegIncrement
              - negIncrementValue sub))%R in
        (subValue, sub, parameters)
    | None => (subValue, sub, parameters)
    end
  else
    let sizeOfPosGraph := double_of_ULONG (GraphSize (posGraph parameters)) in
    let '(size, posGraph') :=
      SizeOfCompressedGraph (posGraph parameters) (instances sub) parameters POS in
    let parameters := set_posGraph posGraph' parameters in
    let sizeOfCompressedPosGraph := double_of_ULONG size in
    let subValue := (sizeOfPosGraph / (sizeOfSub + sizeOfCompressedPosGraph))%R in
    match negGraph parameters with
    | Some negGraph =>
        let sizeOfNegGraph := double_of_ULONG (GraphSize negGraph) in
        let '(size, negGraph') :=
          SizeOfCompressedGraph negGraph (negInstances sub) parameters NEG in
        let parameters := set_negGraph (Some negGraph') parameters in
        let sizeOfCompressedNegGraph := double_of_ULONG size in
        let subValue :=
          ((sizeOfPosGraph + sizeOfNegGraph)
           / (sizeOfSub + sizeOfCompressedPosGraph + sizeOfNegGraph
              - sizeOfCompressedNegGraph))%R in
        (subValue, sub, parameters)
    | None => (subValue, sub, parameters)
    end.

Definition EvaluateSub_SETCOVER (sub : Substructure) (parameters : Parameters)
    : double * Substructure * Parameters :=
  let numPosEgs :=
    if incremental parameters
    then IncrementNumExamples parameters (GetCurrentIncrementNum parameters) POS
    else numPosEgs parameters in
  let numNegEgs :=
    if incremental parameters
    then IncrementNumExamples parameters (GetCurrentIncrementNum parameters) NEG
    else numNegEgs parameters in
  let posEgsCovered := PosExamplesCovered sub parameters in
  let sub :=
    if incremental parameters
    then set_posIncrementValue (double_of_ULONG posEgsCovered) sub
    else sub in
  let '(negEgsCovered, sub) :=
    match negGraph parameters with
    | Some _ =>
        let negEgsCovered := NegExamplesCovered sub parameters in
        (negEgsCovered,
         if incremental parameters
         then set_negIncrementValue (double_of_ULONG negEgsCovered) sub
         else sub)
    | None => (0, sub)
    end in
  let subValue :=
    (double_of_ULONG (uadd posEgsCovered (usub numNegEgs negEgsCovered))
     / double_of_ULONG (uadd numPosEgs numNegEgs))%R in
  (subValue, sub, parameters).

(** [EvaluateSub] returns the substructure and the parameters: the
    [map] fields of the graphs are written and the cache of
    [Log2Factorial] may have grown.  A [switch] on another value of
    [evalMethod] leaves [subValue] at [0.0]. *)
Definition EvaluateSub (sub : Substructure) (parameters : Parameters)
    : Substructure * Parameters :=
  (* calculate number of examples covered by this substructure *)
  let sub := set_numExamples (PosExamplesCovered sub parameters) sub in
  let sub := set_numNegExamples 0 sub in
  let sub :=
    match negGraph parameters with
    | Some _ => set_numNegExamples (NegExamplesCovered sub parameters) sub
    | None => sub
    end in
  (* if recursive sub, then temporarily add recursive edge to sub's definition *)
  let oldDefinition := definition sub in
  let sub :=
    if recursive sub
    then set_definition
           (AddEdge (CopyGraph oldDefinition) 0 0 true (recursiveEdgeLabel sub) false)
           sub
    else sub in
  let '(subValue, sub, parameters) :=
    if evalMethod parameters =? EVAL_MDL then EvaluateSub_MDL sub parameters
    else if evalMethod parameters =? EVAL_SIZE then EvaluateSub_SIZE sub parameters
    else if evalMethod parameters =? EVAL_SETCOVER
         then EvaluateSub_SETCOVER sub parameters
    else (0%R, sub, parameters) in
  let sub := set_value subValue sub in
  (* if recursive sub, then restore old definition *)
  let sub := if recursive sub then set_definition oldDefinition sub else sub in
  (sub, parameters).

(** ** graphmatch.c *)

(** [InexactGraphMatch] is the search for the cheapest transformation
    of one graph into the other; the functions below are written over
    an arbitrary matcher, which returns the cost and the vertex
    mapping it stores. *)
Abbreviation Matcher :=
  (Graph → Graph → LabelList → double → double * list VertexMap) (only parsing).

(** What a call of [GraphMatch] leaves behind: the returned boolean,
    the cost stored through [matchCost], the mapping stored through
    [mapping] (a caller that passes NULL ignores them), and the
    arguments of the calls of [InexactGraphMatch] that were made. *)
Record GraphMatchResult : Type := mkGraphMatchResult {
  matched : bool;
  storedMatchCost : option double;
  storedMapping : option (list VertexMap);
  matcherCalls : list (Graph * Graph * double)
}.

Section GraphMatch.
Variable InexactGraphMatch : Matcher.

Definition GraphMatch (g1 g2 : Graph) (labelList : LabelList) (threshold : double)
    : GraphMatchResult :=
  (* first, quick check for exact matches *)
  if deq threshold 0
     && (negb (numVertices g1 =? numVertices g2) || negb (numEdges g1 =? numEdges g2))
  then mkGraphMatchResult false None None []
  else
    (* call InexactGraphMatch with larger graph first *)
    let '(ga, gb) := if numVertices g1 <? numVertices g2 then (g2, g1) else (g1, g2) in
    let '(cost, mapping) := InexactGraphMatch ga gb labelList threshold in
    mkGraphMatchResult (if dlt threshold cost then false else true)
                       (Some cost) (Some mapping) [(ga, gb, threshold)].

(** ** subops.c: substructure lists *)

(** The scan of [SubListInsert] for a substructure that is already on
    the list. *)
Fixpoint SubListInsert_found (sub : Substructure) (labelList : LabelList)
    (subIndex : SubList) : bool :=
  match subIndex with
  | [] => false
  | s :: next =>
      if dle (value sub) (value s)
      then if deq (value s) (value sub)
              && matched (GraphMatch (definition s) (definition sub) labelList 0)
           then true
           else SubListInsert_found sub labelList next
      else false
  end.

(** The counters of [SubListInsert] after the node [subIndex], and
    whether the maximum is exceeded there. *)
Definition SubListInsert_count (max : ULONG) (valueBased : bool)
    (subIndexPrevious : option Substructure) (subIndex : Substructure)
    (numSubs numDiffVals : ULONG) : bool * ULONG * ULONG :=
  let numSubs := uadd numSubs 1 in
  let numDiffVals :=
    match subIndexPrevious with
    | None => 1
    | Some previous =>
        if deq (value previous) (value subIndex) then numDiffVals
        else uadd numDiffVals 1
    end in
  ((0 <? max)
   && ((valueBased && (max <? numDiffVals)) || (negb valueBased && (max <? numSubs))),
   numSubs, numDiffVals).

(** The insertion loop of [SubListInsert] once the new node is linked
    ([inserted = TRUE]): count the nodes and cut the list where the
    maximum is exceeded.  The result is the list from [subIndex] on. *)
Fixpoint SubListInsert_rest (max : ULONG) (valueBased : bool)
    (subIndexPrevious : option Substructure) (numSubs numDiffVals : ULONG)
    (subIndex : SubList) : SubList :=
  match subIndex with
  | [] => []
  | s :: next =>
      let '(exceeded, numSubs, numDiffVals) :=
        SubListInsert_count max valueBased subIndexPrevious s numSubs numDiffVals in
      if exceeded then []
      else s :: SubListInsert_rest max valueBased (Some s) numSubs numDiffVals next
  end.

(** The insertion loop of [SubListInsert] while [inserted = FALSE]. *)
Fixpoint SubListInsert_loop (sub : Substructure) (max : ULONG) (valueBased : bool)
    (subIndexPrevious : option Substructure) (numSubs numDiffVals : ULONG)
    (subIndex : SubList) : SubList :=
  match subIndex with
  | [] => [] (* not inserted: the new node is freed *)
  | s :: next =>
      if dlt (value s) (value sub)
      then (* link the new node before [s] and go on from the new node *)
        SubListInsert_rest max valueBased subIndexPrevious numSubs numDiffVals
                           (sub :: s :: next)
      else
        match next with
        | [] =>
            (* the potential spot is the end of the list *)
            SubListInsert_rest max valueBased subIndexPrevious numSubs numDiffVals
                               [s; sub]
        | _ :: _ =>
            let '(exceeded, numSubs, numDiffVals) :=
              SubListInsert_count max valueBased subIndexPrevious s
                                  numSubs numDiffVals in
            if exceeded then []
            else s :: SubListInsert_loop sub max valueBased (Some s)
                                         numSubs numDiffVals next
        end
  end.

Definition SubListInsert (sub : Substructure) (subList : SubList) (max : ULONG)
    (valueBased : bool) (labelList : LabelList) : SubList :=
  match subList with
  | [] => [sub] (* no need to check maximums *)
  | _ :: _ =>
      if SubListInsert_found sub labelList subList then subList
      else SubListInsert_loop sub max valueBased None 0 0 subList
  end.

Fixpoint MemberOfSubList (sub : Substructure) (subList : SubList)
    (labelList : LabelList) : bool :=
  match subList with
  | [] => false
  | s :: next =>
      if matched (GraphMatch (definition sub) (definition s) labelList 0) then true
      else MemberOfSubList sub next labelList
  end.

End GraphMatch.

(** ** subops.c: substructures and instances *)

(** [DBL_MAX] of float.h. *)
Definition MAX_DOUBLE : double := IZR (2 ^ 1024 - 2 ^ 971).

(** [AllocateSub] leaves [definition] NULL, which reads as the empty
    graph, and does not initialise the increment values. *)
Definition AllocateSub : Substructure :=
  mkSubstructure (AllocateGraph 0 0) 0 0 None 0 0 None (-1) false 0 0 0.

Definition AllocateInstance (v e : ULONG) : Instance :=
  mkInstance (replicate (N.to_nat v) 0) (replicate (N.to_nat e) 0) MAX_DOUBLE 0 0 0
             (replicate (N.to_nat v) (mkVertexMap 0 0))
             MAX_UNSIGNED_LONG MAX_UNSIGNED_LONG false None.

Definition set_ivertices (vs : list ULONG) (i : Instance) : Instance :=
  mkInstance vs (iedges i) (minMatchCost i) (newVertex i) (newEdge i) (refCount i)
             (mapping i) (mappingIndex1 i) (mappingIndex2 i) (iused i)
             (parentInstance i).
Definition set_iedges (es : list ULONG) (i : Instance) : Instance :=
  mkInstance (ivertices i) es (minMatchCost i) (newVertex i) (newEdge i) (refCount i)
             (mapping i) (mappingIndex1 i) (mappingIndex2 i) (iused i)
             (parentInstance i).
Definition set_minMatchCost (c : double) (i : Instance) : Instance :=
  mkInstance (ivertices i) (iedges i) c (newVertex i) (newEdge i) (refCount i)
             (mapping i) (mappingIndex1 i) (mappingIndex2 i) (iused i)
             (parentInstance i).
Definition set_newVertex (n : ULONG) (i : Instance) : Instance :=
  mkInstance (ivertices i) (iedges i) (minMatchCost i) n (newEdge i) (refCount i)
             (mapping i) (mappingIndex1 i) (mappingIndex2 i) (iused i)
             (parentInstance i).
Definition set_newEdge (n : ULONG) (i : Instance) : Instance :=
  mkInstance (ivertices i) (iedges i) (minMatchCost i) (newVertex i) n (refCount i)
             (mapping i) (mappingIndex1 i) (mappingIndex2 i) (iused i)
             (parentInstance i).
Definition set_refCount (n : ULONG) (i : Instance) : Instance :=
  mkInstance (ivertices i) (iedges i) (minMatchCost i) (newVertex i) (newEdge i) n
             (mapping i) (mappingIndex1 i) (mappingIndex2 i) (iused i)
             (parentInstance i).
Definition set_mapping (m : list VertexMap) (i : Instance) : Instance :=
  mkInstance (ivertices i) (iedges i) (minMatchCost i) (newVertex i) (newEdge i)
             (refCount i) m (mappingIndex1 i) (mappingIndex2 i) (iused i)
             (parentInstance i).
Definition set_mappingIndex1 (n : ULONG) (i : Instance) : Instance :=
  mkInstance (ivertices i) (iedges i) (minMatchCost i) (newVertex i) (newEdge i)
             (refCount i) (mapping i) n (mappingIndex2 i) (iused i)
             (parentInstance i).
Definition set_mappingIndex2 (n : ULONG) (i : Instance) : Instance :=
  mkInstance (ivertices i) (iedges i) (minMatchCost i) (newVertex i) (newEdge i)
             (refCount i) (mapping i) (mappingIndex1 i) n (iused i)
             (parentInstance i).
Definition set_iused (b : bool) (i : Instance) : Instance :=
  mkInstance (ivertices i) (iedges i) (minMatchCost i) (newVertex i) (newEdge i)
             (refCount i) (mapping i) (mappingIndex1 i) (mappingIndex2 i) b
             (parentInstance i).
Definition set_parentInstance (p : option Instance) (i : Instance) : Instance :=
  mkInstance (ivertices i) (iedges i) (minMatchCost i) (newVertex i) (newEdge i)
             (refCount i) (mapping i) (mappingIndex1 i) (mappingIndex2 i) (iused i) p.

Definition dummyInstance : Instance := AllocateInstance 0 0.
#[global] Instance Instance_inhabited : Inhabited Instance := populate dummyInstance.
#[global] Instance VertexMap_inhabited : Inhabited VertexMap :=
  populate (mkVertexMap 0 0).

(** The two comparison loops of [InstanceMatch], on arrays of the same
    length. *)
Fixpoint InstanceMatch_same (l1 l2 : list ULONG) : bool :=
  match l1, l2 with
  | x1 :: rest1, x2 :: rest2 => if x1 =? x2 then InstanceMatch_same rest1 rest2 else false
  | _, _ => true
  end.

Definition InstanceMatch (instance1 instance2 : Instance) : bool :=
  if negb (inumVertices instance1 =? inumVertices instance2)
     || negb (inumEdges instance1 =? inumEdges instance2)
  then false
  else InstanceMatch_same (iedges instance1) (iedges instance2)
       && InstanceMatch_same (ivertices instance1) (ivertices instance2).

Definition MemberOfInstanceList (instance : Instance) (instanceList : InstanceList)
    : bool :=
  existsb (InstanceMatch instance) instanceList.

(** [InstanceListInsert] links the instance at the head of the list;
    [AllocateInstanceListNode] counts the reference. *)
Definition InstanceListInsert (instance : Instance) (instanceList : InstanceList)
    (unique : bool) : InstanceList :=
  if negb unique || (unique && negb (MemberOfInstanceList instance instanceList))
  then set_refCount (uadd (refCount instance) 1) instance :: instanceList
  else instanceList.

(** The search of [InstanceToGraph] for the indices of the endpoints
    of an edge in the vertex array of the instance, from index [j] on;
    the search ends at the end of the array. *)
Fixpoint InstanceToGraph_find (vs : list ULONG) (edge : Edge) (j v1 v2 : ULONG)
    (found1 found2 : bool) : ULONG * ULONG :=
  if found1 && found2 then (v1, v2)
  else
    match vs with
    | [] => (v1, v2)
    | x :: rest =>
        let '(v1, found1) := if x =? vertex1 edge then (j, true) else (v1, found1) in
        let '(v2, found2) := if x =? vertex2 edge then (j, true) else (v2, found2) in
        InstanceToGraph_find rest edge (uadd j 1) v1 v2 found1 found2
    end.

Definition InstanceToGraph_vertex (instance : Instance) (graph : Graph) (i : ULONG)
    (newGraph : Graph) : Graph :=
  let vertex := getV graph (ivertices instance !!! N.to_nat i) in
  updV newGraph i (λ vx, mkVertex (vlabel vertex) [] (vmap vx) false).

(** The state of the edge loop is the new graph with [v1] and [v2],
    which keep their values from one edge to the next. *)
Definition InstanceToGraph_edge (instance : Instance) (graph : Graph) (i : ULONG)
    (st : Graph * ULONG * ULONG) : Graph * ULONG * ULONG :=
  let '(newGraph, v1, v2) := st in
  let edge := getE graph (iedges instance !!! N.to_nat i) in
  let '(v1, v2) := InstanceToGraph_find (ivertices instance) edge 0 v1 v2 false false in
  let newGraph :=
    updE newGraph i
         (λ old, mkEdge v1 v2 (elabel edge) (directed edge) false
                        (spansIncrement old) (validPath old)) in
  let newGraph := updV newGraph v1 (λ vx, set_vedges (vedges vx ++ [i]) vx) in
  let newGraph :=
    if negb (v1 =? v2)
    then updV newGraph v2 (λ vx, set_vedges (vedges vx ++ [i]) vx)
    else newGraph in
  (newGraph, v1, v2).

Definition InstanceToGraph (instance : Instance) (graph : Graph) : Graph :=
  let newGraph := AllocateGraph (inumVertices instance) (inumEdges instance) in
  let newGraph :=
    ULONG_for (inumVertices instance) (InstanceToGraph_vertex instance graph) newGraph in
  (ULONG_for (inumEdges instance) (InstanceToGraph_edge instance graph)
             (newGraph, 0, 0)).1.1.

(** ** extend.c *)

(** [mappingIndex1] and [mappingIndex2] follow the slots whose [v2] is
    an endpoint of the new edge. *)
Definition CreateExtendedInstance_index (edge : Edge) (i : ULONG)
    (newInstance : Instance) : Instance :=
  let v2 := vm_v2 (mapping newInstance !!! N.to_nat i) in
  let newInstance :=
    if v2 =? vertex2 edge then set_mappingIndex2 i newInstance else newInstance in
  if v2 =? vertex1 edge then set_mappingIndex1 i newInstance else newInstance.

Definition CreateExtendedInstance_copy (instance : Instance) (edge : Edge) (i : ULONG)
    (newInstance : Instance) : Instance :=
  let newInstance :=
    set_ivertices (<[N.to_nat i := ivertices instance !!! N.to_nat i]>
                     (ivertices newInstance)) newInstance in
  let newInstance :=
    set_mapping (<[N.to_nat i := mapping instance !!! N.to_nat i]>
                   (mapping newInstance)) newInstance in
  CreateExtendedInstance_index edge i newInstance.

(** [while ((i > 0) && (v2 < newInstance->vertices[i-1]))]: returns the
    index at which the loop ends. *)
Fixpoint CreateExtendedInstance_shift (edge : Edge) (v2 : ULONG) (i : nat)
    (newInstance : Instance) : nat * Instance :=
  match i with
  | O => (O, newInstance)
  | S k =>
      if v2 <? ivertices newInstance !!! k
      then
        let newInstance :=
          set_ivertices (<[i := ivertices newInstance !!! k]> (ivertices newInstance))
                        newInstance in
        let newInstance :=
          set_mapping (<[i := mkVertexMap (N.of_nat i)
                                          (vm_v2 (mapping newInstance !!! k))]>
                         (mapping newInstance)) newInstance in
        let newInstance := CreateExtendedInstance_index edge (N.of_nat i) newInstance in
        CreateExtendedInstance_shift edge v2 k newInstance
      else (i, newInstance)
  end.

(** [while ((i > 0) && (e < newInstance->edges[i-1]))]. *)
Fixpoint CreateExtendedInstance_shiftEdges (e : ULONG) (i : nat)
    (newInstance : Instance) : nat * Instance :=
  match i with
  | O => (O, newInstance)
  | S k =>
      if e <? iedges newInstance !!! k
      then
        CreateExtendedInstance_shiftEdges e k
          (set_iedges (<[i := iedges newInstance !!! k]> (iedges newInstance))
                      newInstance)
      else (i, newInstance)
  end.

Definition CreateExtendedInstance (instance : Instance) (v e : ULONG) (graph : Graph)
    : Instance :=
  let edge := getE graph e in
  (* get edge's other vertex *)
  let v2 := if vertex1 edge =? v then vertex2 edge else vertex1 edge in
  (* check if edge's other vertex is already in instance *)
  let found := existsb (λ x, x =? v2) (ivertices instance) in
  let newInstance :=
    if negb found
    then AllocateInstance (uadd (inumVertices instance) 1) (uadd (inumEdges instance) 1)
    else AllocateInstance (inumVertices instance) (uadd (inumEdges instance) 1) in
  let newInstance := set_parentInstance (Some instance) newInstance in
  (* set vertices and mappings of new instance *)
  let newInstance :=
    ULONG_for (inumVertices instance) (CreateExtendedInstance_copy instance edge)
              newInstance in
  let newInstance := set_newVertex VERTEX_UNMAPPED newInstance in
  let newInstance :=
    if negb found
    then
      let '(i, newInstance) :=
        CreateExtendedInstance_shift edge v2 (length (ivertices instance)) newInstance in
      let newInstance :=
        set_ivertices (<[i := v2]> (ivertices newInstance)) newInstance in
      let newInstance := set_newVertex (N.of_nat i) newInstance in
      let newInstance :=
        set_mapping (<[i := mkVertexMap (N.of_nat i) v2]> (mapping newInstance))
                    newInstance in
      CreateExtendedInstance_index edge (N.of_nat i) newInstance
    else newInstance in
  (* set edges of new instance, kept in increasing order *)
  let newInstance :=
    ULONG_for (inumEdges instance)
              (λ i newInstance,
                 set_iedges (<[N.to_nat i := iedges instance !!! N.to_nat i]>
                               (iedges newInstance)) newInstance)
              newInstance in
  let '(i, newInstance) :=
    CreateExtendedInstance_shiftEdges e (length (iedges instance)) newInstance in
  let newInstance := set_iedges (<[i := e]> (iedges newInstance)) newInstance in
  set_newEdge (N.of_nat i) newInstance.

(** The edges of the vertex [v] of an instance that are not marked. *)
Definition ExtendInstances_edges (instance : Instance) (graph : Graph) (v : ULONG)
    (newInstanceList : InstanceList) : InstanceList :=
  foldl (λ newInstanceList e,
           if negb (eused (getE graph e))
           then InstanceListInsert (CreateExtendedInstance instance v e graph)
                                   newInstanceList true
           else newInstanceList)
        newInstanceList (vedges (getV graph v)).

Definition ExtendInstances_instance (st : InstanceList * Graph) (instance : Instance)
    : InstanceList * Graph :=
  let '(newInstanceList, graph) := st in
  let graph := MarkInstanceEdges instance graph true in
  let newInstanceList :=
    foldl (λ newInstanceList v, ExtendInstances_edges instance graph v newInstanceList)
          newInstanceList (ivertices instance) in
  let graph := MarkInstanceEdges instance graph false in
  (newInstanceList, graph).

(** [ExtendInstances] returns the new instances and the graph, whose
    edges it has marked and unmarked. *)
Definition ExtendInstances (instanceList : option InstanceList) (graph : Graph)
    : InstanceList * Graph :=
  foldl ExtendInstances_instance ([], graph) (deref_InstanceList instanceList).

Definition CreateSubFromInstance (instance : Instance) (graph : Graph) : Substructure :=
  set_definition (InstanceToGraph instance graph) AllocateSub.

Record NewEdgeMatchResult : Type := mkNewEdgeMatchResult {
  nem_match : bool;
  nem_cost : double;
  nem_mapping : list VertexMap;
  nem_mappingIndex1 : ULONG;
  nem_mappingIndex2 : ULONG
}.

(** The second instance of [NewEdgeMatch] after the call. *)
Definition NewEdgeMatch_instance (r : NewEdgeMatchResult) (instance : Instance)
    : Instance :=
  set_mappingIndex2 (nem_mappingIndex2 r)
    (set_mappingIndex1 (nem_mappingIndex1 r) (set_mapping (nem_mapping r) instance)).

Section Extend.
Variable InexactGraphMatch : Matcher.

(** [NewEdgeMatch] is taken as given.  It is called with the content of
    [matchCost] and returns its result and what it writes: the content
    of [matchCost] after the call, and the mapping and the mapping
    indices of the second instance. *)
Variable NewEdgeMatch :
  Graph → Instance → Graph → Instance → Parameters → double → double →
  NewEdgeMatchResult.

(** The value of the local [matchCost] before it is first written. *)
Variable matchCost0 : double.

(** [if (matchCost < instance->minMatchCost) instance->minMatchCost =
    matchCost] *)
Definition lower_minMatchCost (matchCost : double) (instance : Instance) : Instance :=
  if dlt matchCost (minMatchCost instance)
  then set_minMatchCost matchCost instance
  else instance.

Definition sub_add_instance (instance : Instance) (sub : Substructure) : Substructure :=
  set_numInstances (uadd (numInstances sub) 1)
    (set_instances
       (Some (InstanceListInsert instance (deref_InstanceList (instances sub)) false))
       sub).

Definition sub_add_negInstance (instance : Instance) (sub : Substructure)
    : Substructure :=
  set_numNegInstances (uadd (numNegInstances sub) 1)
    (set_negInstances
       (Some (InstanceListInsert instance (deref_InstanceList (negInstances sub)) false))
       sub).

(** One node of the loop of [AddPosInstancesToSub].  The state is the
    substructure, the list of new instances, whose instances the loop
    writes, and [matchCost]; [counter] is the index of the node.  An
    instance is put on the list of the substructure as it is at that
    time. *)
Definition AddPosInstancesToSub_node (subInstance : Instance) (parameters : Parameters)
    (index : ULONG) (st : Substructure * InstanceList * double) (counter : nat)
    : Substructure * InstanceList * double :=
  let '(sub, instanceList, matchCost) := st in
  let instance := instanceList !!! counter in
  if allowInstanceOverlap parameters
     || negb (InstanceListOverlap instance (instances sub))
  then
    let thresholdLimit :=
      (threshold parameters
       * double_of_ULONG (uadd (inumVertices instance) (inumEdges instance)))%R in
    let instanceGraph := InstanceToGraph instance (posGraph parameters) in
    if deq (threshold parameters) 0
    then
      if (index <? N.of_nat counter) && negb (iused instance)
      then
        let r :=
          NewEdgeMatch (definition sub) subInstance instanceGraph instance parameters
                       thresholdLimit matchCost in
        let matchCost := nem_cost r in
        let instance := NewEdgeMatch_instance r instance in
        if nem_match r
        then
          let instance := set_iused true (lower_minMatchCost matchCost instance) in
          (sub_add_instance instance sub, <[counter := instance]> instanceList,
           matchCost)
        else (sub, <[counter := instance]> instanceList, matchCost)
      else st
    else
      let r := GraphMatch InexactGraphMatch (definition sub) instanceGraph
                          (labelList parameters) thresholdLimit in
      let matchCost := default matchCost (storedMatchCost r) in
      if matched r
      then
        let instance := lower_minMatchCost matchCost instance in
        (sub_add_instance instance sub, <[counter := instance]> instanceList, matchCost)
      else (sub, instanceList, matchCost)
  else st.

(** [subInstance] is the instance at [index] of [instanceList]. *)
Definition AddPosInstancesToSub (sub : Substructure) (subInstance : Instance)
    (instanceList : option InstanceList) (parameters : Parameters) (index : ULONG)
    : Substructure * option InstanceList :=
  match instanceList with
  | None => (sub, None)
  | Some instanceList =>
      let sub := set_instances (Some []) sub in
      let subInstance := set_iused true subInstance in
      let instanceList := <[N.to_nat index := subInstance]> instanceList in
      let sub := sub_add_instance subInstance sub in
      let '(sub, instanceList, _) :=
        foldl (AddPosInstancesToSub_node subInstance parameters index)
              (sub, instanceList, matchCost0) (seq 0 (length instanceList)) in
      (sub, Some instanceList)
  end.

Definition AddNegInstancesToSub_node (subInstance : Instance) (parameters : Parameters)
    (st : Substructure * InstanceList * double) (counter : nat)
    : Substructure * InstanceList * double :=
  let '(sub, instanceList, matchCost) := st in
  let instance := instanceList !!! counter in
  if allowInstanceOverlap parameters
     || negb (InstanceListOverlap instance (negInstances sub))
  then
    let thresholdLimit :=
      (threshold parameters
       * double_of_ULONG (uadd (inumVertices instance) (inumEdges instance)))%R in
    let instanceGraph :=
      InstanceToGraph instance (deref_Graph (negGraph parameters)) in
    if deq (threshold parameters) 0
    then
      if negb (iused instance)
      then
        let r :=
          NewEdgeMatch (definition sub) subInstance instanceGraph instance parameters
                       thresholdLimit matchCost in
        let matchCost := nem_cost r in
        let instance := NewEdgeMatch_instance r instance in
        if nem_match r
        then
          let instance := set_iused true (lower_minMatchCost matchCost instance) in
          (sub_add_negInstance instance sub, <[counter := instance]> instanceList,
           matchCost)
        else (sub, <[counter := instance]> instanceList, matchCost)
      else st
    else
      let r := GraphMatch InexactGraphMatch (definition sub) instanceGraph
                          (labelList parameters) thresholdLimit in
      let matchCost := default matchCost (storedMatchCost r) in
      if matched r
      then
        let instance := lower_minMatchCost matchCost instance in
        (sub_add_negInstance instance sub, <[counter := instance]> instanceList,
         matchCost)
      else (sub, instanceList, matchCost)
  else st.

Definition AddNegInstancesToSub (sub : Substructure) (subInstance : Instance)
    (instanceList : option InstanceList) (parameters : Parameters)
    : Substructure * option InstanceList :=
  match instanceList with
  | None => (sub, None)
  | Some instanceList =>
      let sub := set_negInstances (Some []) sub in
      let '(sub, instanceList, _) :=
        foldl (AddNegInstancesToSub_node subInstance parameters)
              (sub, instanceList, matchCost0) (seq 0 (length instanceList)) in
      (sub, Some instanceList)
  end.

(** One node of the loop of [ExtendSub]; the state is the list of
    extended substructures and the two lists of new instances. *)
Definition ExtendSub_node (parameters : Parameters)
    (st : SubList * InstanceList * option InstanceList) (newInstanceListIndex : nat)
    : SubList * InstanceList * option InstanceList :=
  let '(extendedSubs, newInstanceList, negInstanceList) := st in
  let newInstance := newInstanceList !!! newInstanceListIndex in
  if negb (deq (minMatchCost newInstance) 0)
  then
    let newSub := CreateSubFromInstance newInstance (posGraph parameters) in
    if negb (MemberOfSubList InexactGraphMatch newSub extendedSubs (labelList parameters))
    then
      let '(newSub, newInstanceList) :=
        AddPosInstancesToSub newSub newInstance (Some newInstanceList) parameters
                             (N.of_nat newInstanceListIndex) in
      let newInstanceList := deref_InstanceList newInstanceList in
      let newInstance := newInstanceList !!! newInstanceListIndex in
      let '(newSub, negInstanceList) :=
        match negInstanceList with
        | Some _ => AddNegInstancesToSub newSub newInstance negInstanceList parameters
        | None => (newSub, negInstanceList)
        end in
      (* add newSub to head of extendedSubs list *)
      (newSub :: extendedSubs, newInstanceList, negInstanceList)
    else st
  else st.

(** [ExtendSub] returns the extended substructures and the parameters,
    whose graphs [ExtendInstances] has marked and unmarked. *)
Definition ExtendSub (sub : Substructure) (parameters : Parameters)
    : SubList * Parameters :=
  let '(newInstanceList, posGraph') :=
    ExtendInstances (instances sub) (posGraph parameters) in
  let parameters := set_posGraph posGraph' parameters in
  let '(negInstanceList, parameters) :=
    match negGraph parameters with
    | Some negGraph =>
        let '(negInstanceList, negGraph') :=
          ExtendInstances (negInstances sub) negGraph in
        (Some negInstanceList, set_negGraph (Some negGraph') parameters)
    | None => (None, parameters)
    end in
  let '(extendedSubs, _, _) :=
    foldl (ExtendSub_node parameters) ([], newInstanceList, negInstanceList)
          (seq 0 (length newInstanceList)) in
  (extendedSubs, parameters).

(** ** incutil.c: the start of the current increment *)

(** [GetStartVertexIndex] exits on an empty increment list, which reads
    here as the default increment. *)
Definition GetStartVertexIndex (incrementNum : ULONG) (parameters : Parameters)
    (graphType : ULONG) : ULONG :=
  let increment := deref_Increment (last (incrementList parameters)) in
  if graphType =? POS
  then startPosVertexIndex increment
  else startNegVertexIndex increment.

(** ** discover.c *)

(** [j = hi; do { j--; body } while (j > lo)] threading a state: the
    body runs for [hi - 1], and then downwards as long as the index is
    above [lo]. *)
Definition ULONG_do_down {S : Type} (hi lo : ULONG) (body : ULONG → S → S) (s : S) : S :=
  let first := usub hi 1 in
  let last := N.min lo first in
  foldl (λ st i, body (N.of_nat i) st) s
        (reverse (seq (N.to_nat last) (Datatypes.S (N.to_nat first - N.to_nat last)))).

(** The instance of a one-vertex substructure at vertex [j]. *)
Definition GetInitialSubs_instance (j : ULONG) : Instance :=
  let instance := AllocateInstance 1 0 in
  let instance := set_ivertices (<[0%nat := j]> (ivertices instance)) instance in
  let instance := set_mapping (<[0%nat := mkVertexMap 0 j]> (mapping instance)) instance in
  set_minMatchCost 0 instance.

Definition GetInitialSubs_collect (graph : Graph) (vertexLabelIndex : ULONG) (j : ULONG)
    (sub : Substructure) : Substructure :=
  if vlabel (getV graph j) =? vertexLabelIndex
  then sub_add_instance (GetInitialSubs_instance j) sub
  else sub.

Definition GetInitialSubs_collectNeg (graph : Graph) (vertexLabelIndex : ULONG)
    (j : ULONG) (sub : Substructure) : Substructure :=
  if vlabel (getV graph j) =? vertexLabelIndex
  then sub_add_negInstance (GetInitialSubs_instance j) sub
  else sub.

Definition set_lused (b : bool) (l : Label) : Label := mkLabel (labelValue l) b.

Definition set_labels (ls : list Label) (l : LabelList) : LabelList :=
  mkLabelList (numLabels l) ls.

(** The body of the loop of [GetInitialSubs] over the vertices of the
    positive graph; the state is the parameters, the list of initial
    substructures and their number. *)
Definition GetInitialSubs_vertex (i : ULONG) (st : Parameters * SubList * ULONG)
    : Parameters * SubList * ULONG :=
  let '(parameters, initialSubs, numInitialSubs) := st in
  let vertexLabelIndex := vlabel (getV (posGraph parameters) i) in
  if negb (lused (labels (labelList parameters) !!! N.to_nat vertexLabelIndex))
  then
    let parameters :=
      set_labelList
        (set_labels (alter (set_lused true) (N.to_nat vertexLabelIndex)
                           (labels (labelList parameters)))
                    (labelList parameters))
        parameters in
    (* create one-vertex substructure definition *)
    let g := updV (AllocateGraph 1 0) 0
                  (λ vx, mkVertex vertexLabelIndex [] (vmap vx) (vused vx)) in
    let sub := set_instances (Some []) (set_definition g AllocateSub) in
    (* collect instances in positive graph *)
    let sub :=
      ULONG_do_down (numVertices (posGraph parameters)) i
                    (GetInitialSubs_collect (posGraph parameters) vertexLabelIndex)
                    sub in
    (* only keep substructure if more than one positive instance *)
    if 1 <? numInstances sub
    then
      let sub :=
        match negGraph parameters with
        | Some negGraph =>
            let startVertexIndex :=
              if incremental parameters
              then GetStartVertexIndex (GetCurrentIncrementNum parameters) parameters POS
              else 0 in
            ULONG_do_down (numVertices negGraph) startVertexIndex
                          (GetInitialSubs_collectNeg negGraph vertexLabelIndex)
                          (set_negInstances (Some []) sub)
        | None => sub
        end in
      let '(sub, parameters) := EvaluateSub sub parameters in
      (parameters,
       SubListInsert InexactGraphMatch sub initialSubs 0 false (labelList parameters),
       uadd numInitialSubs 1)
    else (parameters, initialSubs, numInitialSubs)
  else st.

(** [GetInitialSubs] returns the list and the parameters, whose labels
    it marks and whose graphs and cache [EvaluateSub] writes. *)
Definition GetInitialSubs (parameters : Parameters) : SubList * Parameters :=
  let startVertexIndex :=
    if incremental parameters
    then GetStartVertexIndex (GetCurrentIncrementNum parameters) parameters POS
    else 0 in
  (* reset labels' used flag *)
  let parameters :=
    set_labelList
      (ULONG_for (numLabels (labelList parameters))
                 (λ i l, set_labels (alter (set_lused false) (N.to_nat i) (labels l)) l)
                 (labelList parameters))
      parameters in
  let '(parameters, initialSubs, _) :=
    ULONG_for_from startVertexIndex (numVertices (posGraph parameters))
                   GetInitialSubs_vertex (parameters, [], 0) in
  (initialSubs, parameters).

(** [SubLabelNumber] parses the number of a label "SUB_<n>", and
    [RecursifySub] builds a recursive substructure, which it
    evaluates; both are taken as given. *)
Variable SubLabelNumber : ULONG → LabelList → ULONG.
Variable RecursifySub : Substructure → Parameters → option Substructure * Parameters.

Definition SinglePreviousSub (sub : Substructure) (parameters : Parameters) : bool :=
  (numVertices (definition sub) =? 1)
  && (0 <? SubLabelNumber (vlabel (getV (definition sub) 0)) (labelList parameters)).

(** The loops of [DiscoverSubs].  [parameters0] holds the parameters
    as [DiscoverSubs] reads them into its local variables when it is
    entered. *)
Definition DiscoverSubs_extended (parameters0 : Parameters) (parentSub : Substructure)
    (st : SubList * Parameters) (extendedSub : Substructure) : SubList * Parameters :=
  let '(childSubList, parameters) := st in
  if numVertices (definition extendedSub) <=? maxVertices parameters0
  then
    (* evaluate each extension and add to child list *)
    let '(extendedSub, parameters) := EvaluateSub extendedSub parameters in
    if prune parameters0 && dlt (value extendedSub) (value parentSub)
    then (childSubList, parameters)
    else (SubListInsert InexactGraphMatch extendedSub childSubList
                        (beamWidth parameters0) (valueBased parameters0)
                        (labelList parameters),
          parameters)
  else st.

(** The state of the loop over the parent list: [limit], the child
    list, the discovered list and the parameters. *)
Record DiscoverSubs_state : Type := mkDiscoverSubs_state {
  ds_limit : ULONG;
  ds_childSubList : SubList;
  ds_discoveredSubList : SubList;
  ds_parameters : Parameters
}.

Definition DiscoverSubs_parent (parameters0 : Parameters) (st : DiscoverSubs_state)
    (parentSub : Substructure) : DiscoverSubs_state :=
  let limit := ds_limit st in
  let childSubList := ds_childSubList st in
  let discoveredSubList := ds_discoveredSubList st in
  let parameters := ds_parameters st in
  let '(limit, childSubList, parameters) :=
    if (((1 <? numInstances parentSub) && negb (evalMethod parameters0 =? EVAL_SETCOVER))
        || (0 <? numNegInstances parentSub))
       && (0 <? limit)
    then
      let limit := usub limit 1 in
      let '(extendedSubList, parameters) := ExtendSub parentSub parameters in
      let '(childSubList, parameters) :=
        foldl (DiscoverSubs_extended parameters0 parentSub) (childSubList, parameters)
              extendedSubList in
      (limit, childSubList, parameters)
    else (limit, childSubList, parameters) in
  (* add parent substructure to final discovered list *)
  if minVertices parameters0 <=? numVertices (definition parentSub)
  then
    if negb (SinglePreviousSub parentSub parameters)
    then
      (* consider recursive substructure, if requested; [recursiveSub] is
         read only when [recursion] is set *)
      let '(recursiveSub, parameters) :=
        if recursion parameters0 then RecursifySub parentSub parameters
        else (None, parameters) in
      let discoveredSubList :=
        SubListInsert InexactGraphMatch parentSub discoveredSubList
                      (numBestSubs parameters0) false (labelList parameters) in
      let discoveredSubList :=
        match recursiveSub with
        | Some recursiveSub' =>
            if recursion parameters0
            then SubListInsert InexactGraphMatch recursiveSub' discoveredSubList
                               (numBestSubs parameters0) false (labelList parameters)
            else discoveredSubList
        | None => discoveredSubList
        end in
      mkDiscoverSubs_state limit childSubList discoveredSubList parameters
    else mkDiscoverSubs_state limit childSubList discoveredSubList parameters
  else mkDiscoverSubs_state limit childSubList discoveredSubList parameters.

(** One iteration of the outer loop of [DiscoverSubs]: the parent list
    is extended into a child list, which [ds_childSubList] holds
    afterwards and which is the next parent list. *)
Definition DiscoverSubs_iteration (parameters0 : Parameters) (st : DiscoverSubs_state)
    : DiscoverSubs_state :=
  let parentSubList := ds_childSubList st in
  foldl (DiscoverSubs_parent parameters0)
        (mkDiscoverSubs_state (ds_limit st) [] (ds_discoveredSubList st)
                              (ds_parameters st))
        parentSubList.

(** [while ((limit > 0) && (parentSubList->head != NULL))] *)
Definition DiscoverSubs_continue (st : DiscoverSubs_state) : bool :=
  (0 <? ds_limit st) && match ds_childSubList st with [] => false | _ :: _ => true end.

Fixpoint DiscoverSubs_loop (fuel : nat) (parameters0 : Parameters)
    (st : DiscoverSubs_state) : DiscoverSubs_state :=
  match fuel with
  | O => st
  | S fuel =>
      if DiscoverSubs_continue st
      then DiscoverSubs_loop fuel parameters0 (DiscoverSubs_iteration parameters0 st)
      else st
  end.

(** The last loop of [DiscoverSubs], over the remaining parent list. *)
Definition DiscoverSubs_remaining (parameters0 parameters : Parameters)
    (discoveredSubList : SubList) (parentSub : Substructure) : SubList :=
  if minVertices parameters0 <=? numVertices (definition parentSub)
  then
    if negb (SinglePreviousSub parentSub parameters)
    then SubListInsert InexactGraphMatch parentSub discoveredSubList
                       (numBestSubs parameters0) false (labelList parameters)
    else discoveredSubList
  else discoveredSubList.

(** The state of [DiscoverSubs] when it enters its outer loop. *)
Definition DiscoverSubs_initial (parameters : Parameters) : DiscoverSubs_state :=
  let '(parentSubList, parameters') := GetInitialSubs parameters in
  mkDiscoverSubs_state (limit parameters) parentSubList [] parameters'.

(** [DiscoverSubs] returns the discovered list and the parameters.
    Every iteration of the outer loop but the last one decrements
    [limit], so [limit + 1] iterations are enough. *)
Definition DiscoverSubs (parameters : Parameters) : SubList * Parameters :=
  let st :=
    DiscoverSubs_loop (Datatypes.S (N.to_nat (limit parameters))) parameters
                      (DiscoverSubs_initial parameters) in
  (foldl (DiscoverSubs_remaining parameters (ds_parameters st))
         (ds_discoveredSubList st) (ds_childSubList st),
   ds_parameters st).

End Extend.

(** ** Example data *)

Definition example_instance (vs es : list ULONG) : Instance :=
  mkInstance vs es 0%R 0 0 1 [] MAX_UNSIGNED_LONG MAX_UNSIGNED_LONG false None.

(** Three [A] vertices in a path, with a self-edge on the middle one. *)
Definition example_path : Graph :=
  mkGraph 3 3
    [mkVertex 0 [0] VERTEX_UNMAPPED false;
     mkVertex 0 [0; 1; 2] VERTEX_UNMAPPED false;
     mkVertex 0 [1] VERTEX_UNMAPPED false]
    [mkEdge 0 1 1 false false false true;
     mkEdge 1 2 1 false false false true;
     mkEdge 1 1 2 false false false true].

Definition example_labels : LabelList :=
  mkLabelList 3
    [mkLabel (stringLabel "A") false; mkLabel (stringLabel "e") false;
     mkLabel (stringLabel "loop") false].

Definition example_parameters (g : Graph) (overlap : bool) (eval : ULONG) : Parameters :=
  {| posGraph := g; negGraph := None; posGraphDL := 0; negGraphDL := 0;
     numPosEgs := 1; numNegEgs := 0;
     posEgsVertexIndices := [0]; negEgsVertexIndices := [];
     labelList := example_labels;
     beamWidth := 4; limit := 1; maxVertices := 3; minVertices := 1;
     numBestSubs := 3; valueBased := false; prune := false; outputLevel := 2;
     allowInstanceOverlap := overlap; evalMethod := eval; threshold := 0;
     log2Factorial := [0%R; 0%R]; recursion := false; incremental := false;
     incrementList := [] |}.

(** Two instances of the pattern [A - A]; they share vertex 1. *)
Definition example_overlapping : list Instance :=
  [example_instance [0; 1] [0]; example_instance [1; 2] [1]].


(** A single vertex labelled [A]. *)
Definition example_vertex : Graph :=
  mkGraph 1 0 [mkVertex 0 [] VERTEX_UNMAPPED false] [].

(** Two isolated vertices labelled [A]. *)
Definition example_pair : Graph :=
  mkGraph 2 0
    [mkVertex 0 [] VERTEX_UNMAPPED false; mkVertex 0 [] VERTEX_UNMAPPED false] [].

(** The one-vertex substructure [A] with its instances in
    [example_pair], taken both as positive and as negative graph. *)
Definition example_sub_A : Substructure :=
  {| definition := example_vertex;
     numInstances := 2; numExamples := 0;
     instances := Some [example_instance [0] []; example_instance [1] []];
     numNegInstances := 2; numNegExamples := 0;
     negInstances := Some [example_instance [0] []; example_instance [1] []];
     value := -1; recursive := false; recursiveEdgeLabel := 0;
     posIncrementValue := 0; negIncrementValue := 0 |}.

(** MDL evaluation over one label, with [example_pair] as positive and
    as negative graph; each has a description length of one bit. *)
Definition example_parameters_MDL : Parameters :=
  {| posGraph := example_pair; negGraph := Some example_pair;
     posGraphDL := 1; negGraphDL := 1;
     numPosEgs := 1; numNegEgs := 1;
     posEgsVertexIndices := [0]; negEgsVertexIndices := [0];
     labelList := mkLabelList 1 [mkLabel (stringLabel "A") false];
     beamWidth := 4; limit := 1; maxVertices := 2; minVertices := 1;
     numBestSubs := 3; valueBased := false; prune := false; outputLevel := 2;
     allowInstanceOverlap := false; evalMethod := EVAL_MDL; threshold := 0;
     log2Factorial := [0%R; 0%R]; recursion := false; incremental := false;
     incrementList := [] |}.

(** The substructure [A - A] with its two overlapping instances in
    [example_path]. *)
Definition example_sub_path : Substructure :=
  {| definition :=
       mkGraph 2 1
         [mkVertex 0 [0] VERTEX_UNMAPPED false; mkVertex 0 [0] VERTEX_UNMAPPED false]
         [mkEdge 0 1 1 false false false true];
     numInstances := 2; numExamples := 0;
     instances := Some example_overlapping;
     numNegInstances := 0; numNegExamples := 0;
     negInstances := None;
     value := -1; recursive := false; recursiveEdgeLabel := 0;
     posIncrementValue := 0; negIncrementValue := 0 |}.

(** [example_sub_path] taken as a recursive substructure. *)
Definition example_sub_recursive : Substructure :=
  {| definition := definition example_sub_path;
     numInstances := 2; numExamples := 0;
     instances := Some example_overlapping;
     numNegInstances := 0; numNegExamples := 0;
     negInstances := None;
     value := -1; recursive := true; recursiveEdgeLabel := 2;
     posIncrementValue := 0; negIncrementValue := 0 |}.

(** A matcher that finds every pair of graphs at cost 1. *)
Definition example_matcher : Matcher := λ _ _ _ _, (1%R, []).

(** The substructure [A] with value [v]. *)
Definition example_valued (v : R) : Substructure :=
  {| definition := example_vertex;
     numInstances := 2; numExamples := 0;
     instances := Some [example_instance [0] []; example_instance [1] []];
     numNegInstances := 0; numNegExamples := 0; negInstances := None;
     value := v; recursive := false; recursiveEdgeLabel := 0;
     posIncrementValue := 0; negIncrementValue := 0 |}.

(** Two [A] vertices, the first with a self-edge. *)
Definition example_loop : Graph :=
  mkGraph 2 1
    [mkVertex 0 [0] VERTEX_UNMAPPED false; mkVertex 0 [] VERTEX_UNMAPPED false]
    [mkEdge 0 0 2 false false false true].

(** [NewEdgeMatch], [SubLabelNumber] and [RecursifySub] that find
    nothing. *)
Definition example_NewEdgeMatch (g1 : Graph) (inst1 : Instance) (g2 : Graph)
    (inst2 : Instance) (p : Parameters) (threshold cost : R) : NewEdgeMatchResult :=
  mkNewEdgeMatchResult false cost (mapping inst2) (mappingIndex1 inst2)
                       (mappingIndex2 inst2).
Definition example_SubLabelNumber (index : ULONG) (l : LabelList) : ULONG := 0.
Definition example_RecursifySub (s : Substructure) (p : Parameters)
    : option Substructure * Parameters := (None, p).

(** The discovery on [example_loop] by size, without overlap. *)
Definition example_parameters_loop : Parameters :=
  example_parameters example_loop false EVAL_SIZE.

(** * Verification *)

(** ** Machine arithmetic *)

Lemma uadd_small (a b : ULONG) : a + b < ULONG_MODULUS → uadd a b = a + b.
Proof. intros H. unfold uadd. by apply N.mod_small. Qed.

Lemma usub_small (a b : ULONG) : b ≤ a → a < ULONG_MODULUS → usub a b = a - b.
Proof.
  intros Hle Hlt. unfold usub.
  rewrite (N.mod_small b) by lia.
  replace (a + (ULONG_MODULUS - b)) with ((a - b) + 1 * ULONG_MODULUS) by lia.
  rewrite N.Div0.mod_add. apply N.mod_small. lia.
Qed.

Lemma uadd_usub_1 (a : ULONG) : a + 1 < ULONG_MODULUS → usub (uadd a 1) 1 = a.
Proof.
  intros H. rewrite uadd_small by done. rewrite usub_small by lia. lia.
Qed.

(** ** Loop invariants *)

Lemma foldl_invariant {A B : Type} (P : A → Prop) (f : A → B → A) (l : list B) (a : A) :
  P a → (∀ a b, P a → b ∈ l → P (f a b)) → P (foldl f a l).
Proof.
  revert a. induction l as [|b l IH]; intros a Ha Hstep; simpl; [done|].
  apply IH.
  - apply Hstep; [done | left].
  - intros a' b' Ha' Hb'. apply Hstep; [done | by right].
Qed.

Lemma ULONG_for_invariant {S : Type} (P : S → Prop) (n : ULONG)
    (body : ULONG → S → S) (s : S) :
  P s → (∀ i s, i < n → P s → P (body i s)) → P (ULONG_for n body s).
Proof.
  intros Hs Hstep. unfold ULONG_for. apply foldl_invariant; [done|].
  intros a b Ha Hb. apply Hstep; [|done].
  apply elem_of_seq in Hb. lia.
Qed.

(** ** Counting the marked vertices and edges *)

Definition vset (l : list ULONG) : gset nat := list_to_set (N.to_nat <$> l).

Definition instances_vset (insts : list Instance) : gset nat :=
  ⋃ ((λ i, vset (ivertices i)) <$> insts).

Definition instances_eset (insts : list Instance) : gset nat :=
  ⋃ ((λ i, vset (iedges i)) <$> insts).

Lemma vset_cons (x : ULONG) (l : list ULONG) : vset (x :: l) = {[N.to_nat x]} ∪ vset l.
Proof. done. Qed.

Lemma vset_nil : vset [] = ∅.
Proof. done. Qed.

Lemma elem_of_vset (i : nat) (l : list ULONG) : i ∈ vset l ↔ ∃ x, x ∈ l ∧ i = N.to_nat x.
Proof.
  unfold vset. rewrite elem_of_list_to_set, list_elem_of_fmap. naive_solver.
Qed.

Lemma size_bounded (S : gset nat) (n : nat) :
  (∀ i, i ∈ S → (i < n)%nat) → (size S ≤ n)%nat.
Proof.
  intros H. rewrite <- (size_set_seq (C := gset nat) 0 n).
  apply subseteq_size. intros i Hi. apply elem_of_set_seq. split; [lia|].
  simpl. by apply H.
Qed.

(** The vertices of [g] below [numVertices g] whose [used] flag is set
    are those of [S]. *)
Definition vmarked (g : Graph) (S : gset nat) : Prop :=
  ∀ i v, vertices g !! i = Some v → (i < N.to_nat (numVertices g))%nat →
         (vused v = true ↔ i ∈ S).

Definition emarked (g : Graph) (S : gset nat) : Prop :=
  ∀ i e, edges g !! i = Some e → (i < N.to_nat (numEdges g))%nat →
         (eused e = true ↔ i ∈ S).

(** A graph whose arrays hold its vertices and edges. *)
Record graph_arrays (g : Graph) : Prop := {
  ga_nv : numVertices g < ULONG_MODULUS;
  ga_ne : numEdges g < ULONG_MODULUS;
  ga_vertices : (N.to_nat (numVertices g) ≤ length (vertices g))%nat;
  ga_edges : (N.to_nat (numEdges g) ≤ length (edges g))%nat
}.

(** Same shape: counts and array lengths agree. *)
Definition same_shape (g g' : Graph) : Prop :=
  numVertices g' = numVertices g ∧ numEdges g' = numEdges g ∧
  length (vertices g') = length (vertices g) ∧
  length (edges g') = length (edges g).

Lemma same_shape_refl g : same_shape g g.
Proof. done. Qed.

Lemma same_shape_trans g1 g2 g3 : same_shape g1 g2 → same_shape g2 g3 → same_shape g1 g3.
Proof. unfold same_shape. intros (?&?&?&?) (?&?&?&?). repeat split; congruence. Qed.

Lemma same_shape_updV g i f : same_shape g (updV g i f).
Proof. unfold same_shape, updV. simpl. by rewrite length_alter. Qed.

Lemma same_shape_updE g i f : same_shape g (updE g i f).
Proof. unfold same_shape, updE. simpl. by rewrite length_alter. Qed.

Lemma graph_arrays_shape g g' : same_shape g g' → graph_arrays g → graph_arrays g'.
Proof.
  intros (Hv & He & Hlv & Hle) [? ? ? ?]. split; rewrite ?Hv, ?He, ?Hlv, ?Hle; done.
Qed.

Lemma getV_lookup g (i : ULONG) :
  (N.to_nat i < length (vertices g))%nat → vertices g !! N.to_nat i = Some (getV g i).
Proof. intros H. unfold getV. by apply list_lookup_lookup_total_lt. Qed.

Lemma getE_lookup g (i : ULONG) :
  (N.to_nat i < length (edges g))%nat → edges g !! N.to_nat i = Some (getE g i).
Proof. intros H. unfold getE. by apply list_lookup_lookup_total_lt. Qed.

Lemma vmarked_edges_irrel g g' S :
  vertices g' = vertices g → numVertices g' = numVertices g → vmarked g S → vmarked g' S.
Proof. unfold vmarked. intros -> ->. done. Qed.

Lemma emarked_vertices_irrel g g' S :
  edges g' = edges g → numEdges g' = numEdges g → emarked g S → emarked g' S.
Proof. unfold emarked. intros -> ->. done. Qed.

(** Marking one more vertex. *)
Lemma vmarked_mark g S (iv : ULONG) (f : Vertex → Vertex) :
  (∀ v, vused (f v) = true) →
  vmarked g S → vmarked (updV g iv f) ({[N.to_nat iv]} ∪ S).
Proof.
  intros Hf Hm i v Hlook Hi. unfold updV in *. simpl in *.
  rewrite list_lookup_alter in Hlook. case_decide as Heq.
  - subst i. destruct (vertices g !! N.to_nat iv) as [v0|] eqn:E; [|done].
    simpl in Hlook. injection Hlook as <-. rewrite Hf. set_solver.
  - rewrite (Hm i v Hlook Hi). set_solver.
Qed.

Lemma emarked_mark g S (ie : ULONG) :
  emarked g S → emarked (updE g ie (set_eused true)) ({[N.to_nat ie]} ∪ S).
Proof.
  intros Hm i e Hlook Hi. unfold updE in *. simpl in *.
  rewrite list_lookup_alter in Hlook. case_decide as Heq.
  - subst i. destruct (edges g !! N.to_nat ie) as [e0|] eqn:E; [|done].
    simpl in Hlook. injection Hlook as <-. simpl. set_solver.
  - rewrite (Hm i e Hlook Hi). set_solver.
Qed.

(** State of a counting loop: the flags of the graph are those of [S],
    and the counter is the size of [S]. *)
Record vcount_inv (g0 : Graph) (S : gset nat) (st : Graph * ULONG) : Prop := {
  vi_nv : numVertices st.1 = numVertices g0;
  vi_len : length (vertices st.1) = length (vertices g0);
  vi_marked : vmarked st.1 S;
  vi_bound : ∀ i, i ∈ S → (i < N.to_nat (numVertices g0))%nat;
  vi_count : st.2 = N.of_nat (size S)
}.

Record ecount_inv (g0 : Graph) (S : gset nat) (st : Graph * ULONG) : Prop := {
  ei_ne : numEdges st.1 = numEdges g0;
  ei_len : length (edges st.1) = length (edges g0);
  ei_marked : emarked st.1 S;
  ei_bound : ∀ i, i ∈ S → (i < N.to_nat (numEdges g0))%nat;
  ei_count : st.2 = N.of_nat (size S)
}.

Lemma size_bounded_notin (S : gset nat) (n i : nat) :
  (∀ j, j ∈ S → (j < n)%nat) → (i < n)%nat → i ∉ S → (size S < n)%nat.
Proof.
  intros Hb Hi Hn.
  assert (size ({[i]} ∪ S) ≤ n)%nat.
  { apply size_bounded. intros j Hj. apply elem_of_union in Hj as [Hj|Hj]; [|by apply Hb].
    apply elem_of_singleton in Hj. by subst. }
  rewrite size_union, size_singleton in H by set_solver. lia.
Qed.

Lemma CompressGraph_markVertices_inv g0 startVertex instanceNo instance S st :
  graph_arrays g0 →
  (∀ iv, iv ∈ ivertices instance → iv < numVertices g0) →
  vcount_inv g0 S st →
  vcount_inv g0 (S ∪ vset (ivertices instance))
    (CompressGraph_markVertices false startVertex instanceNo instance st).
Proof.
  intros Hga. unfold CompressGraph_markVertices.
  generalize (ivertices instance) as l. intros l. revert S st.
  induction l as [|iv l IH]; intros S st Hin Hinv; simpl.
  - rewrite vset_nil, right_id_L; [done | apply _].
  - rewrite vset_cons.
    replace (S ∪ ({[N.to_nat iv]} ∪ vset l)) with (({[N.to_nat iv]} ∪ S) ∪ vset l)
      by set_solver.
    apply IH; [intros; apply Hin; by right|].
    assert (Hiv : iv < numVertices g0) by (apply Hin; left).
    destruct st as [graph n]. destruct Hinv as [Hnv Hlv Hm Hb Hc]. simpl in *.
    assert (Hlen : (N.to_nat iv < length (vertices graph))%nat).
    { rewrite Hlv. destruct Hga. lia. }
    pose proof (getV_lookup graph iv Hlen) as Hlook.
    assert (Hflag := Hm _ _ Hlook). rewrite Hnv in Hflag.
    specialize (Hflag ltac:(lia)).
    rewrite andb_true_r.
    destruct (vused (getV graph iv)) eqn:Hu; simpl.
    + assert (N.to_nat iv ∈ S) by (by apply Hflag).
      replace ({[N.to_nat iv]} ∪ S) with S by set_solver.
      by split.
    + assert (N.to_nat iv ∉ S) by (intros HS; apply Hflag in HS; congruence).
      split; simpl.
      * done.
      * by rewrite length_alter.
      * apply vmarked_mark; done.
      * intros i Hi. apply elem_of_union in Hi as [Hi|Hi]; [|by apply Hb].
        apply elem_of_singleton in Hi. subst i. lia.
      * rewrite size_union by set_solver. rewrite size_singleton.
        assert (size S < N.to_nat (numVertices g0))%nat
          by (apply (size_bounded_notin S _ (N.to_nat iv)); [done | lia | done]).
        destruct Hga. rewrite Hc. rewrite uadd_small by lia. lia.
Qed.

Lemma CompressGraph_markEdges_inv g0 startEdge instance S st :
  graph_arrays g0 →
  (∀ ie, ie ∈ iedges instance → ie < numEdges g0) →
  ecount_inv g0 S st →
  ecount_inv g0 (S ∪ vset (iedges instance))
    (CompressGraph_markEdges false startEdge instance st).
Proof.
  intros Hga. unfold CompressGraph_markEdges.
  generalize (iedges instance) as l. intros l. revert S st.
  induction l as [|ie l IH]; intros S st Hin Hinv; simpl.
  - rewrite vset_nil, right_id_L; [done | apply _].
  - rewrite vset_cons.
    replace (S ∪ ({[N.to_nat ie]} ∪ vset l)) with (({[N.to_nat ie]} ∪ S) ∪ vset l)
      by set_solver.
    apply IH; [intros; apply Hin; by right|].
    assert (Hie : ie < numEdges g0) by (apply Hin; left).
    destruct st as [graph n]. destruct Hinv as [Hne Hle Hm Hb Hc]. simpl in *.
    assert (Hlen : (N.to_nat ie < length (edges graph))%nat).
    { rewrite Hle. destruct Hga. lia. }
    pose proof (getE_lookup graph ie Hlen) as Hlook.
    assert (Hflag := Hm _ _ Hlook). rewrite Hne in Hflag.
    specialize (Hflag ltac:(lia)).
    rewrite andb_true_r.
    destruct (eused (getE graph ie)) eqn:Hu; simpl.
    + assert (N.to_nat ie ∈ S) by (by apply Hflag).
      replace ({[N.to_nat ie]} ∪ S) with S by set_solver.
      by split.
    + assert (N.to_nat ie ∉ S) by (intros HS; apply Hflag in HS; congruence).
      split; simpl.
      * done.
      * by rewrite length_alter.
      * apply emarked_mark; done.
      * intros i Hi. apply elem_of_union in Hi as [Hi|Hi]; [|by apply Hb].
        apply elem_of_singleton in Hi. subst i. lia.
      * rewrite size_union by set_solver. rewrite size_singleton.
        assert (size S < N.to_nat (numEdges g0))%nat
          by (apply (size_bounded_notin S _ (N.to_nat ie)); [done | lia | done]).
        destruct Hga. rewrite Hc. rewrite uadd_small by lia. lia.
Qed.

(** The two counting loops work on disjoint parts of the graph. *)
Lemma CompressGraph_markVertices_edges inc startVertex instanceNo instance st :
  edges (CompressGraph_markVertices inc startVertex instanceNo instance st).1
    = edges st.1
  ∧ numEdges (CompressGraph_markVertices inc startVertex instanceNo instance st).1
    = numEdges st.1.
Proof.
  unfold CompressGraph_markVertices. apply foldl_invariant; [done|].
  intros [g n] iv [H1 H2] _. simpl in *. by destruct (_ && _).
Qed.

Lemma CompressGraph_markEdges_vertices inc startEdge instance st :
  vertices (CompressGraph_markEdges inc startEdge instance st).1 = vertices st.1
  ∧ numVertices (CompressGraph_markEdges inc startEdge instance st).1
    = numVertices st.1.
Proof.
  unfold CompressGraph_markEdges. apply foldl_invariant; [done|].
  intros [g n] ie [H1 H2] _. simpl in *. by destruct (_ && _).
Qed.

Lemma vcount_inv_frame g0 S g g' n :
  vertices g' = vertices g → numVertices g' = numVertices g →
  vcount_inv g0 S (g, n) → vcount_inv g0 S (g', n).
Proof.
  intros Hv Hn [? ? ? ? ?]. simpl in *. split; simpl; try congruence; try done.
  by apply (vmarked_edges_irrel g).
Qed.

Lemma ecount_inv_frame g0 S g g' n :
  edges g' = edges g → numEdges g' = numEdges g →
  ecount_inv g0 S (g, n) → ecount_inv g0 S (g', n).
Proof.
  intros Hv Hn [? ? ? ? ?]. simpl in *. split; simpl; try congruence; try done.
  by apply (emarked_vertices_irrel g).
Qed.

(** Instances whose vertices, respectively edges, lie in the graph. *)
Definition vertices_in_range (g : Graph) (insts : list Instance) : Prop :=
  ∀ inst iv, inst ∈ insts → iv ∈ ivertices inst → iv < numVertices g.

Definition edges_in_range (g : Graph) (insts : list Instance) : Prop :=
  ∀ inst ie, inst ∈ insts → ie ∈ iedges inst → ie < numEdges g.

Lemma instances_vset_cons i insts :
  instances_vset (i :: insts) = vset (ivertices i) ∪ instances_vset insts.
Proof. done. Qed.

Lemma instances_eset_cons i insts :
  instances_eset (i :: insts) = vset (iedges i) ∪ instances_eset insts.
Proof. done. Qed.

(** The vertex half of the marking loop of [CompressGraph]. *)
Lemma CompressGraph_mark_vertices g0 startVertex startEdge insts S graph nv ne no :
  graph_arrays g0 →
  vertices_in_range g0 insts →
  no + N.of_nat (length insts) < ULONG_MODULUS →
  vcount_inv g0 S (graph, nv) →
  let st := CompressGraph_mark false startVertex startEdge insts (graph, nv, ne, no) in
  vcount_inv g0 (S ∪ instances_vset insts) (st.1.1.1, st.1.1.2)
  ∧ st.2 = no + N.of_nat (length insts).
Proof.
  intros Hga. unfold CompressGraph_mark.
  revert S graph nv ne no. induction insts as [|inst insts IH];
    intros S graph nv ne no Hr Hno Hinv; simpl.
  - split; [|lia]. unfold instances_vset. simpl. by rewrite right_id_L by apply _.
  - pose proof (CompressGraph_markVertices_inv g0 startVertex no inst S (graph, nv) Hga) as Hv.
    destruct (CompressGraph_markVertices false startVertex no inst (graph, nv))
      as [graph1 nv1] eqn:E1.
    pose proof (CompressGraph_markEdges_vertices false startEdge inst (graph1, ne)) as He.
    destruct (CompressGraph_markEdges false startEdge inst (graph1, ne))
      as [graph2 ne2] eqn:E2.
    simpl in He. destruct He as [He1 He2].
    simpl in Hno.
    assert (Hu : uadd no 1 = no + 1) by (apply uadd_small; lia). rewrite Hu.
    specialize (IH (S ∪ vset (ivertices inst)) graph2 nv1 ne2 (no + 1)).
    rewrite instances_vset_cons.
    replace (S ∪ (vset (ivertices inst) ∪ instances_vset insts))
      with (S ∪ vset (ivertices inst) ∪ instances_vset insts) by set_solver.
    destruct IH as [IH1 IH2].
    + intros i iv Hi. apply Hr. by right.
    + lia.
    + apply (vcount_inv_frame _ _ graph1); [done..|].
      apply Hv; [|exact Hinv]. intros iv Hiv. apply (Hr inst); [left | done].
    + split; [exact IH1|]. etrans; [exact IH2 | lia].
Qed.

(** ** The vertex count of the compressed graph *)

(** The vertex count and the length of the vertex array are kept. *)
Definition vshape (g g' : Graph) : Prop :=
  numVertices g' = numVertices g ∧ length (vertices g') = length (vertices g).

Lemma vshape_refl g : vshape g g.
Proof. done. Qed.

Lemma vshape_trans g1 g2 g3 : vshape g1 g2 → vshape g2 g3 → vshape g1 g3.
Proof. unfold vshape. intros [? ?] [? ?]. split; congruence. Qed.

Lemma vshape_updV g i f : vshape g (updV g i f).
Proof. unfold vshape, updV. simpl. by rewrite length_alter. Qed.

Lemma vshape_set_edges g es : vshape g (set_edges es g).
Proof. done. Qed.

Lemma vshape_set_numEdges g n : vshape g (set_numEdges n g).
Proof. done. Qed.

Lemma vshape_AddEdgeToVertices g e : vshape g (AddEdgeToVertices g e).
Proof.
  unfold AddEdgeToVertices. destruct (negb _).
  - eapply vshape_trans; apply vshape_updV.
  - apply vshape_updV.
Qed.


Lemma vshape_CopyUnmarkedGraph g1 g2 vertexIndex parameters :
  vshape g2 (CopyUnmarkedGraph g1 g2 vertexIndex parameters).2.
Proof.
  unfold CopyUnmarkedGraph. destruct (incremental parameters).
  - match goal with |- context [ULONG_for ?n ?b (g1, g2, vertexIndex)] =>
      pose proof (ULONG_for_invariant (λ st, vshape g2 st.1.2) n b (g1, g2, vertexIndex)) as H1; cbv beta in H1
    end.
    destruct (ULONG_for _ _ (g1, g2, vertexIndex)) as [[g1' g2'] vi'].
    simpl in H1.
    match goal with |- context [ULONG_for ?n ?b (g2', 0)] =>
      pose proof (ULONG_for_invariant (λ st, vshape g2 st.1) n b (g2', 0)) as H2;
      cbv beta in H2; destruct (ULONG_for n b (g2', 0)) as [g2'' ei]
    end.
    simpl in *.
    apply H2.
    + apply H1; [apply vshape_refl|].
      intros i [[a b] c] _ Hs. simpl in *. destruct (negb _); simpl; [|done].
      eapply vshape_trans; [exact Hs | apply vshape_updV].
    + intros i [a b] _ Hs. simpl in *. destruct (negb _); simpl; [|done].
      destruct (spansIncrement _); simpl.
      * eapply vshape_trans; [exact Hs | apply vshape_set_numEdges].
      * eapply vshape_trans; [exact Hs |].
        eapply vshape_trans; [|apply vshape_AddEdgeToVertices]. apply vshape_set_edges.
  - match goal with |- context [ULONG_for ?n ?b (g1, g2, vertexIndex)] =>
      pose proof (ULONG_for_invariant (λ st, vshape g2 st.1.2) n b (g1, g2, vertexIndex)) as H1; cbv beta in H1
    end.
    destruct (ULONG_for _ _ (g1, g2, vertexIndex)) as [[g1' g2'] vi'].
    simpl in H1.
    match goal with |- context [ULONG_for ?n ?b (g2', 0)] =>
      pose proof (ULONG_for_invariant (λ st, vshape g2 st.1) n b (g2', 0)) as H2;
      cbv beta in H2; destruct (ULONG_for n b (g2', 0)) as [g2'' ei]
    end.
    simpl in *.
    apply H2.
    + apply H1; [apply vshape_refl|].
      intros i [[a b] c] _ Hs. simpl in *. destruct (negb _); simpl; [|done].
      eapply vshape_trans; [exact Hs | apply vshape_updV].
    + intros i [a b] _ Hs. simpl in *. destruct (negb _); simpl; [|done].
      eapply vshape_trans; [exact Hs |].
      eapply vshape_trans; [|apply vshape_AddEdgeToVertices]. apply vshape_set_edges.
Qed.

Lemma vshape_AddOverlapEdges cg graph insts overlapLabelIndex startVertex startEdge :
  vshape cg (AddOverlapEdges cg graph insts overlapLabelIndex startVertex startEdge).1.
Proof.
  unfold AddOverlapEdges.
  destruct (AddOverlapEdges_instances1 _ _ _ _ _ _) as [graph' overlapEdges].
  destruct (0 <? _); [|apply vshape_refl].
  match goal with |- context [foldl ?f ?a overlapEdges] =>
    pose proof (foldl_invariant (λ st, vshape cg st.1) f overlapEdges a) as H; cbv beta in H
  end.
  destruct (foldl _ _ overlapEdges) as [cg' ei]. simpl in *.
  eapply vshape_trans; [|apply vshape_set_numEdges].
  apply H; [done|].
  intros [a b] oe Hs _. simpl in *.
  eapply vshape_trans; [exact Hs|].
  eapply vshape_trans; [|apply vshape_AddEdgeToVertices]. apply vshape_set_edges.
Qed.

Lemma vshape_SUB_loop (cg : Graph) (n label : ULONG) :
  vshape cg
    (ULONG_for n
       (λ (v : ULONG) '(compressedGraph, vertexIndex),
          (updV compressedGraph vertexIndex
             (λ _, mkVertex label [] VERTEX_UNMAPPED false),
           uadd vertexIndex 1)) (cg, 0)).1.
Proof.
  apply (ULONG_for_invariant (λ st, vshape cg st.1)); [done|].
  intros i [a b] _ Hs. simpl in *. eapply vshape_trans; [exact Hs | apply vshape_updV].
Qed.

Lemma instances_vset_concat insts :
  instances_vset insts = vset (concat (ivertices <$> insts)).
Proof.
  induction insts as [|i insts IH]; [done|].
  rewrite instances_vset_cons, IH. simpl. unfold vset.
  by rewrite fmap_app, list_to_set_app_L.
Qed.

Lemma size_vset_NoDup (l : list ULONG) : NoDup l → size (vset l) = length l.
Proof.
  intros H. unfold vset. rewrite size_list_to_set.
  - by rewrite length_fmap.
  - apply NoDup_fmap_2; [|done]. intros x y. lia.
Qed.

(** Instances are pairwise vertex-disjoint, and none lists a vertex
    twice. *)
Definition vertex_disjoint (insts : list Instance) : Prop :=
  NoDup (concat (ivertices <$> insts)).

(** The sum of the instances' vertex counts. *)
Definition sum_numVertices (insts : list Instance) : nat :=
  sum_list (length ∘ ivertices <$> insts).

Lemma length_concat_ivertices insts :
  length (concat (ivertices <$> insts)) = sum_numVertices insts.
Proof.
  unfold sum_numVertices. induction insts as [|i insts IH]; [done|].
  rewrite !fmap_cons. simpl. rewrite length_app. f_equal. exact IH.
Qed.

(** No vertex of the graph is marked. *)
Definition vertices_unused (g : Graph) : Prop := vmarked g ∅.

Lemma CompressGraph_numVertices_eq graph insts parameters :
  incremental parameters = false →
  graph_arrays graph →
  vertices_unused graph →
  vertices_in_range graph insts →
  numVertices graph + N.of_nat (length insts) + 1 < ULONG_MODULUS →
  let compressedGraph := (CompressGraph graph insts parameters).1 in
  numVertices compressedGraph
    = numVertices graph - N.of_nat (size (instances_vset insts))
      + N.of_nat (length insts)
  ∧ (size (instances_vset insts) ≤ N.to_nat (numVertices graph))%nat
  ∧ length (vertices compressedGraph) = N.to_nat (numVertices compressedGraph).
Proof.
  intros Hinc Hga Hun Hr Hb. unfold CompressGraph. rewrite Hinc.
  cbv beta iota zeta.
  pose proof (CompressGraph_mark_vertices graph 0 0 insts ∅ graph 0 0 1 Hga Hr) as Hmark.
  cbv zeta in Hmark.
  destruct (CompressGraph_mark false 0 0 insts (graph, 0, 0, 1))
    as [[[graph1 nIV] nIE] no] eqn:Emark.
  simpl in Hmark. destruct Hmark as [Hv Hno]; [lia| |].
  { split; simpl; try done. }
  destruct Hv as [Hnv Hlen Hm Hbound Hc]. simpl in *.
  rewrite left_id_L in Hbound, Hc by apply _.
  set (n := usub no 1).
  assert (Hn : n = N.of_nat (length insts)).
  { unfold n. rewrite Hno. rewrite usub_small by lia. lia. }
  assert (Hsz : (size (instances_vset insts) ≤ N.to_nat (numVertices graph))%nat)
    by (by apply size_bounded).
  set (nv := uadd (usub (numVertices graph1) nIV) n).
  assert (Hnveq : nv = numVertices graph - N.of_nat (size (instances_vset insts))
                       + N.of_nat (length insts)).
  { unfold nv. rewrite Hnv, Hc, Hn. destruct Hga.
    rewrite usub_small by lia. rewrite uadd_small by lia. done. }
  match goal with |- context [AllocateGraph nv ?ne] => set (cg0 := AllocateGraph nv ne) end.
  pose proof (vshape_SUB_loop cg0 n (numLabels (labelList parameters))) as Hsub.
  destruct (ULONG_for n _ (cg0, 0)) as [cg1 vi]. simpl in Hsub.
  pose proof (vshape_CopyUnmarkedGraph graph1 cg1 vi parameters) as Hcopy.
  destruct (CopyUnmarkedGraph graph1 cg1 vi parameters) as [graph2 cg2]. simpl in Hcopy.
  assert (Hfin : ∀ cg3 graph3,
             (if allowInstanceOverlap parameters
              then AddOverlapEdges cg2 graph2 insts
                     (uadd (numLabels (labelList parameters)) 1) 0 0
              else (cg2, graph2)) = (cg3, graph3) → vshape cg0 cg3).
  { intros cg3 graph3 E. destruct (allowInstanceOverlap parameters).
    - pose proof (vshape_AddOverlapEdges cg2 graph2 insts
                    (uadd (numLabels (labelList parameters)) 1) 0 0) as Ho.
      rewrite E in Ho. simpl in Ho.
      eapply vshape_trans; [exact Hsub|]. eapply vshape_trans; [exact Hcopy | exact Ho].
    - injection E as <- <-. eapply vshape_trans; [exact Hsub | exact Hcopy]. }
  destruct (if allowInstanceOverlap parameters then _ else _) as [cg3 graph3] eqn:E3.
  destruct (Hfin cg3 graph3 eq_refl) as [H1 H2]. simpl.
  rewrite H1, H2. unfold cg0. simpl. rewrite length_replicate. done.
Qed.

(** Executable checks of the preconditions. *)

Definition graph_arrays_check (g : Graph) : bool :=
  (numVertices g <? ULONG_MODULUS) && (numEdges g <? ULONG_MODULUS)
  && (N.to_nat (numVertices g) <=? length (vertices g))%nat
  && (N.to_nat (numEdges g) <=? length (edges g))%nat.

Lemma graph_arrays_check_ok g : graph_arrays_check g = true → graph_arrays g.
Proof.
  unfold graph_arrays_check. rewrite !andb_true_iff, !N.ltb_lt, !Nat.leb_le.
  intros [[[? ?] ?] ?]. by split.
Qed.

Lemma vertices_unused_check g :
  forallb (λ v, negb (vused v)) (vertices g) = true → vertices_unused g.
Proof.
  intros H i v Hl _. rewrite forallb_forall in H.
  assert (Hin : In v (vertices g)) by (apply list_elem_of_In; by eapply list_elem_of_lookup_2).
  apply H in Hin. destruct (vused v); [done|]. split; [done | set_solver].
Qed.

Definition vertices_in_range_check (g : Graph) (insts : list Instance) : bool :=
  forallb (λ inst, forallb (λ iv, iv <? numVertices g) (ivertices inst)) insts.

Lemma vertices_in_range_check_ok g insts :
  vertices_in_range_check g insts = true → vertices_in_range g insts.
Proof.
  unfold vertices_in_range_check. rewrite forallb_forall. intros H inst iv Hi Hv.
  apply list_elem_of_In in Hi. apply H in Hi. rewrite forallb_forall in Hi.
  apply list_elem_of_In in Hv. apply Hi in Hv. by apply N.ltb_lt.
Qed.

Lemma size_instances_vset_disjoint insts :
  vertex_disjoint insts → size (instances_vset insts) = sum_numVertices insts.
Proof.
  intros H. rewrite instances_vset_concat, size_vset_NoDup by done.
  apply length_concat_ivertices.
Qed.

(** C4.  The graph returned by [CompressGraph] has
    [|V(g)| - (number of distinct host vertices covered by the instances)
    + |insts|] vertices: a host vertex shared by several instances is
    subtracted once.  When the instances are pairwise vertex-disjoint
    this is [|V(g)| - Σ|V(insts_i)| + |insts|]. *)
Theorem CompressGraph_numVertices graph insts parameters :
  incremental parameters = false →
  graph_arrays graph →
  vertices_unused graph →
  vertices_in_range graph insts →
  numVertices graph + N.of_nat (length insts) + 1 < ULONG_MODULUS →
  let compressedGraph := (CompressGraph graph insts parameters).1 in
  (Z.of_N (numVertices compressedGraph)
   = Z.of_N (numVertices graph) - Z.of_nat (size (instances_vset insts))
     + Z.of_nat (length insts))%Z
  ∧ (vertex_disjoint insts →
     (Z.of_N (numVertices compressedGraph)
      = Z.of_N (numVertices graph) - Z.of_nat (sum_numVertices insts)
        + Z.of_nat (length insts))%Z)
  ∧ length (vertices compressedGraph) = N.to_nat (numVertices compressedGraph).
Proof.
  intros Hinc Hga Hun Hr Hb.
  destruct (CompressGraph_numVertices_eq graph insts parameters Hinc Hga Hun Hr Hb)
    as (Heq & Hsz & Hlen).
  cbv zeta. split; [lia|]. split; [|done].
  intros Hd. rewrite <- (size_instances_vset_disjoint insts Hd). lia.
Qed.

Lemma CompressGraph_numVertices_witness :
  (Z.of_N (numVertices
     (CompressGraph example_path example_overlapping
        (example_parameters example_path true EVAL_SIZE)).1) = 3 - 3 + 2)%Z.
Proof.
  pose proof (CompressGraph_numVertices example_path example_overlapping
                (example_parameters example_path true EVAL_SIZE)) as H.
  destruct H as [H _].
  - reflexivity.
  - apply graph_arrays_check_ok. reflexivity.
  - apply vertices_unused_check. reflexivity.
  - apply vertices_in_range_check_ok. reflexivity.
  - reflexivity.
  - exact H.
Defined.

(** ** Counting loops with an invariant that depends on the index *)

Lemma foldl_seq_ind {S : Type} (P : nat → S → Prop) (f : S → nat → S)
    (lo len : nat) (s : S) :
  P lo s →
  (∀ i st, (lo ≤ i < lo + len)%nat → P i st → P (Datatypes.S i) (f st i)) →
  P (lo + len)%nat (foldl f s (seq lo len)).
Proof.
  revert lo s. induction len as [|len IH]; intros lo s H0 Hstep; simpl.
  - by rewrite Nat.add_0_r.
  - replace (lo + Datatypes.S len)%nat with (Datatypes.S lo + len)%nat by lia.
    apply IH.
    + apply Hstep; [lia | done].
    + intros i st Hi. apply Hstep. lia.
Qed.

Lemma ULONG_for_ind {S : Type} (P : nat → S → Prop) (n : ULONG)
    (body : ULONG → S → S) (s : S) :
  P 0%nat s →
  (∀ i st, (i < N.to_nat n)%nat → P i st → P (Datatypes.S i) (body (N.of_nat i) st)) →
  P (N.to_nat n) (ULONG_for n body s).
Proof.
  intros H0 Hstep. unfold ULONG_for.
  apply (foldl_seq_ind P (λ st i, body (N.of_nat i) st) 0 (N.to_nat n) s H0).
  intros i st Hi. apply Hstep. lia.
Qed.

Lemma ULONG_for_from_ind {S : Type} (P : nat → S → Prop) (lo hi : ULONG)
    (body : ULONG → S → S) (s : S) :
  lo ≤ hi →
  P (N.to_nat lo) s →
  (∀ i st, (N.to_nat lo ≤ i < N.to_nat hi)%nat → P i st →
           P (Datatypes.S i) (body (N.of_nat i) st)) →
  P (N.to_nat hi) (ULONG_for_from lo hi body s).
Proof.
  intros Hle H0 Hstep. unfold ULONG_for_from.
  replace (N.to_nat hi) with (N.to_nat lo + (N.to_nat hi - N.to_nat lo))%nat at 1 by lia.
  apply (foldl_seq_ind P (λ st i, body (N.of_nat i) st)); [done|].
  intros i st Hi. apply Hstep. lia.
Qed.

(** ** The cache of [Log2Factorial] *)

(** [lg (n!)] as the code accumulates it. *)
Fixpoint lgfact (n : nat) : R :=
  match n with
  | O => 0
  | S m => Log2 (N.of_nat n) + lgfact m
  end.

(** The cache holds [lg (i!)] in slot [i]; slots 0 and 1 are there. *)
Definition cache_ok (t : list R) : Prop :=
  (2 ≤ length t)%nat ∧ ∀ i x, t !! i = Some x → x = lgfact i.

Lemma cache_ok_initial : cache_ok [0%R; 0%R].
Proof.
  split; [simpl; lia|]. intros [|[|i]] x H; simpl in H; try done.
  - injection H as <-. done.
  - injection H as <-. simpl. unfold Log2. simpl.
    unfold double_of_ULONG. simpl. rewrite ln_1. unfold Rdiv. lra.
Qed.

Lemma set_log2Factorial_log2Factorial t p : log2Factorial (set_log2Factorial t p) = t.
Proof. done. Qed.

Lemma Log2Factorial_spec number parameters :
  cache_ok (log2Factorial parameters) →
  number + LIST_SIZE_INC < ULONG_MODULUS →
  ∃ t, Log2Factorial number parameters
       = (lgfact (N.to_nat number), set_log2Factorial t parameters)
     ∧ cache_ok t.
Proof.
  intros [Hlen Hc] Hb. unfold Log2Factorial.
  destruct (N.leb_spec (N.of_nat (length (log2Factorial parameters))) number) as [Hle|Hgt].
  - set (t0 := log2Factorial parameters) in *.
    set (newSize := uadd number LIST_SIZE_INC).
    assert (HnewSize : newSize = number + LIST_SIZE_INC) by (apply uadd_small; lia).
    match goal with |- context [ULONG_for_from ?lo ?hi ?b ?s] =>
      pose proof (ULONG_for_from_ind
        (λ i t, length t = N.to_nat newSize
                ∧ ∀ j x, (j < i)%nat → t !! j = Some x → x = lgfact j)
        lo hi b s) as Hloop; cbv beta in Hloop;
      set (t1 := ULONG_for_from lo hi b s) in *
    end.
    destruct Hloop as [Hl1 Hc1].
    + unfold LIST_SIZE_INC in *. lia.
    + split; [by rewrite length_resize|].
      intros j x Hj Hx. rewrite Nat2N.id in Hj.
      rewrite lookup_resize in Hx by (unfold LIST_SIZE_INC in *; lia).
      by apply Hc.
    + intros i t [Hi1 Hi2] [Hlt Hct]. rewrite Nat2N.id in Hi1.
      split; [by rewrite length_insert|].
      intros j x Hj Hx.
      destruct (decide (j = i)) as [->|Hne].
      * rewrite Nat2N.id in Hx. rewrite list_lookup_insert_eq in Hx by lia.
        injection Hx as <-.
        destruct i as [|i]; [lia|].
        simpl lgfact. f_equal.
        assert (Hu : usub (N.of_nat (Datatypes.S i)) 1 = N.of_nat i).
        { rewrite usub_small by (unfold LIST_SIZE_INC in *; lia). lia. }
        rewrite Hu, Nat2N.id.
        assert (Hlk : is_Some (t !! i)) by (apply lookup_lt_is_Some; lia).
        destruct Hlk as [y Hy]. rewrite (list_lookup_total_correct _ _ _ Hy).
        apply (Hct i); [lia | done].
      * rewrite Nat2N.id in Hx. rewrite list_lookup_insert_ne in Hx by done.
        apply (Hct j); [lia | done].
    + exists t1. split.
      * f_equal.
        assert (Hlk : is_Some (t1 !! N.to_nat number))
          by (apply lookup_lt_is_Some; unfold LIST_SIZE_INC in *; lia).
        destruct Hlk as [y Hy]. rewrite (list_lookup_total_correct _ _ _ Hy).
        apply (Hc1 (N.to_nat number)); [unfold LIST_SIZE_INC in *; lia | done].
      * split; [unfold LIST_SIZE_INC in *; lia|].
        intros i x Hx. apply (Hc1 i); [|done].
        apply lookup_lt_Some in Hx. lia.
  - exists (log2Factorial parameters). split; [|done].
    f_equal.
    + assert (Hlk : is_Some (log2Factorial parameters !! N.to_nat number))
        by (apply lookup_lt_is_Some; lia).
      destruct Hlk as [y Hy]. rewrite (list_lookup_total_correct _ _ _ Hy).
      by apply Hc.
    + by destruct parameters.
Qed.

(** ** Row [v1] of the adjacency matrix *)

(** The edge counts in row [v1]: it leaves [v1], or it is undirected
    and its other endpoint is not below [v1]. *)
Definition counts_toward (edge : Edge) (v1 : ULONG) : bool :=
  (directed edge && (vertex1 edge =? v1))
  || (negb (directed edge) && (v1 <=? otherVertex edge v1)).

(** The targets of the counted edges among the entries [es] of the
    edge array of [v1], with repetitions. *)
Definition targets_of (g : Graph) (v1 : ULONG) (es : list ULONG) : list ULONG :=
  (λ ei, otherVertex (getE g ei) v1)
    <$> filter (λ ei, counts_toward (getE g ei) v1 = true) es.

Definition row_targets (g : Graph) (v1 : ULONG) : list ULONG :=
  targets_of g v1 (vedges (getV g v1)).

(** [k_i]: the number of ones in row [i]. *)
Definition row_ones (g : Graph) (v1 : ULONG) : nat :=
  size (vset (row_targets g v1)).

Lemma targets_of_cons g v1 ei es :
  targets_of g v1 (ei :: es)
  = if counts_toward (getE g ei) v1
    then otherVertex (getE g ei) v1 :: targets_of g v1 es
    else targets_of g v1 es.
Proof.
  unfold targets_of. rewrite filter_cons.
  destruct (counts_toward (getE g ei) v1) eqn:E; case_decide; try done.
Qed.

(** The vertex array [vs] is [vs0] with the [used] flags of [S] set. *)
Definition marked_as (vs0 : list Vertex) (S : gset nat) (vs : list Vertex) : Prop :=
  ∀ i, vs !! i = (λ v, if bool_decide (i ∈ S) then set_vused true v else v) <$> vs0 !! i.

Lemma marked_as_empty vs0 : marked_as vs0 ∅ vs0.
Proof.
  intros i. destruct (vs0 !! i); simpl; [|done]. by rewrite bool_decide_eq_false_2 by set_solver.
Qed.

Lemma marked_as_length vs0 S vs : marked_as vs0 S vs → length vs = length vs0.
Proof.
  intros H. apply Nat.le_antisymm.
  - destruct (decide (length vs ≤ length vs0)%nat) as [|Hn]; [done|].
    assert (Hl : is_Some (vs !! length vs0)) by (apply lookup_lt_is_Some; lia).
    rewrite H in Hl. rewrite (lookup_ge_None_2 vs0) in Hl by lia. by destruct Hl.
  - destruct (decide (length vs0 ≤ length vs)%nat) as [|Hn]; [done|].
    assert (Hl : vs !! length vs = None) by (apply lookup_ge_None_2; lia).
    rewrite H in Hl.
    assert (Hl' : is_Some (vs0 !! length vs)) by (apply lookup_lt_is_Some; lia).
    destruct Hl' as [x Hx]. by rewrite Hx in Hl.
Qed.

Lemma marked_as_mark vs0 S vs (i : nat) :
  marked_as vs0 S vs →
  marked_as vs0 ({[i]} ∪ S) (alter (set_vused true) i vs).
Proof.
  intros H j. rewrite list_lookup_alter. destruct (decide (i = j)) as [Hij|Hij].
  - subst j. rewrite H. destruct (vs0 !! i) as [v|]; simpl; [|done].
    rewrite (bool_decide_eq_true_2 (i ∈ {[i]} ∪ S)) by set_solver.
    by case_bool_decide.
  - rewrite H. destruct (vs0 !! j) as [v|]; simpl; [|done].
    f_equal. repeat case_bool_decide; try done; set_solver.
Qed.

Lemma marked_as_used vs0 S vs (i : nat) v :
  (∀ v0, v0 ∈ vs0 → vused v0 = false) →
  marked_as vs0 S vs → vs !! i = Some v → (vused v = true ↔ i ∈ S).
Proof.
  intros H0 H Hl. rewrite H in Hl.
  destruct (vs0 !! i) as [v0|] eqn:E; simpl in Hl; [|done].
  injection Hl as <-.
  assert (vused v0 = false) by (apply H0; by eapply list_elem_of_lookup_2).
  case_bool_decide; simpl; split; try done; congruence.
Qed.

(** Resetting flags. *)
Lemma foldl_reset_lookup (R : list ULONG) (g : Graph) (i : nat) :
  vertices (foldl (λ g r, updV g r (set_vused false)) g R) !! i
  = (λ v, if bool_decide (i ∈ N.to_nat <$> R) then set_vused false v else v)
      <$> vertices g !! i.
Proof.
  revert g. induction R as [|r R IH]; intros g.
  - cbn [foldl]. destruct (vertices g !! i); [|done]. cbn [fmap option_fmap option_map].
    by rewrite bool_decide_eq_false_2 by set_solver.
  - cbn [foldl]. rewrite IH. unfold updV. cbn [vertices set_vertices].
    rewrite list_lookup_alter. destruct (decide (N.to_nat r = i)) as [Hr|Hr].
    + subst i. destruct (vertices g !! N.to_nat r) as [v|]; [|done].
      cbn [fmap option_fmap option_map].
      f_equal. repeat case_bool_decide; try done; set_solver.
    + destruct (vertices g !! i) as [v|]; [|done].
      cbn [fmap option_fmap option_map].
      f_equal. repeat case_bool_decide; try done; set_solver.
Qed.

Lemma foldl_reset_frame (R : list ULONG) (g : Graph) :
  let g' := foldl (λ g r, updV g r (set_vused false)) g R in
  numVertices g' = numVertices g ∧ numEdges g' = numEdges g ∧ edges g' = edges g.
Proof.
  cbv zeta. apply (foldl_invariant (λ g', numVertices g' = numVertices g
    ∧ numEdges g' = numEdges g ∧ edges g' = edges g)); [done|].
  intros a b (?&?&?) _. done.
Qed.

(** The reset loop of [NumUniqueEdges] resets the endpoints of the
    edges of [v1]. *)
Lemma NumUniqueEdges_reset_eq (g0 g : Graph) (es : list ULONG) :
  edges g = edges g0 →
  NumUniqueEdges_reset es g
  = foldl (λ g r, updV g r (set_vused false)) g
      (es ≫= λ ei, [vertex1 (getE g0 ei); vertex2 (getE g0 ei)]).
Proof.
  unfold NumUniqueEdges_reset.
  revert g. induction es as [|ei es IH]; intros g He; simpl; [done|].
  rewrite IH by done. unfold getE. by rewrite He.
Qed.

(** Well-formedness of the edge array of a vertex: the endpoints of its
    edges are vertices of the graph. *)
Definition endpoints_in_range (g : Graph) (v1 : ULONG) : Prop :=
  ∀ ei, ei ∈ vedges (getV g v1) →
        vertex1 (getE g ei) < numVertices g ∧ vertex2 (getE g ei) < numVertices g.

Definition all_unused (g : Graph) : Prop :=
  ∀ v, v ∈ vertices g → vused v = false.

Lemma otherVertex_cases edge v1 :
  otherVertex edge v1 = vertex1 edge ∨ otherVertex edge v1 = vertex2 edge.
Proof. unfold otherVertex. destruct (_ =? _); auto. Qed.

Lemma NumUniqueEdges_mark_loop (g0 : Graph) (v1 : ULONG) (es : list ULONG)
    (S : gset nat) (g : Graph) (n : ULONG) :
  graph_arrays g0 → all_unused g0 →
  (∀ ei, ei ∈ es → vertex1 (getE g0 ei) < numVertices g0
                   ∧ vertex2 (getE g0 ei) < numVertices g0) →
  edges g = edges g0 → numVertices g = numVertices g0 → numEdges g = numEdges g0 →
  marked_as (vertices g0) S (vertices g) →
  (∀ i, i ∈ S → (i < N.to_nat (numVertices g0))%nat) →
  n = N.of_nat (size S) →
  ∃ g', NumUniqueEdges_count v1 es (g, n)
        = (g', N.of_nat (size (S ∪ vset (targets_of g0 v1 es))))
      ∧ edges g' = edges g0 ∧ numVertices g' = numVertices g0
      ∧ numEdges g' = numEdges g0
      ∧ marked_as (vertices g0) (S ∪ vset (targets_of g0 v1 es)) (vertices g').
Proof.
  intros Hga Hun. unfold NumUniqueEdges_count. revert S g n.
  induction es as [|ei es IH]; intros S g n Hr He Hnv Hne Hm Hb Hn; simpl.
  - exists g. unfold targets_of. simpl. rewrite vset_nil.
    replace (S ∪ ∅) with S by set_solver.
    rewrite Hn. done.
  - rewrite targets_of_cons.
    assert (HgetE : getE g ei = getE g0 ei) by (unfold getE; by rewrite He).
    rewrite HgetE. fold (counts_toward (getE g0 ei) v1).
    destruct (counts_toward (getE g0 ei) v1) eqn:Ect.
    + set (v2 := otherVertex (getE g0 ei) v1).
      assert (Hv2 : v2 < numVertices g0).
      { destruct (Hr ei ltac:(left)) as [H1 H2].
        destruct (otherVertex_cases (getE g0 ei) v1) as [E|E]; unfold v2; rewrite E; done. }
      assert (Hlen : (N.to_nat v2 < length (vertices g))%nat).
      { rewrite (marked_as_length _ _ _ Hm). destruct Hga. lia. }
      pose proof (getV_lookup g v2 Hlen) as Hlook.
      pose proof (marked_as_used _ _ _ _ _ Hun Hm Hlook) as Hflag.
      rewrite vset_cons.
      replace (S ∪ ({[N.to_nat v2]} ∪ vset (targets_of g0 v1 es)))
        with (({[N.to_nat v2]} ∪ S) ∪ vset (targets_of g0 v1 es)) by set_solver.
      destruct (vused (getV g v2)) eqn:Hu; simpl.
      * assert (N.to_nat v2 ∈ S) by (by apply Hflag).
        replace ({[N.to_nat v2]} ∪ S) with S by set_solver.
        apply IH; try done. intros; apply Hr; by right.
      * assert (N.to_nat v2 ∉ S) by (intros HS; apply Hflag in HS; congruence).
        apply IH; try done.
        -- intros; apply Hr; by right.
        -- by apply marked_as_mark.
        -- intros i Hi. apply elem_of_union in Hi as [Hi|Hi]; [|by apply Hb].
           apply elem_of_singleton in Hi. subst i. lia.
        -- rewrite size_union by set_solver. rewrite size_singleton.
           assert (size S < N.to_nat (numVertices g0))%nat
             by (apply (size_bounded_notin S _ (N.to_nat v2)); [done | lia | done]).
           destruct Hga. rewrite Hn. rewrite uadd_small by lia. lia.
    + apply IH; try done. intros; apply Hr; by right.
Qed.

Lemma Vertex_reset_unused v : vused v = false → set_vused false v = v.
Proof. destruct v. simpl. by intros ->. Qed.

Lemma Vertex_reset_set v : vused v = false → set_vused false (set_vused true v) = v.
Proof. destruct v. simpl. by intros ->. Qed.

(** [NumUniqueEdges] counts the ones of the row and leaves the graph as
    it found it. *)
Lemma NumUniqueEdges_spec (g : Graph) (v1 : ULONG) :
  graph_arrays g → all_unused g → endpoints_in_range g v1 →
  NumUniqueEdges g v1 = (N.of_nat (row_ones g v1), g).
Proof.
  intros Hga Hun Hr. unfold NumUniqueEdges.
  destruct (NumUniqueEdges_mark_loop g v1 (vedges (getV g v1)) ∅ g 0 Hga Hun Hr)
    as (g' & Eloop & He & Hnv & Hne & Hm); try done.
  { apply marked_as_empty. }
  rewrite Eloop. rewrite left_id_L in * by apply _.
  f_equal.
  assert (HgetV : vedges (getV g' v1) = vedges (getV g v1)).
  { unfold getV. rewrite !list_lookup_total_alt, Hm.
    destruct (vertices g !! N.to_nat v1); simpl; [|done]. by case_bool_decide. }
  rewrite HgetV, (NumUniqueEdges_reset_eq g) by done.
  set (R := vedges (getV g v1) ≫= _).
  pose proof (foldl_reset_frame R g') as (F1 & F2 & F3). cbv zeta in *.
  set (g'' := foldl _ g' R) in *.
  assert (Hvs : vertices g'' = vertices g).
  { apply list_eq. intros i. unfold g''. rewrite foldl_reset_lookup, Hm.
    destruct (vertices g !! i) as [v0|] eqn:E0; simpl; [|done].
    assert (Hv0 : vused v0 = false) by (apply Hun; by eapply list_elem_of_lookup_2).
    f_equal. destruct (decide (i ∈ vset (row_targets g v1))) as [HS|HS].
    - rewrite (bool_decide_eq_true_2 _ HS).
      rewrite bool_decide_eq_true_2; [by apply Vertex_reset_set|].
      apply elem_of_vset in HS as (t & Ht & ->).
      apply list_elem_of_fmap. exists t. split; [done|].
      unfold row_targets, targets_of in Ht.
      apply list_elem_of_fmap in Ht as (ei & -> & Hei).
      apply list_elem_of_filter in Hei as [_ Hei].
      unfold R. apply list_elem_of_bind. exists ei. split; [|done].
      destruct (otherVertex_cases (getE g ei) v1) as [E|E]; rewrite E; set_solver.
    - rewrite (bool_decide_eq_false_2 _ HS).
      case_bool_decide; [by apply Vertex_reset_unused | done]. }
  destruct g'' as [a b c d], g as [a0 b0 c0 d0]. simpl in *. congruence.
Qed.

(** ** The largest number of parallel edges *)

(** The number of times [t] occurs in [l]. *)
Definition occurrences (t : ULONG) (l : list ULONG) : nat :=
  length (filter (λ x, x = t) l).

(** The largest number of occurrences of an element of [l]. *)
Definition max_multiplicity (l : list ULONG) : nat :=
  max_list ((λ t, occurrences t l) <$> l).

(** [M] for row [v1]: the largest number of counted edges from [v1] to
    one vertex. *)
Definition row_multiplicity (g : Graph) (v1 : ULONG) : nat :=
  max_multiplicity (row_targets g v1).

(** The maximum as the code finds it: at each position, the occurrences
    from that position on. *)
Fixpoint suffix_multiplicity (l : list ULONG) : nat :=
  match l with
  | [] => 0
  | t :: l' => Nat.max (1 + occurrences t l') (suffix_multiplicity l')
  end.

Lemma occurrences_cons t x l :
  occurrences t (x :: l) = if decide (x = t) then S (occurrences t l) else occurrences t l.
Proof. unfold occurrences. rewrite filter_cons. by case_decide. Qed.

Lemma occurrences_le_length t l : (occurrences t l ≤ length l)%nat.
Proof. unfold occurrences. apply length_filter. Qed.

Lemma max_list_fmap_le {A : Type} (f g : A → nat) (l : list A) :
  (∀ x, x ∈ l → (f x ≤ g x)%nat) → (max_list (f <$> l) ≤ max_list (g <$> l))%nat.
Proof.
  induction l as [|x l IH]; intros H; csimpl; [done|].
  assert (f x ≤ g x)%nat by (apply H; left).
  assert (max_list (f <$> l) ≤ max_list (g <$> l))%nat
    by (apply IH; intros; apply H; by right).
  lia.
Qed.

Lemma max_list_fmap_bound {A : Type} (f : A → nat) (l : list A) (b : nat) :
  (∀ x, x ∈ l → (f x ≤ b)%nat) → (max_list (f <$> l) ≤ b)%nat.
Proof.
  induction l as [|x l IH]; intros H; csimpl; [lia|].
  assert (f x ≤ b)%nat by (apply H; left).
  assert (max_list (f <$> l) ≤ b)%nat by (apply IH; intros; apply H; by right).
  lia.
Qed.

Lemma max_list_fmap_elem {A : Type} (f : A → nat) (l : list A) (x : A) :
  x ∈ l → (f x ≤ max_list (f <$> l))%nat.
Proof.
  induction l as [|y l IH]; intros H; [by apply elem_of_nil in H|].
  apply elem_of_cons in H as [->|H]; csimpl; [lia|].
  specialize (IH H). lia.
Qed.

Lemma suffix_multiplicity_max l : suffix_multiplicity l = max_multiplicity l.
Proof.
  unfold max_multiplicity. induction l as [|t l IH]; [done|].
  csimpl. rewrite IH.
  rewrite occurrences_cons. rewrite decide_True by done.
  apply Nat.le_antisymm.
  - apply Nat.max_lub; [lia|].
    etrans; [|apply Nat.le_max_r].
    apply max_list_fmap_le. intros x _. rewrite occurrences_cons. case_decide; lia.
  - apply Nat.max_lub; [lia|].
    apply max_list_fmap_bound. intros x Hx. rewrite occurrences_cons.
    case_decide as Hd.
    + subst x. lia.
    + etrans; [apply (max_list_fmap_elem (λ t0, occurrences t0 l) l x Hx)|]. lia.
Qed.

(** Parallel edges of [v1] are all directed or all undirected. *)
Definition parallel_uniform (g : Graph) (v1 : ULONG) (es : list ULONG) : Prop :=
  ∀ e1 e2, e1 ∈ es → e2 ∈ es →
    otherVertex (getE g e1) v1 = otherVertex (getE g e2) v1 →
    directed (getE g e1) = directed (getE g e2).

Lemma parallel_uniform_tail g v1 e es :
  parallel_uniform g v1 (e :: es) → parallel_uniform g v1 es.
Proof. intros H e1 e2 H1 H2. apply H; by right. Qed.

Lemma MaxEdgesToSingleVertex_count_spec g v1 e1 rest (c : ULONG) :
  counts_toward (getE g e1) v1 = true →
  (∀ e2, e2 ∈ rest →
     otherVertex (getE g e1) v1 = otherVertex (getE g e2) v1 →
     directed (getE g e1) = directed (getE g e2)) →
  c + N.of_nat (length rest) < ULONG_MODULUS →
  MaxEdgesToSingleVertex_count g v1 (otherVertex (getE g e1) v1) (getE g e1) rest c
  = c + N.of_nat (occurrences (otherVertex (getE g e1) v1) (targets_of g v1 rest)).
Proof.
  intros Hc1. unfold MaxEdgesToSingleVertex_count.
  revert c. induction rest as [|ej rest IH]; intros c Hu Hb.
  - simpl. unfold targets_of, occurrences. simpl. lia.
  - cbn [foldl]. cbv zeta. rewrite targets_of_cons.
    cbn [length] in Hb.
    destruct (N.eqb_spec (otherVertex (getE g ej) v1) (otherVertex (getE g e1) v1))
      as [Heq|Hne].
    + assert (Hd : directed (getE g e1) = directed (getE g ej))
        by (apply Hu; [left | done]).
      assert (Hcond : (directed (getE g ej) && (vertex1 (getE g ej) =? v1)
                || negb (directed (getE g e1))
                   && (v1 <=? otherVertex (getE g ej) v1))
              = counts_toward (getE g ej) v1).
      { unfold counts_toward. by rewrite Hd. }
      rewrite Hcond. destruct (counts_toward (getE g ej) v1).
      * rewrite occurrences_cons, decide_True by done.
        rewrite IH; [| intros; apply Hu; [by right | done] | rewrite uadd_small; lia].
        rewrite uadd_small by lia. lia.
      * apply IH; [intros; apply Hu; [by right | done] | lia].
    + destruct (counts_toward (getE g ej) v1).
      * rewrite occurrences_cons, decide_False by done.
        apply IH; [intros; apply Hu; [by right | done] | lia].
      * apply IH; [intros; apply Hu; [by right | done] | lia].
Qed.

Lemma suffix_multiplicity_le_length l : (suffix_multiplicity l ≤ length l)%nat.
Proof.
  induction l as [|t l IH]; simpl; [done|].
  pose proof (occurrences_le_length t l). lia.
Qed.

Lemma targets_of_length g v1 es : (length (targets_of g v1 es) ≤ length es)%nat.
Proof. unfold targets_of. rewrite length_fmap. apply length_filter. Qed.

Lemma MaxEdgesToSingleVertex_loop_spec g v1 es (m : ULONG) :
  parallel_uniform g v1 es →
  1 + N.of_nat (length es) < ULONG_MODULUS →
  MaxEdgesToSingleVertex_loop g v1 es m
  = N.max m (N.of_nat (suffix_multiplicity (targets_of g v1 es))).
Proof.
  revert m. induction es as [|ei es IH]; intros m Hu Hb.
  - simpl. unfold targets_of. simpl. lia.
  - cbn [MaxEdgesToSingleVertex_loop]. cbv zeta. rewrite targets_of_cons.
    cbn [length] in Hb.
    fold (counts_toward (getE g ei) v1).
    rewrite IH; [| by eapply parallel_uniform_tail | lia].
    destruct (counts_toward (getE g ei) v1) eqn:Ect.
    + rewrite (MaxEdgesToSingleVertex_count_spec g v1 ei es 1 Ect);
        [| intros e2 He2; apply Hu; [left | by right] | lia].
      cbn [suffix_multiplicity].
      destruct (N.ltb_spec m
        (1 + N.of_nat (occurrences (otherVertex (getE g ei) v1) (targets_of g v1 es))));
        lia.
    + done.
Qed.

Lemma MaxEdgesToSingleVertex_spec g v1 :
  parallel_uniform g v1 (vedges (getV g v1)) →
  1 + N.of_nat (length (vedges (getV g v1))) < ULONG_MODULUS →
  MaxEdgesToSingleVertex g v1 = N.of_nat (row_multiplicity g v1).
Proof.
  intros Hu Hb. unfold MaxEdgesToSingleVertex, row_multiplicity, row_targets.
  rewrite MaxEdgesToSingleVertex_loop_spec by done.
  rewrite suffix_multiplicity_max. lia.
Qed.

(** ** The description length of a graph *)

Definition sum_R (l : list R) : R := foldr Rplus 0%R l.

Lemma sum_R_app l1 l2 : sum_R (l1 ++ l2) = (sum_R l1 + sum_R l2)%R.
Proof. induction l1 as [|x l1 IH]; simpl; [lra|]. rewrite IH. lra. Qed.

Lemma max_list_snoc l x : max_list (l ++ [x]) = Nat.max (max_list l) x.
Proof. induction l as [|y l IH]; simpl; [lia|]. rewrite IH. lia. Qed.

Lemma sum_list_snoc l x : sum_list (l ++ [x]) = (sum_list l + x)%nat.
Proof. induction l as [|y l IH]; simpl; [lia|]. rewrite IH. lia. Qed.

(** The rows [0 .. n-1] of the graph. *)
Definition rows_upto {A : Type} (f : ULONG → A) (n : nat) : list A :=
  (λ i, f (N.of_nat i)) <$> seq 0 n.

Lemma rows_upto_S {A : Type} (f : ULONG → A) n :
  rows_upto f (S n) = rows_upto f n ++ [f (N.of_nat n)].
Proof. unfold rows_upto. by rewrite seq_S, fmap_app. Qed.

Lemma elem_of_rows_upto {A : Type} (f : ULONG → A) n x :
  x ∈ rows_upto f n → ∃ i, (i < n)%nat ∧ x = f (N.of_nat i).
Proof.
  unfold rows_upto. intros H. apply list_elem_of_fmap in H as (i & -> & Hi).
  apply elem_of_seq in Hi. exists i. split; [lia | done].
Qed.

(** [lg C(V, k)], the binary logarithm of the binomial coefficient. *)
Definition lg_choose (V k : nat) : R := (ln (C V k) / ln 2)%R.

(** The closed form of the description length. *)
Section formula.
Variable g : Graph.
Variable L : ULONG.

Let V : nat := N.to_nat (numVertices g).
Let E : ULONG := numEdges g.

(** [k_i], [B], [K] and [M] *)
Definition MDL_k (i : ULONG) : nat := row_ones g i.
Definition MDL_B : nat := max_list (rows_upto MDL_k V).
Definition MDL_K : nat := sum_list (rows_upto MDL_k V).
Definition MDL_M : nat := max_list (rows_upto (row_multiplicity g) V).

Definition vertexBits : R :=
  (Log2 (numVertices g) + INR V * Log2 L)%R.
Definition rowBits : R :=
  (INR (V + 1) * Log2 (N.of_nat (MDL_B + 1))
   + sum_R (rows_upto (λ i, lg_choose V (MDL_k i)) V))%R.
Definition edgeBits : R :=
  (double_of_ULONG E * (1 + Log2 L)
   + INR (MDL_K + 1) * Log2 (N.of_nat MDL_M))%R.

(** [M] as the largest value of [MaxEdgesToSingleVertex]. *)
Definition MDL_M_code : ULONG :=
  foldr N.max 0 (rows_upto (MaxEdgesToSingleVertex g) V).
Definition edgeBits_code : R :=
  (double_of_ULONG E * (1 + Log2 L) + INR (MDL_K + 1) * Log2 MDL_M_code)%R.

(** The description length of [g] with [L] labels. *)
Definition DL : R := (vertexBits + rowBits + edgeBits_code)%R.
End formula.

Lemma double_of_ULONG_INR (n : nat) : double_of_ULONG (N.of_nat n) = INR n.
Proof. unfold double_of_ULONG. by rewrite nat_N_Z, INR_IZR_INZ. Qed.

Lemma double_of_ULONG_INR' (n : ULONG) : double_of_ULONG n = INR (N.to_nat n).
Proof. rewrite <- double_of_ULONG_INR. by rewrite N2Nat.id. Qed.

Lemma ln_2_pos : (0 < ln 2)%R.
Proof. rewrite <- ln_1. apply ln_increasing; lra. Qed.

Lemma lgfact_fact n : lgfact n = (ln (INR (fact n)) / ln 2)%R.
Proof.
  induction n as [|n IH].
  - simpl. rewrite ln_1. unfold Rdiv. lra.
  - cbn [lgfact]. rewrite IH. unfold Log2.
    destruct (N.leb_spec (N.of_nat (S n)) 0) as [H|H]; [lia|].
    rewrite double_of_ULONG_INR. unfold LOG_2.
    replace (fact (S n)) with (S n * fact n)%nat by done.
    rewrite mult_INR, ln_mult.
    + pose proof ln_2_pos. field. lra.
    + apply lt_0_INR. lia.
    + apply INR_fact_lt_0.
Qed.

Lemma lg_choose_lgfact V k :
  (k ≤ V)%nat → lg_choose V k = (lgfact V - lgfact k - lgfact (V - k))%R.
Proof.
  intros Hk. unfold lg_choose, C. rewrite !lgfact_fact.
  pose proof (INR_fact_lt_0 V). pose proof (INR_fact_lt_0 k).
  pose proof (INR_fact_lt_0 (V - k)). pose proof ln_2_pos.
  assert (E : ln (INR (fact V) / (INR (fact k) * INR (fact (V - k))))
              = (ln (INR (fact V)) - ln (INR (fact k)) - ln (INR (fact (V - k))))%R).
  { unfold Rdiv. rewrite ln_mult, ln_Rinv, ln_mult; try done.
    - lra.
    - by apply Rmult_lt_0_compat.
    - apply Rinv_0_lt_compat. by apply Rmult_lt_0_compat. }
  rewrite E. field. lra.
Qed.

(** A graph whose description length the closed form gives. *)
Record MDL_wf (g : Graph) : Prop := {
  mw_arrays : graph_arrays g;
  mw_small : numVertices g < 4294967296;
  mw_unused : all_unused g;
  mw_endpoints : ∀ v1, v1 < numVertices g → endpoints_in_range g v1
}.

(** Parallel edges agree in directedness, and the edge arrays of the
    vertices can be counted. *)
Record MDL_uniform (g : Graph) : Prop := {
  mu_degree : ∀ v1, v1 < numVertices g →
      1 + N.of_nat (length (vedges (getV g v1))) < ULONG_MODULUS;
  mu_parallel : ∀ v1, v1 < numVertices g →
      parallel_uniform g v1 (vedges (getV g v1))
}.

Lemma foldr_max_snoc (l : list N) (x : N) :
  foldr N.max 0 (l ++ [x]) = N.max (foldr N.max 0 l) x.
Proof. induction l as [|y l IH]; simpl; [lia|]. rewrite IH. lia. Qed.

Lemma max_list_N (l : list nat) :
  foldr N.max 0 (N.of_nat <$> l) = N.of_nat (max_list l).
Proof. induction l as [|y l IH]; csimpl; [done|]. rewrite IH. lia. Qed.

Lemma MDL_M_code_multiplicity g :
  MDL_uniform g → MDL_M_code g = N.of_nat (MDL_M g).
Proof.
  intros [Hdeg Hpar]. unfold MDL_M_code, MDL_M. rewrite <- max_list_N.
  f_equal. unfold rows_upto. rewrite <- list_fmap_compose.
  apply list_fmap_ext. intros i x Hx. apply lookup_seq in Hx as [-> Hi].
  simpl. apply MaxEdgesToSingleVertex_spec; [apply Hpar | apply Hdeg]; lia.
Qed.

Lemma row_ones_le g v1 :
  endpoints_in_range g v1 → (row_ones g v1 ≤ N.to_nat (numVertices g))%nat.
Proof.
  intros Hr. unfold row_ones. apply size_bounded. intros i Hi.
  apply elem_of_vset in Hi as (t & Ht & ->).
  unfold row_targets, targets_of in Ht.
  apply list_elem_of_fmap in Ht as (ei & -> & Hei).
  apply list_elem_of_filter in Hei as [_ Hei].
  destruct (Hr ei Hei) as [H1 H2].
  destruct (otherVertex_cases (getE g ei) v1) as [E|E]; rewrite E; lia.
Qed.

Lemma sum_list_rows_bound (f : ULONG → nat) (n b : nat) :
  (∀ i, (i < n)%nat → (f (N.of_nat i) ≤ b)%nat) →
  (sum_list (rows_upto f n) ≤ n * b)%nat.
Proof.
  intros H. induction n as [|n IH]; [done|].
  rewrite rows_upto_S, sum_list_snoc.
  assert (f (N.of_nat n) ≤ b)%nat by (apply H; lia).
  assert (sum_list (rows_upto f n) ≤ n * b)%nat by (apply IH; intros; apply H; lia).
  lia.
Qed.

Lemma max_list_rows_bound (f : ULONG → nat) (n b : nat) :
  (∀ i, (i < n)%nat → (f (N.of_nat i) ≤ b)%nat) →
  (max_list (rows_upto f n) ≤ b)%nat.
Proof.
  intros H. apply max_list_fmap_bound. intros i Hi. apply elem_of_seq in Hi.
  apply H. lia.
Qed.

(** The state of the loop of [MDL] after [i] vertices. *)
Record MDL_inv (g : Graph) (p : Parameters) (i : nat) (st : MDL_state) : Prop := {
  mi_graph : mdl_graph st = g;
  mi_params : ∃ t, mdl_parameters st = set_log2Factorial t p ∧ cache_ok t;
  mi_rowBits :
    mdl_rowBits st
    = (INR (N.to_nat (numVertices g)) * lgfact (N.to_nat (numVertices g))
       - sum_R (rows_upto (λ j, lgfact (MDL_k g j)
                                + lgfact (N.to_nat (numVertices g) - MDL_k g j))%R i))%R;
  mi_B : mdl_B st = N.of_nat (max_list (rows_upto (MDL_k g) i));
  mi_K : mdl_K st = N.of_nat (sum_list (rows_upto (MDL_k g) i));
  mi_M : mdl_M st = foldr N.max 0 (rows_upto (MaxEdgesToSingleVertex g) i)
}.

Lemma set_log2Factorial_twice t t' p :
  set_log2Factorial t (set_log2Factorial t' p) = set_log2Factorial t p.
Proof. done. Qed.

Lemma MDL_body_inv g p i st :
  MDL_wf g → (i < N.to_nat (numVertices g))%nat →
  MDL_inv g p i st →
  MDL_inv g p (S i) (MDL_body (numVertices g) (N.of_nat i) st).
Proof.
  intros Hwf Hi [Hg (t & Hp & Hc) Hrow HB HK HM].
  destruct Hwf as [Hga Hsmall Hun Hend].
  assert (Hi' : N.of_nat i < numVertices g) by lia.
  unfold MDL_body. rewrite Hg.
  rewrite (NumUniqueEdges_spec g (N.of_nat i) Hga Hun (Hend _ Hi')).
  pose proof (row_ones_le g (N.of_nat i) (Hend _ Hi')) as Hk.
  fold (MDL_k g (N.of_nat i)) in *. set (k := MDL_k g (N.of_nat i)) in *.
  rewrite Hp.
  destruct (Log2Factorial_spec (N.of_nat k) (set_log2Factorial t p)) as (t1 & E1 & Hc1);
    [done | unfold LIST_SIZE_INC, ULONG_MODULUS; lia |].
  rewrite E1, set_log2Factorial_twice.
  assert (Hsub : usub (numVertices g) (N.of_nat k)
                 = N.of_nat (N.to_nat (numVertices g) - k)).
  { rewrite usub_small; [lia | lia | by destruct Hga]. }
  rewrite Hsub.
  destruct (Log2Factorial_spec (N.of_nat (N.to_nat (numVertices g) - k))
              (set_log2Factorial t1 p)) as (t2 & E2 & Hc2);
    [done | unfold LIST_SIZE_INC, ULONG_MODULUS; lia |].
  rewrite E2, set_log2Factorial_twice. rewrite !Nat2N.id.
  split; cbn [mdl_graph mdl_parameters mdl_rowBits mdl_B mdl_K mdl_M].
  - done.
  - by exists t2.
  - rewrite Hrow, rows_upto_S, sum_R_app. simpl. fold k. lra.
  - rewrite HB, rows_upto_S, max_list_snoc. fold k.
    destruct (N.ltb_spec (N.of_nat (max_list (rows_upto (MDL_k g) i))) (N.of_nat k)); lia.
  - rewrite HK, rows_upto_S, sum_list_snoc. fold k.
    assert (sum_list (rows_upto (MDL_k g) i) ≤ i * N.to_nat (numVertices g))%nat.
    { apply sum_list_rows_bound. intros j Hj. apply row_ones_le, Hend. lia. }
    rewrite uadd_small; [lia|]. unfold ULONG_MODULUS. nia.
  - rewrite HM, rows_upto_S, foldr_max_snoc.
    destruct (N.ltb_spec (foldr N.max 0 (rows_upto (MaxEdgesToSingleVertex g) i))
                (MaxEdgesToSingleVertex g (N.of_nat i))); lia.
Qed.

Lemma sum_R_rows_minus (a : R) (f : ULONG → R) (n : nat) :
  sum_R (rows_upto (λ i, a - f i)%R n) = (INR n * a - sum_R (rows_upto f n))%R.
Proof.
  induction n as [|n IH].
  - simpl. lra.
  - rewrite !rows_upto_S, !sum_R_app, IH, S_INR. simpl. lra.
Qed.

Lemma sum_R_rows_ext (f f' : ULONG → R) (n : nat) :
  (∀ i, (i < n)%nat → f (N.of_nat i) = f' (N.of_nat i)) →
  sum_R (rows_upto f n) = sum_R (rows_upto f' n).
Proof.
  intros H. induction n as [|n IH]; [done|].
  rewrite !rows_upto_S, !sum_R_app. rewrite IH by (intros; apply H; lia).
  rewrite H by lia. done.
Qed.

(** [MDL] computes the closed form, leaves the graph as it found it and
    keeps the cache sound. *)
Lemma MDL_spec g L p :
  MDL_wf g → cache_ok (log2Factorial p) →
  ∃ t, MDL g L p = (DL g L, g, set_log2Factorial t p) ∧ cache_ok t.
Proof.
  intros Hwf Hc. pose proof Hwf as [Hga Hsmall Hun Hend].
  unfold MDL.
  destruct (Log2Factorial_spec (numVertices g) p) as (t0 & E0 & Hc0);
    [done | unfold LIST_SIZE_INC, ULONG_MODULUS; lia |].
  rewrite E0.
  match goal with |- context [ULONG_for ?n ?b ?s] =>
    pose proof (ULONG_for_ind (MDL_inv g p) n b s) as Hloop;
    set (st := ULONG_for n b s) in *
  end.
  destruct Hloop as [Hg (t & Hp & Hct) Hrow HB HK HM].
  { split; cbn [mdl_graph mdl_parameters mdl_rowBits mdl_B mdl_K mdl_M]; try done.
    - by exists t0.
    - rewrite double_of_ULONG_INR'. simpl. lra. }
  { intros i st' Hi Hinv. by apply MDL_body_inv. }
  exists t. split; [|done]. rewrite Hg, Hp. f_equal. f_equal.
  set (V := N.to_nat (numVertices g)) in *.
  assert (HBle : (max_list (rows_upto (MDL_k g) V) ≤ V)%nat).
  { apply max_list_rows_bound. intros j Hj. apply row_ones_le, Hend. lia. }
  assert (HKle : (sum_list (rows_upto (MDL_k g) V) ≤ V * V)%nat).
  { apply sum_list_rows_bound. intros j Hj. apply row_ones_le, Hend. lia. }
  rewrite Hrow, HB, HK, HM.
  rewrite !uadd_small by (unfold ULONG_MODULUS; nia).
  unfold DL, vertexBits, rowBits, edgeBits_code, MDL_B, MDL_K, MDL_M_code. fold V.
  rewrite !double_of_ULONG_INR'.
  replace (N.to_nat (numVertices g + 1)) with (V + 1)%nat by lia.
  replace (N.of_nat (max_list (rows_upto (MDL_k g) V)) + 1)
    with (N.of_nat (max_list (rows_upto (MDL_k g) V) + 1)) by lia.
  replace (N.to_nat (N.of_nat (sum_list (rows_upto (MDL_k g) V)) + 1))
    with (sum_list (rows_upto (MDL_k g) V) + 1)%nat by lia.
  rewrite (sum_R_rows_ext (λ i, lg_choose V (MDL_k g i))
             (λ i, lgfact V - (lgfact (MDL_k g i) + lgfact (V - MDL_k g i)))%R).
  - rewrite sum_R_rows_minus. subst V. ring.
  - intros i Hi. rewrite lg_choose_lgfact; [lra|]. apply row_ones_le, Hend. lia.
Qed.

(** Executable checks of the well-formedness conditions. *)

Definition rows_check (g : Graph) (check : ULONG → bool) : bool :=
  forallb (λ i, check (N.of_nat i)) (seq 0 (N.to_nat (numVertices g))).

Lemma rows_check_ok g check v1 :
  rows_check g check = true → v1 < numVertices g → check v1 = true.
Proof.
  unfold rows_check. rewrite forallb_forall. intros H Hv.
  specialize (H (N.to_nat v1)). rewrite N2Nat.id in H. apply H.
  apply in_seq. lia.
Qed.

Definition all_unused_check (g : Graph) : bool :=
  forallb (λ v, negb (vused v)) (vertices g).

Lemma all_unused_check_ok g : all_unused_check g = true → all_unused g.
Proof.
  unfold all_unused_check. rewrite forallb_forall. intros H v Hv.
  apply list_elem_of_In in Hv. apply H in Hv. by destruct (vused v).
Qed.

Definition endpoints_check (g : Graph) : bool :=
  rows_check g (λ v1,
    forallb (λ ei, (vertex1 (getE g ei) <? numVertices g)
                   && (vertex2 (getE g ei) <? numVertices g))
            (vedges (getV g v1))).

Definition MDL_wf_check (g : Graph) : bool :=
  graph_arrays_check g && (numVertices g <? 4294967296)
  && all_unused_check g && endpoints_check g.

Lemma MDL_wf_check_ok g : MDL_wf_check g = true → MDL_wf g.
Proof.
  unfold MDL_wf_check. rewrite !andb_true_iff. intros [[[H1 H2] H3] H4]. split.
  - by apply graph_arrays_check_ok.
  - by apply N.ltb_lt.
  - by apply all_unused_check_ok.
  - intros v1 Hv ei Hei.
    pose proof (rows_check_ok _ _ v1 H4 Hv) as Hc. cbv beta in Hc.
    rewrite forallb_forall in Hc. apply list_elem_of_In in Hei.
    apply Hc in Hei. apply andb_true_iff in Hei as [Ha Hb].
    split; by apply N.ltb_lt.
Qed.

Definition MDL_uniform_check (g : Graph) : bool :=
  rows_check g (λ v1,
    let es := vedges (getV g v1) in
    (1 + N.of_nat (length es) <? ULONG_MODULUS)
    && forallb (λ e1,
         forallb (λ e2,
           implb (otherVertex (getE g e1) v1 =? otherVertex (getE g e2) v1)
                 (eqb (directed (getE g e1)) (directed (getE g e2)))) es) es).

Lemma MDL_uniform_check_ok g : MDL_uniform_check g = true → MDL_uniform g.
Proof.
  intros H. split; intros v1 Hv;
    pose proof (rows_check_ok _ _ v1 H Hv) as Hc; cbv beta zeta in Hc;
    apply andb_true_iff in Hc as [Ha Hb].
  - by apply N.ltb_lt.
  - intros e1 e2 H1 H2 Heq. rewrite forallb_forall in Hb.
    apply list_elem_of_In in H1, H2. apply Hb in H1. rewrite forallb_forall in H1.
    apply H1 in H2. rewrite Heq, N.eqb_refl in H2. simpl in H2.
    by apply eqb_prop.
Qed.

(** The description length when parallel edges agree in directedness:
    [MDL_M_code] is the largest multiplicity [MDL_M]. *)
Lemma DL_uniform g L :
  MDL_uniform g →
  let V := N.to_nat (numVertices g) in
  DL g L
  = (Log2 (numVertices g) + INR V * Log2 L
     + INR (V + 1) * Log2 (N.of_nat (MDL_B g + 1))
     + sum_R (rows_upto (λ i, lg_choose V (MDL_k g i)) V)
     + double_of_ULONG (numEdges g) * (1 + Log2 L)
     + INR (MDL_K g + 1) * Log2 (N.of_nat (MDL_M g)))%R.
Proof.
  intros Hu V. unfold DL, vertexBits, rowBits, edgeBits_code.
  rewrite (MDL_M_code_multiplicity g Hu). fold V. ring.
Qed.

(** C2 (as amended).  [MDL] returns
    [lg V + V lg L + (V+1) lg (B+1) + Σ_i lg C(V, k_i) + E (1 + lg L)
     + (K+1) lg M]: the vertex bits are [lg V + V lg L].  Here [k_i] is
    the number of distinct vertices [j] with a directed edge from [i] to
    [j] or an undirected edge between [i] and [j ≥ i], [B] is the
    largest and [K] the sum of the [k_i], and [M] is the largest number
    of such edges from one vertex to another, in a graph whose parallel
    edges agree in directedness. *)
Theorem MDL_description_length g L p :
  MDL_wf g → MDL_uniform g → cache_ok (log2Factorial p) →
  let V := N.to_nat (numVertices g) in
  (MDL g L p).1.1
  = (Log2 (numVertices g) + INR V * Log2 L
     + INR (V + 1) * Log2 (N.of_nat (MDL_B g + 1))
     + sum_R (rows_upto (λ i, lg_choose V (MDL_k g i)) V)
     + double_of_ULONG (numEdges g) * (1 + Log2 L)
     + INR (MDL_K g + 1) * Log2 (N.of_nat (MDL_M g)))%R.
Proof.
  intros Hwf Hu Hc V. destruct (MDL_spec g L p Hwf Hc) as (t & E & _).
  rewrite E. cbn [fst]. by apply DL_uniform.
Qed.

(** The formula with [V (1 + lg L)] vertex bits. *)
Definition MDL_claimed (g : Graph) (L : ULONG) : R :=
  let V := N.to_nat (numVertices g) in
  (INR V * (1 + Log2 L)
   + INR (V + 1) * Log2 (N.of_nat (MDL_B g + 1))
   + sum_R (rows_upto (λ i, lg_choose V (MDL_k g i)) V)
   + double_of_ULONG (numEdges g) * (1 + Log2 L)
   + INR (MDL_K g + 1) * Log2 (N.of_nat (MDL_M g)))%R.

Lemma Log2_0 : Log2 0 = 0%R.
Proof. done. Qed.

Lemma Log2_1 : Log2 1 = 0%R.
Proof.
  unfold Log2. simpl. unfold double_of_ULONG. simpl. rewrite ln_1. unfold Rdiv. lra.
Qed.

Lemma Log2_2 : Log2 2 = 1%R.
Proof.
  unfold Log2. simpl. unfold double_of_ULONG, LOG_2. simpl.
  pose proof ln_2_pos. field. lra.
Qed.

Lemma MDL_description_length_witness :
  (MDL example_path 3 (example_parameters example_path false EVAL_MDL)).1.1
  = (Log2 3 + INR 3 * Log2 3
     + INR (3 + 1) * Log2 (N.of_nat (MDL_B example_path + 1))
     + sum_R (rows_upto (λ i, lg_choose 3 (MDL_k example_path i)) 3)
     + double_of_ULONG 3 * (1 + Log2 3)
     + INR (MDL_K example_path + 1) * Log2 (N.of_nat (MDL_M example_path)))%R.
Proof.
  apply (MDL_description_length example_path 3
           (example_parameters example_path false EVAL_MDL)).
  - apply MDL_wf_check_ok. reflexivity.
  - apply MDL_uniform_check_ok. reflexivity.
  - apply cache_ok_initial.
Defined.

(** On a single vertex and one label, [MDL] returns 0 bits and the
    claimed formula gives 1. *)
Lemma MDL_claimed_counterexample :
  (MDL example_vertex 1 (example_parameters example_vertex false EVAL_MDL)).1.1
  ≠ MDL_claimed example_vertex 1.
Proof.
  destruct (MDL_spec example_vertex 1 (example_parameters example_vertex false EVAL_MDL))
    as (t & E & _).
  - apply MDL_wf_check_ok. reflexivity.
  - apply cache_ok_initial.
  - rewrite E. cbn [fst]. rewrite DL_uniform.
    + unfold MDL_claimed. cbv zeta.
      change (N.to_nat (numVertices example_vertex)) with 1%nat.
      change (numVertices example_vertex) with 1.
      rewrite Log2_1. simpl INR. lra.
    + apply MDL_uniform_check_ok. reflexivity.
Qed.

(** ** [EvaluateSub] under EVAL_MDL *)

(** [CompressGraph] reads neither the graphs of the parameters nor the
    cache of [Log2Factorial]. *)
Lemma CompressGraph_set_log2Factorial g il t p :
  CompressGraph g il (set_log2Factorial t p) = CompressGraph g il p.
Proof. reflexivity. Qed.

Lemma CompressGraph_set_posGraph g il g' p :
  CompressGraph g il (set_posGraph g' p) = CompressGraph g il p.
Proof. reflexivity. Qed.

Lemma CompressGraph_set_negGraph g il g' p :
  CompressGraph g il (set_negGraph g' p) = CompressGraph g il p.
Proof. reflexivity. Qed.

(** The definition that is scored: for a recursive substructure, a copy
    of the definition with a directed self-edge on vertex 0. *)
Definition scored_definition (sub : Substructure) : Graph :=
  if recursive sub
  then AddEdge (CopyGraph (definition sub)) 0 0 true (recursiveEdgeLabel sub) false
  else definition sub.

(** The number of labels of a compressed graph: one more for "SUB", and
    one more for "OVERLAP" when instances overlap. *)
Definition compressed_numLabels (sub : Substructure) (p : Parameters) : ULONG :=
  let numLabels := uadd (numLabels (labelList p)) 1 in
  if allowInstanceOverlap p
     && (InstancesOverlap (instances sub) || InstancesOverlap (negInstances sub))
  then uadd numLabels 1
  else numLabels.

(** [DL(G|s)]: the description length of [G] compressed with the
    instances, with the bits of the external edges. *)
Definition DL_compressed (g : Graph) (il : option InstanceList) (n : ULONG)
    (sub : Substructure) (p : Parameters) : R :=
  let compressedGraph := (CompressGraph g (deref_InstanceList il) p).1 in
  (DL compressedGraph (compressed_numLabels sub p)
   + ExternalEdgeBits compressedGraph (definition sub) n)%R.

Lemma EvaluateSub_MDL_neg sub p gn :
  negGraph p = Some gn →
  cache_ok (log2Factorial p) →
  MDL_wf (definition sub) →
  MDL_wf (CompressGraph (posGraph p) (deref_InstanceList (instances sub)) p).1 →
  MDL_wf (CompressGraph gn (deref_InstanceList (negInstances sub)) p).1 →
  (EvaluateSub_MDL sub p).1.1
  = ((posGraphDL p + negGraphDL p)
     / (DL (definition sub) (numLabels (labelList p))
        + DL_compressed (posGraph p) (instances sub) (numInstances sub) sub p
        + negGraphDL p
        - DL_compressed gn (negInstances sub) (numNegInstances sub) sub p))%R.
Proof.
  intros Hneg Hc Hd Hp Hn. unfold EvaluateSub_MDL, DL_compressed.
  fold (compressed_numLabels sub p).
  destruct (MDL_spec (definition sub) (numLabels (labelList p)) p Hd Hc)
    as (t1 & E1 & Hc1).
  rewrite E1. cbv zeta.
  replace (set_definition (definition sub) sub) with sub by (by destruct sub).
  change (posGraph (set_log2Factorial t1 p)) with (posGraph p).
  rewrite CompressGraph_set_log2Factorial.
  destruct (CompressGraph (posGraph p) (deref_InstanceList (instances sub)) p)
    as [cgp pg'] eqn:Ecp.
  cbn [fst] in Hp.
  destruct (MDL_spec cgp (compressed_numLabels sub p)
              (set_posGraph pg' (set_log2Factorial t1 p)) Hp Hc1)
    as (t2 & E2 & Hc2).
  unfold compressed_numLabels in E2 |- *. cbv zeta in E2.
  change (allowInstanceOverlap (set_log2Factorial t1 p)) with (allowInstanceOverlap p).
  change (labelList (set_log2Factorial t1 p)) with (labelList p).
  rewrite E2. rewrite Hneg.
  change (negGraph (set_log2Factorial t2 (set_posGraph pg' (set_log2Factorial t1 p))))
    with (negGraph p).
  rewrite Hneg. change (deref_Graph (Some gn)) with gn.
  rewrite CompressGraph_set_log2Factorial, CompressGraph_set_posGraph,
    CompressGraph_set_log2Factorial.
  destruct (CompressGraph gn (deref_InstanceList (negInstances sub)) p)
    as [cgn ng'] eqn:Ecn.
  cbn [fst] in Hn.
  destruct (MDL_spec cgn (compressed_numLabels sub p)
              (set_negGraph (Some ng')
                 (set_log2Factorial t2 (set_posGraph pg' (set_log2Factorial t1 p))))
              Hn Hc2)
    as (t3 & E3 & Hc3).
  unfold compressed_numLabels in E3. cbv zeta in E3.
  rewrite E3. cbn [fst].
  change (posGraphDL (set_log2Factorial t1 p)) with (posGraphDL p).
  change (negGraphDL (set_log2Factorial t1 p)) with (negGraphDL p).
  done.
Qed.

#[local] Opaque MDL CompressGraph ExternalEdgeBits PosExamplesCovered
  NegExamplesCovered CopyGraph AddEdge InstancesOverlap.

(** The substructure as [EvaluateSub] hands it to the evaluation: the
    examples counted and, for a recursive substructure, the recursive
    edge added. *)
Definition scored_sub (sub : Substructure) (p : Parameters) : Substructure :=
  let sub := set_numExamples (PosExamplesCovered sub p) sub in
  let sub := set_numNegExamples 0 sub in
  let sub :=
    match negGraph p with
    | Some _ => set_numNegExamples (NegExamplesCovered sub p) sub
    | None => sub
    end in
  if recursive sub
  then set_definition
         (AddEdge (CopyGraph (definition sub)) 0 0 true (recursiveEdgeLabel sub) false)
         sub
  else sub.

Lemma EvaluateSub_value_MDL sub p :
  evalMethod p = EVAL_MDL →
  value (EvaluateSub sub p).1 = (EvaluateSub_MDL (scored_sub sub p) p).1.1.
Proof.
  intros Hm. unfold EvaluateSub, scored_sub. rewrite Hm.
  cbn [N.eqb Pos.eqb EVAL_MDL]. cbv zeta.
  destruct (EvaluateSub_MDL _ p) as [[v sub3] p3]. cbn [fst].
  by destruct (recursive (set_value v sub3)).
Qed.

Lemma scored_sub_fields sub p :
  definition (scored_sub sub p) = scored_definition sub
  ∧ instances (scored_sub sub p) = instances sub
  ∧ negInstances (scored_sub sub p) = negInstances sub
  ∧ numInstances (scored_sub sub p) = numInstances sub
  ∧ numNegInstances (scored_sub sub p) = numNegInstances sub.
Proof.
  unfold scored_sub, scored_definition.
  destruct (negGraph p); cbn; by destruct (recursive sub).
Qed.

#[local] Transparent MDL CompressGraph ExternalEdgeBits PosExamplesCovered
  NegExamplesCovered CopyGraph AddEdge InstancesOverlap.

(** C1 (as amended).  With a negative graph, [EvaluateSub] under MDL
    sets the value to
    [(DL(G_pos) + DL(G_neg)) / (DL(s) + DL(G_pos|s) + DL(G_neg) - DL(G_neg|s))]:
    the numerator holds the description lengths of both graphs.
    [DL(G_pos)] and [DL(G_neg)] are the cached [posGraphDL] and
    [negGraphDL], and [DL(G|s)] includes the bits of
    [ExternalEdgeBits]. *)
Theorem EvaluateSub_MDL_value sub p gn :
  evalMethod p = EVAL_MDL →
  negGraph p = Some gn →
  cache_ok (log2Factorial p) →
  let s := scored_definition sub in
  let L := numLabels (labelList p) in
  let L' := compressed_numLabels sub p in
  let cpos := (CompressGraph (posGraph p) (deref_InstanceList (instances sub)) p).1 in
  let cneg := (CompressGraph gn (deref_InstanceList (negInstances sub)) p).1 in
  MDL_wf s → MDL_wf cpos → MDL_wf cneg →
  value (EvaluateSub sub p).1
  = ((posGraphDL p + negGraphDL p)
     / (DL s L
        + (DL cpos L' + ExternalEdgeBits cpos s (numInstances sub))
        + negGraphDL p
        - (DL cneg L' + ExternalEdgeBits cneg s (numNegInstances sub))))%R.
Proof.
  intros Hm Hneg Hc s L L' cpos cneg Hs Hp Hn.
  rewrite EvaluateSub_value_MDL by done.
  destruct (scored_sub_fields sub p) as (Hdef & Hinst & Hninst & Hnum & Hnnum).
  pose proof (EvaluateSub_MDL_neg (scored_sub sub p) p gn Hneg Hc) as Hv.
  unfold DL_compressed, compressed_numLabels in Hv.
  rewrite Hdef, Hinst, Hninst, Hnum, Hnnum in Hv.
  exact (Hv Hs Hp Hn).
Qed.


(** The value with the description length of the positive graph alone
    as numerator. *)
Definition EvaluateSub_MDL_claimed (sub : Substructure) (p : Parameters) (gn : Graph) : R :=
  let s := scored_definition sub in
  let L := numLabels (labelList p) in
  let L' := compressed_numLabels sub p in
  let cpos := (CompressGraph (posGraph p) (deref_InstanceList (instances sub)) p).1 in
  let cneg := (CompressGraph gn (deref_InstanceList (negInstances sub)) p).1 in
  (posGraphDL p
   / (DL s L
      + (DL cpos L' + ExternalEdgeBits cpos s (numInstances sub))
      + negGraphDL p
      - (DL cneg L' + ExternalEdgeBits cneg s (numNegInstances sub))))%R.

Lemma lg_choose_0 n : lg_choose n 0 = 0%R.
Proof.
  unfold lg_choose, C. simpl fact. rewrite Nat.sub_0_r.
  pose proof (INR_fact_lt_0 n).
  replace (INR (fact n) / (INR 1 * INR (fact n)))%R with 1%R by (simpl; field; lra).
  rewrite ln_1. unfold Rdiv. lra.
Qed.

(** The description lengths of the example graphs. *)
Lemma DL_example_vertex : DL example_vertex 1 = 0%R.
Proof.
  unfold DL, vertexBits, rowBits, edgeBits_code.
  change (MDL_B example_vertex) with 0%nat.
  change (MDL_K example_vertex) with 0%nat.
  change (MDL_M_code example_vertex) with 0.
  change (numVertices example_vertex) with 1.
  change (numEdges example_vertex) with 0.
  change (N.to_nat 1) with 1%nat.
  unfold rows_upto. simpl seq. simpl fmap. simpl sum_R.
  change (MDL_k example_vertex (N.of_nat 0)) with 0%nat.
  change (N.of_nat (0 + 1)) with 1. change (N.of_nat 0) with 0.
  rewrite lg_choose_0, Log2_0, Log2_1. simpl. unfold double_of_ULONG. simpl. lra.
Qed.

(** [example_pair] compressed with the two instances of [A]: two "SUB"
    vertices. *)
Definition example_pair_compressed : Graph :=
  mkGraph 2 0
    [mkVertex 1 [] VERTEX_UNMAPPED false; mkVertex 1 [] VERTEX_UNMAPPED false] [].

Lemma CompressGraph_example_pair :
  (CompressGraph example_pair
     [example_instance [0] []; example_instance [1] []] example_parameters_MDL).1
  = example_pair_compressed.
Proof. vm_compute. reflexivity. Qed.

Lemma DL_example_pair_compressed : DL example_pair_compressed 2 = 3%R.
Proof.
  unfold DL, vertexBits, rowBits, edgeBits_code.
  change (MDL_B example_pair_compressed) with 0%nat.
  change (MDL_K example_pair_compressed) with 0%nat.
  change (MDL_M_code example_pair_compressed) with 0.
  change (numVertices example_pair_compressed) with 2.
  change (numEdges example_pair_compressed) with 0.
  change (N.to_nat 2) with 2%nat.
  unfold rows_upto. simpl seq. simpl fmap. simpl sum_R.
  change (MDL_k example_pair_compressed (N.of_nat 0)) with 0%nat.
  change (MDL_k example_pair_compressed (N.of_nat 1)) with 0%nat.
  change (N.of_nat (0 + 1)) with 1.
  rewrite lg_choose_0, Log2_0, Log2_1, Log2_2. simpl. unfold double_of_ULONG. simpl. lra.
Qed.

Lemma ExternalEdgeBits_example_pair_compressed s n :
  n ≤ 2 → ExternalEdgeBits example_pair_compressed s n = 0%R.
Proof.
  intros Hn. unfold ExternalEdgeBits.
  apply (ULONG_for_invariant (λ x, x = 0%R)); [done|].
  intros i x Hi ->.
  assert (Hc : i = 0 ∨ i = 1) by lia. by destruct Hc as [-> | ->].
Qed.

(** On [example_sub_A], whose graphs have description lengths of one
    bit each, [EvaluateSub] sets the value to 2; with the description
    length of the positive graph alone as numerator it would be 1. *)
Lemma EvaluateSub_MDL_claimed_counterexample :
  value (EvaluateSub example_sub_A example_parameters_MDL).1
  ≠ EvaluateSub_MDL_claimed example_sub_A example_parameters_MDL example_pair.
Proof.
  rewrite EvaluateSub_value_MDL by reflexivity.
  rewrite (EvaluateSub_MDL_neg _ example_parameters_MDL example_pair).
  - unfold EvaluateSub_MDL_claimed, DL_compressed, compressed_numLabels.
    destruct (scored_sub_fields example_sub_A example_parameters_MDL)
      as (-> & -> & -> & -> & ->).
    fold (compressed_numLabels example_sub_A example_parameters_MDL).
    cbv zeta.
    change (scored_definition example_sub_A) with example_vertex.
    change (deref_InstanceList (instances example_sub_A))
      with [example_instance [0] []; example_instance [1] []].
    change (deref_InstanceList (negInstances example_sub_A))
      with [example_instance [0] []; example_instance [1] []].
    change (posGraph example_parameters_MDL) with example_pair.
    rewrite CompressGraph_example_pair.
    change (numLabels (labelList example_parameters_MDL)) with 1.
    change (compressed_numLabels example_sub_A example_parameters_MDL) with 2.
    rewrite DL_example_vertex, DL_example_pair_compressed.
    rewrite !ExternalEdgeBits_example_pair_compressed by done.
    change (posGraphDL example_parameters_MDL) with 1%R.
    change (negGraphDL example_parameters_MDL) with 1%R.
    replace (0 + (3 + 0) + 1 - (3 + 0))%R with 1%R by lra.
    unfold Rdiv. rewrite Rinv_1. lra.
  - reflexivity.
  - apply cache_ok_initial.
  - apply MDL_wf_check_ok. reflexivity.
  - apply MDL_wf_check_ok. reflexivity.
  - apply MDL_wf_check_ok. reflexivity.
Qed.

Lemma EvaluateSub_MDL_value_witness :
  value (EvaluateSub example_sub_A example_parameters_MDL).1
  = ((1 + 1) / (DL example_vertex 1
                + (DL example_pair_compressed 2
                   + ExternalEdgeBits example_pair_compressed example_vertex 2)
                + 1
                - (DL example_pair_compressed 2
                   + ExternalEdgeBits example_pair_compressed example_vertex 2)))%R.
Proof.
  pose proof (EvaluateSub_MDL_value example_sub_A example_parameters_MDL example_pair)
    as H.
  cbv zeta in H.
  change (deref_InstanceList (instances example_sub_A))
    with [example_instance [0] []; example_instance [1] []] in H.
  change (deref_InstanceList (negInstances example_sub_A))
    with [example_instance [0] []; example_instance [1] []] in H.
  change (posGraph example_parameters_MDL) with example_pair in H.
  rewrite CompressGraph_example_pair in H.
  apply H.
  - reflexivity.
  - reflexivity.
  - apply cache_ok_initial.
  - apply MDL_wf_check_ok. reflexivity.
  - apply MDL_wf_check_ok. reflexivity.
  - apply MDL_wf_check_ok. reflexivity.
Defined.

(** ** [EvaluateSub] under EVAL_SETCOVER *)

(** Example [i] of a graph holds the vertices from its start index up
    to the start index of the next example, or up to the end of the
    graph for the last example. *)
Definition example_start (egsVertexIndices : list ULONG) (i : nat) : ULONG :=
  egsVertexIndices !!! i.

Definition example_limit (graph : Graph) (numEgs : ULONG)
    (egsVertexIndices : list ULONG) (i : nat) : ULONG :=
  if decide (S i < N.to_nat numEgs)%nat
  then egsVertexIndices !!! S i
  else numVertices graph.

(** The first vertex of the instance lies in example [i]. *)
Definition instance_in_example (graph : Graph) (numEgs : ULONG)
    (egsVertexIndices : list ULONG) (i : nat) (instance : Instance) : bool :=
  match ivertices instance with
  | [] => false
  | v :: _ =>
      (example_start egsVertexIndices i <=? v)
      && (v <? example_limit graph numEgs egsVertexIndices i)
  end.

(** Example [i] is covered: some instance has its first vertex in it. *)
Definition example_covered (l : list Instance) (graph : Graph) (numEgs : ULONG)
    (egsVertexIndices : list ULONG) (i : nat) : bool :=
  existsb (instance_in_example graph numEgs egsVertexIndices i) l.

(** The number of covered examples; a null list covers none. *)
Definition covered_count (instanceList : option InstanceList) (graph : Graph)
    (numEgs : ULONG) (egsVertexIndices : list ULONG) : nat :=
  match instanceList with
  | None => 0
  | Some l =>
      length (filter (λ i, example_covered l graph numEgs egsVertexIndices i = true)
                     (seq 0 (N.to_nat numEgs)))
  end.

(** The examples of a graph: every example but the first starts after
    vertex 0, and a graph with an example is not empty. *)
Record examples_wf (graph : Graph) (numEgs : ULONG) (egsVertexIndices : list ULONG)
    : Prop := {
  ew_numEgs : numEgs < ULONG_MODULUS;
  ew_numVertices : numVertices graph < ULONG_MODULUS;
  ew_indices : ∀ i, (i < N.to_nat numEgs)%nat → egsVertexIndices !!! i < ULONG_MODULUS;
  ew_next : ∀ i, (0 < i < N.to_nat numEgs)%nat → 1 ≤ egsVertexIndices !!! i;
  ew_nonempty : 0 < numEgs → 1 ≤ numVertices graph
}.

Definition instances_nonempty (instanceList : option InstanceList) : Prop :=
  ∀ l instance, instanceList = Some l → instance ∈ l → ivertices instance ≠ [].

Lemma ExamplesCovered_scan_spec l graph numEgs egs i lo hi (n : ULONG) :
  (∀ instance, instance ∈ l → ivertices instance ≠ []) →
  lo = example_start egs i →
  1 ≤ example_limit graph numEgs egs i →
  hi = example_limit graph numEgs egs i - 1 →
  ExamplesCovered_scan l lo hi n
  = if example_covered l graph numEgs egs i then uadd n 1 else n.
Proof.
  intros Hne -> Hlim ->. unfold example_covered.
  induction l as [|instance l IH]; [done|].
  cbn [ExamplesCovered_scan existsb].
  assert (Hi : ivertices instance ≠ []) by (apply Hne; left).
  unfold instance_in_example at 1.
  destruct (ivertices instance) as [|v vs] eqn:E; [done|].
  change ((v :: vs) !!! 0%nat) with v.
  replace (v <=? example_limit graph numEgs egs i - 1)
    with (v <? example_limit graph numEgs egs i)
    by (destruct (N.ltb_spec v (example_limit graph numEgs egs i));
        destruct (N.leb_spec v (example_limit graph numEgs egs i - 1)); lia).
  destruct (_ && _); [done|].
  apply IH. intros; apply Hne; by right.
Qed.

Lemma ExamplesCovered_spec instanceList graph numEgs egs :
  examples_wf graph numEgs egs →
  instances_nonempty instanceList →
  ExamplesCovered instanceList graph numEgs egs 0
  = N.of_nat (covered_count instanceList graph numEgs egs).
Proof.
  intros [Hn Hv Hidx Hnext Hnon] Hne. unfold ExamplesCovered, covered_count.
  destruct instanceList as [l|]; [|done].
  match goal with |- context [ULONG_for ?n ?b ?s] =>
    pose proof (ULONG_for_ind
      (λ i c, c = N.of_nat (length (filter
           (λ j, example_covered l graph numEgs egs j = true) (seq 0 i))))
      n b s) as Hloop; cbv beta in Hloop
  end.
  apply Hloop; [done|]. clear Hloop.
  intros i c Hi ->. rewrite seq_S, filter_app, length_app. cbn [Nat.add].
  rewrite Nat2N.id. fold (example_start egs i).
  assert (Hnumpos : 0 < numEgs) by lia.
  assert (Hu1 : usub numEgs 1 = numEgs - 1) by (apply usub_small; lia).
  assert (Hu2 : uadd (N.of_nat i) 1 = N.of_nat (S i)) by (rewrite uadd_small; lia).
  rewrite Hu1, Hu2, Nat2N.id.
  assert (Hlimit : (if N.of_nat i <? numEgs - 1
                    then usub (egs !!! S i) 1
                    else usub (numVertices graph) 1)
                   = example_limit graph numEgs egs i - 1
                   ∧ 1 ≤ example_limit graph numEgs egs i).
  { unfold example_limit. destruct (N.ltb_spec (N.of_nat i) (numEgs - 1)).
    - rewrite decide_True by lia.
      assert (1 ≤ egs !!! S i) by (apply Hnext; lia).
      assert (egs !!! S i < ULONG_MODULUS) by (apply Hidx; lia).
      rewrite usub_small by lia. done.
    - rewrite decide_False by lia.
      specialize (Hnon Hnumpos). rewrite usub_small by lia. done. }
  destruct Hlimit as [Hl1 Hl2]. rewrite Hl1.
  assert (Hz : (0 <=? example_start egs i) = true) by (apply N.leb_le; lia).
  rewrite Hz.
  rewrite (ExamplesCovered_scan_spec l graph numEgs egs i); try done;
    [|intros; by eapply Hne].
  rewrite filter_cons, filter_nil.
  assert (Hlen : (length (filter (λ j, example_covered l graph numEgs egs j = true)
                            (seq 0 i)) ≤ i)%nat).
  { etrans; [apply length_filter|]. by rewrite length_seq. }
  destruct (example_covered l graph numEgs egs i) eqn:Ec.
  - rewrite decide_True by done. rewrite uadd_small by lia. simpl. lia.
  - rewrite decide_False by done. simpl. lia.
Qed.

Lemma covered_count_le instanceList graph numEgs egs :
  (covered_count instanceList graph numEgs egs ≤ N.to_nat numEgs)%nat.
Proof.
  unfold covered_count. destruct instanceList; [|lia].
  etrans; [apply length_filter|]. by rewrite length_seq.
Qed.

(** The negative examples covered; none without a negative graph. *)
Definition neg_covered_count (sub : Substructure) (p : Parameters) : nat :=
  match negGraph p with
  | Some gn => covered_count (negInstances sub) gn (numNegEgs p) (negEgsVertexIndices p)
  | None => 0
  end.

Lemma EvaluateSub_SETCOVER_spec sub p :
  incremental p = false →
  (EvaluateSub_SETCOVER sub p).1.1
  = (double_of_ULONG
       (uadd (PosExamplesCovered sub p)
             (usub (numNegEgs p)
                   match negGraph p with
                   | Some _ => NegExamplesCovered sub p
                   | None => 0
                   end))
     / double_of_ULONG (uadd (numPosEgs p) (numNegEgs p)))%R.
Proof.
  intros Hinc. unfold EvaluateSub_SETCOVER. rewrite Hinc.
  by destruct (negGraph p).
Qed.

Definition examples_wf_check (graph : Graph) (numEgs : ULONG)
    (egsVertexIndices : list ULONG) : bool :=
  (numEgs <? ULONG_MODULUS) && (numVertices graph <? ULONG_MODULUS)
  && forallb (λ i, egsVertexIndices !!! i <? ULONG_MODULUS) (seq 0 (N.to_nat numEgs))
  && forallb (λ i, 1 <=? egsVertexIndices !!! i) (seq 1 (N.to_nat numEgs - 1))
  && ((numEgs =? 0) || (1 <=? numVertices graph)).

Lemma examples_wf_check_ok graph numEgs egs :
  examples_wf_check graph numEgs egs = true → examples_wf graph numEgs egs.
Proof.
  unfold examples_wf_check. rewrite !andb_true_iff, orb_true_iff, !forallb_forall.
  intros [[[[H1 H2] H3] H4] H5]. split.
  - by apply N.ltb_lt.
  - by apply N.ltb_lt.
  - intros i Hi. apply N.ltb_lt, H3, in_seq. lia.
  - intros i Hi. apply N.leb_le, H4, in_seq. lia.
  - intros Hpos. destruct H5 as [H5|H5]; [apply N.eqb_eq in H5; lia|by apply N.leb_le].
Qed.

Lemma instances_nonempty_check l :
  forallb (λ instance, negb (bool_decide (ivertices instance = []))) l = true →
  instances_nonempty (Some l).
Proof.
  rewrite forallb_forall. intros H l' instance [= <-] Hin Hnil.
  apply list_elem_of_In, H in Hin. rewrite bool_decide_eq_true_2 in Hin; done.
Qed.

(** C7.  Under EVAL_SETCOVER, [EvaluateSub] sets the value to
    [(posEgsCovered + (numNegEgs - negEgsCovered)) / (numPosEgs + numNegEgs)],
    where an example counts as covered when some instance of the list
    has its first vertex in the vertex range of the example. *)
Theorem EvaluateSub_SETCOVER_value sub p :
  evalMethod p = EVAL_SETCOVER →
  incremental p = false →
  examples_wf (posGraph p) (numPosEgs p) (posEgsVertexIndices p) →
  instances_nonempty (instances sub) →
  (∀ gn, negGraph p = Some gn →
         examples_wf gn (numNegEgs p) (negEgsVertexIndices p)
         ∧ instances_nonempty (negInstances sub)) →
  0 < numPosEgs p + numNegEgs p < ULONG_MODULUS →
  let posEgsCovered :=
    covered_count (instances sub) (posGraph p) (numPosEgs p) (posEgsVertexIndices p) in
  let negEgsCovered := neg_covered_count sub p in
  value (EvaluateSub sub p).1
  = (IZR (Z.of_nat posEgsCovered + (Z.of_N (numNegEgs p) - Z.of_nat negEgsCovered))
     / IZR (Z.of_N (numPosEgs p) + Z.of_N (numNegEgs p)))%R.
Proof.
  intros Hm Hinc Hpos Hpi Hneg [_ Hb] posEgsCovered negEgsCovered.
  assert (Hple : (posEgsCovered ≤ N.to_nat (numPosEgs p))%nat)
    by apply covered_count_le.
  assert (Hnle : (negEgsCovered ≤ N.to_nat (numNegEgs p))%nat).
  { unfold negEgsCovered, neg_covered_count. destruct (negGraph p); [|lia].
    apply covered_count_le. }
  unfold EvaluateSub. rewrite Hm. cbn [N.eqb Pos.eqb EVAL_MDL EVAL_SIZE EVAL_SETCOVER].
  match goal with |- context [EvaluateSub_SETCOVER ?s p] => set (sub2 := s) end.
  assert (Hinst : instances sub2 = instances sub)
    by (unfold sub2; destruct (negGraph p); cbn; by destruct (recursive sub)).
  assert (Hninst : negInstances sub2 = negInstances sub)
    by (unfold sub2; destruct (negGraph p); cbn; by destruct (recursive sub)).
  pose proof (EvaluateSub_SETCOVER_spec sub2 p Hinc) as Hv.
  destruct (EvaluateSub_SETCOVER sub2 p) as [[v sub3] p3].
  cbn [fst] in Hv. subst v.
  assert (Hval : ∀ (c : bool) d x, value (if c then set_definition d x else x) = value x)
    by (by intros []).
  cbn [fst]. rewrite Hval. cbn [value set_value].
  assert (Hpc : PosExamplesCovered sub2 p = N.of_nat posEgsCovered).
  { unfold PosExamplesCovered. rewrite Hinc, Hinst. by apply ExamplesCovered_spec. }
  assert (Hnc : match negGraph p with
                | Some _ => NegExamplesCovered sub2 p
                | None => 0
                end = N.of_nat negEgsCovered).
  { unfold negEgsCovered, neg_covered_count.
    destruct (negGraph p) as [gn|] eqn:En; [|done].
    destruct (Hneg gn eq_refl) as [Hnw Hni].
    unfold NegExamplesCovered. rewrite Hinc, En, Hninst.
    by apply ExamplesCovered_spec. }
  rewrite Hpc, Hnc. unfold double_of_ULONG.
  rewrite usub_small by lia. rewrite !uadd_small by lia.
  f_equal; f_equal; lia.
Qed.

Lemma EvaluateSub_SETCOVER_value_witness :
  value (EvaluateSub example_sub_path
           (example_parameters example_path true EVAL_SETCOVER)).1 = (1 / 1)%R.
Proof.
  apply (EvaluateSub_SETCOVER_value example_sub_path
           (example_parameters example_path true EVAL_SETCOVER)).
  - reflexivity.
  - reflexivity.
  - apply examples_wf_check_ok. reflexivity.
  - apply instances_nonempty_check. reflexivity.
  - intros gn Hgn. discriminate Hgn.
  - split; reflexivity.
Defined.

(** ** The frame of [EvaluateSub] *)

(** The fields of a substructure other than its definition. *)
Definition sub_fields (s : Substructure) :=
  (numInstances s, numExamples s, instances s, numNegInstances s,
   numNegExamples s, negInstances s, value s, recursive s,
   recursiveEdgeLabel s, posIncrementValue s, negIncrementValue s).

(** The fields that the evaluation reads. *)
Definition sub_inputs (s : Substructure) :=
  (definition s, numInstances s, instances s, numNegInstances s, negInstances s).

Lemma EvaluateSub_MDL_frame sub p :
  sub_fields (EvaluateSub_MDL sub p).1.2 = sub_fields sub.
Proof.
  unfold EvaluateSub_MDL.
  repeat match goal with
         | |- context [MDL ?g ?l ?q] => destruct (MDL g l q) as [[? ?] ?]
         | |- context [CompressGraph ?g ?l ?q] => destruct (CompressGraph g l q) as [? ?]
         end.
  destruct (negGraph p); [|done].
  repeat match goal with
         | |- context [MDL ?g ?l ?q] => destruct (MDL g l q) as [[? ?] ?]
         | |- context [CompressGraph ?g ?l ?q] => destruct (CompressGraph g l q) as [? ?]
         end.
  done.
Qed.

Lemma EvaluateSub_SIZE_frame sub p :
  incremental p = false →
  (EvaluateSub_SIZE sub p).1.2 = sub.
Proof.
  intros Hinc. unfold EvaluateSub_SIZE. rewrite Hinc.
  destruct (SizeOfCompressedGraph (posGraph p) _ _ _) as [? ?].
  destruct (negGraph _); [|done].
  by destruct (SizeOfCompressedGraph _ _ _ _) as [? ?].
Qed.

Lemma EvaluateSub_SETCOVER_frame sub p :
  incremental p = false →
  (EvaluateSub_SETCOVER sub p).1.2 = sub.
Proof.
  intros Hinc. unfold EvaluateSub_SETCOVER. rewrite Hinc.
  by destruct (negGraph p).
Qed.

(** In every mode the branches by size and by set cover leave the
    definition and the fields below as they are; in incremental mode
    they write [posIncrementValue] and [negIncrementValue]. *)
Definition sub_kept (s : Substructure) :=
  (definition s, numInstances s, numExamples s, instances s, numNegInstances s,
   numNegExamples s, negInstances s, value s, recursive s, recursiveEdgeLabel s).

Lemma EvaluateSub_SIZE_kept sub p :
  sub_kept (EvaluateSub_SIZE sub p).1.2 = sub_kept sub.
Proof.
  unfold EvaluateSub_SIZE.
  destruct (incremental p);
    destruct (SizeOfCompressedGraph (posGraph p) _ _ _) as [? ?];
    (destruct (negGraph _); [|done]);
    by destruct (SizeOfCompressedGraph _ _ _ _) as [? ?].
Qed.

Lemma EvaluateSub_SETCOVER_kept sub p :
  sub_kept (EvaluateSub_SETCOVER sub p).1.2 = sub_kept sub.
Proof.
  unfold EvaluateSub_SETCOVER.
  by destruct (incremental p); destruct (negGraph p).
Qed.

(** The value of the branch by description length without a negative
    graph. *)
Lemma EvaluateSub_MDL_pos sub p :
  negGraph p = None →
  cache_ok (log2Factorial p) →
  MDL_wf (definition sub) →
  MDL_wf (CompressGraph (posGraph p) (deref_InstanceList (instances sub)) p).1 →
  (EvaluateSub_MDL sub p).1.1
  = (posGraphDL p
     / (DL (definition sub) (numLabels (labelList p))
        + DL_compressed (posGraph p) (instances sub) (numInstances sub) sub p))%R.
Proof.
  intros Hneg Hc Hd Hp. unfold EvaluateSub_MDL, DL_compressed.
  fold (compressed_numLabels sub p).
  destruct (MDL_spec (definition sub) (numLabels (labelList p)) p Hd Hc)
    as (t1 & E1 & Hc1).
  rewrite E1. cbv zeta.
  replace (set_definition (definition sub) sub) with sub by (by destruct sub).
  change (posGraph (set_log2Factorial t1 p)) with (posGraph p).
  rewrite CompressGraph_set_log2Factorial.
  destruct (CompressGraph (posGraph p) (deref_InstanceList (instances sub)) p)
    as [cgp pg'] eqn:Ecp.
  cbn [fst] in Hp.
  destruct (MDL_spec cgp (compressed_numLabels sub p)
              (set_posGraph pg' (set_log2Factorial t1 p)) Hp Hc1)
    as (t2 & E2 & Hc2).
  unfold compressed_numLabels in E2 |- *. cbv zeta in E2.
  change (allowInstanceOverlap (set_log2Factorial t1 p)) with (allowInstanceOverlap p).
  change (labelList (set_log2Factorial t1 p)) with (labelList p).
  rewrite E2. rewrite Hneg. cbn [fst].
  change (posGraphDL (set_log2Factorial t1 p)) with (posGraphDL p).
  done.
Qed.

(** The value that [EvaluateSub] stores is the value of the branch on
    the substructure with the scored definition. *)
Lemma EvaluateSub_value_SIZE sub p :
  evalMethod p = EVAL_SIZE →
  value (EvaluateSub sub p).1 = (EvaluateSub_SIZE (scored_sub sub p) p).1.1.
Proof.
  intros Hm. unfold EvaluateSub, scored_sub. rewrite Hm.
  cbn [N.eqb Pos.eqb EVAL_MDL EVAL_SIZE]. cbv zeta.
  destruct (EvaluateSub_SIZE _ p) as [[v sub3] p3]. cbn [fst].
  by destruct (recursive (set_value v sub3)).
Qed.

Lemma EvaluateSub_value_SETCOVER sub p :
  evalMethod p = EVAL_SETCOVER →
  value (EvaluateSub sub p).1 = (EvaluateSub_SETCOVER (scored_sub sub p) p).1.1.
Proof.
  intros Hm. unfold EvaluateSub, scored_sub. rewrite Hm.
  cbn [N.eqb Pos.eqb EVAL_MDL EVAL_SIZE EVAL_SETCOVER]. cbv zeta.
  destruct (EvaluateSub_SETCOVER _ p) as [[v sub3] p3]. cbn [fst].
  by destruct (recursive (set_value v sub3)).
Qed.

(** The fields of the substructure that [EvaluateSub] returns: the
    definition is the given one also for a recursive substructure, the
    examples are counted from the instances, and the increment values
    are written in incremental mode only, by size and by set cover. *)
Lemma EvaluateSub_fields sub p :
  let sub' := (EvaluateSub sub p).1 in
  (recursive sub = true → definition sub' = definition sub)
  ∧ numInstances sub' = numInstances sub
  ∧ instances sub' = instances sub
  ∧ numNegInstances sub' = numNegInstances sub
  ∧ negInstances sub' = negInstances sub
  ∧ recursive sub' = recursive sub
  ∧ recursiveEdgeLabel sub' = recursiveEdgeLabel sub
  ∧ numExamples sub' = PosExamplesCovered sub p
  ∧ numNegExamples sub'
    = match negGraph p with Some _ => NegExamplesCovered sub p | None => 0 end
  ∧ (incremental p = false ∨ evalMethod p = EVAL_MDL →
       posIncrementValue sub' = posIncrementValue sub
       ∧ negIncrementValue sub' = negIncrementValue sub).
Proof.
  cbv zeta. unfold EvaluateSub.
  set (sub1 := match negGraph p with
               | Some _ => set_numNegExamples _ _
               | None => set_numNegExamples 0 (set_numExamples (PosExamplesCovered sub p) sub)
               end).
  assert (H1 : (definition sub1, numInstances sub1, instances sub1,
                numNegInstances sub1, negInstances sub1, recursive sub1,
                recursiveEdgeLabel sub1, posIncrementValue sub1, negIncrementValue sub1,
                numExamples sub1, numNegExamples sub1)
               = (definition sub, numInstances sub, instances sub,
                  numNegInstances sub, negInstances sub, recursive sub,
                  recursiveEdgeLabel sub, posIncrementValue sub, negIncrementValue sub,
                  PosExamplesCovered sub p,
                  match negGraph p with Some _ => NegExamplesCovered sub p | None => 0 end))
    by (unfold sub1; by destruct (negGraph p)).
  injection H1 as A0 A1 A2 A3 A4 A5 A6 A7 A8 A9 A10.
  set (sub2 := if recursive sub1 then set_definition _ sub1 else sub1).
  assert (H2 : (numInstances sub2, instances sub2, numNegInstances sub2,
                negInstances sub2, recursive sub2, recursiveEdgeLabel sub2,
                posIncrementValue sub2, negIncrementValue sub2,
                numExamples sub2, numNegExamples sub2)
               = (numInstances sub1, instances sub1, numNegInstances sub1,
                  negInstances sub1, recursive sub1, recursiveEdgeLabel sub1,
                  posIncrementValue sub1, negIncrementValue sub1,
                  numExamples sub1, numNegExamples sub1))
    by (unfold sub2; destruct (recursive sub1) eqn:E; cbn; by rewrite ?E).
  injection H2 as B1 B2 B3 B4 B5 B6 B7 B8 B9 B10.
  set (branch := if evalMethod p =? EVAL_MDL then EvaluateSub_MDL sub2 p else _).
  assert (H3 : (numInstances branch.1.2, instances branch.1.2,
                numNegInstances branch.1.2, negInstances branch.1.2,
                recursive branch.1.2, recursiveEdgeLabel branch.1.2,
                numExamples branch.1.2, numNegExamples branch.1.2)
               = (numInstances sub2, instances sub2, numNegInstances sub2,
                  negInstances sub2, recursive sub2, recursiveEdgeLabel sub2,
                  numExamples sub2, numNegExamples sub2)
               ∧ (incremental p = false ∨ evalMethod p = EVAL_MDL →
                    posIncrementValue branch.1.2 = posIncrementValue sub2
                    ∧ negIncrementValue branch.1.2 = negIncrementValue sub2)).
  { unfold branch. destruct (N.eqb_spec (evalMethod p) EVAL_MDL) as [Em|Em].
    - pose proof (EvaluateSub_MDL_frame sub2 p) as F. unfold sub_fields in F.
      injection F as F1 F2 F3 F4 F5 F6 F7 F8 F9 F10 F11.
      split; [congruence|]. intros _. by split.
    - destruct (evalMethod p =? EVAL_SIZE).
      + pose proof (EvaluateSub_SIZE_kept sub2 p) as F. unfold sub_kept in F.
        injection F as F0 F1 F2 F3 F4 F5 F6 F7 F8 F9.
        split; [congruence|]. intros [Hinc|?]; [|done].
        by rewrite EvaluateSub_SIZE_frame.
      + destruct (evalMethod p =? EVAL_SETCOVER).
        * pose proof (EvaluateSub_SETCOVER_kept sub2 p) as F. unfold sub_kept in F.
          injection F as F0 F1 F2 F3 F4 F5 F6 F7 F8 F9.
          split; [congruence|]. intros [Hinc|?]; [|done].
          by rewrite EvaluateSub_SETCOVER_frame.
        * done. }
  destruct branch as [[v sub3] p3]. cbn [fst snd] in *.
  destruct H3 as [H3 H3']. injection H3 as C1 C2 C3 C4 C5 C6 C7 C8.
  cbn [recursive set_value].
  split.
  { intros Hr. rewrite C5, B5, A5, Hr. cbn. exact A0. }
  assert (Hi : incremental p = false ∨ evalMethod p = EVAL_MDL →
               posIncrementValue sub3 = posIncrementValue sub
               ∧ negIncrementValue sub3 = negIncrementValue sub).
  { intros Hi. destruct (H3' Hi). split; congruence. }
  destruct (recursive sub3) eqn:E3; cbn; rewrite ?E3;
    repeat (split; [congruence|]); exact Hi.
Qed.

(** ** [SizeOfCompressedGraph] against [CompressGraph] *)

(** C3.  On [example_path] with the two overlapping instances and
    overlap allowed, [SizeOfCompressedGraph] returns 5 while the graph
    built by [CompressGraph] has 2 vertices and 4 edges: the self-edge
    on the shared vertex is duplicated twice by [CompressGraph], which
    has set the vertex maps, and once by [NumOverlapEdges], which reads
    the maps as [AddVertex] left them. *)
Theorem SizeOfCompressedGraph_overlap_mismatch :
  let p := example_parameters example_path true EVAL_SIZE in
  (SizeOfCompressedGraph example_path (Some example_overlapping) p POS).1 = 5
  ∧ GraphSize (CompressGraph example_path example_overlapping p).1 = 6
  ∧ (SizeOfCompressedGraph example_path (Some example_overlapping) p POS).2
    = example_path.
Proof. repeat split; vm_compute; reflexivity. Qed.

(** ** Without overlap the two sizes agree *)

(** The edge half of the marking loop of [CompressGraph]. *)
Lemma CompressGraph_mark_edges g0 startVertex startEdge insts S graph nv ne no :
  graph_arrays g0 →
  edges_in_range g0 insts →
  ecount_inv g0 S (graph, ne) →
  let st := CompressGraph_mark false startVertex startEdge insts (graph, nv, ne, no) in
  ecount_inv g0 (S ∪ instances_eset insts) (st.1.1.1, st.1.2).
Proof.
  intros Hga. unfold CompressGraph_mark.
  revert S graph nv ne no. induction insts as [|inst insts IH];
    intros S graph nv ne no Hr Hinv; simpl.
  - unfold instances_eset. simpl. by rewrite right_id_L by apply _.
  - pose proof (CompressGraph_markVertices_edges false startVertex no inst (graph, nv)) as Hv.
    destruct (CompressGraph_markVertices false startVertex no inst (graph, nv))
      as [graph1 nv1] eqn:Ev.
    simpl in Hv. destruct Hv as [Hv1 Hv2].
    pose proof (CompressGraph_markEdges_inv g0 startEdge inst S (graph1, ne) Hga) as He.
    destruct (CompressGraph_markEdges false startEdge inst (graph1, ne))
      as [graph2 ne2] eqn:Ee.
    rewrite instances_eset_cons.
    replace (S ∪ (vset (iedges inst) ∪ instances_eset insts))
      with (S ∪ vset (iedges inst) ∪ instances_eset insts) by set_solver.
    apply IH.
    + intros i ie Hi. apply Hr. by right.
    + apply He.
      * intros ie Hie. apply (Hr inst); [left | done].
      * by apply (ecount_inv_frame _ _ graph).
Qed.

Lemma numEdges_AddEdgeToVertices g e : numEdges (AddEdgeToVertices g e) = numEdges g.
Proof. unfold AddEdgeToVertices. by destruct (negb _). Qed.

(** Outside incremental mode [CopyUnmarkedGraph] keeps the edge count
    with which the compressed graph was allocated. *)
Lemma numEdges_CopyUnmarkedGraph g1 g2 vertexIndex parameters :
  incremental parameters = false →
  numEdges (CopyUnmarkedGraph g1 g2 vertexIndex parameters).2 = numEdges g2.
Proof.
  intros Hinc. unfold CopyUnmarkedGraph. rewrite Hinc.
  match goal with |- context [ULONG_for ?n ?b (g1, g2, vertexIndex)] =>
    pose proof (ULONG_for_invariant (λ st, numEdges st.1.2 = numEdges g2) n b
                  (g1, g2, vertexIndex)) as H1; cbv beta in H1
  end.
  destruct (ULONG_for _ _ (g1, g2, vertexIndex)) as [[g1' g2'] vi'].
  simpl in H1.
  match goal with |- context [ULONG_for ?n ?b (g2', 0)] =>
    pose proof (ULONG_for_invariant (λ st, numEdges st.1 = numEdges g2) n b (g2', 0)) as H2;
    cbv beta in H2; destruct (ULONG_for n b (g2', 0)) as [g2'' ei]
  end.
  simpl in *.
  apply H2.
  - apply H1; [done|].
    intros i [[a b] c] _ Hs. simpl in *. by destruct (negb _).
  - intros i [a b] _ Hs. simpl in *. destruct (negb _); simpl; [|done].
    by rewrite numEdges_AddEdgeToVertices.
Qed.

Lemma numEdges_SUB_loop (cg : Graph) (n label : ULONG) :
  numEdges
    (ULONG_for n
       (λ (v : ULONG) '(compressedGraph, vertexIndex),
          (updV compressedGraph vertexIndex
             (λ _, mkVertex label [] VERTEX_UNMAPPED false),
           uadd vertexIndex 1)) (cg, 0)).1 = numEdges cg.
Proof.
  apply (ULONG_for_invariant (λ st, numEdges st.1 = numEdges cg)); [done|].
  by intros i [a b] _ Hs.
Qed.

(** No edge of the graph is marked. *)
Definition edges_unused (g : Graph) : Prop := emarked g ∅.

(** With overlap disallowed the compressed graph has the edges of the
    graph less the distinct edges of the instances. *)
Lemma CompressGraph_numEdges_eq graph insts parameters :
  incremental parameters = false →
  allowInstanceOverlap parameters = false →
  graph_arrays graph →
  edges_unused graph →
  edges_in_range graph insts →
  let compressedGraph := (CompressGraph graph insts parameters).1 in
  numEdges compressedGraph = numEdges graph - N.of_nat (size (instances_eset insts))
  ∧ (size (instances_eset insts) ≤ N.to_nat (numEdges graph))%nat.
Proof.
  intros Hinc Hov Hga Hun Hr. unfold CompressGraph. rewrite Hinc, Hov.
  cbv beta iota zeta.
  pose proof (CompressGraph_mark_edges graph 0 0 insts ∅ graph 0 0 1 Hga Hr) as Hmark.
  cbv zeta in Hmark.
  destruct (CompressGraph_mark false 0 0 insts (graph, 0, 0, 1))
    as [[[graph1 nIV] nIE] no] eqn:Emark.
  simpl in Hmark. destruct Hmark as [Hne Hlen Hm Hbound Hc].
  { split; simpl; try done. }
  simpl in *. rewrite left_id_L in Hbound, Hc by apply _.
  assert (Hsz : (size (instances_eset insts) ≤ N.to_nat (numEdges graph))%nat)
    by (by apply size_bounded).
  split; [|done].
  match goal with |- context [AllocateGraph ?nv ?ne] => set (cg0 := AllocateGraph nv ne) end.
  match goal with |- context [ULONG_for ?n _ (cg0, 0)] =>
    pose proof (numEdges_SUB_loop cg0 n (numLabels (labelList parameters))) as Hsub;
    destruct (ULONG_for n _ (cg0, 0)) as [cg1 vi]
  end.
  simpl in Hsub.
  pose proof (numEdges_CopyUnmarkedGraph graph1 cg1 vi parameters Hinc) as Hcopy.
  destruct (CopyUnmarkedGraph graph1 cg1 vi parameters) as [graph2 cg2]. simpl in *.
  rewrite Hcopy, Hsub. unfold cg0. simpl.
  rewrite Hne, Hc. destruct Hga. rewrite usub_small by lia. done.
Qed.

(** Instances are pairwise edge-disjoint, and none lists an edge
    twice. *)
Definition edge_disjoint (insts : list Instance) : Prop :=
  NoDup (concat (iedges <$> insts)).

(** The sum of the instances' edge counts. *)
Definition sum_numEdges (insts : list Instance) : nat :=
  sum_list (length ∘ iedges <$> insts).

Lemma size_instances_eset_disjoint insts :
  edge_disjoint insts → size (instances_eset insts) = sum_numEdges insts.
Proof.
  intros H.
  assert (He : instances_eset insts = vset (concat (iedges <$> insts))).
  { clear H. induction insts as [|i insts IH]; [done|].
    rewrite instances_eset_cons, IH. simpl. unfold vset.
    by rewrite fmap_app, list_to_set_app_L. }
  rewrite He, size_vset_NoDup by done.
  clear. unfold sum_numEdges. induction insts as [|i insts IH]; [done|].
  rewrite !fmap_cons. simpl. rewrite length_app. f_equal. exact IH.
Qed.

(** Machine arithmetic read in [Z]. *)
Lemma Z_of_uadd (a b : ULONG) :
  Z.of_N (uadd a b) = ((Z.of_N a + Z.of_N b) mod Z.of_N ULONG_MODULUS)%Z.
Proof. unfold uadd. by rewrite N2Z.inj_mod, N2Z.inj_add. Qed.

Lemma Z_of_usub (a b : ULONG) :
  Z.of_N (usub a b) = ((Z.of_N a - Z.of_N b) mod Z.of_N ULONG_MODULUS)%Z.
Proof.
  unfold usub.
  assert (Hb : b mod ULONG_MODULUS < ULONG_MODULUS) by (by apply N.mod_lt).
  rewrite N2Z.inj_mod, N2Z.inj_add, N2Z.inj_sub by lia.
  rewrite N2Z.inj_mod.
  set (M := Z.of_N ULONG_MODULUS).
  replace (Z.of_N a + (M - Z.of_N b mod M))%Z
    with ((Z.of_N a - Z.of_N b mod M) + 1 * M)%Z by lia.
  rewrite Z.mod_add by done.
  by rewrite Zminus_mod_idemp_r.
Qed.

Lemma Z_mod_congruent (M a b k : Z) : a = (b + k * M)%Z → (a mod M = b mod M)%Z.
Proof. intros ->. destruct (decide (M = 0%Z)) as [->|HM]; [f_equal; lia|]. by apply Z.mod_add. Qed.

(** The subtraction loop of [SizeOfCompressedGraph] without overlap. *)
Lemma SizeOfCompressedGraph_loop insts (size : ULONG) :
  size < ULONG_MODULUS →
  Z.of_N
    (foldl (λ size instance,
              usub (uadd size 1) (uadd (inumVertices instance) (inumEdges instance)))
           size insts)
  = ((Z.of_N size + Z.of_nat (length insts)
      - Z.of_nat (sum_numVertices insts) - Z.of_nat (sum_numEdges insts))
     mod Z.of_N ULONG_MODULUS)%Z.
Proof.
  intros Hsize.
  match goal with |- Z.of_N (foldl ?f size insts) = _ =>
    assert (Hlt : foldl f size insts < ULONG_MODULUS)
  end.
  { apply foldl_invariant; [done|].
    intros a b _ _. unfold usub. by apply N.mod_lt. }
  rewrite <- (Z.mod_small (Z.of_N (foldl _ _ _)) (Z.of_N ULONG_MODULUS)) by lia.
  clear. revert size. induction insts as [|i insts IH]; intros size.
  - simpl. unfold sum_numVertices, sum_numEdges. simpl. f_equal. lia.
  - cbn [foldl]. rewrite IH. rewrite Z_of_usub, !Z_of_uadd.
    unfold sum_numVertices, sum_numEdges, inumVertices, inumEdges.
    rewrite !fmap_cons. cbn [sum_list length compose].
    assert (HM : Z.of_N ULONG_MODULUS ≠ 0%Z) by done.
    set (M := Z.of_N ULONG_MODULUS) in *.
    rewrite (Z.mod_eq (Z.of_N size + Z.of_N 1) M) by done.
    generalize ((Z.of_N size + Z.of_N 1) / M)%Z. intros q1.
    rewrite (Z.mod_eq (Z.of_N (N.of_nat (length (ivertices i)))
                       + Z.of_N (N.of_nat (length (iedges i)))) M) by done.
    generalize ((Z.of_N (N.of_nat (length (ivertices i)))
                 + Z.of_N (N.of_nat (length (iedges i)))) / M)%Z. intros q2.
    rewrite (Z.mod_eq (_ - _ - (_ - _)) M) by done.
    match goal with |- context [(?a / M)%Z] => generalize (a / M)%Z; intros q3 end.
    apply (Z_mod_congruent M _ _ (q2 - q1 - q3)%Z).
    unfold Datatypes.id. lia.
Qed.

(** The case of C3 that holds.  Outside incremental mode, with overlap
    disallowed and instances that are pairwise vertex- and edge-disjoint,
    [SizeOfCompressedGraph] returns the size of the graph that
    [CompressGraph] builds, and leaves the graph as it was. *)
Lemma SizeOfCompressedGraph_disjoint graph insts parameters graphType :
  incremental parameters = false →
  allowInstanceOverlap parameters = false →
  graph_arrays graph →
  vertices_unused graph →
  edges_unused graph →
  vertices_in_range graph insts →
  edges_in_range graph insts →
  vertex_disjoint insts →
  edge_disjoint insts →
  numVertices graph + numEdges graph + N.of_nat (length insts) + 1 < ULONG_MODULUS →
  (SizeOfCompressedGraph graph (Some insts) parameters graphType).1
    = GraphSize (CompressGraph graph insts parameters).1
  ∧ (SizeOfCompressedGraph graph (Some insts) parameters graphType).2 = graph.
Proof.
  intros Hinc Hov Hga Hvu Heu Hvr Her Hvd Hed Hb.
  destruct (CompressGraph_numVertices_eq graph insts parameters Hinc Hga Hvu Hvr)
    as (Hnv & Hvs & _); [lia|].
  destruct (CompressGraph_numEdges_eq graph insts parameters Hinc Hov Hga Heu Her)
    as (Hne & Hes).
  cbv zeta in Hnv, Hne.
  unfold GraphSize at 1. rewrite Hnv, Hne.
  rewrite size_instances_vset_disjoint in * by done.
  rewrite size_instances_eset_disjoint in * by done.
  unfold SizeOfCompressedGraph. rewrite Hinc, Hov. split; [|done].
  cbn [fst]. rewrite uadd_small by lia.
  apply N2Z.inj.
  rewrite SizeOfCompressedGraph_loop by (unfold GraphSize, uadd; by apply N.mod_lt).
  unfold GraphSize. rewrite uadd_small by lia.
  rewrite Z.mod_small by lia. lia.
Qed.

Definition edges_in_range_check (g : Graph) (insts : list Instance) : bool :=
  forallb (λ inst, forallb (λ ie, ie <? numEdges g) (iedges inst)) insts.

Lemma edges_in_range_check_ok g insts :
  edges_in_range_check g insts = true → edges_in_range g insts.
Proof.
  unfold edges_in_range_check. rewrite forallb_forall. intros H inst ie Hi He.
  apply list_elem_of_In in Hi. apply H in Hi. rewrite forallb_forall in Hi.
  apply list_elem_of_In in He. apply Hi in He. by apply N.ltb_lt.
Qed.

Lemma edges_unused_check g :
  forallb (λ e, negb (eused e)) (edges g) = true → edges_unused g.
Proof.
  intros H i e Hl _. rewrite forallb_forall in H.
  assert (Hin : In e (edges g)) by (apply list_elem_of_In; by eapply list_elem_of_lookup_2).
  apply H in Hin. destruct (eused e); [done|]. split; [done | set_solver].
Qed.

(** The lemma at work: one instance [A - A] of [example_path], overlap
    disallowed; both sizes are 4. *)
Example SizeOfCompressedGraph_disjoint_example :
  let p := example_parameters example_path false EVAL_SIZE in
  let insts := [example_instance [0; 1] [0]] in
  (SizeOfCompressedGraph example_path (Some insts) p POS).1
    = GraphSize (CompressGraph example_path insts p).1
  ∧ (SizeOfCompressedGraph example_path (Some insts) p POS).2 = example_path.
Proof.
  apply SizeOfCompressedGraph_disjoint.
  - reflexivity.
  - reflexivity.
  - apply graph_arrays_check_ok. reflexivity.
  - apply vertices_unused_check. reflexivity.
  - apply edges_unused_check. reflexivity.
  - apply vertices_in_range_check_ok. reflexivity.
  - apply edges_in_range_check_ok. reflexivity.
  - unfold vertex_disjoint. simpl. repeat constructor; set_solver.
  - unfold edge_disjoint. simpl. repeat constructor; set_solver.
  - reflexivity.
Qed.

(** ** [GraphMatch] *)

Section GraphMatch_properties.
Variable InexactGraphMatch : Matcher.

(** The graphs handed to the matcher: the one with more vertices
    first. *)
Definition GraphMatch_order (g1 g2 : Graph) : Graph * Graph :=
  if numVertices g1 <? numVertices g2 then (g2, g1) else (g1, g2).

Definition sizes_differ (g1 g2 : Graph) : Prop :=
  numVertices g1 ≠ numVertices g2 ∨ numEdges g1 ≠ numEdges g2.

Lemma GraphMatch_fast_path g1 g2 labelList threshold :
  threshold = 0%R → sizes_differ g1 g2 →
  GraphMatch InexactGraphMatch g1 g2 labelList threshold
  = mkGraphMatchResult false None None [].
Proof.
  intros -> Hd. unfold GraphMatch, deq.
  rewrite bool_decide_eq_true_2 by done.
  destruct Hd as [Hd | Hd]; apply N.eqb_neq in Hd; rewrite Hd; [done|].
  by rewrite orb_true_r.
Qed.

Lemma GraphMatch_search g1 g2 labelList threshold :
  threshold ≠ 0%R ∨ ¬ sizes_differ g1 g2 →
  let '(ga, gb) := GraphMatch_order g1 g2 in
  let '(cost, mapping) := InexactGraphMatch ga gb labelList threshold in
  GraphMatch InexactGraphMatch g1 g2 labelList threshold
  = mkGraphMatchResult (bool_decide (cost <= threshold)%R)
                       (Some cost) (Some mapping) [(ga, gb, threshold)].
Proof.
  intros Hs. unfold GraphMatch, GraphMatch_order.
  assert (Hc : deq threshold 0
               && (negb (numVertices g1 =? numVertices g2)
                   || negb (numEdges g1 =? numEdges g2)) = false).
  { destruct Hs as [Ht | Hs].
    - unfold deq. by rewrite bool_decide_eq_false_2.
    - destruct (numVertices g1 =? numVertices g2) eqn:Ev;
        [|exfalso; apply Hs; left; by apply N.eqb_neq].
      destruct (numEdges g1 =? numEdges g2) eqn:Ee;
        [|exfalso; apply Hs; right; by apply N.eqb_neq].
      by rewrite andb_false_r. }
  rewrite Hc. destruct (if numVertices g1 <? numVertices g2 then _ else _) as [ga gb].
  destruct (InexactGraphMatch ga gb labelList threshold) as [cost mapping].
  f_equal. unfold dlt. destruct (decide (threshold < cost)%R) as [Hlt | Hge].
  - rewrite bool_decide_eq_true_2, bool_decide_eq_false_2 by lra. done.
  - rewrite bool_decide_eq_false_2, bool_decide_eq_true_2 by lra. done.
Qed.

(** C5.  With threshold 0.0 and graphs that differ in their number of
    vertices or of edges, [GraphMatch] returns FALSE, stores nothing and
    makes no call of [InexactGraphMatch]. *)
Theorem GraphMatch_exact_size_mismatch g1 g2 labelList :
  numVertices g1 ≠ numVertices g2 ∨ numEdges g1 ≠ numEdges g2 →
  let r := GraphMatch InexactGraphMatch g1 g2 labelList 0 in
  matched r = false ∧ matcherCalls r = [] ∧ storedMatchCost r = None
  ∧ storedMapping r = None.
Proof.
  intros Hd. cbv zeta. by rewrite GraphMatch_fast_path.
Qed.

End GraphMatch_properties.

Lemma GraphMatch_exact_size_mismatch_witness :
  matched (GraphMatch example_matcher example_vertex example_pair example_labels 0)
  = false
  ∧ matcherCalls (GraphMatch example_matcher example_vertex example_pair
                             example_labels 0) = [].
Proof.
  destruct (GraphMatch_exact_size_mismatch example_matcher example_vertex example_pair
              example_labels) as (H1 & H2 & _).
  - left. vm_compute. discriminate.
  - split; [exact H1 | exact H2].
Defined.

(** A cost of 1.0 at threshold 1.0 is accepted. *)
Example GraphMatch_cost_equal_threshold :
  matched (GraphMatch example_matcher example_vertex example_pair example_labels 1)
  = true.
Proof.
  unfold GraphMatch, example_matcher, deq, dlt.
  rewrite bool_decide_eq_false_2 by lra. cbn [andb].
  destruct (_ <? _); cbv beta iota; by rewrite bool_decide_eq_false_2 by lra.
Qed.

(** ** [SubListInsert] *)

(** A list in decreasing order of value. *)
Definition SubList_sorted (l : SubList) : Prop :=
  StronglySorted (λ a b, (value b <= value a)%R) l.

(** A list within the maximum: any list when [max = 0]; at most [max]
    different values when [valueBased]; at most [max] entries
    otherwise. *)
Definition SubList_conforms (max : ULONG) (valueBased : bool) (l : SubList) : Prop :=
  max = 0
  ∨ (if valueBased
     then ∃ vs : list R, N.of_nat (length vs) ≤ max ∧ ∀ s, s ∈ l → value s ∈ vs
     else N.of_nat (length l) ≤ max).

(** The list with [sub] linked before the first entry of smaller
    value, or at the end. *)
Fixpoint SubList_place (sub : Substructure) (l : SubList) : SubList :=
  match l with
  | [] => [sub]
  | s :: next =>
      if dlt (value s) (value sub) then sub :: s :: next
      else s :: SubList_place sub next
  end.

Section SubListInsert_properties.
Variable InexactGraphMatch : Matcher.
Variable labelList : LabelList.

(** An entry of the same value whose definition matches at threshold
    0.0. *)
Definition SubList_duplicate (sub : Substructure) (l : SubList) : Prop :=
  ∃ s, s ∈ l ∧ value s = value sub
       ∧ matched (GraphMatch InexactGraphMatch (definition s) (definition sub)
                             labelList 0) = true.

Lemma SubListInsert_found_spec sub l :
  SubList_sorted l →
  SubListInsert_found InexactGraphMatch sub labelList l = true
  ↔ SubList_duplicate sub l.
Proof.
  unfold SubList_duplicate. induction 1 as [|s next Hs IH Hle]; cbn [SubListInsert_found].
  - split; [done|]. intros (s & Hin & _). by apply elem_of_nil in Hin.
  - unfold dle, deq. destruct (decide (value sub <= value s)%R) as [Hge | Hlt].
    + rewrite bool_decide_eq_true_2 by done.
      destruct (decide (value s = value sub)) as [Heq | Hne].
      * rewrite bool_decide_eq_true_2 by done. cbn [andb].
        destruct (matched _) eqn:Em.
        -- split; [|done]. intros _. exists s. split_and!; [left|done|done].
        -- rewrite IH. split.
           ++ intros (x & Hin & Hv & Hm). exists x. split_and!; [by right|done|done].
           ++ intros (x & Hin & Hv & Hm). apply elem_of_cons in Hin as [-> | Hin].
              ** congruence.
              ** by exists x.
      * rewrite bool_decide_eq_false_2 by done. cbn [andb]. rewrite IH. split.
        -- intros (x & Hin & Hv & Hm). exists x. split_and!; [by right|done|done].
        -- intros (x & Hin & Hv & Hm). apply elem_of_cons in Hin as [-> | Hin].
           ++ done.
           ++ by exists x.
    + rewrite bool_decide_eq_false_2 by done. split; [done|].
      intros (x & Hin & Hv & _). apply elem_of_cons in Hin as [-> | Hin]; [lra|].
      rewrite Forall_forall in Hle. apply Hle in Hin. lra.
Qed.

Lemma SubListInsert_loop_place sub max valueBased previous numSubs numDiffVals l :
  l ≠ [] →
  SubListInsert_loop sub max valueBased previous numSubs numDiffVals l
  = SubListInsert_rest max valueBased previous numSubs numDiffVals (SubList_place sub l).
Proof.
  revert previous numSubs numDiffVals. induction l as [|s next IH]; [done|].
  intros previous numSubs numDiffVals _.
  cbn [SubListInsert_loop SubList_place]. destruct (dlt (value s) (value sub)); [done|].
  destruct next as [|s' next]; [done|].
  cbn [SubListInsert_rest].
  destruct (SubListInsert_count _ _ _ _ _ _) as [[exceeded n] d].
  destruct exceeded; [done|]. by rewrite IH.
Qed.

Lemma SubListInsert_rest_prefix max valueBased previous numSubs numDiffVals l :
  SubListInsert_rest max valueBased previous numSubs numDiffVals l `prefix_of` l.
Proof.
  revert previous numSubs numDiffVals. induction l as [|s next IH];
    intros previous numSubs numDiffVals; cbn [SubListInsert_rest]; [done|].
  destruct (SubListInsert_count _ _ _ _ _ _) as [[exceeded n] d].
  destruct exceeded; [apply prefix_nil|]. apply prefix_cons, IH.
Qed.

Lemma SubListInsert_rest_unbounded valueBased previous numSubs numDiffVals l :
  SubListInsert_rest 0 valueBased previous numSubs numDiffVals l = l.
Proof.
  revert previous numSubs numDiffVals. induction l as [|s next IH];
    intros previous numSubs numDiffVals; cbn [SubListInsert_rest]; [done|].
  unfold SubListInsert_count. cbn [N.ltb N.compare andb]. by rewrite IH.
Qed.

Lemma SubListInsert_rest_take max previous numSubs numDiffVals l :
  0 < max → numSubs ≤ max →
  numSubs + N.of_nat (length l) < ULONG_MODULUS →
  SubListInsert_rest max false previous numSubs numDiffVals l
  = take (N.to_nat (max - numSubs)) l.
Proof.
  intros Hmax. revert previous numSubs numDiffVals.
  induction l as [|s next IH]; intros previous numSubs numDiffVals Hle Hb;
    cbn [SubListInsert_rest]; [by rewrite take_nil|].
  cbn [length] in Hb. unfold SubListInsert_count. cbv zeta.
  rewrite (uadd_small numSubs 1) by lia.
  assert (H0 : (0 <? max) = true) by (apply N.ltb_lt; lia). rewrite H0.
  cbn [andb orb negb].
  destruct (max <? numSubs + 1) eqn:E.
  - apply N.ltb_lt in E. replace (max - numSubs) with 0 by lia. done.
  - apply N.ltb_ge in E. rewrite IH by lia.
    replace (N.to_nat (max - numSubs)) with (S (N.to_nat (max - (numSubs + 1)))) by lia.
    done.
Qed.

Lemma SubListInsert_rest_values max previous numSubs numDiffVals l :
  0 < max →
  numDiffVals ≤ max →
  numDiffVals + N.of_nat (length l) < ULONG_MODULUS →
  ∃ vs : list R,
    N.of_nat (length vs) ≤ max - numDiffVals
    ∧ ∀ s, s ∈ SubListInsert_rest max true (Some previous) numSubs numDiffVals l →
           value s ∈ value previous :: vs.
Proof.
  intros Hmax. revert previous numSubs numDiffVals.
  induction l as [|s next IH]; intros previous numSubs numDiffVals Hle Hb;
    cbn [SubListInsert_rest].
  - exists []. split; [cbn; lia|]. intros s Hs. by apply elem_of_nil in Hs.
  - cbn [length] in Hb. unfold SubListInsert_count. cbn [andb orb negb].
    rewrite orb_false_r.
    set (d := if deq (value previous) (value s) then numDiffVals
              else uadd numDiffVals 1).
    destruct ((0 <? max) && (max <? d)) eqn:E.
    { exists []. split; [cbn; lia|]. intros x Hx. by apply elem_of_nil in Hx. }
    assert (Hd : d ≤ max).
    { apply andb_false_iff in E as [E | E]; apply N.ltb_ge in E; [lia|done]. }
    unfold deq in d. destruct (decide (value previous = value s)) as [Heq | Hne].
    + subst d. rewrite bool_decide_eq_true_2 in Hd |- * by done.
      destruct (IH s (uadd numSubs 1) numDiffVals) as (vs & Hlen & Hvs); [lia..|].
      exists vs. split; [done|]. intros x Hx. apply elem_of_cons in Hx as [-> | Hx].
      * rewrite <- Heq. left.
      * rewrite Heq. by apply Hvs.
    + subst d. rewrite bool_decide_eq_false_2 in Hd |- * by done.
      rewrite (uadd_small numDiffVals 1) in Hd |- * by lia.
      destruct (IH s (uadd numSubs 1) (numDiffVals + 1)) as (vs & Hlen & Hvs); [lia..|].
      exists (value s :: vs). split; [cbn [length]; lia|].
      intros x Hx. right. apply elem_of_cons in Hx as [-> | Hx]; [left|by apply Hvs].
Qed.

Lemma SubListInsert_rest_conforms max valueBased l :
  N.of_nat (length l) < ULONG_MODULUS →
  SubList_conforms max valueBased (SubListInsert_rest max valueBased None 0 0 l).
Proof.
  intros Hb. destruct (decide (max = 0)) as [-> | Hmax]; [by left|]. right.
  destruct valueBased.
  - destruct l as [|s next]; cbn [SubListInsert_rest].
    { exists []. split; [cbn; lia|]. intros x Hx. by apply elem_of_nil in Hx. }
    unfold SubListInsert_count. cbn [andb orb negb]. rewrite orb_false_r.
    assert (H1 : (max <? 1) = false) by (apply N.ltb_ge; lia).
    rewrite H1, andb_false_r. cbn [length] in Hb.
    destruct (SubListInsert_rest_values max s (uadd 0 1) 1 next) as (vs & Hlen & Hvs);
      [lia..|].
    exists (value s :: vs). split; [cbn [length]; lia|].
    intros x Hx. apply elem_of_cons in Hx as [-> | Hx]; [left|by apply Hvs].
  - rewrite SubListInsert_rest_take by lia. rewrite length_take. lia.
Qed.

Lemma SubList_place_length sub l : length (SubList_place sub l) = S (length l).
Proof.
  induction l as [|s next IH]; cbn [SubList_place]; [done|].
  destruct (dlt _ _); cbn [length]; by rewrite ?IH.
Qed.

(** [sub] is placed after the entries of at least its value and before
    the entries of smaller value. *)
Lemma SubList_place_split sub l :
  SubList_sorted l →
  ∃ l1 l2, l = l1 ++ l2 ∧ SubList_place sub l = l1 ++ sub :: l2
           ∧ Forall (λ s, (value sub <= value s)%R) l1
           ∧ Forall (λ s, (value s < value sub)%R) l2.
Proof.
  induction 1 as [|s next Hs IH Hle]; cbn [SubList_place].
  - by exists [], [].
  - unfold dlt. destruct (decide (value s < value sub)%R) as [Hlt | Hge].
    + rewrite bool_decide_eq_true_2 by done. exists [], (s :: next).
      split_and!; try done. constructor; [done|].
      eapply Forall_impl; [exact Hle|]. intros x Hx. cbn in Hx. lra.
    + rewrite bool_decide_eq_false_2 by done.
      destruct IH as (l1 & l2 & -> & -> & H1 & H2).
      exists (s :: l1), l2. split_and!; try done. constructor; [lra|done].
Qed.

Lemma SubList_place_sorted sub l :
  SubList_sorted l → SubList_sorted (SubList_place sub l).
Proof.
  intros Hs. destruct (SubList_place_split sub l Hs) as (l1 & l2 & -> & -> & H1 & H2).
  unfold SubList_sorted in *. apply StronglySorted_app in Hs as (H12 & Hs1 & Hs2).
  apply StronglySorted_app. split_and!; [|done|].
  - intros a b Ha Hb. apply elem_of_cons in Hb as [-> | Hb].
    + rewrite Forall_forall in H1. by apply H1.
    + by apply H12.
  - constructor; [done|]. eapply Forall_impl; [exact H2|]. intros x Hx. cbn in Hx. lra.
Qed.

Lemma SubList_sorted_prefix l1 l2 :
  l1 `prefix_of` l2 → SubList_sorted l2 → SubList_sorted l1.
Proof.
  intros [k ->] Hs. unfold SubList_sorted in *.
  by apply StronglySorted_app_1_l in Hs.
Qed.

(** The cut of a value-based list: the loop keeps the whole list, or
    it ends at an entry [s] whose value is new and below the [max]
    different values [vs] of the entries kept. *)
Lemma SubListInsert_rest_values_cut max previous numSubs numDiffVals l (vs0 : list R) :
  0 < max →
  numDiffVals ≤ max →
  numDiffVals + N.of_nat (length l) < ULONG_MODULUS →
  SubList_sorted (previous :: l) →
  NoDup vs0 → N.of_nat (length vs0) = numDiffVals →
  value previous ∈ vs0 →
  (∀ v, v ∈ vs0 → (value previous <= v)%R) →
  let r := SubListInsert_rest max true (Some previous) numSubs numDiffVals l in
  r = l
  ∨ ∃ s rest (vs : list R),
      l = r ++ s :: rest ∧ NoDup vs ∧ N.of_nat (length vs) = max
      ∧ (∀ v, v ∈ vs → v ∈ vs0 ∨ ∃ x, x ∈ r ∧ value x = v)
      ∧ (∀ v, v ∈ vs → (value s < v)%R).
Proof.
  intros Hmax. revert previous numSubs numDiffVals vs0.
  induction l as [|s next IH];
    intros previous numSubs numDiffVals vs0 Hle Hb Hs Hnd Hlen Hin Hmin;
    cbn [SubListInsert_rest]; [by left|].
  cbn [length] in Hb. unfold SubListInsert_count. cbn [andb orb negb].
  rewrite orb_false_r.
  apply StronglySorted_inv in Hs as [Hs Hps].
  pose proof Hps as Hps'. apply Forall_cons in Hps' as [Hp1 Hp2].
  assert (Hs' : SubList_sorted (s :: next)) by done.
  unfold deq. destruct (decide (value previous = value s)) as [Heq | Hne].
  - rewrite bool_decide_eq_true_2 by done.
    assert (E : (0 <? max) && (max <? numDiffVals) = false).
    { apply andb_false_iff. right. apply N.ltb_ge. lia. }
    rewrite E.
    destruct (IH s (uadd numSubs 1) numDiffVals vs0) as [Hr | Hr]; try done; try lia.
    + by rewrite <- Heq.
    + intros v Hv. rewrite <- Heq. by apply Hmin.
    + left. by rewrite Hr.
    + right. destruct Hr as (x & rest & vs & El & Hn & Hl & Hv & Hlt).
      exists x, rest, vs. split; [by rewrite El at 1|]. split; [done|]. split; [done|].
      split; [|done]. intros v Hv'. destruct (Hv v Hv') as [?|(y & Hy & Ey)]; [by left|].
      right. exists y. split; [by right | done].
  - rewrite bool_decide_eq_false_2 by done.
    rewrite (uadd_small numDiffVals 1) by lia.
    assert (Hlt : (value s < value previous)%R) by (cbn in Hp1; lra).
    destruct (max <? numDiffVals + 1) eqn:E.
    + apply N.ltb_lt in E.
      assert (H0 : (0 <? max) = true) by (apply N.ltb_lt; lia). rewrite H0. cbn [andb].
      right. exists s, next, vs0. split; [done|]. split; [done|]. split; [lia|].
      split; [by left|]. intros v Hv. specialize (Hmin v Hv). lra.
    + apply N.ltb_ge in E. rewrite andb_false_r.
      assert (Hnew : value s ∉ vs0).
      { intros H. specialize (Hmin _ H). lra. }
      destruct (IH s (uadd numSubs 1) (numDiffVals + 1) (value s :: vs0))
        as [Hr | Hr]; try done; try lia.
      * by apply NoDup_cons.
      * cbn [length]. lia.
      * left.
      * intros v Hv. apply elem_of_cons in Hv as [-> | Hv]; [lra|].
        specialize (Hmin v Hv). lra.
      * left. by rewrite Hr.
      * right. destruct Hr as (x & rest & vs & El & Hn & Hl & Hv & Hlt').
        exists x, rest, vs. split; [by rewrite El at 1|]. split; [done|].
        split; [done|]. split; [|done]. intros v Hv'.
        destruct (Hv v Hv') as [H|(y & Hy & Ey)].
        -- apply elem_of_cons in H as [-> | H]; [|by left].
           right. exists s. split; [left | done].
        -- right. exists y. split; [by right | done].
Qed.

(** The loop keeps the longest prefix of the list that is within the
    maximum. *)
Lemma SubListInsert_rest_longest max valueBased l r' :
  N.of_nat (length l) < ULONG_MODULUS →
  SubList_sorted l →
  r' `prefix_of` l →
  SubList_conforms max valueBased r' →
  r' `prefix_of` SubListInsert_rest max valueBased None 0 0 l.
Proof.
  intros Hb Hs Hp Hc.
  destruct (decide (max = 0)) as [-> | Hmax];
    [by rewrite SubListInsert_rest_unbounded|].
  destruct Hc as [? | Hc]; [done|]. destruct valueBased.
  - destruct Hc as (vs' & Hlen' & Hvs').
    destruct l as [|s next]; [done|]. cbn [SubListInsert_rest].
    unfold SubListInsert_count. cbn [andb orb negb]. rewrite orb_false_r.
    assert (H1 : (max <? 1) = false) by (apply N.ltb_ge; lia).
    rewrite H1, andb_false_r. cbn [length] in Hb.
    destruct (SubListInsert_rest_values_cut max s (uadd 0 1) 1 next [value s])
      as [Hr | (x & rest & vs & El & Hn & Hl & Hv & Hlt)];
      [lia | lia | lia | done | apply NoDup_singleton | done | left | | |].
    { intros v Hv. apply list_elem_of_singleton in Hv. subst. lra. }
    { by rewrite Hr. }
    set (r1 := SubListInsert_rest max true (Some s) (uadd 0 1) 1 next) in *.
    assert (Hpl : (s :: r1) `prefix_of` (s :: next)).
    { apply prefix_cons. by exists (x :: rest). }
    destruct (prefix_weak_total _ _ _ Hp Hpl) as [H | [k Hk]]; [done|].
    destruct k as [|y k]; [rewrite app_nil_r in Hk; by rewrite Hk|]. exfalso.
    assert (Hy : y = x).
    { rewrite Hk, El in Hp. rewrite app_comm_cons in Hp.
      apply prefix_app_inv in Hp. destruct Hp as [k' Hk']. by injection Hk'. }
    subst y.
    assert (Hall : ∀ v, v ∈ value x :: vs → v ∈ vs').
    { intros v Hv'. apply elem_of_cons in Hv' as [-> | Hv'].
      - apply Hvs'. rewrite Hk. apply elem_of_app. right. left.
      - destruct (Hv v Hv') as [H | (z & Hz & <-)].
        + apply list_elem_of_singleton in H. subst v. apply Hvs'. rewrite Hk. left.
        + apply Hvs'. rewrite Hk. apply elem_of_app. left. by right. }
    assert (Hnd : NoDup (value x :: vs)).
    { apply NoDup_cons. split; [|done]. intros H. specialize (Hlt _ H). lra. }
    apply NoDup_submseteq in Hall; [|done]. apply submseteq_length in Hall.
    cbn [length] in Hall. lia.
  - rewrite SubListInsert_rest_take by lia. rewrite N.sub_0_r.
    destruct Hp as [k ->]. rewrite take_app_ge by lia. by apply prefix_app_r.
Qed.

(** C6.  On a sorted list that is within the maximum, [SubListInsert]
    leaves a sorted list within the maximum.  A substructure with a
    duplicate on the list is dropped.  Otherwise the result is the
    longest prefix within the maximum of the list with [sub] linked
    after the entries of at least its value and before those of
    smaller value: the whole of it when [max = 0], its first [max]
    entries when the list is not value-based, and its entries up to the
    one that brings the value after the first [max] different values
    when it is. *)
Theorem SubListInsert_sorted_bounded sub l max valueBased :
  SubList_sorted l →
  SubList_conforms max valueBased l →
  N.of_nat (length l) + 1 < ULONG_MODULUS →
  let r := SubListInsert InexactGraphMatch sub l max valueBased labelList in
  SubList_sorted r
  ∧ SubList_conforms max valueBased r
  ∧ (SubList_duplicate sub l → r = l)
  ∧ (¬ SubList_duplicate sub l →
     ∃ l1 l2,
       l = l1 ++ l2
       ∧ Forall (λ s, (value sub <= value s)%R) l1
       ∧ Forall (λ s, (value s < value sub)%R) l2
       ∧ r `prefix_of` l1 ++ sub :: l2
       ∧ (∀ r', r' `prefix_of` l1 ++ sub :: l2 →
                SubList_conforms max valueBased r' → r' `prefix_of` r)
       ∧ (max = 0 → r = l1 ++ sub :: l2)
       ∧ (0 < max → valueBased = false → r = take (N.to_nat max) (l1 ++ sub :: l2))).
Proof.
  intros Hs Hc Hb r.
  destruct (SubList_place_split sub l Hs) as (l1 & l2 & El & Ep & H1 & H2).
  pose proof (SubList_place_length sub l) as Hlen.
  assert (Er : ¬ SubList_duplicate sub l →
               r = SubListInsert_rest max valueBased None 0 0 (SubList_place sub l)).
  { intros Hnd. unfold r, SubListInsert. clear El Ep Hlen Hc Hb.
    destruct l as [|s next].
    - cbn [SubList_place SubListInsert_rest]. unfold SubListInsert_count.
      change (uadd 0 1) with 1.
      destruct (decide (max = 0)) as [-> | Hmax]; [by destruct valueBased|].
      assert (H1' : (max <? 1) = false) by (apply N.ltb_ge; lia).
      rewrite H1'. by destruct valueBased, (0 <? max).
    - pose proof (SubListInsert_found_spec sub (s :: next) Hs) as Hf.
      destruct (SubListInsert_found _ _ _ (s :: next)); [exfalso; apply Hnd, Hf; done|].
      by rewrite SubListInsert_loop_place. }
  assert (Ed : SubList_duplicate sub l → r = l).
  { intros Hd. unfold r, SubListInsert. clear El Ep Hlen Hc Hb Er.
    destruct l as [|s next].
    - destruct Hd as (x & Hx & _). by apply elem_of_nil in Hx.
    - apply (SubListInsert_found_spec sub (s :: next) Hs) in Hd. by rewrite Hd. }
  destruct (SubListInsert_found InexactGraphMatch sub labelList l) eqn:Ef.
  - assert (Hd : SubList_duplicate sub l) by by apply SubListInsert_found_spec.
    rewrite (Ed Hd). split_and!; try done.
  - assert (Hnd : ¬ SubList_duplicate sub l).
    { intros Hd. apply SubListInsert_found_spec in Hd; [congruence|done]. }
    rewrite (Er Hnd). split_and!.
    + eapply SubList_sorted_prefix; [apply SubListInsert_rest_prefix|].
      by apply SubList_place_sorted.
    + apply SubListInsert_rest_conforms. rewrite Hlen. lia.
    + done.
    + intros _. exists l1, l2. split_and!; try done.
      * rewrite <- Ep. apply SubListInsert_rest_prefix.
      * intros r' Hr' Hc'. rewrite <- Ep in Hr'.
        apply SubListInsert_rest_longest; [rewrite Hlen; lia | | done | done].
        by apply SubList_place_sorted.
      * intros ->. by rewrite SubListInsert_rest_unbounded.
      * intros Hmax ->. rewrite SubListInsert_rest_take by (rewrite ?Hlen; lia).
        by rewrite N.sub_0_r, Ep.
Qed.

End SubListInsert_properties.

(** A value-based list with the values 3 and 2, the maximum of two
    values, and a substructure of value 1. *)
Lemma SubListInsert_sorted_bounded_witness :
  let l := [example_valued 3; example_valued 2] in
  let sub := example_valued 1 in
  let r := SubListInsert example_matcher sub l 2 true example_labels in
  SubList_sorted r
  ∧ SubList_conforms 2 true r
  ∧ (SubList_duplicate example_matcher example_labels sub l → r = l)
  ∧ (¬ SubList_duplicate example_matcher example_labels sub l →
     ∃ l1 l2,
       l = l1 ++ l2
       ∧ Forall (λ s, (value sub <= value s)%R) l1
       ∧ Forall (λ s, (value s < value sub)%R) l2
       ∧ r `prefix_of` l1 ++ sub :: l2
       ∧ (∀ r', r' `prefix_of` l1 ++ sub :: l2 →
                SubList_conforms 2 true r' → r' `prefix_of` r)
       ∧ (2 = 0 → r = l1 ++ sub :: l2)
       ∧ (0 < 2 → true = false → r = take (N.to_nat 2) (l1 ++ sub :: l2))).
Proof.
  apply (SubListInsert_sorted_bounded example_matcher example_labels
           (example_valued 1) [example_valued 3; example_valued 2] 2 true).
  - apply SSorted_cons; [apply SSorted_cons; constructor|].
    constructor; [simpl; lra | constructor].
  - right. exists [3%R; 2%R]. split; [simpl; lia|].
    intros s Hs. apply elem_of_cons in Hs as [-> | Hs]; [left|].
    apply list_elem_of_singleton in Hs. subst s. right. left.
  - reflexivity.
Defined.

(** On this list the substructure of value 1 would bring a third
    value: it is linked at the end and cut off again.  With the value 2
    it stays, after the entry of the same value. *)
Example SubListInsert_value_based :
  SubListInsert example_matcher (example_valued 1)
                [example_valued 3; example_valued 2] 2 true example_labels
  = [example_valued 3; example_valued 2]
  ∧ SubListInsert example_matcher (set_definition example_pair (example_valued 2))
                  [example_valued 3; example_valued 2] 2 true example_labels
    = [example_valued 3; example_valued 2;
       set_definition example_pair (example_valued 2)].
Proof.
  split.
  - unfold SubListInsert. cbn [SubListInsert_found SubListInsert_loop SubListInsert_rest
                                 SubListInsert_count].
    unfold dle, dlt, deq. cbn [value example_valued].
    repeat first [rewrite bool_decide_eq_true_2 by lra
                 | rewrite bool_decide_eq_false_2 by lra].
    reflexivity.
  - unfold SubListInsert. cbn [SubListInsert_found SubListInsert_loop SubListInsert_rest
                                 SubListInsert_count].
    unfold dle, dlt, deq. cbn [value example_valued set_definition].
    repeat first [rewrite bool_decide_eq_true_2 by lra
                 | rewrite bool_decide_eq_false_2 by lra].
    rewrite !GraphMatch_fast_path by (done || (left; vm_compute; discriminate)).
    reflexivity.
Qed.

(** ** Graphs that differ in their marks *)

(** The same numbers of vertices and edges and the same vertex labels:
    what the evaluation of a substructure preserves of a graph. *)
Definition same_labels (g g' : Graph) : Prop :=
  numVertices g' = numVertices g ∧ numEdges g' = numEdges g
  ∧ ∀ j, vlabel (getV g' j) = vlabel (getV g j).

Lemma same_labels_refl g : same_labels g g.
Proof. done. Qed.

Lemma same_labels_trans g1 g2 g3 :
  same_labels g1 g2 → same_labels g2 g3 → same_labels g1 g3.
Proof.
  intros (H1 & H2 & H3) (H1' & H2' & H3'). split_and!; [congruence..|].
  intros j. by rewrite H3', H3.
Qed.

Lemma same_labels_updV g i f :
  (∀ v, vlabel (f v) = vlabel v) → same_labels g (updV g i f).
Proof.
  intros Hf. split_and!; [done..|]. intros j. unfold getV, updV. cbn.
  rewrite list_lookup_total_alter. case_decide as H; [|done].
  destruct H as [-> _]. apply Hf.
Qed.

Lemma same_labels_updE g i f : same_labels g (updE g i f).
Proof. done. Qed.

Create HintDb same_labels.
#[local] Hint Resolve same_labels_refl same_labels_updE : same_labels.
#[local] Hint Extern 1 (same_labels _ (updV _ _ _)) =>
  apply same_labels_updV; intros; reflexivity : same_labels.
#[local] Hint Extern 5 (same_labels _ _) =>
  eapply same_labels_trans; [eassumption|] : same_labels.

Lemma same_labels_foldl {A B : Type} (proj : A → Graph) (f : A → B → A)
    (l : list B) (a : A) g :
  same_labels g (proj a) →
  (∀ a b, same_labels (proj a) (proj (f a b))) →
  same_labels g (proj (foldl f a l)).
Proof.
  intros Ha Hstep. apply (foldl_invariant (λ a, same_labels g (proj a))); [done|].
  intros a' b Ha' _. eapply same_labels_trans; [exact Ha' | apply Hstep].
Qed.

Lemma same_labels_ULONG_for {S : Type} (proj : S → Graph) (n : ULONG)
    (body : ULONG → S → S) (s : S) g :
  same_labels g (proj s) →
  (∀ i s, same_labels (proj s) (proj (body i s))) →
  same_labels g (proj (ULONG_for n body s)).
Proof. intros Hs Hstep. unfold ULONG_for. by apply same_labels_foldl. Qed.

Lemma same_labels_MarkInstanceVertices instance g b :
  same_labels g (MarkInstanceVertices instance g b).
Proof.
  unfold MarkInstanceVertices.
  apply (same_labels_foldl (λ x : Graph, x)); auto with same_labels.
Qed.

Lemma same_labels_MarkInstanceEdges instance g b :
  same_labels g (MarkInstanceEdges instance g b).
Proof.
  unfold MarkInstanceEdges. apply (same_labels_foldl (λ x : Graph, x)); auto with same_labels.
Qed.

Lemma same_labels_UnmarkInstances l g : same_labels g (UnmarkInstances l g).
Proof.
  unfold UnmarkInstances. apply (same_labels_foldl (λ x : Graph, x)); [done|].
  intros a x. cbn. eapply same_labels_trans;
    [apply same_labels_MarkInstanceVertices | apply same_labels_MarkInstanceEdges].
Qed.

Lemma same_labels_CompressGraph_markVertices inc sv no instance st :
  same_labels st.1 (CompressGraph_markVertices inc sv no instance st).1.
Proof.
  unfold CompressGraph_markVertices. apply (same_labels_foldl fst); [done|].
  intros [g n] x. cbn. destruct (_ && _); cbn; auto with same_labels.
Qed.

Lemma same_labels_CompressGraph_markEdges inc se instance st :
  same_labels st.1 (CompressGraph_markEdges inc se instance st).1.
Proof.
  unfold CompressGraph_markEdges. apply (same_labels_foldl fst); [done|].
  intros [g n] x. cbn. destruct (_ && _); cbn; auto with same_labels.
Qed.

Lemma same_labels_CompressGraph_mark inc sv se l st :
  same_labels st.1.1.1 (CompressGraph_mark inc sv se l st).1.1.1.
Proof.
  unfold CompressGraph_mark. apply (same_labels_foldl (λ st, st.1.1.1)); [done|].
  intros [[[g nv] ne] no] x. cbn.
  pose proof (same_labels_CompressGraph_markVertices inc sv no x (g, nv)) as H1.
  destruct (CompressGraph_markVertices inc sv no x (g, nv)) as [g1 nv1].
  pose proof (same_labels_CompressGraph_markEdges inc se x (g1, ne)) as H2.
  destruct (CompressGraph_markEdges inc se x (g1, ne)) as [g2 ne2].
  cbn in *. by eapply same_labels_trans.
Qed.

Lemma same_labels_CopyUnmarkedGraph g1 g2 vertexIndex parameters :
  same_labels g1 (CopyUnmarkedGraph g1 g2 vertexIndex parameters).1.
Proof.
  unfold CopyUnmarkedGraph. destruct (incremental parameters).
  - match goal with |- context [ULONG_for ?n ?b (g1, g2, vertexIndex)] =>
      pose proof (same_labels_ULONG_for (λ st, st.1.1) n b (g1, g2, vertexIndex) g1)
        as H1; cbv beta in H1;
      destruct (ULONG_for n b (g1, g2, vertexIndex)) as [[g1' g2'] vi']
    end.
    match goal with |- context [ULONG_for ?n ?b (g2', 0)] =>
      destruct (ULONG_for n b (g2', 0)) as [g2'' ei]
    end.
    cbn [fst]. apply H1; [done|].
    intros i [[a b] c]. cbn. destruct (negb _); cbn; auto with same_labels.
  - match goal with |- context [ULONG_for ?n ?b (g1, g2, vertexIndex)] =>
      pose proof (same_labels_ULONG_for (λ st, st.1.1) n b (g1, g2, vertexIndex) g1)
        as H1; cbv beta in H1;
      destruct (ULONG_for n b (g1, g2, vertexIndex)) as [[g1' g2'] vi']
    end.
    match goal with |- context [ULONG_for ?n ?b (g2', 0)] =>
      destruct (ULONG_for n b (g2', 0)) as [g2'' ei]
    end.
    cbn [fst]. apply H1; [done|].
    intros i [[a b] c]. cbn. destruct (negb _); cbn; auto with same_labels.
Qed.

Lemma same_labels_AddOverlapEdges_vertices1 instance1 rest no ol sv se st :
  same_labels st.1 (AddOverlapEdges_vertices1 instance1 rest no ol sv se st).1.
Proof.
  unfold AddOverlapEdges_vertices1. apply (same_labels_foldl fst); [done|].
  intros [g es] x. cbn. destruct (vused _); cbn; auto with same_labels.
Qed.

Lemma same_labels_AddOverlapEdges_instances1 insts no ol sv se st :
  same_labels st.1 (AddOverlapEdges_instances1 insts no ol sv se st).1.
Proof.
  revert no st. induction insts as [|instance1 rest IH]; intros no st; cbn; [done|].
  eapply same_labels_trans; [apply same_labels_AddOverlapEdges_vertices1 | apply IH].
Qed.

Lemma same_labels_AddOverlapEdges cg graph insts ol sv se :
  same_labels graph (AddOverlapEdges cg graph insts ol sv se).2.
Proof.
  unfold AddOverlapEdges.
  pose proof (same_labels_AddOverlapEdges_instances1 insts 1 ol sv se (graph, [])) as H.
  destruct (AddOverlapEdges_instances1 insts 1 ol sv se (graph, [])) as [g' es].
  cbn [fst] in H. destruct (0 <? _); [|done].
  by destruct (foldl _ _ es).
Qed.

Lemma same_labels_CompressGraph graph instanceList parameters :
  same_labels graph (CompressGraph graph instanceList parameters).2.
Proof.
  unfold CompressGraph.
  match goal with |- context [CompressGraph_mark ?a ?b ?c ?l ?s] =>
    pose proof (same_labels_CompressGraph_mark a b c l s) as H1;
    destruct (CompressGraph_mark a b c l s) as [[[g1 nv] ne] no]
  end.
  cbn [fst] in H1.
  match goal with |- context [ULONG_for ?n ?b ?s] =>
    destruct (ULONG_for n b s) as [cg vi]
  end.
  pose proof (same_labels_CopyUnmarkedGraph g1 cg vi parameters) as H2.
  destruct (CopyUnmarkedGraph g1 cg vi parameters) as [g2 cg2]. cbn [fst] in H2.
  destruct (allowInstanceOverlap parameters).
  - match goal with |- context [AddOverlapEdges ?a ?b ?c ?d ?e ?f] =>
      pose proof (same_labels_AddOverlapEdges a b c d e f) as H3;
      destruct (AddOverlapEdges a b c d e f) as [cg3 g3]
    end.
    cbn [snd] in *.
    eapply same_labels_trans; [exact H1|]. eapply same_labels_trans; [exact H2|].
    eapply same_labels_trans; [exact H3|]. apply same_labels_UnmarkInstances.
  - cbn [snd].
    eapply same_labels_trans; [exact H1|]. eapply same_labels_trans; [exact H2|].
    apply same_labels_UnmarkInstances.
Qed.

Lemma same_labels_NumOverlapEdges_vertices1 instance1 rest no ol st :
  same_labels st.1 (NumOverlapEdges_vertices1 instance1 rest no ol st).1.
Proof.
  unfold NumOverlapEdges_vertices1. apply (same_labels_foldl fst); [done|].
  intros [g es] x. cbn. destruct (vused _); cbn; auto with same_labels.
Qed.

Lemma same_labels_NumOverlapEdges_instances1 insts no ol st :
  same_labels st.1 (NumOverlapEdges_instances1 insts no ol st).1.
Proof.
  revert no st. induction insts as [|instance1 rest IH]; intros no st; cbn; [done|].
  eapply same_labels_trans; [apply same_labels_NumOverlapEdges_vertices1 | apply IH].
Qed.

Lemma same_labels_NumOverlapEdges graph insts :
  same_labels graph (NumOverlapEdges graph insts).2.
Proof.
  unfold NumOverlapEdges.
  pose proof (same_labels_NumOverlapEdges_instances1 insts 1 0 (graph, [])) as H.
  by destruct (NumOverlapEdges_instances1 insts 1 0 (graph, [])) as [g' es].
Qed.

Lemma same_labels_SizeOfCompressedGraph_vertices instance st :
  same_labels st.2 (SizeOfCompressedGraph_vertices instance st).2.
Proof.
  unfold SizeOfCompressedGraph_vertices. apply (same_labels_foldl snd); [done|].
  intros [n g] x. cbn. destruct (negb _); cbn; auto with same_labels.
Qed.

Lemma same_labels_SizeOfCompressedGraph_edges instance st :
  same_labels st.2 (SizeOfCompressedGraph_edges instance st).2.
Proof.
  unfold SizeOfCompressedGraph_edges. apply (same_labels_foldl snd); [done|].
  intros [n g] x. cbn. destruct (negb _); cbn; auto with same_labels.
Qed.

Lemma same_labels_SizeOfCompressedGraph graph instanceList parameters graphType :
  same_labels graph (SizeOfCompressedGraph graph instanceList parameters graphType).2.
Proof.
  unfold SizeOfCompressedGraph. destruct instanceList as [l|]; [|done].
  destruct (allowInstanceOverlap parameters); [|done].
  match goal with |- context [foldl ?f ?a l] =>
    pose proof (same_labels_foldl snd f l a graph) as H1; cbv beta in H1;
    destruct (foldl f a l) as [size g1]
  end.
  pose proof (same_labels_NumOverlapEdges g1 l) as H2.
  destruct (NumOverlapEdges g1 l) as [n g2]. cbn [snd] in *.
  eapply same_labels_trans; [|apply same_labels_UnmarkInstances].
  eapply same_labels_trans; [|exact H2]. apply H1; [done|].
  intros [s g] x. cbn.
  eapply same_labels_trans;
    [|apply same_labels_SizeOfCompressedGraph_edges].
  apply (same_labels_SizeOfCompressedGraph_vertices x (uadd s 1, g)).
Qed.

Lemma same_labels_NumUniqueEdges graph v1 :
  same_labels graph (NumUniqueEdges graph v1).2.
Proof.
  unfold NumUniqueEdges.
  match goal with |- context [NumUniqueEdges_count ?v ?es ?s] =>
    assert (H1 : same_labels graph (NumUniqueEdges_count v es s).1);
    [|destruct (NumUniqueEdges_count v es s) as [g1 n]]
  end.
  { unfold NumUniqueEdges_count. apply (same_labels_foldl fst); [done|].
    intros [g n] x. cbn. destruct (_ || _); [|done].
    destruct (negb _); cbn; auto with same_labels. }
  cbn [fst snd] in *. eapply same_labels_trans; [exact H1|].
  unfold NumUniqueEdges_reset. apply (same_labels_foldl (λ x : Graph, x)); [done|].
  intros g x. cbn. eapply same_labels_trans; apply same_labels_updV; by intros [].
Qed.

(** ** What the evaluation leaves of the parameters *)

(** The parameters up to the cache of [Log2Factorial]. *)
Definition same_up_to_cache (p p' : Parameters) : Prop :=
  p' = set_log2Factorial (log2Factorial p') p.

Lemma same_up_to_cache_refl p : same_up_to_cache p p.
Proof. unfold same_up_to_cache. by destruct p. Qed.

Lemma same_up_to_cache_trans p1 p2 p3 :
  same_up_to_cache p1 p2 → same_up_to_cache p2 p3 → same_up_to_cache p1 p3.
Proof. unfold same_up_to_cache. intros -> ->. done. Qed.

Lemma same_up_to_cache_Log2Factorial n p :
  same_up_to_cache p (Log2Factorial n p).2.
Proof.
  unfold Log2Factorial. destruct (_ <=? _); [|apply same_up_to_cache_refl]. done.
Qed.

Lemma MDL_body_frame V v1 st :
  same_labels (mdl_graph st) (mdl_graph (MDL_body V v1 st))
  ∧ same_up_to_cache (mdl_parameters st) (mdl_parameters (MDL_body V v1 st)).
Proof.
  unfold MDL_body.
  pose proof (same_labels_NumUniqueEdges (mdl_graph st) v1) as H1.
  destruct (NumUniqueEdges (mdl_graph st) v1) as [ki g].
  pose proof (same_up_to_cache_Log2Factorial ki (mdl_parameters st)) as H2.
  destruct (Log2Factorial ki (mdl_parameters st)) as [lf1 p1].
  pose proof (same_up_to_cache_Log2Factorial (usub V ki) p1) as H3.
  destruct (Log2Factorial (usub V ki) p1) as [lf2 p2]. cbn in *.
  split; [done|]. by eapply same_up_to_cache_trans.
Qed.

Lemma MDL_frame graph numLabels parameters :
  same_labels graph (MDL graph numLabels parameters).1.2
  ∧ same_up_to_cache parameters (MDL graph numLabels parameters).2.
Proof.
  unfold MDL.
  pose proof (same_up_to_cache_Log2Factorial (numVertices graph) parameters) as H1.
  destruct (Log2Factorial (numVertices graph) parameters) as [lfV p1].
  cbn [fst snd] in *.
  match goal with |- context [ULONG_for ?n ?b ?s] =>
    pose proof (ULONG_for_invariant
      (λ st, same_labels graph (mdl_graph st)
             ∧ same_up_to_cache parameters (mdl_parameters st)) n b s) as H2;
    cbv beta in H2
  end.
  apply H2; [done|].
  intros i st _ [Ha Hb]. destruct (MDL_body_frame (numVertices graph) i st) as [Hc Hd].
  split; [by eapply same_labels_trans | by eapply same_up_to_cache_trans].
Qed.

(** ** What [EvaluateSub] leaves of a substructure and of the graphs *)

(** The instances of a substructure. *)
Definition sub_instances (s : Substructure) :=
  (numInstances s, instances s, numNegInstances s, negInstances s, recursive s).

Lemma same_up_to_cache_fields p p' :
  same_up_to_cache p p' →
  posGraph p' = posGraph p ∧ negGraph p' = negGraph p.
Proof. by intros ->. Qed.

Lemma EvaluateSub_MDL_graphs sub p :
  let r := EvaluateSub_MDL sub p in
  sub_instances r.1.2 = sub_instances sub
  ∧ same_labels (definition sub) (definition r.1.2)
  ∧ same_labels (posGraph p) (posGraph r.2).
Proof.
  cbv zeta. unfold EvaluateSub_MDL.
  destruct (MDL_frame (definition sub) (numLabels (labelList p)) p) as [Hd Hp1].
  destruct (MDL (definition sub) (numLabels (labelList p)) p) as [[dl d'] p1].
  cbn [fst snd] in Hd, Hp1. apply same_up_to_cache_fields in Hp1 as [Hpos1 Hneg1].
  rewrite Hpos1.
  match goal with |- context [CompressGraph ?g ?l ?q] =>
    pose proof (same_labels_CompressGraph g l q) as Hc;
    destruct (CompressGraph g l q) as [cg pg']
  end.
  cbn [snd] in Hc.
  match goal with |- context [MDL cg ?l ?q] =>
    destruct (MDL_frame cg l q) as [_ Hp2];
    destruct (MDL cg l q) as [[dl2 cg2] p2]
  end.
  cbn [snd] in Hp2. apply same_up_to_cache_fields in Hp2 as [Hpos2 Hneg2].
  cbn in Hpos2, Hneg2.
  destruct (negGraph p) as [gn|].
  - match goal with |- context [CompressGraph ?g ?l ?q] =>
      destruct (CompressGraph g l q) as [cgn ng']
    end.
    match goal with |- context [MDL cgn ?l ?q] =>
      destruct (MDL_frame cgn l q) as [_ Hp3];
      destruct (MDL cgn l q) as [[dl3 cg3] p3]
    end.
    cbn [snd] in Hp3. apply same_up_to_cache_fields in Hp3 as [Hpos3 Hneg3].
    cbn in Hpos3. cbn [fst snd]. split_and!; [done|done|]. congruence.
  - cbn [fst snd]. split_and!; [done|done|]. congruence.
Qed.

Lemma EvaluateSub_SIZE_graphs sub p :
  let r := EvaluateSub_SIZE sub p in
  sub_instances r.1.2 = sub_instances sub
  ∧ same_labels (definition sub) (definition r.1.2)
  ∧ same_labels (posGraph p) (posGraph r.2).
Proof.
  cbv zeta. unfold EvaluateSub_SIZE.
  pose proof (same_labels_SizeOfCompressedGraph (posGraph p) (instances sub) p POS) as H.
  destruct (SizeOfCompressedGraph (posGraph p) (instances sub) p POS) as [size pg'].
  cbn [snd] in H.
  destruct (incremental p); destruct (negGraph (set_posGraph pg' p)) as [gn|];
    try (destruct (SizeOfCompressedGraph gn _ _ NEG) as [size' ng']); done.
Qed.

Lemma EvaluateSub_SETCOVER_graphs sub p :
  let r := EvaluateSub_SETCOVER sub p in
  sub_instances r.1.2 = sub_instances sub
  ∧ same_labels (definition sub) (definition r.1.2)
  ∧ same_labels (posGraph p) (posGraph r.2).
Proof.
  cbv zeta. unfold EvaluateSub_SETCOVER.
  destruct (incremental p); destruct (negGraph p); done.
Qed.

Lemma EvaluateSub_graphs sub p :
  let r := EvaluateSub sub p in
  sub_instances r.1 = sub_instances sub
  ∧ same_labels (definition sub) (definition r.1)
  ∧ same_labels (posGraph p) (posGraph r.2).
Proof.
  cbv zeta. unfold EvaluateSub.
  set (sub1 := match negGraph p with
               | Some _ => set_numNegExamples _ _
               | None => set_numNegExamples 0 (set_numExamples (PosExamplesCovered sub p) sub)
               end).
  assert (H1 : sub_instances sub1 = sub_instances sub ∧ definition sub1 = definition sub)
    by (unfold sub1; by destruct (negGraph p)).
  destruct H1 as [H1 Hdef1].
  set (sub2 := if recursive sub1 then _ else sub1).
  assert (H2 : sub_instances sub2 = sub_instances sub)
    by (unfold sub2; by destruct (recursive sub1)).
  assert (Hdef2 : recursive sub1 = false → definition sub2 = definition sub)
    by (unfold sub2; by intros ->).
  assert (H3 : let r := (if evalMethod p =? EVAL_MDL then EvaluateSub_MDL sub2 p
                else if evalMethod p =? EVAL_SIZE then EvaluateSub_SIZE sub2 p
                else if evalMethod p =? EVAL_SETCOVER then EvaluateSub_SETCOVER sub2 p
                else (0%R, sub2, p)) in
               sub_instances r.1.2 = sub_instances sub2
               ∧ same_labels (definition sub2) (definition r.1.2)
               ∧ same_labels (posGraph p) (posGraph r.2)).
  { cbv zeta. repeat case_match.
    - apply EvaluateSub_MDL_graphs.
    - apply EvaluateSub_SIZE_graphs.
    - apply EvaluateSub_SETCOVER_graphs.
    - done. }
  cbv zeta in H3.
  destruct (if evalMethod p =? EVAL_MDL then _ else _) as [[v sub3] p3].
  cbn [fst snd] in *. destruct H3 as (H3 & Hdef3 & Hpos).
  assert (Hr : recursive (set_value v sub3) = recursive sub1).
  { cbn. unfold sub_instances in *. congruence. }
  rewrite Hr. destruct (recursive sub1) eqn:Er.
  - cbn. split_and!; [|by rewrite Hdef1|done].
    unfold sub_instances in *. cbn. congruence.
  - cbn. split_and!; [|by rewrite <- Hdef2|done].
    unfold sub_instances in *. cbn. congruence.
Qed.

(** ** Extended instances have one more edge *)

Lemma length_iedges_CreateExtendedInstance_index edge i x :
  length (iedges (CreateExtendedInstance_index edge i x)) = length (iedges x).
Proof.
  unfold CreateExtendedInstance_index. by repeat case_match.
Qed.

Lemma length_iedges_CreateExtendedInstance_copy instance edge i x :
  length (iedges (CreateExtendedInstance_copy instance edge i x)) = length (iedges x).
Proof.
  unfold CreateExtendedInstance_copy.
  by rewrite length_iedges_CreateExtendedInstance_index.
Qed.

Lemma length_iedges_CreateExtendedInstance_shift edge v2 i x :
  length (iedges (CreateExtendedInstance_shift edge v2 i x).2) = length (iedges x).
Proof.
  revert x. induction i as [|k IH]; intros x; cbn [CreateExtendedInstance_shift]; [done|].
  destruct (_ <? _); [|done].
  by rewrite IH, length_iedges_CreateExtendedInstance_index.
Qed.

Lemma length_iedges_CreateExtendedInstance_shiftEdges e i x :
  length (iedges (CreateExtendedInstance_shiftEdges e i x).2) = length (iedges x).
Proof.
  revert x. induction i as [|k IH]; intros x;
    cbn [CreateExtendedInstance_shiftEdges]; [done|].
  destruct (_ <? _); [|done]. rewrite IH. cbn. by rewrite length_insert.
Qed.

Lemma length_iedges_CreateExtendedInstance instance v e graph :
  N.of_nat (length (iedges instance)) + 1 < ULONG_MODULUS →
  length (iedges (CreateExtendedInstance instance v e graph))
  = S (length (iedges instance)).
Proof.
  intros Hb. unfold CreateExtendedInstance.
  set (edge := getE graph e).
  set (v2 := if vertex1 edge =? v then vertex2 edge else vertex1 edge).
  set (found := existsb (λ x, x =? v2) (ivertices instance)).
  set (x0 := if negb found then AllocateInstance _ _ else AllocateInstance _ _).
  assert (H0 : length (iedges x0) = S (length (iedges instance))).
  { unfold x0, inumEdges.
    rewrite (uadd_small (N.of_nat (length (iedges instance))) 1) by done.
    destruct (negb found); unfold AllocateInstance; cbn [iedges];
      rewrite length_replicate; lia. }
  set (x1 := set_parentInstance _ x0).
  set (x2 := ULONG_for _ (CreateExtendedInstance_copy instance edge) x1).
  assert (H2 : length (iedges x2) = S (length (iedges instance))).
  { unfold x2. apply (ULONG_for_invariant (λ x, length (iedges x) = _)); [done|].
    intros i s _ Hs. by rewrite length_iedges_CreateExtendedInstance_copy. }
  set (x3 := set_newVertex VERTEX_UNMAPPED x2).
  set (x4 := if negb found then _ else x3).
  assert (H4 : length (iedges x4) = S (length (iedges instance))).
  { unfold x4. destruct (negb found); [|done].
    pose proof (length_iedges_CreateExtendedInstance_shift edge v2
                  (length (ivertices instance)) x3) as Hs.
    destruct (CreateExtendedInstance_shift edge v2 _ x3) as [i x].
    rewrite length_iedges_CreateExtendedInstance_index. cbn in *. congruence. }
  set (x5 := ULONG_for _ _ x4).
  assert (H5 : length (iedges x5) = S (length (iedges instance))).
  { unfold x5. apply (ULONG_for_invariant (λ x, length (iedges x) = _)); [done|].
    intros i s _ Hs. cbn. by rewrite length_insert. }
  pose proof (length_iedges_CreateExtendedInstance_shiftEdges e
                (length (iedges instance)) x5) as H6.
  destruct (CreateExtendedInstance_shiftEdges e _ x5) as [i x6].
  cbn in *. rewrite length_insert. congruence.
Qed.

(** A property of instances that the bookkeeping fields do not
    touch. *)
Definition edges_only (P : Instance → Prop) : Prop :=
  ∀ x y, iedges x = iedges y → P x → P y.

Lemma edges_only_length n : edges_only (λ x, length (iedges x) = n).
Proof. intros x y E. by rewrite E. Qed.

Lemma Forall_InstanceListInsert P x l unique :
  edges_only P → P x → Forall P l → Forall P (InstanceListInsert x l unique).
Proof.
  intros HP Hx Hl. unfold InstanceListInsert. destruct (_ || _); [|done].
  constructor; [|done]. by apply (HP x).
Qed.

Lemma Forall_ExtendInstances n instanceList graph :
  N.of_nat n + 1 < ULONG_MODULUS →
  Forall (λ x, length (iedges x) = n) (deref_InstanceList instanceList) →
  Forall (λ x, length (iedges x) = S n) (ExtendInstances instanceList graph).1.
Proof.
  intros Hb Hl. unfold ExtendInstances.
  apply (foldl_invariant (λ st, Forall (λ x, length (iedges x) = S n) st.1));
    [by constructor|].
  intros [l g] instance Hst Hin. cbn in Hst |- *.
  rewrite Forall_forall in Hl. specialize (Hl _ Hin).
  apply (foldl_invariant (Forall (λ x, length (iedges x) = S n))); [done|].
  intros l' v Hl' _. unfold ExtendInstances_edges.
  apply (foldl_invariant (Forall (λ x, length (iedges x) = S n))); [done|].
  intros l'' e Hl'' _. destruct (negb _); [|done].
  apply Forall_InstanceListInsert; [apply edges_only_length| |done].
  rewrite length_iedges_CreateExtendedInstance; lia.
Qed.

Lemma same_labels_ExtendInstances instanceList graph :
  same_labels graph (ExtendInstances instanceList graph).2.
Proof.
  unfold ExtendInstances. apply (same_labels_foldl snd); [done|].
  intros [l g] instance. cbn.
  eapply same_labels_trans; apply same_labels_MarkInstanceEdges.
Qed.

(** ** The graph of an instance *)

Lemma InstanceToGraph_size instance graph :
  numVertices (InstanceToGraph instance graph) = inumVertices instance
  ∧ numEdges (InstanceToGraph instance graph) = inumEdges instance.
Proof.
  unfold InstanceToGraph.
  set (g0 := AllocateGraph _ _).
  set (g1 := ULONG_for _ (InstanceToGraph_vertex instance graph) g0).
  assert (H1 : same_labels g0 g1 ∨ (numVertices g1 = numVertices g0
                                    ∧ numEdges g1 = numEdges g0)).
  { right. unfold g1.
    apply (ULONG_for_invariant
             (λ g, numVertices g = numVertices g0 ∧ numEdges g = numEdges g0));
      [done|]. by intros i g _ [? ?]. }
  assert (H1' : numVertices g1 = numVertices g0 ∧ numEdges g1 = numEdges g0).
  { destruct H1 as [(? & ? & _) | ?]; done. }
  clear H1.
  match goal with |- context [ULONG_for ?n ?b ?s] =>
    pose proof (ULONG_for_invariant
      (λ st, numVertices st.1.1 = numVertices g0 ∧ numEdges st.1.1 = numEdges g0)
      n b s) as H2; cbv beta in H2
  end.
  apply H2; [done|].
  intros i [[g a] b] _ [Hv He]. unfold InstanceToGraph_edge.
  destruct (InstanceToGraph_find _ _ _ _ _ _ _) as [v1 v2]. cbn in *.
  by destruct (negb _).
Qed.

(** ** Substructures on the lists of [SubListInsert] *)

Lemma elem_of_SubList_place sub l s :
  s ∈ SubList_place sub l → s = sub ∨ s ∈ l.
Proof.
  induction l as [|x next IH]; cbn [SubList_place].
  - intros H. apply list_elem_of_singleton in H. by left.
  - destruct (dlt _ _).
    + intros H. apply elem_of_cons in H as [-> | H]; [by left | by right].
    + intros H. apply elem_of_cons in H as [-> | H]; [right; left|].
      destruct (IH H) as [-> | H']; [by left | right; by right].
Qed.

Lemma elem_of_SubListInsert M sub l max valueBased labelList s :
  s ∈ SubListInsert M sub l max valueBased labelList → s = sub ∨ s ∈ l.
Proof.
  unfold SubListInsert. destruct l as [|x next].
  - intros H. apply list_elem_of_singleton in H. by left.
  - destruct (SubListInsert_found _ _ _ _); [by right|].
    rewrite SubListInsert_loop_place by done. intros H.
    apply elem_of_SubList_place.
    eapply elem_of_prefix; [exact H | apply SubListInsert_rest_prefix].
Qed.

Lemma Forall_SubListInsert (P : Substructure → Prop) M sub l max valueBased labelList :
  P sub → Forall P l → Forall P (SubListInsert M sub l max valueBased labelList).
Proof.
  intros Hs Hl. apply Forall_forall. intros s Hin.
  apply elem_of_SubListInsert in Hin as [-> | Hin]; [done|].
  rewrite Forall_forall in Hl. by apply Hl.
Qed.

(** ** Extended substructures have one more edge *)

(** A substructure whose definition and positive instances have [n]
    edges. *)
Definition sub_edges (n : nat) (sub : Substructure) : Prop :=
  numEdges (definition sub) = N.of_nat n
  ∧ Forall (λ x, length (iedges x) = n) (deref_InstanceList (instances sub)).

Lemma sub_edges_EvaluateSub n sub p :
  sub_edges n sub → sub_edges n (EvaluateSub sub p).1.
Proof.
  intros [He Hi]. destruct (EvaluateSub_graphs sub p) as (Hs & (_ & Hd & _) & _).
  unfold sub_instances in Hs. injection Hs as _ Hinst _ _ _.
  split; [congruence | by rewrite Hinst].
Qed.

Section Extend_properties.
Variable InexactGraphMatch : Matcher.
Variable NewEdgeMatch :
  Graph → Instance → Graph → Instance → Parameters → double → double →
  NewEdgeMatchResult.
Variable matchCost0 : double.

Lemma iedges_lower_minMatchCost c x : iedges (lower_minMatchCost c x) = iedges x.
Proof. unfold lower_minMatchCost. by destruct (dlt _ _). Qed.

Lemma Forall_sub_add_instance P x sub :
  edges_only P → P x → Forall P (deref_InstanceList (instances sub)) →
  Forall P (deref_InstanceList (instances (sub_add_instance x sub))).
Proof. intros HP Hx Hl. cbn. constructor; [by apply (HP x)|done]. Qed.

(** What the loop of [AddPosInstancesToSub] keeps: the definition, and
    the edges of the instances on both lists. *)
Definition AddPosInstancesToSub_inv (P : Instance → Prop) (d : Graph) (len : nat)
    (st : Substructure * InstanceList * double) : Prop :=
  definition st.1.1 = d
  ∧ Forall P (deref_InstanceList (instances st.1.1))
  ∧ Forall P st.1.2 ∧ length st.1.2 = len.

Lemma AddPosInstancesToSub_node_inv P d len subInstance parameters index st counter :
  edges_only P → (counter < len)%nat →
  AddPosInstancesToSub_inv P d len st →
  AddPosInstancesToSub_inv P d len
    (AddPosInstancesToSub_node InexactGraphMatch NewEdgeMatch subInstance parameters
                               index st counter).
Proof.
  intros HP Hc. destruct st as [[sub l] mc]. intros (Hd & Hs & Hl & Hlen).
  cbn [fst snd] in *.
  assert (Hx : P (l !!! counter)).
  { rewrite Forall_forall in Hl. apply Hl, list_elem_of_lookup_total_2. lia. }
  unfold AddPosInstancesToSub_node.
  destruct (_ || _); [|done].
  destruct (deq _ _).
  - destruct (_ && _); [|done].
    set (r := NewEdgeMatch _ _ _ _ _ _ _).
    assert (Hx' : P (NewEdgeMatch_instance r (l !!! counter))) by by apply (HP (l !!! counter)).
    destruct (nem_match r).
    + assert (Hx'' : P (set_iused true
                         (lower_minMatchCost (nem_cost r)
                            (NewEdgeMatch_instance r (l !!! counter))))).
      { eapply HP; [|exact Hx']. cbn. by rewrite iedges_lower_minMatchCost. }
      split_and!; cbn [fst snd].
      * done.
      * by apply Forall_sub_add_instance.
      * by apply Forall_insert.
      * by rewrite length_insert.
    + split_and!; cbn [fst snd]; [done|done| |].
      * by apply Forall_insert.
      * by rewrite length_insert.
  - destruct (matched _); [|done].
    assert (Hx' : P (lower_minMatchCost
                       (default mc (storedMatchCost
                          (GraphMatch InexactGraphMatch (definition sub)
                             (InstanceToGraph (l !!! counter) (posGraph parameters))
                             (labelList parameters)
                             (threshold parameters
                              * double_of_ULONG
                                  (uadd (inumVertices (l !!! counter))
                                        (inumEdges (l !!! counter)))))))
                       (l !!! counter))).
    { eapply HP; [|exact Hx]. by rewrite iedges_lower_minMatchCost. }
    split_and!; cbn [fst snd].
    + done.
    + by apply Forall_sub_add_instance.
    + by apply Forall_insert.
    + by rewrite length_insert.
Qed.

Lemma AddPosInstancesToSub_inv_result P sub subInstance l parameters index :
  edges_only P → P subInstance → Forall P l →
  let r := AddPosInstancesToSub InexactGraphMatch NewEdgeMatch matchCost0
             sub subInstance (Some l) parameters index in
  definition r.1 = definition sub
  ∧ Forall P (deref_InstanceList (instances r.1))
  ∧ Forall P (deref_InstanceList r.2)
  ∧ length (deref_InstanceList r.2) = length l.
Proof.
  intros HP Hx Hl. cbv zeta. unfold AddPosInstancesToSub.
  assert (Hx' : P (set_iused true subInstance)) by by apply (HP subInstance).
  match goal with |- context [foldl ?f ?a ?s] =>
    pose proof (foldl_invariant
      (AddPosInstancesToSub_inv P (definition sub) (length l)) f s a) as H;
    destruct (foldl f a s) as [[sub' l'] mc']
  end.
  cbn [fst snd]. apply H.
  - split_and!; cbn [fst snd].
    + done.
    + apply Forall_InstanceListInsert; [done|done|constructor].
    + by apply Forall_insert.
    + by rewrite length_insert.
  - intros st k Hst Hk. apply AddPosInstancesToSub_node_inv; [done| |done].
    apply elem_of_seq in Hk. rewrite length_insert in Hk. lia.
Qed.

Lemma AddNegInstancesToSub_node_frame subInstance parameters st counter :
  let st' := AddNegInstancesToSub_node InexactGraphMatch NewEdgeMatch subInstance
               parameters st counter in
  definition st'.1.1 = definition st.1.1 ∧ instances st'.1.1 = instances st.1.1
  ∧ numInstances st'.1.1 = numInstances st.1.1.
Proof.
  cbv zeta. destruct st as [[sub l] mc]. unfold AddNegInstancesToSub_node.
  cbn [fst snd]. repeat case_match; done.
Qed.

Lemma AddNegInstancesToSub_frame sub subInstance instanceList parameters :
  let r := AddNegInstancesToSub InexactGraphMatch NewEdgeMatch matchCost0
             sub subInstance instanceList parameters in
  definition r.1 = definition sub ∧ instances r.1 = instances sub
  ∧ numInstances r.1 = numInstances sub.
Proof.
  cbv zeta. unfold AddNegInstancesToSub. destruct instanceList as [l|]; [|done].
  match goal with |- context [foldl ?f ?a ?s] =>
    pose proof (foldl_invariant
      (λ st, definition st.1.1 = definition sub ∧ instances st.1.1 = instances sub
             ∧ numInstances st.1.1 = numInstances sub) f s a) as H;
    destruct (foldl f a s) as [[sub' l'] mc']
  end.
  cbn [fst snd] in *. apply H; [done|].
  intros st k (H1 & H2 & H3) _.
  destruct (AddNegInstancesToSub_node_frame subInstance parameters st k)
    as (H1' & H2' & H3').
  split_and!; congruence.
Qed.

(** What the loop of [ExtendSub] keeps. *)
Definition ExtendSub_inv (n : nat) (len : nat)
    (st : SubList * InstanceList * option InstanceList) : Prop :=
  Forall (sub_edges n) st.1.1
  ∧ Forall (λ x, length (iedges x) = n) st.1.2 ∧ length st.1.2 = len.

Lemma ExtendSub_node_inv n len parameters st k :
  (k < len)%nat →
  ExtendSub_inv n len st →
  ExtendSub_inv n len
    (ExtendSub_node InexactGraphMatch NewEdgeMatch matchCost0 parameters st k).
Proof.
  intros Hk. destruct st as [[subs l] neg]. intros (Hsubs & Hl & Hlen).
  cbn [fst snd] in *. unfold ExtendSub_node.
  destruct (negb (deq _ _)); [|done].
  destruct (negb (MemberOfSubList _ _ _ _)); [|done].
  assert (Hx : length (iedges (l !!! k)) = n).
  { rewrite Forall_forall in Hl. apply Hl, list_elem_of_lookup_total_2. lia. }
  set (newSub := CreateSubFromInstance (l !!! k) (posGraph parameters)).
  destruct (AddPosInstancesToSub_inv_result (λ x, length (iedges x) = n)
              newSub (l !!! k) l parameters (N.of_nat k))
    as (Hd & Hi & Hl' & Hlen'); [apply edges_only_length|done|done|].
  destruct (AddPosInstancesToSub _ _ _ newSub (l !!! k) (Some l) parameters (N.of_nat k))
    as [newSub' l'].
  cbn [fst snd] in *.
  set (r := match neg with
            | Some _ => AddNegInstancesToSub _ _ _ newSub' _ neg parameters
            | None => (newSub', neg)
            end).
  assert (Hr : definition r.1 = definition newSub' ∧ instances r.1 = instances newSub').
  { unfold r. destruct neg; [|done].
    destruct (AddNegInstancesToSub_frame newSub' (deref_InstanceList l' !!! k)
                (Some l0) parameters) as (? & ? & _). done. }
  destruct r as [newSub'' neg']. cbn [fst snd] in *. destruct Hr as [Hd'' Hi''].
  split_and!; cbn [fst snd]; [|done|congruence].
  constructor; [|done]. split.
  - rewrite Hd'', Hd. unfold newSub, CreateSubFromInstance. cbn [definition set_definition].
    destruct (InstanceToGraph_size (l !!! k) (posGraph parameters)) as [_ ->].
    unfold inumEdges. by rewrite Hx.
  - by rewrite Hi''.
Qed.

Lemma ExtendSub_sub_edges n sub parameters :
  N.of_nat n + 1 < ULONG_MODULUS →
  sub_edges n sub →
  Forall (sub_edges (S n))
         (ExtendSub InexactGraphMatch NewEdgeMatch matchCost0 sub parameters).1.
Proof.
  intros Hb [_ Hi]. unfold ExtendSub.
  pose proof (Forall_ExtendInstances n (instances sub) (posGraph parameters) Hb Hi) as Hl.
  destruct (ExtendInstances (instances sub) (posGraph parameters)) as [l g'].
  cbn [fst] in Hl.
  set (q := match negGraph (set_posGraph g' parameters) with
            | Some _ => _
            | None => (None, set_posGraph g' parameters)
            end).
  destruct q as [neg parameters'].
  match goal with |- context [foldl ?f ?a ?s] =>
    pose proof (foldl_invariant (ExtendSub_inv (S n) (length l)) f s a) as H;
    destruct (foldl f a s) as [[subs l'] neg']
  end.
  cbn [fst]. apply H.
  - split_and!; cbn [fst snd]; [constructor|done|done].
  - intros st k Hst Hk. apply ExtendSub_node_inv; [|done].
    apply elem_of_seq in Hk. lia.
Qed.

End Extend_properties.

(** ** The initial substructures *)

Lemma foldl_reverse_seq_ind {S : Type} (P : nat → S → Prop) (f : S → nat → S)
    (lo len : nat) (s : S) :
  P (lo + len)%nat s →
  (∀ j st, (lo ≤ j < lo + len)%nat → P (Datatypes.S j) st → P j (f st j)) →
  P lo (foldl f s (reverse (seq lo len))).
Proof.
  revert s. induction len as [|len IH]; intros s H0 Hstep.
  - by rewrite Nat.add_0_r in H0.
  - rewrite seq_S, reverse_snoc. cbn [foldl]. apply IH.
    + apply Hstep; [lia|]. by rewrite Nat.add_succ_r in H0.
    + intros j st Hj. apply Hstep. lia.
Qed.

Lemma ULONG_do_down_ind {S : Type} (P : N → S → Prop) (hi lo : ULONG)
    (body : ULONG → S → S) (s : S) :
  lo < hi → hi < ULONG_MODULUS →
  P hi s →
  (∀ j st, lo ≤ j < hi → P (j + 1) st → P j (body j st)) →
  P lo (ULONG_do_down hi lo body s).
Proof.
  intros Hlo Hhi H0 Hstep. unfold ULONG_do_down.
  rewrite usub_small by lia. rewrite N.min_l by lia.
  replace lo with (N.of_nat (N.to_nat lo)) at 1 by lia.
  apply (foldl_reverse_seq_ind (λ k st, P (N.of_nat k) st)).
  - replace (N.of_nat _) with hi by lia. done.
  - intros j st Hj Hs. apply Hstep; [lia|].
    replace (N.of_nat j + 1) with (N.of_nat (Datatypes.S j)) by lia. done.
Qed.

Lemma ULONG_do_down_invariant {S : Type} (P : S → Prop) (hi lo : ULONG)
    (body : ULONG → S → S) (s : S) :
  P s → (∀ j st, P st → P (body j st)) → P (ULONG_do_down hi lo body s).
Proof.
  intros H0 Hstep. unfold ULONG_do_down. apply foldl_invariant; [done|].
  intros st j Hst _. by apply Hstep.
Qed.

Lemma ULONG_for_from_invariant {S : Type} (P : S → Prop) (lo hi : ULONG)
    (body : ULONG → S → S) (s : S) :
  P s → (∀ i st, lo ≤ i < hi → P st → P (body i st)) →
  P (ULONG_for_from lo hi body s).
Proof.
  intros H0 Hstep. unfold ULONG_for_from. apply foldl_invariant; [done|].
  intros st i Hst Hi. apply Hstep; [|done]. apply elem_of_seq in Hi. lia.
Qed.

(** The label [L] is on two vertices of the graph. *)
Definition label_twice (g : Graph) (L : ULONG) : Prop :=
  ∃ j1 j2, j1 < j2 ∧ j2 < numVertices g
           ∧ vlabel (getV g j1) = L ∧ vlabel (getV g j2) = L.

Lemma label_twice_same_labels g g' L :
  same_labels g g' → label_twice g' L → label_twice g L.
Proof.
  intros (Hv & _ & Hl) (j1 & j2 & H12 & H2 & L1 & L2).
  exists j1, j2. rewrite <- !Hl. split_and!; [done|congruence|done|done].
Qed.

(** What the loop of [GetInitialSubs] over the positive graph keeps,
    when it has come down to vertex [j]. *)
Definition GetInitialSubs_collect_inv (graph : Graph) (L : ULONG) (d : Graph)
    (j : ULONG) (sub : Substructure) : Prop :=
  definition sub = d
  ∧ Forall (λ x, length (iedges x) = 0%nat) (deref_InstanceList (instances sub))
  ∧ numInstances sub + j ≤ numVertices graph
  ∧ (1 ≤ numInstances sub →
     ∃ j1, j ≤ j1 ∧ j1 < numVertices graph ∧ vlabel (getV graph j1) = L)
  ∧ (2 ≤ numInstances sub →
     ∃ j1 j2, j ≤ j1 ∧ j1 < j2 ∧ j2 < numVertices graph
              ∧ vlabel (getV graph j1) = L ∧ vlabel (getV graph j2) = L).

Lemma GetInitialSubs_collect_spec graph L i sub :
  i < numVertices graph → numVertices graph < ULONG_MODULUS →
  numInstances sub = 0 → instances sub = Some [] →
  GetInitialSubs_collect_inv graph L (definition sub) i
    (ULONG_do_down (numVertices graph) i (GetInitialSubs_collect graph L) sub).
Proof.
  intros Hi Hb Hn Hl.
  apply (ULONG_do_down_ind (GetInitialSubs_collect_inv graph L (definition sub)));
    [done|done| |].
  - split_and!; [done|rewrite Hl; constructor|lia|lia|lia].
  - intros j st Hj (Hd & Hf & Hc & H1 & H2). unfold GetInitialSubs_collect.
    destruct (vlabel (getV graph j) =? L) eqn:E.
    + apply N.eqb_eq in E.
      assert (Hu : numInstances (sub_add_instance (GetInitialSubs_instance j) st)
                   = numInstances st + 1).
      { cbn. apply uadd_small. lia. }
      split_and!.
      * done.
      * cbn. by constructor.
      * rewrite Hu. lia.
      * intros _. exists j. split_and!; [lia|lia|done].
      * rewrite Hu. intros Hge. destruct H1 as (j1 & Hj1 & Hj1' & Hl1); [lia|].
        exists j, j1. split_and!; try done; lia.
    + split_and!; [done|done|lia| |].
      * intros Hge. destruct (H1 Hge) as (j1 & ? & ? & ?). exists j1.
        split_and!; [lia|done|done].
      * intros Hge. destruct (H2 Hge) as (j1 & j2 & ? & ? & ? & ? & ?).
        exists j1, j2. split_and!; try done; lia.
Qed.

(** A substructure as [GetInitialSubs] makes them: one vertex, no edge,
    at least two positive instances, and a label that is on two
    vertices of the positive graph. *)
Definition initial_sub (g : Graph) (sub : Substructure) : Prop :=
  numVertices (definition sub) = 1
  ∧ numEdges (definition sub) = 0
  ∧ 2 ≤ numInstances sub
  ∧ label_twice g (vlabel (getV (definition sub) 0))
  ∧ Forall (λ x, length (iedges x) = 0%nat) (deref_InstanceList (instances sub)).

Lemma initial_sub_edges g sub : initial_sub g sub → sub_edges 0 sub.
Proof. intros (_ & He & _ & _ & Hi). by split. Qed.

Section Discover_properties.
Variable InexactGraphMatch : Matcher.
Variable NewEdgeMatch :
  Graph → Instance → Graph → Instance → Parameters → double → double →
  NewEdgeMatchResult.
Variable matchCost0 : double.
Variable SubLabelNumber : ULONG → LabelList → ULONG.
Variable RecursifySub : Substructure → Parameters → option Substructure * Parameters.

Definition GetInitialSubs_inv (g : Graph) (st : Parameters * SubList * ULONG) : Prop :=
  same_labels g (posGraph st.1.1) ∧ Forall (initial_sub g) st.1.2.

Lemma GetInitialSubs_vertex_inv g i st :
  numVertices g < ULONG_MODULUS → i < numVertices g →
  GetInitialSubs_inv g st →
  GetInitialSubs_inv g (GetInitialSubs_vertex InexactGraphMatch i st).
Proof.
  intros Hb Hi. destruct st as [[p subs] num]. intros [Hg Hsubs]. cbn [fst snd] in *.
  unfold GetInitialSubs_vertex.
  set (L := vlabel (getV (posGraph p) i)).
  destruct (negb (lused _)); [|done].
  set (p1 := set_labelList _ p).
  change (posGraph p1) with (posGraph p). change (negGraph p1) with (negGraph p).
  set (d := updV (AllocateGraph 1 0) 0 (λ vx, mkVertex L [] (vmap vx) (vused vx))).
  set (sub0 := set_instances (Some []) (set_definition d AllocateSub)).
  destruct Hg as (Hnv & Hne & Hlab).
  destruct (GetInitialSubs_collect_spec (posGraph p) L i sub0)
    as (Hd & Hf & _ & _ & H2); [lia|lia|done|done|].
  set (sub1 := ULONG_do_down _ i (GetInitialSubs_collect (posGraph p) L) sub0) in *.
  destruct (1 <? numInstances sub1) eqn:E1; [|done].
  apply N.ltb_lt in E1.
  set (sub2 := match negGraph p with Some _ => _ | None => sub1 end).
  assert (Hs2 : definition sub2 = definition sub1 ∧ instances sub2 = instances sub1
                ∧ numInstances sub2 = numInstances sub1).
  { unfold sub2. destruct (negGraph p) as [gn|]; [|done].
    apply (ULONG_do_down_invariant
             (λ s, definition s = definition sub1 ∧ instances s = instances sub1
                   ∧ numInstances s = numInstances sub1)); [done|].
    intros j s (? & ? & ?). unfold GetInitialSubs_collectNeg.
    by destruct (_ =? _). }
  destruct Hs2 as (Hd2 & Hi2 & Hn2).
  destruct (EvaluateSub_graphs sub2 p1) as (Hs3 & Hd3 & Hp3).
  destruct (EvaluateSub sub2 p1) as [sub3 p2]. cbn [fst snd] in *.
  change (posGraph p1) with (posGraph p) in Hp3.
  split.
  - eapply same_labels_trans; [|exact Hp3]. done.
  - apply Forall_SubListInsert; [|done].
    unfold sub_instances in Hs3. injection Hs3 as Hn3 Hi3 _ _ _.
    destruct Hd3 as (Hv3 & He3 & Hl3). rewrite Hd2, Hd in Hv3, He3, Hl3.
    split_and!.
    + by rewrite Hv3.
    + by rewrite He3.
    + rewrite Hn3, Hn2. lia.
    + rewrite Hl3.
      assert (HL : vlabel (getV (definition sub0) 0) = L) by done.
      rewrite HL. destruct H2 as (j1 & j2 & ? & ? & ? & ? & ?); [lia|].
      exists j1, j2. rewrite <- !Hlab. split_and!; [done|lia|done|done].
    + by rewrite Hi3, Hi2.
Qed.

Lemma GetInitialSubs_initial_sub parameters :
  numVertices (posGraph parameters) < ULONG_MODULUS →
  Forall (initial_sub (posGraph parameters))
         (GetInitialSubs InexactGraphMatch parameters).1.
Proof.
  intros Hb. unfold GetInitialSubs.
  set (p1 := set_labelList _ parameters).
  change (posGraph p1) with (posGraph parameters).
  match goal with |- context [ULONG_for_from ?lo ?hi ?b ?s] =>
    pose proof (ULONG_for_from_invariant (GetInitialSubs_inv (posGraph parameters))
                  lo hi b s) as H;
    destruct (ULONG_for_from lo hi b s) as [[p2 subs] num]
  end.
  cbn [fst]. apply H.
  - split; [done|constructor].
  - intros i st Hi Hst. apply GetInitialSubs_vertex_inv; [done|lia|done].
Qed.

(** ** The lists of [DiscoverSubs] *)

Lemma DiscoverSubs_extended_inv n parameters0 parentSub st extendedSub :
  sub_edges n extendedSub →
  Forall (sub_edges n) st.1 →
  Forall (sub_edges n)
         (DiscoverSubs_extended InexactGraphMatch parameters0 parentSub st
                                extendedSub).1.
Proof.
  intros He Hst. destruct st as [child p]. unfold DiscoverSubs_extended.
  destruct (_ <=? _); [|done].
  pose proof (sub_edges_EvaluateSub n extendedSub p He) as He'.
  destruct (EvaluateSub extendedSub p) as [e p']. cbn [fst] in *.
  destruct (_ && _); [done|]. cbn [fst]. by apply Forall_SubListInsert.
Qed.

Lemma DiscoverSubs_parent_inv n parameters0 st parentSub :
  N.of_nat n + 1 < ULONG_MODULUS →
  sub_edges n parentSub →
  Forall (sub_edges (S n)) (ds_childSubList st) →
  Forall (sub_edges (S n))
         (ds_childSubList
            (DiscoverSubs_parent InexactGraphMatch NewEdgeMatch matchCost0
                                 SubLabelNumber RecursifySub parameters0 st parentSub)).
Proof.
  intros Hb Hp Hst. unfold DiscoverSubs_parent.
  set (q := if _ && (0 <? ds_limit st) then _ else _).
  assert (Hq : Forall (sub_edges (S n)) q.1.2).
  { unfold q. destruct (_ && _); [|done].
    pose proof (ExtendSub_sub_edges InexactGraphMatch NewEdgeMatch matchCost0 n
                  parentSub (ds_parameters st) Hb Hp) as He.
    destruct (ExtendSub _ _ _ parentSub (ds_parameters st)) as [ext p1].
    cbn [fst] in He.
    match goal with |- context [foldl ?f ?a ext] =>
      assert (Hf : Forall (sub_edges (S n)) (foldl f a ext).1);
      [|by destruct (foldl f a ext)]
    end.
    apply (foldl_invariant (λ st, Forall (sub_edges (S n)) st.1)); [done|].
    intros a e Ha Hin. apply DiscoverSubs_extended_inv; [|done].
    rewrite Forall_forall in He. by apply He. }
  destruct q as [[limit child] p1]. cbn [fst snd] in Hq.
  destruct (_ <=? _); [|done].
  destruct (negb _); [|done].
  by destruct (if recursion parameters0 then _ else _).
Qed.

Lemma DiscoverSubs_iteration_inv n parameters0 st :
  N.of_nat n + 1 < ULONG_MODULUS →
  Forall (sub_edges n) (ds_childSubList st) →
  Forall (sub_edges (S n))
         (ds_childSubList
            (DiscoverSubs_iteration InexactGraphMatch NewEdgeMatch matchCost0
                                    SubLabelNumber RecursifySub parameters0 st)).
Proof.
  intros Hb Hst. unfold DiscoverSubs_iteration.
  apply (foldl_invariant (λ s, Forall (sub_edges (S n)) (ds_childSubList s)));
    [constructor|].
  intros s parentSub Hs Hin. apply DiscoverSubs_parent_inv; [done| |done].
  rewrite Forall_forall in Hst. by apply Hst.
Qed.

(** The state of [DiscoverSubs] after [n] iterations of its outer
    loop; its child list is the parent list of the next iteration. *)
Definition DiscoverSubs_after (n : nat) (parameters : Parameters) : DiscoverSubs_state :=
  Nat.iter n
    (DiscoverSubs_iteration InexactGraphMatch NewEdgeMatch matchCost0 SubLabelNumber
                            RecursifySub parameters)
    (DiscoverSubs_initial InexactGraphMatch parameters).

Lemma DiscoverSubs_after_sub_edges n parameters :
  numVertices (posGraph parameters) < ULONG_MODULUS →
  N.of_nat n < ULONG_MODULUS →
  Forall (sub_edges n) (ds_childSubList (DiscoverSubs_after n parameters)).
Proof.
  intros Hg. induction n as [|n IH]; intros Hn.
  - unfold DiscoverSubs_after, DiscoverSubs_initial. cbn [Nat.iter].
    pose proof (GetInitialSubs_initial_sub parameters Hg) as H.
    destruct (GetInitialSubs InexactGraphMatch parameters) as [subs p']. cbn [fst] in *.
    eapply Forall_impl; [exact H|]. intros sub. apply initial_sub_edges.
  - unfold DiscoverSubs_after. cbn [Nat.iter].
    apply DiscoverSubs_iteration_inv; [lia|]. apply IH. lia.
Qed.

(** The loop of [DiscoverSubs] ends in one of these states. *)
Lemma DiscoverSubs_loop_after fuel parameters n :
  ∃ k, DiscoverSubs_loop InexactGraphMatch NewEdgeMatch matchCost0 SubLabelNumber
                         RecursifySub fuel parameters (DiscoverSubs_after n parameters)
       = DiscoverSubs_after (n + k) parameters.
Proof.
  revert n. induction fuel as [|fuel IH]; intros n; cbn [DiscoverSubs_loop].
  - exists 0%nat. by rewrite Nat.add_0_r.
  - destruct (DiscoverSubs_continue _).
    + destruct (IH (S n)) as [k Hk]. exists (S k).
      replace (n + S k)%nat with (S n + k)%nat by lia. exact Hk.
    + exists 0%nat. by rewrite Nat.add_0_r.
Qed.

End Discover_properties.

(** ** A single new instance *)

Lemma InstanceOverlap_skip_head v vs : InstanceOverlap_skip v (v :: vs) = v :: vs.
Proof. cbn. by rewrite N.ltb_irrefl. Qed.

Lemma InstanceOverlap_loop_self vs : vs ≠ [] → InstanceOverlap_loop vs vs = true.
Proof.
  destruct vs as [|v vs]; [done|]. intros _.
  cbn [InstanceOverlap_loop]. rewrite InstanceOverlap_skip_head. by rewrite N.eqb_refl.
Qed.

Section Extend_single.
Variable InexactGraphMatch : Matcher.
Variable NewEdgeMatch :
  Graph → Instance → Graph → Instance → Parameters → double → double →
  NewEdgeMatchResult.
Variable matchCost0 : double.

(** When the instances of a substructure have a single extension and
    overlap is not allowed, [ExtendSub] returns one substructure, with
    that one instance. *)
Lemma ExtendSub_single sub parameters x g' :
  ExtendInstances (instances sub) (posGraph parameters) = ([x], g') →
  negGraph parameters = None →
  allowInstanceOverlap parameters = false →
  minMatchCost x ≠ 0%R →
  ivertices x ≠ [] →
  ExtendSub InexactGraphMatch NewEdgeMatch matchCost0 sub parameters
  = ([sub_add_instance (set_iused true x)
        (set_instances (Some []) (CreateSubFromInstance x g'))],
     set_posGraph g' parameters).
Proof.
  intros E Hneg Hov Hcost Hvs. unfold ExtendSub. rewrite E.
  change (negGraph (set_posGraph g' parameters)) with (negGraph parameters).
  rewrite Hneg. cbn [length seq foldl].
  unfold ExtendSub_node at 1.
  change ([x] !!! 0%nat) with x.
  unfold deq. rewrite bool_decide_eq_false_2 by done. cbn [negb].
  cbn [MemberOfSubList negb].
  unfold AddPosInstancesToSub.
  change (<[N.to_nat (N.of_nat 0) := set_iused true x]> [x]) with [set_iused true x].
  cbn [length seq foldl].
  unfold AddPosInstancesToSub_node at 1.
  change ([set_iused true x] !!! 0%nat) with (set_iused true x).
  change (allowInstanceOverlap (set_posGraph g' parameters))
    with (allowInstanceOverlap parameters).
  rewrite Hov. cbn [orb].
  assert (Ho : InstanceListOverlap (set_iused true x)
                 (instances (sub_add_instance (set_iused true x)
                    (set_instances (Some [])
                       (CreateSubFromInstance x (posGraph (set_posGraph g' parameters))))))
               = true).
  { cbn. unfold InstanceOverlap. cbn. by rewrite InstanceOverlap_loop_self. }
  rewrite Ho. cbn [negb]. reflexivity.
Qed.

End Extend_single.

(** On a substructure that is not recursive, without a negative graph
    and increments, the evaluation by size sets the value and the
    number of examples, and unmarks the positive graph. *)
Lemma EvaluateSub_SIZE_result sub p :
  evalMethod p = EVAL_SIZE → incremental p = false → negGraph p = None →
  recursive sub = false →
  ∃ v,
    EvaluateSub sub p
    = (set_value v (set_numNegExamples 0
                      (set_numExamples (PosExamplesCovered sub p) sub)),
       set_posGraph (SizeOfCompressedGraph (posGraph p) (instances sub) p POS).2 p).
Proof.
  intros Hm Hinc Hneg Hrec. unfold EvaluateSub. rewrite Hm, Hneg.
  cbn [N.eqb Pos.eqb EVAL_MDL EVAL_SIZE recursive set_numNegExamples set_numExamples].
  rewrite Hrec. unfold EvaluateSub_SIZE. rewrite Hinc.
  cbn [instances definition set_numNegExamples set_numExamples].
  destruct (SizeOfCompressedGraph (posGraph p) (instances sub) p POS) as [size g'].
  change (negGraph (set_posGraph g' p)) with (negGraph p). rewrite Hneg.
  cbn [recursive set_value set_numNegExamples set_numExamples snd].
  rewrite Hrec. eexists. reflexivity.
Qed.

(** ** The outer loop of [DiscoverSubs] ends *)

Section Discover_terminates.
Variable InexactGraphMatch : Matcher.
Variable NewEdgeMatch :
  Graph → Instance → Graph → Instance → Parameters → double → double →
  NewEdgeMatchResult.
Variable matchCost0 : double.
Variable SubLabelNumber : ULONG → LabelList → ULONG.
Variable RecursifySub : Substructure → Parameters → option Substructure * Parameters.

Local Abbreviation iteration :=
  (DiscoverSubs_iteration InexactGraphMatch NewEdgeMatch matchCost0 SubLabelNumber
                          RecursifySub).
Local Abbreviation loop :=
  (DiscoverSubs_loop InexactGraphMatch NewEdgeMatch matchCost0 SubLabelNumber
                     RecursifySub).

(** An iteration that leaves a child list has decremented [limit]. *)
Definition limit_decreased (limit0 : ULONG) (st : DiscoverSubs_state) : Prop :=
  ds_limit st ≤ limit0 ∧ (ds_childSubList st = [] ∨ ds_limit st < limit0).

Lemma DiscoverSubs_parent_limit limit0 parameters0 st parentSub :
  limit0 < ULONG_MODULUS →
  limit_decreased limit0 st →
  limit_decreased limit0
    (DiscoverSubs_parent InexactGraphMatch NewEdgeMatch matchCost0 SubLabelNumber
                         RecursifySub parameters0 st parentSub).
Proof.
  intros Hb [Hle Hst]. unfold DiscoverSubs_parent.
  set (q := if _ && (0 <? ds_limit st) then _ else _).
  assert (Hq : q.1.1 ≤ limit0 ∧ (q.1.2 = [] ∨ q.1.1 < limit0)).
  { unfold q. destruct (_ || _); cbn [andb]; [|done].
    destruct (0 <? ds_limit st) eqn:E; [|done]. apply N.ltb_lt in E.
    destruct (ExtendSub _ _ _ parentSub (ds_parameters st)) as [ext p1].
    destruct (foldl _ _ ext) as [child p2]. cbn [fst snd].
    rewrite usub_small by lia. lia. }
  destruct q as [[limit child] p1]. cbn [fst snd] in Hq.
  destruct (_ <=? _); [|done].
  destruct (negb _); [|done].
  by destruct (if recursion parameters0 then _ else _).
Qed.

Lemma DiscoverSubs_iteration_limit parameters0 st :
  ds_limit st < ULONG_MODULUS →
  limit_decreased (ds_limit st) (iteration parameters0 st).
Proof.
  intros Hb. unfold DiscoverSubs_iteration.
  apply (foldl_invariant (limit_decreased (ds_limit st))).
  - split; [done|by left].
  - intros s parentSub Hs _. by apply DiscoverSubs_parent_limit.
Qed.

Lemma DiscoverSubs_loop_ends fuel parameters0 st :
  ds_limit st < ULONG_MODULUS →
  (N.to_nat (ds_limit st) ≤ fuel)%nat →
  DiscoverSubs_continue (loop (S fuel) parameters0 st) = false.
Proof.
  revert st. induction fuel as [|fuel IH]; intros st Hb Hl.
  - cbn [DiscoverSubs_loop]. destruct (DiscoverSubs_continue st) eqn:E; [|done].
    unfold DiscoverSubs_continue in E. apply andb_true_iff in E as [E _].
    apply N.ltb_lt in E. lia.
  - change (loop (S (S fuel)) parameters0 st)
      with (if DiscoverSubs_continue st
            then loop (S fuel) parameters0 (iteration parameters0 st) else st).
    destruct (DiscoverSubs_continue st) eqn:E; [|done].
    destruct (DiscoverSubs_iteration_limit parameters0 st Hb) as [Hle [Hnil | Hlt]].
    + assert (Hc : DiscoverSubs_continue (iteration parameters0 st) = false).
      { unfold DiscoverSubs_continue. rewrite Hnil. apply andb_false_r. }
      cbn [DiscoverSubs_loop]. by rewrite Hc.
    + apply IH; lia.
Qed.

(** [DiscoverSubs] leaves its outer loop because the condition of the
    loop is false. *)
Lemma DiscoverSubs_fuel parameters :
  limit parameters < ULONG_MODULUS →
  DiscoverSubs_continue
    (loop (S (N.to_nat (limit parameters))) parameters
          (DiscoverSubs_initial InexactGraphMatch parameters)) = false.
Proof.
  intros Hb. apply DiscoverSubs_loop_ends.
  - unfold DiscoverSubs_initial. by destruct (GetInitialSubs _ _).
  - unfold DiscoverSubs_initial. by destruct (GetInitialSubs _ _).
Qed.

End Discover_terminates.

Section Discover_beam.
Variable InexactGraphMatch : Matcher.
Variable NewEdgeMatch :
  Graph → Instance → Graph → Instance → Parameters → double → double →
  NewEdgeMatchResult.
Variable matchCost0 : double.
Variable SubLabelNumber : ULONG → LabelList → ULONG.
Variable RecursifySub : Substructure → Parameters → option Substructure * Parameters.

(** The parent list of the iteration [n] of the outer loop. *)
Definition DiscoverSubs_parentSubList (n : nat) (parameters : Parameters) : SubList :=
  ds_childSubList
    (DiscoverSubs_after InexactGraphMatch NewEdgeMatch matchCost0 SubLabelNumber
                        RecursifySub n parameters).

(** C8 (as amended).  [GetInitialSubs] returns substructures of one
    vertex and no edge that have at least two positive instances and
    whose label is on two vertices of the positive graph; its list is
    the first parent list of [DiscoverSubs].  The substructures on the
    parent list of iteration [n] have [n] edges.  So a substructure
    without edges on a parent or child list has one vertex and at least
    two positive instances; a substructure of one vertex with a
    self-edge is not bound by this. *)
Theorem DiscoverSubs_beam_initial_subs parameters n :
  numVertices (posGraph parameters) < ULONG_MODULUS →
  N.of_nat n < ULONG_MODULUS →
  Forall (initial_sub (posGraph parameters))
         (GetInitialSubs InexactGraphMatch parameters).1
  ∧ DiscoverSubs_parentSubList 0 parameters
    = (GetInitialSubs InexactGraphMatch parameters).1
  ∧ Forall (λ sub, numEdges (definition sub) = N.of_nat n)
           (DiscoverSubs_parentSubList n parameters)
  ∧ ∀ sub, sub ∈ DiscoverSubs_parentSubList n parameters →
           numEdges (definition sub) = 0 →
           numVertices (definition sub) = 1 ∧ 2 ≤ numInstances sub.
Proof.
  intros Hg Hn.
  pose proof (GetInitialSubs_initial_sub InexactGraphMatch parameters Hg) as Hinit.
  assert (H0 : DiscoverSubs_parentSubList 0 parameters
               = (GetInitialSubs InexactGraphMatch parameters).1).
  { unfold DiscoverSubs_parentSubList, DiscoverSubs_after, DiscoverSubs_initial.
    cbn [Nat.iter nat_rect]. by destruct (GetInitialSubs InexactGraphMatch parameters). }
  pose proof (DiscoverSubs_after_sub_edges InexactGraphMatch NewEdgeMatch matchCost0
                SubLabelNumber RecursifySub n parameters Hg Hn) as Hedges.
  fold (DiscoverSubs_parentSubList n parameters) in Hedges.
  split_and!; [done|done| |].
  - eapply Forall_impl; [exact Hedges|]. by intros sub [He _].
  - intros sub Hin He. rewrite Forall_forall in Hedges.
    destruct (Hedges sub Hin) as [He' _]. rewrite He in He'.
    assert (n = 0%nat) as -> by lia.
    rewrite H0 in Hin. rewrite Forall_forall in Hinit.
    destruct (Hinit sub Hin) as (Hv & _ & Hi & _). done.
Qed.

End Discover_beam.

Lemma DiscoverSubs_beam_initial_subs_witness :
  Forall (λ sub, numEdges (definition sub) = 1)
         (DiscoverSubs_parentSubList example_matcher example_NewEdgeMatch 0%R
            example_SubLabelNumber example_RecursifySub 1 example_parameters_loop).
Proof.
  destruct (DiscoverSubs_beam_initial_subs example_matcher example_NewEdgeMatch 0%R
              example_SubLabelNumber example_RecursifySub example_parameters_loop 1)
    as (_ & _ & H & _).
  - reflexivity.
  - reflexivity.
  - exact H.
Defined.

(** ** The discovery on [example_loop] *)

Lemma MAX_DOUBLE_neq_0 : MAX_DOUBLE ≠ 0%R.
Proof. unfold MAX_DOUBLE. apply not_0_IZR. vm_compute. discriminate. Qed.

(** Evaluation that leaves the real numbers as they are. *)
#[local] Tactic Notation "evaluate" constr(t) "as" ident(H) :=
  let v := eval lazy -[MAX_DOUBLE Rplus Rmult Rminus Rdiv Rinv Ropp IZR ln] in t in
  assert (H : t = v)
    by (lazy -[MAX_DOUBLE Rplus Rmult Rminus Rdiv Rinv Ropp IZR ln]; reflexivity).

(** On [example_loop], the one-vertex substructure [A] has the two
    vertices as instances; its extension by the self-edge has one
    vertex and the single instance at vertex 0, and it is put on the
    child list of the first iteration, the parent list of the next. *)
Lemma DiscoverSubs_single_instance_counterexample :
  (λ s, (numVertices (definition s), numEdges (definition s), numInstances s))
    <$> DiscoverSubs_parentSubList example_matcher example_NewEdgeMatch 0%R
          example_SubLabelNumber example_RecursifySub 1 example_parameters_loop
  = [(1, 1, 1)].
Proof.
  unfold DiscoverSubs_parentSubList, DiscoverSubs_after.
  change (Nat.iter 1 ?f ?x) with (f x).
  evaluate (DiscoverSubs_initial example_matcher example_parameters_loop) as Hinit.
  rewrite Hinit. clear Hinit.
  match goal with |- context [mkDiscoverSubs_state 1 [?s] [] ?p] =>
    set (sA := s); set (pA := p)
  end.
  unfold DiscoverSubs_iteration.
  cbn [ds_limit ds_childSubList ds_discoveredSubList ds_parameters foldl].
  unfold DiscoverSubs_parent.
  cbn [ds_limit ds_childSubList ds_discoveredSubList ds_parameters].
  evaluate (ExtendInstances (instances sA) (posGraph pA)) as Hext.
  rewrite (ExtendSub_single example_matcher example_NewEdgeMatch 0 sA pA _ _ Hext);
    [|reflexivity|reflexivity|apply MAX_DOUBLE_neq_0|discriminate].
  lazy -[MAX_DOUBLE Rplus Rmult Rminus Rdiv Rinv Ropp IZR ln]. reflexivity.
Qed.
(** * Further functions of the sources

    The rest of the development embeds functions that the theorems
    above do not reach (labels.c, the instance functions of subops.c,
    the matcher of graphmatch.c, the graph construction of graphops.c,
    extend.c) and proves what their code guarantees. *)

(** ** labels.c *)

Definition AllocateLabelList : LabelList := mkLabelList 0 [].

(** The comparison in the loop of [GetLabelIndex]: same label type,
    and [strcmp] equal to 0 or [==] on the numeric values.  A value
    that is not a number is [==] to no value, itself included. *)
Definition GetLabelIndex_same (stored label : Label) : bool :=
  match labelValue stored, labelValue label with
  | stringLabel s1, stringLabel s2 => bool_decide (s1 = s2)
  | numericLabel d1, numericLabel d2 => deq d1 d2
  | _, _ => false
  end.

(** [while ((i < labelList->numLabels) && (! found))], with the number
    of labels still to look at. *)
Fixpoint GetLabelIndex_loop (label : Label) (labelList : LabelList) (todo : nat)
    (i : ULONG) : ULONG :=
  match todo with
  | O => numLabels labelList
  | S todo =>
      if GetLabelIndex_same (labels labelList !!! N.to_nat i) label
      then i
      else GetLabelIndex_loop label labelList todo (uadd i 1)
  end.

Definition GetLabelIndex (label : Label) (labelList : LabelList) : ULONG :=
  GetLabelIndex_loop label labelList (N.to_nat (numLabels labelList)) 0.

(** [StoreLabel]: the array of labels grows by [LIST_SIZE_INC] slots
    when it is full; the allocated size is the length of [labels]. *)
Definition StoreLabel (label : Label) (labelList : LabelList) : ULONG * LabelList :=
  let labelIndex := GetLabelIndex label labelList in
  if labelIndex =? numLabels labelList then
    let slots :=
      if N.of_nat (length (labels labelList)) =? numLabels labelList
      then labels labelList ++ replicate (N.to_nat LIST_SIZE_INC) dummyLabel
      else labels labelList in
    let slots :=
      <[N.to_nat (numLabels labelList) := mkLabel (labelValue label) false]> slots in
    (labelIndex, mkLabelList (uadd (numLabels labelList) 1) slots)
  else (labelIndex, labelList).

Definition LabelMatchFactor (labelIndex1 labelIndex2 : ULONG) (labelList : LabelList)
    : double :=
  if labelIndex1 =? labelIndex2 then 0%R else 1%R.

(** ** compress.c: the label list of a compressed graph *)

Definition set_elabel (l : ULONG) (e : Edge) : Edge :=
  mkEdge (vertex1 e) (vertex2 e) l (directed e) (eused e) (spansIncrement e)
         (validPath e).

Definition CompressLabelListWithGraph (newLabelList : LabelList) (graph : Graph)
    (parameters : Parameters) : LabelList * Graph :=
  let labelList := labelList parameters in
  (* add graph's vertex labels to new label list *)
  let st :=
    ULONG_for (numVertices graph)
      (λ v '(newLabelList, graph),
         let '(index, newLabelList) :=
           StoreLabel (labels labelList !!! N.to_nat (vlabel (getV graph v)))
                      newLabelList in
         (newLabelList, updV graph v (set_vlabel index)))
      (newLabelList, graph) in
  (* add graph's edge labels to new label list *)
  ULONG_for (numEdges graph)
    (λ e '(newLabelList, graph),
       let '(index, newLabelList) :=
         StoreLabel (labels labelList !!! N.to_nat (elabel (getE graph e)))
                    newLabelList in
       (newLabelList, updE graph e (set_elabel index)))
    st.

(** *** What the label list guarantees *)

(** The array holds the stored labels. *)
Definition labels_wf (labelList : LabelList) : Prop :=
  numLabels labelList < ULONG_MODULUS - 1
  ∧ (N.to_nat (numLabels labelList) ≤ length (labels labelList))%nat.

(** The labels that the comparison takes as equal: those of the same
    type and value, unless the value is not a number. *)
Lemma GetLabelIndex_same_eq stored label :
  GetLabelIndex_same stored label = true
  ↔ labelValue stored = labelValue label ∧ labelValue label ≠ numericNaN.
Proof.
  unfold GetLabelIndex_same, deq.
  destruct (labelValue stored), (labelValue label);
    rewrite ?bool_decide_eq_true; split; try intros [H1 H2]; try intros H;
    try split; try congruence; try done.
Qed.

(** The loop from index [i] on, with [todo] labels to go. *)
Lemma GetLabelIndex_loop_spec label labelList todo (i : ULONG) :
  N.of_nat todo + i = numLabels labelList →
  numLabels labelList < ULONG_MODULUS →
  let r := GetLabelIndex_loop label labelList todo i in
  i ≤ r ≤ numLabels labelList
  ∧ (∀ j, i ≤ j < r →
       GetLabelIndex_same (labels labelList !!! N.to_nat j) label = false)
  ∧ (r < numLabels labelList →
       GetLabelIndex_same (labels labelList !!! N.to_nat r) label = true).
Proof.
  revert i. induction todo as [|todo IH]; intros i Hi Hn; cbn [GetLabelIndex_loop].
  - cbv zeta. repeat split; lia.
  - cbv zeta.
    destruct (GetLabelIndex_same (labels labelList !!! N.to_nat i) label) eqn:E.
    + repeat split; try lia; done.
    + assert (Hu : uadd i 1 = i + 1) by (apply uadd_small; lia).
      rewrite Hu. specialize (IH (i + 1) ltac:(lia) Hn). cbv zeta in IH.
      destruct IH as (Hr & Hbefore & Hat).
      repeat split; try lia; [|done].
      intros j Hj. destruct (decide (j = i)) as [->|Hne]; [done|].
      apply Hbefore. lia.
Qed.

Lemma GetLabelIndex_spec label labelList :
  numLabels labelList < ULONG_MODULUS →
  let r := GetLabelIndex label labelList in
  r ≤ numLabels labelList
  ∧ (∀ j, j < r →
       GetLabelIndex_same (labels labelList !!! N.to_nat j) label = false)
  ∧ (r < numLabels labelList →
       GetLabelIndex_same (labels labelList !!! N.to_nat r) label = true).
Proof.
  intros Hn. cbv zeta. unfold GetLabelIndex.
  destruct (GetLabelIndex_loop_spec label labelList (N.to_nat (numLabels labelList)) 0)
    as (Hr & Hbefore & Hat); [lia | done |].
  repeat split; [lia | | done]. intros j Hj. apply Hbefore. lia.
Qed.

(** The result of the search is fixed by what it finds. *)
Lemma GetLabelIndex_unique label labelList (r : ULONG) :
  numLabels labelList < ULONG_MODULUS →
  r ≤ numLabels labelList →
  (∀ j, j < r → GetLabelIndex_same (labels labelList !!! N.to_nat j) label = false) →
  (r < numLabels labelList →
     GetLabelIndex_same (labels labelList !!! N.to_nat r) label = true) →
  GetLabelIndex label labelList = r.
Proof.
  intros Hn Hr Hbefore Hat.
  destruct (GetLabelIndex_spec label labelList Hn) as (Hr' & Hbefore' & Hat').
  set (r' := GetLabelIndex label labelList) in *.
  destruct (N.lt_trichotomy r r') as [Hlt | [Heq | Hgt]]; [|done|].
  - specialize (Hbefore' r Hlt). rewrite Hat in Hbefore' by lia. done.
  - specialize (Hbefore r' Hgt). rewrite Hat' in Hbefore by lia. done.
Qed.

Lemma GetLabelIndex_match label labelList :
  numLabels labelList < ULONG_MODULUS →
  let r := GetLabelIndex label labelList in
  r ≤ numLabels labelList
  ∧ (labelValue label ≠ numericNaN →
     ∀ j, j < r → labelValue (labels labelList !!! N.to_nat j) ≠ labelValue label)
  ∧ (r < numLabels labelList →
       labelValue (labels labelList !!! N.to_nat r) = labelValue label
       ∧ labelValue label ≠ numericNaN)
  ∧ (labelValue label = numericNaN → r = numLabels labelList).
Proof.
  intros Hn. destruct (GetLabelIndex_spec label labelList Hn) as (Hr & Hbefore & Hat).
  cbv zeta. split; [done|]. split; [|split].
  - intros Hnan j Hj Heq.
    assert (E : GetLabelIndex_same (labels labelList !!! N.to_nat j) label = true)
      by (by apply GetLabelIndex_same_eq).
    rewrite Hbefore in E by done. done.
  - intros Hlt. apply GetLabelIndex_same_eq. by apply Hat.
  - intros Hnan.
    destruct (decide (GetLabelIndex label labelList < numLabels labelList)) as [Hlt|Hge];
      [|lia].
    apply Hat, GetLabelIndex_same_eq in Hlt as [_ Hlt]. done.
Qed.

(** X1.  [GetLabelIndex] returns the index of the first stored label
    that has the type and value of the given one, and the number of
    stored labels when there is none: the result [r] is at most
    [numLabels], no label below [r] has the value, and the label at [r]
    has it when [r] is below [numLabels].  A numeric label that is not
    a number is never found, even when it is stored: the result is
    [numLabels]. *)
Theorem GetLabelIndex_first_match label labelList :
  numLabels labelList < ULONG_MODULUS →
  let r := GetLabelIndex label labelList in
  r ≤ numLabels labelList
  ∧ (labelValue label ≠ numericNaN →
     ∀ j, j < r → labelValue (labels labelList !!! N.to_nat j) ≠ labelValue label)
  ∧ (r < numLabels labelList →
       labelValue (labels labelList !!! N.to_nat r) = labelValue label
       ∧ labelValue label ≠ numericNaN)
  ∧ (labelValue label = numericNaN → r = numLabels labelList).
Proof.
  intros Hn. cbv zeta.
  destruct (GetLabelIndex_match label labelList Hn) as (H1 & H2 & H3 & H4).
  split; [exact H1|]. split; [exact H2|]. split; [exact H3 | exact H4].
Qed.

Lemma labels_wf_slots labelList :
  labels_wf labelList →
  let slots :=
    if N.of_nat (length (labels labelList)) =? numLabels labelList
    then labels labelList ++ replicate (N.to_nat LIST_SIZE_INC) dummyLabel
    else labels labelList in
  (N.to_nat (numLabels labelList) < length slots)%nat
  ∧ (∀ j : nat, (j < N.to_nat (numLabels labelList))%nat →
       slots !!! j = labels labelList !!! j).
Proof.
  intros [Hn Hlen]. cbv zeta.
  destruct (N.eqb_spec (N.of_nat (length (labels labelList))) (numLabels labelList))
    as [Heq | Hne].
  - split.
    + rewrite length_app, length_replicate. unfold LIST_SIZE_INC. lia.
    + intros j Hj. apply lookup_total_app_l. lia.
  - split; [lia | done].
Qed.

(** The label list after [StoreLabel]. *)
Lemma StoreLabel_spec label labelList :
  labels_wf labelList →
  let r := StoreLabel label labelList in
  r.1 = GetLabelIndex label labelList
  ∧ (r.1 < numLabels labelList → r.2 = labelList)
  ∧ (r.1 = numLabels labelList →
       numLabels r.2 = numLabels labelList + 1
       ∧ (N.to_nat (numLabels r.2) ≤ length (labels r.2))%nat
       ∧ labels r.2 !!! N.to_nat (numLabels labelList) = mkLabel (labelValue label) false
       ∧ ∀ j : nat, (j < N.to_nat (numLabels labelList))%nat →
           labels r.2 !!! j = labels labelList !!! j).
Proof.
  intros Hwf. pose proof Hwf as [Hn Hlen]. cbv zeta. unfold StoreLabel.
  destruct (N.eqb_spec (GetLabelIndex label labelList) (numLabels labelList))
    as [Heq | Hne]; cbn [fst snd].
  - split; [done|]. split; [lia|]. intros _.
    destruct (labels_wf_slots labelList Hwf) as [Hslots Hkeep]. cbv zeta in Hslots, Hkeep.
    cbn [numLabels labels].
    rewrite uadd_small by lia. split; [done|].
    rewrite length_insert. split; [lia|]. split.
    + by apply list_lookup_total_insert_eq.
    + intros j Hj. rewrite list_lookup_total_insert_ne by lia. by apply Hkeep.
  - split; [done|]. split; [done|]. intros Heq. done.
Qed.

(** The label list after [StoreLabel], seen from the stored label. *)
Lemma StoreLabel_stored label labelList :
  labels_wf labelList →
  numLabels labelList + 1 < ULONG_MODULUS - 1 →
  let r := StoreLabel label labelList in
  r.1 < numLabels r.2
  ∧ labelValue (labels r.2 !!! N.to_nat r.1) = labelValue label
  ∧ labels_wf r.2
  ∧ (labelValue label ≠ numericNaN → GetLabelIndex label r.2 = r.1)
  ∧ (labelValue label = numericNaN →
     r.1 = numLabels labelList
     ∧ numLabels r.2 = numLabels labelList + 1
     ∧ GetLabelIndex label r.2 = numLabels r.2).
Proof.
  intros Hwf Hb. pose proof Hwf as [Hn Hlen].
  destruct (StoreLabel_spec label labelList Hwf) as (Hidx & Hold & Hnew).
  cbv zeta in *. set (r := StoreLabel label labelList) in *.
  destruct (GetLabelIndex_match label labelList ltac:(lia)) as (Hr & Hbefore & Hat & Hnan).
  cbv zeta in Hr, Hbefore, Hat, Hnan. rewrite <- Hidx in Hr, Hbefore, Hat, Hnan.
  destruct (decide (r.1 < numLabels labelList)) as [Hlt | Hge].
  - destruct (Hat Hlt) as [Hval Hnn].
    rewrite (Hold Hlt). split; [done|]. split; [done|]. split; [done|].
    split; [by rewrite <- Hidx | done].
  - assert (Heq : r.1 = numLabels labelList) by lia.
    destruct (Hnew Heq) as (Hnum & Hlen' & Hstored & Hkeep).
    assert (Hwf' : labels_wf r.2) by (split; [lia | done]).
    split; [lia|]. split; [by rewrite Heq, Hstored|]. split; [done|]. split.
    + intros Hnn. apply GetLabelIndex_unique; [lia | lia | |].
      * intros j Hj. rewrite Hkeep by lia.
        destruct (GetLabelIndex_same _ label) eqn:E; [|done].
        apply GetLabelIndex_same_eq in E as [E _]. by apply Hbefore in E.
      * intros _. rewrite Heq, Hstored. by apply GetLabelIndex_same_eq.
    + intros Hn'. split; [done|]. split; [done|].
      destruct (GetLabelIndex_match label r.2 ltac:(lia)) as (_ & _ & _ & H). by apply H.
Qed.

(** X2.  Store and look up.  [StoreLabel] returns an index below the
    new number of labels, and the label stored there has the value of
    the given label; the list keeps its invariant.  For a label that
    is a string or a number, [GetLabelIndex] on the new list returns
    the same index.  A numeric label that is not a number is appended
    at every call, and [GetLabelIndex] on the new list does not find
    it. *)
Theorem StoreLabel_GetLabelIndex label labelList :
  labels_wf labelList →
  numLabels labelList + 1 < ULONG_MODULUS - 1 →
  let r := StoreLabel label labelList in
  r.1 < numLabels r.2
  ∧ labelValue (labels r.2 !!! N.to_nat r.1) = labelValue label
  ∧ labels_wf r.2
  ∧ (labelValue label ≠ numericNaN → GetLabelIndex label r.2 = r.1)
  ∧ (labelValue label = numericNaN →
     r.1 = numLabels labelList
     ∧ numLabels r.2 = numLabels labelList + 1
     ∧ GetLabelIndex label r.2 = numLabels r.2).
Proof.
  intros Hwf Hb. cbv zeta.
  destruct (StoreLabel_stored label labelList Hwf Hb) as (H1 & H2 & H3 & H4 & H5).
  split; [exact H1|]. split; [exact H2|]. split; [exact H3|]. split; [exact H4 | exact H5].
Qed.

(** X3.  [StoreLabel] never moves a label: the labels stored before
    keep their indices, values and [used] flags, a label that was found
    before is found at the same index afterwards, and the number of
    labels grows by one exactly when the given label was not stored. *)
Theorem StoreLabel_keeps_indices label labelList other :
  labels_wf labelList →
  let r := StoreLabel label labelList in
  (∀ j, j < numLabels labelList →
     labels r.2 !!! N.to_nat j = labels labelList !!! N.to_nat j)
  ∧ (GetLabelIndex other labelList < numLabels labelList →
       GetLabelIndex other r.2 = GetLabelIndex other labelList)
  ∧ numLabels r.2
    = (if GetLabelIndex label labelList =? numLabels labelList
       then numLabels labelList + 1 else numLabels labelList).
Proof.
  intros Hwf. pose proof Hwf as [Hn Hlen].
  destruct (StoreLabel_spec label labelList Hwf) as (Hidx & Hold & Hnew).
  cbv zeta in *. set (r := StoreLabel label labelList) in *.
  destruct (GetLabelIndex_spec label labelList ltac:(lia)) as (Hr & _ & _).
  cbv zeta in Hr. rewrite <- Hidx in Hr. rewrite <- Hidx.
  destruct (N.eqb_spec r.1 (numLabels labelList)) as [Heq | Hne].
  - destruct (Hnew Heq) as (Hnum & Hlen' & Hstored & Hkeep).
    repeat split; [| |done].
    + intros j Hj. apply Hkeep. lia.
    + intros Hfound.
      destruct (GetLabelIndex_spec other labelList ltac:(lia)) as (Ho & Hbefore & Hat).
      cbv zeta in Ho, Hbefore, Hat.
      apply GetLabelIndex_unique; [lia | lia | |].
      * intros j Hj. rewrite Hkeep by lia. by apply Hbefore.
      * intros _. rewrite Hkeep by lia. by apply Hat.
  - rewrite (Hold ltac:(lia)). done.
Qed.

(** No two stored labels have the same string or the same number. *)
Definition labels_distinct (labelList : LabelList) : Prop :=
  ∀ i j, i < numLabels labelList → j < numLabels labelList →
    labelValue (labels labelList !!! N.to_nat i)
      = labelValue (labels labelList !!! N.to_nat j) →
    labelValue (labels labelList !!! N.to_nat i) ≠ numericNaN →
    i = j.

Lemma labels_distinct_StoreLabel label labelList :
  labels_wf labelList →
  labels_distinct labelList →
  labels_distinct (StoreLabel label labelList).2.
Proof.
  intros Hwf Hd. pose proof Hwf as [Hn Hlen].
  destruct (StoreLabel_spec label labelList Hwf) as (Hidx & Hold & Hnew).
  cbv zeta in *. set (r := StoreLabel label labelList) in *.
  destruct (GetLabelIndex_match label labelList ltac:(lia)) as (Hr & Hbefore & _).
  cbv zeta in Hr, Hbefore. rewrite <- Hidx in Hr, Hbefore.
  destruct (decide (r.1 < numLabels labelList)) as [Hlt | Hge].
  - by rewrite (Hold Hlt).
  - assert (Heq : r.1 = numLabels labelList) by lia.
    destruct (Hnew Heq) as (Hnum & Hlen' & Hstored & Hkeep).
    intros i j Hi Hj. rewrite Hnum in Hi, Hj.
    destruct (decide (i = numLabels labelList)) as [->|Hi'];
      destruct (decide (j = numLabels labelList)) as [->|Hj']; [done | | |].
    + rewrite Hstored, Hkeep by lia. cbn [labelValue]. intros E Hnn.
      symmetry in E. apply Hbefore in E; [done | done | lia].
    + rewrite Hstored, Hkeep by lia. cbn [labelValue]. intros E Hnn.
      apply Hbefore in E; [done | congruence | lia].
    + rewrite !Hkeep by lia. apply Hd; lia.
Qed.

(** X4.  [StoreLabel] keeps the list free of duplicate strings and
    numbers, and the list of [AllocateLabelList] is free of them: in a
    label list built by [StoreLabel] every string and every number has
    one index.  A numeric label that is not a number makes the list
    grow at every call. *)
Theorem StoreLabel_distinct label labelList :
  labels_wf labelList →
  labels_distinct labelList →
  labels_distinct (StoreLabel label labelList).2
  ∧ labels_distinct AllocateLabelList
  ∧ (labelValue label = numericNaN →
     numLabels (StoreLabel label labelList).2 = numLabels labelList + 1).
Proof.
  intros Hwf Hd. split; [by apply labels_distinct_StoreLabel|].
  split; [intros i j Hi; cbn in Hi; lia|].
  intros Hnan. pose proof Hwf as [Hn Hlen].
  destruct (StoreLabel_spec label labelList Hwf) as (Hidx & _ & Hnew).
  destruct (GetLabelIndex_match label labelList ltac:(lia)) as (_ & _ & _ & H).
  cbv zeta in *. apply Hnew. rewrite Hidx. by apply H.
Qed.

(** *** The theorems at work

    A list with a string, a number and a numeric label that is not a
    number. *)

Definition example_labels_numeric : LabelList :=
  mkLabelList 3
    [mkLabel (stringLabel "A") false; mkLabel (numericLabel 1) false;
     mkLabel numericNaN false].

Definition example_label_e : Label := mkLabel (stringLabel "e") false.
Definition example_label_new : Label := mkLabel (stringLabel "new") true.
Definition example_label_one : Label := mkLabel (numericLabel 1) false.
Definition example_label_nan : Label := mkLabel numericNaN false.

Lemma example_labels_wf : labels_wf example_labels.
Proof. split; [reflexivity | simpl; lia]. Qed.

Lemma example_labels_numeric_wf : labels_wf example_labels_numeric.
Proof. split; [reflexivity | simpl; lia]. Qed.

Lemma example_labels_distinct : labels_distinct example_labels.
Proof.
  intros i j Hi Hj. cbn in Hi, Hj.
  assert (Hi' : i = 0 ∨ i = 1 ∨ i = 2) by lia.
  assert (Hj' : j = 0 ∨ j = 1 ∨ j = 2) by lia.
  destruct Hi' as [-> | [-> | ->]], Hj' as [-> | [-> | ->]]; intros H _;
    vm_compute in H; try reflexivity; discriminate H.
Qed.

Lemma example_labels_numeric_distinct : labels_distinct example_labels_numeric.
Proof.
  intros i j Hi Hj. cbn in Hi, Hj.
  assert (Hi' : i = 0 ∨ i = 1 ∨ i = 2) by lia.
  assert (Hj' : j = 0 ∨ j = 1 ∨ j = 2) by lia.
  destruct Hi' as [-> | [-> | ->]], Hj' as [-> | [-> | ->]]; intros H Hn;
    try reflexivity; discriminate H.
Qed.

Lemma GetLabelIndex_first_match_witness :
  let r := GetLabelIndex example_label_one example_labels_numeric in
  r ≤ numLabels example_labels_numeric
  ∧ (labelValue example_label_one ≠ numericNaN →
     ∀ j, j < r →
       labelValue (labels example_labels_numeric !!! N.to_nat j)
       ≠ labelValue example_label_one)
  ∧ (r < numLabels example_labels_numeric →
       labelValue (labels example_labels_numeric !!! N.to_nat r)
       = labelValue example_label_one
       ∧ labelValue example_label_one ≠ numericNaN)
  ∧ (labelValue example_label_one = numericNaN → r = numLabels example_labels_numeric).
Proof.
  apply (GetLabelIndex_first_match example_label_one example_labels_numeric). reflexivity.
Defined.

Lemma StoreLabel_GetLabelIndex_witness :
  let r := StoreLabel example_label_nan example_labels_numeric in
  r.1 < numLabels r.2
  ∧ labelValue (labels r.2 !!! N.to_nat r.1) = labelValue example_label_nan
  ∧ labels_wf r.2
  ∧ (labelValue example_label_nan ≠ numericNaN →
     GetLabelIndex example_label_nan r.2 = r.1)
  ∧ (labelValue example_label_nan = numericNaN →
     r.1 = numLabels example_labels_numeric
     ∧ numLabels r.2 = numLabels example_labels_numeric + 1
     ∧ GetLabelIndex example_label_nan r.2 = numLabels r.2).
Proof.
  apply (StoreLabel_GetLabelIndex example_label_nan example_labels_numeric).
  - exact example_labels_numeric_wf.
  - reflexivity.
Defined.

Lemma StoreLabel_keeps_indices_witness :
  let r := StoreLabel example_label_new example_labels in
  (∀ j, j < numLabels example_labels →
     labels r.2 !!! N.to_nat j = labels example_labels !!! N.to_nat j)
  ∧ (GetLabelIndex example_label_e example_labels < numLabels example_labels →
       GetLabelIndex example_label_e r.2 = GetLabelIndex example_label_e example_labels)
  ∧ numLabels r.2
    = (if GetLabelIndex example_label_new example_labels =? numLabels example_labels
       then numLabels example_labels + 1 else numLabels example_labels).
Proof.
  apply (StoreLabel_keeps_indices example_label_new example_labels example_label_e).
  exact example_labels_wf.
Defined.

Lemma StoreLabel_distinct_witness :
  labels_distinct (StoreLabel example_label_nan example_labels_numeric).2
  ∧ labels_distinct AllocateLabelList
  ∧ (labelValue example_label_nan = numericNaN →
     numLabels (StoreLabel example_label_nan example_labels_numeric).2
     = numLabels example_labels_numeric + 1).
Proof.
  apply (StoreLabel_distinct example_label_nan example_labels_numeric).
  - exact example_labels_numeric_wf.
  - exact example_labels_numeric_distinct.
Defined.

(** The stored number is found at its index; the stored label that is
    not a number is not found, and is stored once more. *)
Example GetLabelIndex_example_numeric :
  GetLabelIndex example_label_one example_labels_numeric = 1
  ∧ GetLabelIndex example_label_nan example_labels_numeric = 3
  ∧ (StoreLabel example_label_nan example_labels_numeric).1 = 3
  ∧ numLabels (StoreLabel example_label_nan example_labels_numeric).2 = 4.
Proof.
  assert (H1 : GetLabelIndex example_label_one example_labels_numeric = 1).
  { apply GetLabelIndex_unique; [reflexivity | done | |].
    - intros j Hj. assert (j = 0) as -> by lia. reflexivity.
    - intros _. apply GetLabelIndex_same_eq. done. }
  assert (H2 : GetLabelIndex example_label_nan example_labels_numeric = 3).
  { by apply (GetLabelIndex_match example_label_nan example_labels_numeric). }
  split; [done|]. split; [done|].
  unfold StoreLabel. rewrite H2. done.
Qed.

(** *** Re-indexing the labels of a graph *)

(** The index [l'] into the list [new] stands for the label of index
    [l] in [old]. *)
Definition same_label (old new : LabelList) (l l' : ULONG) : Prop :=
  l' < numLabels new
  ∧ labelValue (labels new !!! N.to_nat l') = labelValue (labels old !!! N.to_nat l).

Lemma same_label_StoreLabel old new label l l' :
  labels_wf new →
  same_label old new l l' → same_label old (StoreLabel label new).2 l l'.
Proof.
  intros Hwf [Hlt Hval].
  destruct (StoreLabel_spec label new Hwf) as (Hidx & Hold & Hnew).
  cbv zeta in *. set (r := StoreLabel label new) in *.
  destruct (GetLabelIndex_spec label new) as (Hr & _ & _); [destruct Hwf; lia|].
  cbv zeta in Hr. rewrite <- Hidx in Hr.
  destruct (decide (r.1 < numLabels new)) as [Hlt' | Hge].
  - rewrite (Hold Hlt'). by split.
  - destruct (Hnew ltac:(lia)) as (Hnum & _ & _ & Hkeep).
    split; [lia|]. rewrite Hkeep by lia. done.
Qed.

Lemma labels_wf_StoreLabel label new :
  labels_wf new → numLabels new + 1 < ULONG_MODULUS - 1 →
  labels_wf (StoreLabel label new).2
  ∧ numLabels new ≤ numLabels (StoreLabel label new).2 ≤ numLabels new + 1.
Proof.
  intros Hwf Hb.
  destruct (StoreLabel_spec label new Hwf) as (Hidx & Hold & Hnew).
  cbv zeta in *. set (r := StoreLabel label new) in *.
  destruct (GetLabelIndex_spec label new) as (Hr & _ & _); [destruct Hwf; lia|].
  cbv zeta in Hr. rewrite <- Hidx in Hr.
  destruct (decide (r.1 < numLabels new)) as [Hlt' | Hge].
  - rewrite (Hold Hlt'). split; [done | lia].
  - destruct (Hnew ltac:(lia)) as (Hnum & Hlen & _ & _).
    split; [split|]; lia.
Qed.

Section relabel.
Context {S : Type}.
Variable old : LabelList.
Variable label_of : S → ULONG → ULONG.
Variable relabel : S → ULONG → ULONG → S.
Variable n : ULONG.
Variable ok : S → Prop.
Hypothesis relabel_ok : ∀ s i idx, i < n → ok s → ok (relabel s i idx).
Hypothesis label_relabel : ∀ s i idx j,
  ok s → i < n → j < n →
  label_of (relabel s i idx) j = if decide (j = i) then idx else label_of s j.

(** The two loops of [CompressLabelListWithGraph] have this shape. *)
Definition relabel_loop (st : LabelList * S) : LabelList * S :=
  ULONG_for n
    (λ i '(newLabelList, s),
       let '(index, newLabelList) :=
         StoreLabel (labels old !!! N.to_nat (label_of s i)) newLabelList in
       (newLabelList, relabel s i index))
    st.

Record relabel_inv (new0 : LabelList) (s0 : S) (i : nat) (st : LabelList * S)
    : Prop := {
  ri_ok : ok st.2;
  ri_wf : labels_wf st.1;
  ri_num : numLabels new0 ≤ numLabels st.1 ≤ numLabels new0 + N.of_nat i;
  ri_done : ∀ j, j < N.of_nat i →
              same_label old st.1 (label_of s0 j) (label_of st.2 j);
  ri_todo : ∀ j, N.of_nat i ≤ j < n → label_of st.2 j = label_of s0 j;
  ri_kept : ∀ l l', same_label old new0 l l' → same_label old st.1 l l';
  ri_distinct : labels_distinct new0 → labels_distinct st.1
}.

Lemma relabel_loop_inv new0 s0 :
  ok s0 → labels_wf new0 → numLabels new0 + n < ULONG_MODULUS - 1 →
  relabel_inv new0 s0 (N.to_nat n) (relabel_loop (new0, s0)).
Proof.
  intros Hok Hwf Hb. unfold relabel_loop.
  apply (ULONG_for_ind (relabel_inv new0 s0)).
  - split; cbn [fst snd]; try done; [lia | intros j Hj; lia].
  - intros i [new s] Hi [Hok' Hwf' Hnum Hdone Htodo Hkept Hdist]. cbn [fst snd] in *.
    set (label := labels old !!! N.to_nat (label_of s (N.of_nat i))).
    destruct (labels_wf_StoreLabel label new Hwf' ltac:(lia)) as [Hwf'' Hnum'].
    pose proof (StoreLabel_stored label new Hwf' ltac:(lia)) as Hstore.
    pose proof (labels_distinct_StoreLabel label new Hwf') as Hdist'.
    pose proof (λ l l', same_label_StoreLabel old new label l l' Hwf') as Hmono.
    cbv zeta in Hstore.
    destruct (StoreLabel label new) as [index new'] eqn:E. cbn [fst snd] in *.
    destruct Hstore as (Hlt & Hval & _ & _).
    split; cbn [fst snd].
    + apply relabel_ok; [lia | done].
    + done.
    + lia.
    + intros j Hj. rewrite label_relabel by (done || lia).
      destruct (decide (j = N.of_nat i)) as [->|Hne].
      * split; [done|]. rewrite Hval. unfold label.
        rewrite (Htodo (N.of_nat i)) by lia. done.
      * apply Hmono. apply Hdone. lia.
    + intros j Hj. rewrite label_relabel by (done || lia).
      rewrite decide_False by lia. apply Htodo. lia.
    + intros l l' H. apply Hmono. by apply Hkept.
    + intros H. apply Hdist'. by apply Hdist.
Qed.

End relabel.

(** The arrays of the graph hold its vertices and edges, and what
    [CompressLabelListWithGraph] does not write is as in [g0]. *)
Definition relabel_frame (g0 g : Graph) : Prop :=
  numVertices g = numVertices g0 ∧ numEdges g = numEdges g0
  ∧ length (vertices g) = length (vertices g0)
  ∧ length (edges g) = length (edges g0)
  ∧ (∀ v, vedges (getV g v) = vedges (getV g0 v)
          ∧ vmap (getV g v) = vmap (getV g0 v)
          ∧ vused (getV g v) = vused (getV g0 v))
  ∧ (∀ e, vertex1 (getE g e) = vertex1 (getE g0 e)
          ∧ vertex2 (getE g e) = vertex2 (getE g0 e)
          ∧ directed (getE g e) = directed (getE g0 e)
          ∧ eused (getE g e) = eused (getE g0 e)).

Lemma getV_updV g (i j : ULONG) f :
  (N.to_nat i < length (vertices g))%nat →
  getV (updV g i f) j = if decide (j = i) then f (getV g i) else getV g j.
Proof.
  intros Hi. unfold getV, updV. cbn [vertices set_vertices].
  destruct (decide (j = i)) as [->|Hne].
  - by rewrite list_lookup_total_alter_eq.
  - rewrite list_lookup_total_alter_ne by lia. done.
Qed.

Lemma getE_updE g (i j : ULONG) f :
  (N.to_nat i < length (edges g))%nat →
  getE (updE g i f) j = if decide (j = i) then f (getE g i) else getE g j.
Proof.
  intros Hi. unfold getE, updE. cbn [edges set_edges].
  destruct (decide (j = i)) as [->|Hne].
  - by rewrite list_lookup_total_alter_eq.
  - rewrite list_lookup_total_alter_ne by lia. done.
Qed.

Lemma relabel_frame_updV g0 g (i idx : ULONG) :
  i < numVertices g0 → graph_arrays g0 →
  relabel_frame g0 g → relabel_frame g0 (updV g i (set_vlabel idx)).
Proof.
  intros Hi Hga (Hnv & Hne & Hlv & Hle & Hv & He).
  assert (Hlen : (N.to_nat i < length (vertices g))%nat) by (destruct Hga; lia).
  repeat split; try done.
  - unfold updV. cbn. by rewrite length_alter.
  - rewrite getV_updV by done. destruct (decide (v = i)) as [->|]; cbn; apply Hv.
  - rewrite getV_updV by done. destruct (decide (v = i)) as [->|]; cbn; apply Hv.
  - rewrite getV_updV by done. destruct (decide (v = i)) as [->|]; cbn; apply Hv.
  - apply He.
  - apply He.
  - apply He.
  - apply He.
Qed.

Lemma relabel_frame_updE g0 g (i idx : ULONG) :
  i < numEdges g0 → graph_arrays g0 →
  relabel_frame g0 g → relabel_frame g0 (updE g i (set_elabel idx)).
Proof.
  intros Hi Hga (Hnv & Hne & Hlv & Hle & Hv & He).
  assert (Hlen : (N.to_nat i < length (edges g))%nat) by (destruct Hga; lia).
  repeat split; try done.
  - unfold updE. cbn. by rewrite length_alter.
  - apply Hv.
  - apply Hv.
  - apply Hv.
  - rewrite getE_updE by done. destruct (decide (e = i)) as [->|]; cbn; apply He.
  - rewrite getE_updE by done. destruct (decide (e = i)) as [->|]; cbn; apply He.
  - rewrite getE_updE by done. destruct (decide (e = i)) as [->|]; cbn; apply He.
  - rewrite getE_updE by done. destruct (decide (e = i)) as [->|]; cbn; apply He.
Qed.

(** X5.  [CompressLabelListWithGraph] re-indexes the labels of a graph
    into the new label list without changing what they denote: every
    vertex and edge label of the result is an index of the new list
    whose label has the value that the old index had in the label list
    of the parameters.  Nothing else in the graph changes, and a new
    list without duplicate strings and numbers stays without them (a
    numeric label that is not a number gets a new index at each of its
    occurrences). *)
Theorem CompressLabelListWithGraph_labels newLabelList graph parameters :
  labels_wf newLabelList →
  graph_arrays graph →
  numLabels newLabelList + numVertices graph + numEdges graph < ULONG_MODULUS - 1 →
  let r := CompressLabelListWithGraph newLabelList graph parameters in
  (∀ v, v < numVertices graph →
     same_label (labelList parameters) r.1 (vlabel (getV graph v)) (vlabel (getV r.2 v)))
  ∧ (∀ e, e < numEdges graph →
       same_label (labelList parameters) r.1 (elabel (getE graph e))
                  (elabel (getE r.2 e)))
  ∧ relabel_frame graph r.2
  ∧ labels_wf r.1
  ∧ (labels_distinct newLabelList → labels_distinct r.1).
Proof.
  intros Hwf Hga Hb. cbv zeta. unfold CompressLabelListWithGraph.
  set (old := labelList parameters).
  pose proof (relabel_loop_inv old (λ g v, vlabel (getV g v))
                (λ g v idx, updV g v (set_vlabel idx)) (numVertices graph)
                (λ g, relabel_frame graph g ∧ edges g = edges graph)) as H1.
  cbv beta in H1. unfold relabel_loop in H1.
  specialize (H1 ltac:(intros s i idx Hi [Hf He]; split;
                         [by apply relabel_frame_updV | done])).
  specialize (H1 ltac:(intros s i idx j [(_ & _ & Hl & _) _] Hi Hj;
                         rewrite getV_updV by (destruct Hga; lia);
                         by destruct (decide (j = i)) as [->|])).
  specialize (H1 newLabelList graph ltac:(by repeat split) Hwf ltac:(lia)).
  destruct (ULONG_for (numVertices graph) _ (newLabelList, graph)) as [new1 g1].
  destruct H1 as [[Hf1 He1] Hwf1 Hnum1 Hdone1 _ _ Hdist1]. cbn [fst snd] in *.
  pose proof (relabel_loop_inv old (λ g e, elabel (getE g e))
                (λ g e idx, updE g e (set_elabel idx)) (numEdges graph)
                (λ g, relabel_frame graph g ∧ vertices g = vertices g1)) as H2.
  cbv beta in H2. unfold relabel_loop in H2.
  specialize (H2 ltac:(intros s i idx Hi [Hf He]; split;
                         [by apply relabel_frame_updE | done])).
  specialize (H2 ltac:(intros s i idx j [(_ & _ & _ & Hl & _) _] Hi Hj;
                         rewrite getE_updE by (destruct Hga; lia);
                         by destruct (decide (j = i)) as [->|])).
  specialize (H2 new1 g1 ltac:(by split) Hwf1 ltac:(lia)).
  destruct (ULONG_for (numEdges graph) _ (new1, g1)) as [new2 g2].
  destruct H2 as [[Hf2 Hv2] Hwf2 Hnum2 Hdone2 _ Hkept2 Hdist2]. cbn [fst snd] in *.
  split; [|split; [|split; [|split]]].
  - intros v Hv. unfold getV at 2. rewrite Hv2. apply Hkept2.
    apply Hdone1. lia.
  - intros e He. unfold getE at 1. rewrite <- He1. apply Hdone2. lia.
  - done.
  - done.
  - intros H. apply Hdist2. by apply Hdist1.
Qed.

Lemma CompressLabelListWithGraph_labels_witness :
  let p := set_labelList example_labels_numeric
             (example_parameters example_path false EVAL_SIZE) in
  let r := CompressLabelListWithGraph AllocateLabelList example_path p in
  (∀ v, v < numVertices example_path →
     same_label (labelList p) r.1 (vlabel (getV example_path v)) (vlabel (getV r.2 v)))
  ∧ (∀ e, e < numEdges example_path →
       same_label (labelList p) r.1 (elabel (getE example_path e))
                  (elabel (getE r.2 e)))
  ∧ relabel_frame example_path r.2
  ∧ labels_wf r.1
  ∧ (labels_distinct AllocateLabelList → labels_distinct r.1).
Proof.
  apply (CompressLabelListWithGraph_labels AllocateLabelList example_path
           (set_labelList example_labels_numeric
              (example_parameters example_path false EVAL_SIZE))).
  - split; [reflexivity | simpl; lia].
  - apply graph_arrays_check_ok. reflexivity.
  - reflexivity.
Defined.

(** ** subops.c: instances with ordered arrays *)

(** The arrays of an instance are kept in increasing order. *)
Definition increasing (l : list ULONG) : Prop := StronglySorted N.lt l.

Lemma increasing_cons x l : increasing (x :: l) ↔ increasing l ∧ ∀ y, y ∈ l → x < y.
Proof.
  unfold increasing. split.
  - intros H. apply StronglySorted_inv in H as [H1 H2]. split; [done|].
    by apply Forall_forall.
  - intros [H1 H2]. constructor; [done|]. by apply Forall_forall.
Qed.

Lemma InstanceOverlap_skip_spec v vs2 :
  increasing vs2 →
  increasing (InstanceOverlap_skip v vs2)
  ∧ (∀ w, v ≤ w → w ∈ vs2 ↔ w ∈ InstanceOverlap_skip v vs2)
  ∧ (∀ w, w ∈ InstanceOverlap_skip v vs2 → v ≤ w).
Proof.
  induction vs2 as [|x rest IH]; intros Hs; cbn [InstanceOverlap_skip].
  - split; [done|]. split; [done|]. intros w Hw. by apply elem_of_nil in Hw.
  - apply increasing_cons in Hs as [Hs Hx].
    destruct (N.ltb_spec x v) as [Hlt|Hge].
    + destruct (IH Hs) as (H1 & H2 & H3). split; [done|]. split; [|done].
      intros w Hw. rewrite <- H2 by done. rewrite elem_of_cons. split; [|by right].
      intros [->|H]; [lia|done].
    + split; [by apply increasing_cons|]. split; [done|].
      intros w Hw. apply elem_of_cons in Hw as [->|Hw]; [done|].
      specialize (Hx w Hw). lia.
Qed.

Lemma InstanceOverlap_loop_nil vs1 : InstanceOverlap_loop vs1 [] = false.
Proof. by destruct vs1. Qed.

Lemma InstanceOverlap_loop_spec vs1 vs2 :
  increasing vs1 → increasing vs2 →
  InstanceOverlap_loop vs1 vs2 = true ↔ ∃ v, v ∈ vs1 ∧ v ∈ vs2.
Proof.
  revert vs2. induction vs1 as [|v1 rest1 IH]; intros vs2 H1 H2.
  - cbn. split; [done|]. intros (v & Hv & _). by apply elem_of_nil in Hv.
  - apply increasing_cons in H1 as [H1 Hv1].
    destruct vs2 as [|y2 rest2].
    { cbn. split; [done|]. intros (v & _ & Hv). by apply elem_of_nil in Hv. }
    cbn [InstanceOverlap_loop].
    destruct (InstanceOverlap_skip_spec v1 (y2 :: rest2) H2) as (Hs & Hin & Hge).
    destruct (InstanceOverlap_skip v1 (y2 :: rest2)) as [|x rest] eqn:E.
    + rewrite InstanceOverlap_loop_nil. split; [done|].
      intros (v & Hv & Hv'). apply elem_of_cons in Hv as [->|Hv].
      * apply Hin in Hv'; [|lia]. by apply elem_of_nil in Hv'.
      * specialize (Hv1 v Hv). apply Hin in Hv'; [|lia]. by apply elem_of_nil in Hv'.
    + assert (Hx : v1 ≤ x) by (apply Hge; left).
      destruct (N.eqb_spec v1 x) as [->|Hne].
      * split; [|done]. intros _. exists x. split; [left|]. apply Hin; [lia | left].
      * rewrite (IH (x :: rest) H1 Hs). split.
        -- intros (v & Hv & Hv'). exists v. split; [by right|].
           apply Hin; [|done]. specialize (Hv1 v Hv). lia.
        -- intros (v & Hv & Hv'). apply elem_of_cons in Hv as [->|Hv].
           ++ apply Hin in Hv'; [|lia]. apply elem_of_cons in Hv' as [->|Hv']; [done|].
              apply increasing_cons in Hs as [_ Hs]. specialize (Hs v1 Hv'). lia.
           ++ exists v. split; [done|]. apply Hin; [|done]. specialize (Hv1 v Hv). lia.
Qed.

(** X6.  For instances whose vertex arrays are in increasing order,
    [InstanceOverlap] returns TRUE exactly when the two instances share
    a vertex. *)
Theorem InstanceOverlap_shared_vertex instance1 instance2 :
  increasing (ivertices instance1) →
  increasing (ivertices instance2) →
  InstanceOverlap instance1 instance2 = true
  ↔ ∃ v, v ∈ ivertices instance1 ∧ v ∈ ivertices instance2.
Proof. apply InstanceOverlap_loop_spec. Qed.

(** [InstanceContainsVertex]: the first loop ends at the first vertex
    that is not below [v], or at the end of the array. *)
Fixpoint InstanceContainsVertex_loop (vs : list ULONG) (v : ULONG) : bool :=
  match vs with
  | [] => false
  | x :: rest => if x <? v then InstanceContainsVertex_loop rest v else x =? v
  end.

Definition InstanceContainsVertex (instance : Instance) (v : ULONG) : bool :=
  InstanceContainsVertex_loop (ivertices instance) v.

(** X7.  For an instance whose vertex array is in increasing order,
    [InstanceContainsVertex] returns TRUE exactly when the vertex is in
    the array. *)
Theorem InstanceContainsVertex_elem_of instance v :
  increasing (ivertices instance) →
  InstanceContainsVertex instance v = true ↔ v ∈ ivertices instance.
Proof.
  unfold InstanceContainsVertex. induction (ivertices instance) as [|x rest IH]; intros Hs.
  - cbn. split; [done|]. intros H. by apply elem_of_nil in H.
  - apply increasing_cons in Hs as [Hs Hx]. cbn [InstanceContainsVertex_loop].
    rewrite elem_of_cons. destruct (N.ltb_spec x v) as [Hlt|Hge].
    + rewrite (IH Hs). split; [by right|]. intros [->|H]; [lia|done].
    + rewrite N.eqb_eq. split; [intros ->; by left|].
      intros [->|H]; [done|]. specialize (Hx v H). lia.
Qed.

(** [InstanceExampleNumber]: [while ((egNo < numEgs) &&
    (instanceVertexIndex >= egsVertexIndices[egNo])) egNo++], with the
    number of examples still to look at. *)
Fixpoint InstanceExampleNumber_loop (instanceVertexIndex : ULONG)
    (egsVertexIndices : list ULONG) (numEgs : ULONG) (todo : nat) (egNo : ULONG)
    : ULONG :=
  match todo with
  | O => egNo
  | S todo =>
      if (egNo <? numEgs) && (egsVertexIndices !!! N.to_nat egNo <=? instanceVertexIndex)
      then InstanceExampleNumber_loop instanceVertexIndex egsVertexIndices numEgs todo
                                      (uadd egNo 1)
      else egNo
  end.

Definition InstanceExampleNumber (instance : Instance) (egsVertexIndices : list ULONG)
    (numEgs : ULONG) : ULONG :=
  let instanceVertexIndex := ivertices instance !!! 0%nat in
  InstanceExampleNumber_loop instanceVertexIndex egsVertexIndices numEgs
                             (N.to_nat numEgs) 1.

(** The first vertices of the examples are in increasing order. *)
Definition examples_increasing (egsVertexIndices : list ULONG) (numEgs : ULONG) : Prop :=
  ∀ i j, i ≤ j → j < numEgs →
    egsVertexIndices !!! N.to_nat i ≤ egsVertexIndices !!! N.to_nat j.

Lemma InstanceExampleNumber_loop_spec v egs numEgs todo (egNo : ULONG) :
  examples_increasing egs numEgs →
  numEgs < ULONG_MODULUS →
  1 ≤ egNo →
  numEgs ≤ N.of_nat todo + egNo →
  egs !!! N.to_nat (egNo - 1) ≤ v →
  let r := InstanceExampleNumber_loop v egs numEgs todo egNo in
  egNo ≤ r ∧ (r ≤ numEgs ∨ r = egNo)
  ∧ egs !!! N.to_nat (r - 1) ≤ v
  ∧ (r < numEgs → v < egs !!! N.to_nat r).
Proof.
  intros Hinc Hn. revert egNo. induction todo as [|todo IH]; intros egNo H1 Hfuel Hle;
    cbn [InstanceExampleNumber_loop]; cbv zeta.
  - split; [lia|]. split; [by right|]. split; [done|]. lia.
  - destruct (N.ltb_spec egNo numEgs) as [Hlt|Hge]; cbn [andb].
    + destruct (N.leb_spec (egs !!! N.to_nat egNo) v) as [Hle'|Hgt].
      * assert (Hu : uadd egNo 1 = egNo + 1) by (apply uadd_small; lia). rewrite Hu.
        destruct (IH (egNo + 1)) as (Hr1 & Hr2 & Hr3 & Hr4);
          [lia | lia | by replace (egNo + 1 - 1) with egNo by lia |].
        split; [lia|]. split; [left; lia|]. done.
      * split; [lia|]. split; [by right|]. split; [done|]. intros _. done.
    + split; [lia|]. split; [by right|]. split; [done|]. lia.
Qed.

(** X8.  [InstanceExampleNumber] returns the number (from 1) of the
    example whose vertex range holds the first vertex of the instance:
    the first vertex of that example is not above it, and the first
    vertex of the next example, if there is one, is above it. *)
Theorem InstanceExampleNumber_range instance egsVertexIndices numEgs :
  examples_increasing egsVertexIndices numEgs →
  0 < numEgs < ULONG_MODULUS →
  egsVertexIndices !!! 0%nat ≤ ivertices instance !!! 0%nat →
  let egNo := InstanceExampleNumber instance egsVertexIndices numEgs in
  1 ≤ egNo ≤ numEgs
  ∧ egsVertexIndices !!! N.to_nat (egNo - 1) ≤ ivertices instance !!! 0%nat
  ∧ (egNo < numEgs →
       ivertices instance !!! 0%nat < egsVertexIndices !!! N.to_nat egNo).
Proof.
  intros Hinc Hn H0. cbv zeta. unfold InstanceExampleNumber.
  destruct (InstanceExampleNumber_loop_spec (ivertices instance !!! 0%nat)
              egsVertexIndices numEgs (N.to_nat numEgs) 1)
    as (H1 & H2 & H3 & H4); [done | lia | lia | lia | done |].
  cbv zeta in *. split; [lia|]. done.
Qed.

(** *** Matching instances *)

Lemma InstanceMatch_same_eq l1 l2 :
  length l1 = length l2 → InstanceMatch_same l1 l2 = true ↔ l1 = l2.
Proof.
  revert l2. induction l1 as [|x1 rest1 IH]; intros [|x2 rest2] Hlen; try done.
  cbn [InstanceMatch_same]. cbn in Hlen. destruct (N.eqb_spec x1 x2) as [->|Hne].
  - rewrite IH by lia. split; [by intros -> | by intros [= ->]].
  - split; [done | by intros [= -> ->]].
Qed.

Lemma InstanceMatch_arrays instance1 instance2 :
  InstanceMatch instance1 instance2 = true
  ↔ ivertices instance1 = ivertices instance2 ∧ iedges instance1 = iedges instance2.
Proof.
  unfold InstanceMatch, inumVertices, inumEdges.
  destruct (N.eqb_spec (N.of_nat (length (ivertices instance1)))
                       (N.of_nat (length (ivertices instance2)))) as [Hv|Hv];
    destruct (N.eqb_spec (N.of_nat (length (iedges instance1)))
                         (N.of_nat (length (iedges instance2)))) as [He|He]; cbn.
  - rewrite andb_true_iff, !InstanceMatch_same_eq by lia. tauto.
  - split; [done|]. intros [_ E]. rewrite E in He. done.
  - split; [done|]. intros [E _]. rewrite E in Hv. done.
  - split; [done|]. intros [E _]. rewrite E in Hv. done.
Qed.

(** No two instances of the list have the same vertices and edges. *)
Definition instances_distinct (instanceList : list Instance) : Prop :=
  NoDup ((λ i, (ivertices i, iedges i)) <$> instanceList).

Lemma MemberOfInstanceList_spec instance instanceList :
  MemberOfInstanceList instance instanceList = true
  ↔ (ivertices instance, iedges instance)
      ∈ (λ i, (ivertices i, iedges i)) <$> instanceList.
Proof.
  unfold MemberOfInstanceList. rewrite existsb_exists, list_elem_of_fmap. split.
  - intros (i & Hi & Hm). apply InstanceMatch_arrays in Hm as [Hv He].
    exists i. split; [by rewrite Hv, He | by apply list_elem_of_In].
  - intros (i & [= Hv He] & Hi). exists i. split; [by apply list_elem_of_In|].
    by apply InstanceMatch_arrays.
Qed.

(** X9.  [InstanceListInsert] with [unique] set keeps a list free of
    duplicates and makes the instance a member: afterwards no two
    instances of the list have the same vertex and edge arrays, and the
    list holds an instance with the arrays of the given one.  The list
    is the old one, or the old one with the instance at its head. *)
Theorem InstanceListInsert_distinct instance instanceList :
  instances_distinct instanceList →
  let r := InstanceListInsert instance instanceList true in
  instances_distinct r
  ∧ MemberOfInstanceList instance r = true
  ∧ (∃ i, i ∈ r ∧ ivertices i = ivertices instance ∧ iedges i = iedges instance)
  ∧ (r = instanceList
     ∨ r = set_refCount (uadd (refCount instance) 1) instance :: instanceList).
Proof.
  intros Hd. cbv zeta. unfold InstanceListInsert. cbn [negb orb andb].
  pose proof (MemberOfInstanceList_spec instance instanceList) as Hm.
  destruct (MemberOfInstanceList instance instanceList) eqn:E; cbn [negb].
  - split; [done|]. split; [done|]. split; [|by left].
    destruct Hm as [Hm _]. specialize (Hm eq_refl).
    apply list_elem_of_fmap in Hm as (i & [= Hv He] & Hi). by exists i.
  - split; [|split; [|split; [|by right]]].
    + unfold instances_distinct. rewrite fmap_cons. cbn. apply NoDup_cons. split; [|done].
      intros H. apply Hm in H. done.
    + apply MemberOfInstanceList_spec. rewrite fmap_cons. cbn. left.
    + eexists. split; [left|]. done.
Qed.

Lemma InstanceOverlap_shared_vertex_witness :
  InstanceOverlap (example_instance [0; 1] [0]) (example_instance [1; 2] [1]) = true
  ↔ ∃ v, v ∈ ivertices (example_instance [0; 1] [0])
         ∧ v ∈ ivertices (example_instance [1; 2] [1]).
Proof.
  apply (InstanceOverlap_shared_vertex (example_instance [0; 1] [0])
           (example_instance [1; 2] [1])).
  - simpl. repeat constructor.
  - simpl. repeat constructor.
Defined.

Lemma InstanceContainsVertex_elem_of_witness :
  InstanceContainsVertex (example_instance [0; 1] [0]) 1 = true
  ↔ 1 ∈ ivertices (example_instance [0; 1] [0]).
Proof.
  apply (InstanceContainsVertex_elem_of (example_instance [0; 1] [0]) 1).
  simpl. repeat constructor.
Defined.

Lemma InstanceExampleNumber_range_witness :
  let egNo := InstanceExampleNumber (example_instance [4; 5] [3]) [0; 3; 6] 3 in
  1 ≤ egNo ≤ 3
  ∧ [0; 3; 6] !!! N.to_nat (egNo - 1) ≤ ivertices (example_instance [4; 5] [3]) !!! 0%nat
  ∧ (egNo < 3 →
       ivertices (example_instance [4; 5] [3]) !!! 0%nat < [0; 3; 6] !!! N.to_nat egNo).
Proof.
  apply (InstanceExampleNumber_range (example_instance [4; 5] [3]) [0; 3; 6] 3).
  - intros i j Hij Hj.
    assert (Hj' : j = 0 ∨ j = 1 ∨ j = 2) by lia.
    assert (Hi' : i = 0 ∨ i = 1 ∨ i = 2) by lia.
    destruct Hi' as [-> | [-> | ->]], Hj' as [-> | [-> | ->]]; simpl; lia.
  - split; reflexivity.
  - simpl. lia.
Defined.

Lemma InstanceListInsert_distinct_witness :
  let r :=
    InstanceListInsert (example_instance [0; 1] [0]) [example_instance [1; 2] [1]] true in
  instances_distinct r
  ∧ MemberOfInstanceList (example_instance [0; 1] [0]) r = true
  ∧ (∃ i, i ∈ r ∧ ivertices i = ivertices (example_instance [0; 1] [0])
          ∧ iedges i = iedges (example_instance [0; 1] [0]))
  ∧ (r = [example_instance [1; 2] [1]]
     ∨ r = set_refCount (uadd (refCount (example_instance [0; 1] [0])) 1)
                        (example_instance [0; 1] [0])
           :: [example_instance [1; 2] [1]]).
Proof.
  apply (InstanceListInsert_distinct (example_instance [0; 1] [0])
           [example_instance [1; 2] [1]]).
  unfold instances_distinct. simpl. apply NoDup_singleton.
Defined.

(** *** Adding an instance to an instance *)

(** [while ((v2 < nv2) && (instance2->vertices[v2] < x)) v2++], with the
    number of slots still to look at; the index [v2] is a [nat]. *)
Fixpoint AddInstanceToInstance_skip (array2 : list ULONG) (x : ULONG) (todo v2 : nat)
    : nat :=
  match todo with
  | O => v2
  | S todo =>
      if (v2 <? length array2)%nat && (array2 !!! v2 <? x)
      then AddInstanceToInstance_skip array2 x todo (S v2)
      else v2
  end.

(** One more slot for the array, the elements from [v2] on moved up by
    one, and [x] stored at [v2]. *)
Definition AddInstanceToInstance_insert (array2 : list ULONG) (v2 : nat) (x : ULONG)
    : list ULONG :=
  take v2 array2 ++ x :: drop v2 array2.

(** The body of the two [for] loops of [AddInstanceToInstance]; [v2]
    keeps its value from one element of [array1] to the next. *)
Definition AddInstanceToInstance_step (st : list ULONG * nat) (x : ULONG)
    : list ULONG * nat :=
  let '(array2, v2) := st in
  let v2 := AddInstanceToInstance_skip array2 x (length array2 - v2) v2 in
  if (v2 =? length array2)%nat || (x <? array2 !!! v2)
  then (AddInstanceToInstance_insert array2 v2 x, v2)
  else (array2, v2).

Definition AddInstanceToInstance_array (array1 array2 : list ULONG) : list ULONG :=
  (foldl AddInstanceToInstance_step (array2, 0%nat) array1).1.

(** The other fields of [instance2], its [mapping] too, are not
    written. *)
Definition AddInstanceToInstance (instance1 instance2 : Instance) : Instance :=
  let instance2 :=
    set_ivertices (AddInstanceToInstance_array (ivertices instance1)
                                               (ivertices instance2)) instance2 in
  set_iedges (AddInstanceToInstance_array (iedges instance1) (iedges instance2))
             instance2.

Definition AddEdgeToInstance (edgeIndex : ULONG) (edge : Edge) (instance2 : Instance)
    : Instance :=
  (* convert edge to instance *)
  let instance1 :=
    if vertex1 edge =? vertex2 edge then
      let instance1 := AllocateInstance 1 1 in
      set_ivertices (<[0%nat := vertex1 edge]> (ivertices instance1)) instance1
    else
      let instance1 := AllocateInstance 2 1 in
      if vertex1 edge <? vertex2 edge then
        let instance1 :=
          set_ivertices (<[0%nat := vertex1 edge]> (ivertices instance1)) instance1 in
        set_ivertices (<[1%nat := vertex2 edge]> (ivertices instance1)) instance1
      else
        let instance1 :=
          set_ivertices (<[0%nat := vertex2 edge]> (ivertices instance1)) instance1 in
        set_ivertices (<[1%nat := vertex1 edge]> (ivertices instance1)) instance1 in
  let instance1 := set_iedges (<[0%nat := edgeIndex]> (iedges instance1)) instance1 in
  AddInstanceToInstance instance1 instance2.

Lemma increasing_take_drop l k :
  increasing l → increasing (take k l) ∧ increasing (drop k l)
  ∧ ∀ y z, y ∈ take k l → z ∈ drop k l → y < z.
Proof.
  intros H. rewrite <- (take_drop k l) in H. unfold increasing in *.
  apply StronglySorted_app in H as (H1 & H2 & H3). done.
Qed.

Lemma AddInstanceToInstance_skip_spec array2 x todo v2 :
  increasing array2 →
  (v2 ≤ length array2)%nat →
  (length array2 - v2 ≤ todo)%nat →
  (∀ y, y ∈ take v2 array2 → y < x) →
  let k := AddInstanceToInstance_skip array2 x todo v2 in
  (v2 ≤ k ≤ length array2)%nat
  ∧ (∀ y, y ∈ take k array2 → y < x)
  ∧ (∀ y, y ∈ drop k array2 → x ≤ y)
  ∧ ((k < length array2)%nat → x ≤ array2 !!! k).
Proof.
  intros Hs. revert v2. induction todo as [|todo IH]; intros v2 Hv2 Hfuel Hbefore;
    cbn [AddInstanceToInstance_skip]; cbv zeta.
  - assert (v2 = length array2) by lia. subst v2.
    split; [lia|]. split; [done|]. rewrite drop_all. split; [|lia].
    intros y Hy. by apply elem_of_nil in Hy.
  - destruct (Nat.ltb_spec v2 (length array2)) as [Hlt|Hge]; cbn [andb].
    + assert (Hlook : array2 !! v2 = Some (array2 !!! v2))
        by (by apply list_lookup_lookup_total_lt).
      destruct (N.ltb_spec (array2 !!! v2) x) as [Hx|Hx].
      * destruct (IH (S v2)) as (H1 & H2 & H3 & H4); [lia | lia | |].
        { intros y Hy. rewrite (take_S_r _ _ _ Hlook) in Hy.
          apply elem_of_app in Hy as [Hy|Hy]; [by apply Hbefore|].
          apply list_elem_of_singleton in Hy. by subst. }
        split; [lia|]. done.
      * split; [lia|]. split; [done|]. split; [|done].
        intros y Hy. rewrite (drop_S _ _ _ Hlook) in Hy.
        apply elem_of_cons in Hy as [->|Hy]; [done|].
        destruct (increasing_take_drop array2 (S v2) Hs) as (_ & _ & Hc).
        specialize (Hc (array2 !!! v2) y). rewrite (take_S_r _ _ _ Hlook) in Hc.
        specialize (Hc ltac:(apply elem_of_app; right; by apply list_elem_of_singleton) Hy).
        lia.
    + assert (v2 = length array2) by lia. subst v2.
      split; [lia|]. split; [done|]. rewrite drop_all. split; [|lia].
      intros y Hy. by apply elem_of_nil in Hy.
Qed.

Lemma AddInstanceToInstance_step_spec array2 v2 x :
  increasing array2 →
  (v2 ≤ length array2)%nat →
  (∀ y, y ∈ take v2 array2 → y < x) →
  let r := AddInstanceToInstance_step (array2, v2) x in
  increasing r.1
  ∧ (r.2 ≤ length r.1)%nat
  ∧ (∀ y, y ∈ take r.2 r.1 → y < x)
  ∧ (∀ y, y ∈ r.1 ↔ y ∈ array2 ∨ y = x).
Proof.
  intros Hs Hv2 Hbefore. cbv zeta. unfold AddInstanceToInstance_step.
  destruct (AddInstanceToInstance_skip_spec array2 x (length array2 - v2) v2 Hs Hv2)
    as (Hk & Htake & Hdrop & Hat); [lia | done |].
  cbv zeta in *. set (k := AddInstanceToInstance_skip array2 x _ v2) in *.
  destruct (increasing_take_drop array2 k Hs) as (Hst & Hsd & Hcross).
  assert (Hins : ∀ y, y ∈ drop k array2 → x < y →
                 (k =? length array2)%nat || (x <? array2 !!! k) = true
                 → True) by done.
  destruct ((k =? length array2)%nat || (x <? array2 !!! k)) eqn:E; cbn [fst snd].
  - assert (Hgt : ∀ y, y ∈ drop k array2 → x < y).
    { intros y Hy. apply orb_true_iff in E as [E|E].
      - apply Nat.eqb_eq in E. rewrite E, drop_all in Hy. by apply elem_of_nil in Hy.
      - apply N.ltb_lt in E.
        assert (Hlt : (k < length array2)%nat).
        { destruct (decide (k < length array2)%nat); [done|].
          rewrite drop_ge in Hy by lia. by apply elem_of_nil in Hy. }
        assert (Hlook : array2 !! k = Some (array2 !!! k))
          by (by apply list_lookup_lookup_total_lt).
        rewrite (drop_S _ _ _ Hlook) in Hy, Hsd.
        apply elem_of_cons in Hy as [->|Hy]; [done|].
        apply increasing_cons in Hsd as [_ Hsd]. specialize (Hsd y Hy). lia. }
    unfold AddInstanceToInstance_insert. split; [|split; [|split]].
    + apply StronglySorted_app_2; [|done|by apply increasing_cons].
      intros y z Hy Hz. apply elem_of_cons in Hz as [->|Hz]; [by apply Htake|].
      by apply Hcross.
    + rewrite length_app, length_take. cbn. lia.
    + intros y Hy. rewrite take_app_le in Hy by (rewrite length_take; lia).
      rewrite take_take in Hy. apply Htake.
      replace (k `min` k)%nat with k in Hy by lia. done.
    + intros y. rewrite elem_of_app, elem_of_cons.
      rewrite <- (take_drop k array2) at 3. rewrite elem_of_app. tauto.
  - apply orb_false_iff in E as [E1 E2].
    apply Nat.eqb_neq in E1. apply N.ltb_ge in E2.
    assert (Hx : array2 !!! k = x) by (specialize (Hat ltac:(lia)); lia).
    split; [done|]. split; [lia|]. split; [done|].
    intros y. split; [by left|]. intros [H| ->]; [done|].
    rewrite <- Hx. apply list_elem_of_lookup_total_2. lia.
Qed.

Lemma AddInstanceToInstance_loop_spec array1 array2 v2 :
  increasing array1 →
  increasing array2 →
  (v2 ≤ length array2)%nat →
  (∀ y x, y ∈ take v2 array2 → x ∈ array1 → y < x) →
  let r := (foldl AddInstanceToInstance_step (array2, v2) array1).1 in
  increasing r ∧ ∀ y, y ∈ r ↔ y ∈ array2 ∨ y ∈ array1.
Proof.
  revert array2 v2. induction array1 as [|x rest IH]; intros array2 v2 H1 H2 Hv2 Hbefore.
  - cbn. split; [done|]. intros y. rewrite elem_of_nil. tauto.
  - cbn [foldl]. apply increasing_cons in H1 as [H1 Hx].
    destruct (AddInstanceToInstance_step_spec array2 v2 x H2 Hv2) as (Hs & Hlen & Ht & Hel).
    { intros y Hy. apply (Hbefore y x Hy). left. }
    cbv zeta in *. destruct (AddInstanceToInstance_step (array2, v2) x) as [a2 k].
    cbn [fst snd] in *.
    destruct (IH a2 k H1 Hs Hlen) as [Hr Hin].
    { intros y z Hy Hz. specialize (Ht y Hy). specialize (Hx z Hz). lia. }
    cbv zeta in *. split; [done|]. intros y. rewrite Hin, Hel, elem_of_cons. tauto.
Qed.

Lemma AddInstanceToInstance_array_spec array1 array2 :
  increasing array1 → increasing array2 →
  increasing (AddInstanceToInstance_array array1 array2)
  ∧ ∀ y, y ∈ AddInstanceToInstance_array array1 array2 ↔ y ∈ array2 ∨ y ∈ array1.
Proof.
  intros H1 H2. apply (AddInstanceToInstance_loop_spec array1 array2 0 H1 H2); [lia|].
  intros y x Hy. rewrite take_0 in Hy. by apply elem_of_nil in Hy.
Qed.

Lemma AddInstanceToInstance_spec instance1 instance2 :
  increasing (ivertices instance1) → increasing (iedges instance1) →
  increasing (ivertices instance2) → increasing (iedges instance2) →
  let r := AddInstanceToInstance instance1 instance2 in
  increasing (ivertices r)
  ∧ (∀ v, v ∈ ivertices r ↔ v ∈ ivertices instance2 ∨ v ∈ ivertices instance1)
  ∧ increasing (iedges r)
  ∧ (∀ e, e ∈ iedges r ↔ e ∈ iedges instance2 ∨ e ∈ iedges instance1).
Proof.
  intros Hv1 He1 Hv2 He2. cbv zeta. unfold AddInstanceToInstance.
  cbn [ivertices iedges set_ivertices set_iedges].
  destruct (AddInstanceToInstance_array_spec _ _ Hv1 Hv2) as [H1 H2].
  destruct (AddInstanceToInstance_array_spec _ _ He1 He2) as [H3 H4].
  done.
Qed.

(** X10.  [AddInstanceToInstance] merges two instances whose arrays
    are in increasing order: the vertex array of the result is in
    increasing order, so without duplicates, and holds exactly the
    vertices of the two instances; the same for the edge arrays. *)
Theorem AddInstanceToInstance_union instance1 instance2 :
  increasing (ivertices instance1) → increasing (iedges instance1) →
  increasing (ivertices instance2) → increasing (iedges instance2) →
  let r := AddInstanceToInstance instance1 instance2 in
  increasing (ivertices r)
  ∧ (∀ v, v ∈ ivertices r ↔ v ∈ ivertices instance2 ∨ v ∈ ivertices instance1)
  ∧ increasing (iedges r)
  ∧ (∀ e, e ∈ iedges r ↔ e ∈ iedges instance2 ∨ e ∈ iedges instance1).
Proof. apply AddInstanceToInstance_spec. Qed.

(** X11.  [AddEdgeToInstance] keeps the arrays of an instance in
    increasing order and adds the edge with its endpoints: afterwards
    the vertices are those of the instance and the two endpoints, and
    the edges those of the instance and the given edge index; the
    index is added once even if the instance had it. *)
Theorem AddEdgeToInstance_union edgeIndex edge instance2 :
  increasing (ivertices instance2) → increasing (iedges instance2) →
  let r := AddEdgeToInstance edgeIndex edge instance2 in
  increasing (ivertices r)
  ∧ (∀ v, v ∈ ivertices r
          ↔ v ∈ ivertices instance2 ∨ v = vertex1 edge ∨ v = vertex2 edge)
  ∧ increasing (iedges r)
  ∧ (∀ e, e ∈ iedges r ↔ e ∈ iedges instance2 ∨ e = edgeIndex).
Proof.
  intros Hv2 He2. cbv zeta. unfold AddEdgeToInstance.
  match goal with |- context [AddInstanceToInstance ?i1 instance2] =>
    set (instance1 := i1) end.
  assert (Hi1 : increasing (ivertices instance1)
                ∧ (∀ v, v ∈ ivertices instance1 ↔ v = vertex1 edge ∨ v = vertex2 edge)
                ∧ iedges instance1 = [edgeIndex]).
  { unfold instance1, AllocateInstance.
    change (N.to_nat 1) with 1%nat. change (N.to_nat 2) with 2%nat.
    destruct (N.eqb_spec (vertex1 edge) (vertex2 edge)) as [Heq|Hne].
    - cbn. split; [repeat constructor|]. split; [|done].
      intros v. rewrite list_elem_of_singleton. rewrite <- Heq. tauto.
    - destruct (N.ltb_spec (vertex1 edge) (vertex2 edge)) as [Hlt|Hge]; cbn.
      + split; [|split; [|done]].
        * apply increasing_cons. split; [repeat constructor|].
          intros y Hy. apply list_elem_of_singleton in Hy. by subst.
        * intros v. rewrite elem_of_cons, list_elem_of_singleton. tauto.
      + split; [|split; [|done]].
        * apply increasing_cons. split; [repeat constructor|].
          intros y Hy. apply list_elem_of_singleton in Hy. subst. lia.
        * intros v. rewrite elem_of_cons, list_elem_of_singleton. tauto. }
  destruct Hi1 as (Hs1 & Hel1 & Hed1).
  destruct (AddInstanceToInstance_spec instance1 instance2) as (H1 & H2 & H3 & H4);
    [done | rewrite Hed1; repeat constructor | done | done |].
  cbv zeta in *. split; [done|]. split; [|split; [done|]].
  - intros v. rewrite H2, Hel1. tauto.
  - intros e. rewrite H4, Hed1, list_elem_of_singleton. tauto.
Qed.

Lemma AddInstanceToInstance_union_witness :
  let instance1 := example_instance [0; 1] [0] in
  let instance2 := example_instance [1; 2] [1] in
  let r := AddInstanceToInstance instance1 instance2 in
  increasing (ivertices r)
  ∧ (∀ v, v ∈ ivertices r ↔ v ∈ ivertices instance2 ∨ v ∈ ivertices instance1)
  ∧ increasing (iedges r)
  ∧ (∀ e, e ∈ iedges r ↔ e ∈ iedges instance2 ∨ e ∈ iedges instance1).
Proof.
  apply (AddInstanceToInstance_union (example_instance [0; 1] [0])
           (example_instance [1; 2] [1])); simpl; repeat constructor.
Defined.

Lemma AddEdgeToInstance_union_witness :
  let edge := mkEdge 2 1 1 false false false true in
  let instance2 := example_instance [0; 1] [0] in
  let r := AddEdgeToInstance 1 edge instance2 in
  increasing (ivertices r)
  ∧ (∀ v, v ∈ ivertices r
          ↔ v ∈ ivertices instance2 ∨ v = vertex1 edge ∨ v = vertex2 edge)
  ∧ increasing (iedges r)
  ∧ (∀ e, e ∈ iedges r ↔ e ∈ iedges instance2 ∨ e = 1).
Proof.
  apply (AddEdgeToInstance_union 1 (mkEdge 2 1 1 false false false true)
           (example_instance [0; 1] [0])); simpl; repeat constructor.
Defined.

(** On the example: the instance [0 - 1] with the edge from 2 to 1. *)
Example AddEdgeToInstance_example :
  let r := AddEdgeToInstance 1 (mkEdge 2 1 1 false false false true)
                             (example_instance [0; 1] [0]) in
  ivertices r = [0; 1; 2] ∧ iedges r = [0; 1].
Proof. split; reflexivity. Qed.

(** ** graphmatch.c: the heap of match nodes *)

(** [a * b] on [unsigned long]. *)
Definition umul (a b : ULONG) : ULONG := (a * b) mod ULONG_MODULUS.

(** A [mapping] is a pointer to an array of [VertexMap]; [None] is the
    null pointer. *)
Record MatchHeapNode : Type := mkMatchHeapNode {
  depth : ULONG;
  cost : double;
  nodeMapping : option (list VertexMap)
}.

(** [nodes] is the allocated array, of [heapSize] slots. *)
Record MatchHeap : Type := mkMatchHeap {
  heapSize : ULONG;
  numNodes : ULONG;
  nodes : list MatchHeapNode
}.

Definition dummyMatchHeapNode : MatchHeapNode := mkMatchHeapNode 0 0%R None.
#[global] Instance MatchHeapNode_inhabited : Inhabited MatchHeapNode :=
  populate dummyMatchHeapNode.

Definition HeapParent (i : ULONG) : ULONG := usub i 1 / 2.
Definition HeapLeftChild (i : ULONG) : ULONG := uadd (umul 2 i) 1.
Definition HeapRightChild (i : ULONG) : ULONG := uadd (umul 2 i) 2.

Definition AllocateMatchHeap (size : ULONG) : MatchHeap :=
  mkMatchHeap size 0 (replicate (N.to_nat size) dummyMatchHeapNode).

Definition MatchHeapEmpty (heap : MatchHeap) : bool := numNodes heap =? 0.

(** The test of [InsertMatchHeapNode] and [HeapifyMatchHeap]: less
    cost, or the same cost and more depth. *)
Definition better (node node2 : MatchHeapNode) : bool :=
  dlt (cost node) (cost node2)
  || (deq (cost node) (cost node2) && (depth node2 <? depth node)).

(** [while ((i > 0) && (! done))] of [InsertMatchHeapNode]; [i] halves
    at least in each round, [todo] bounds the rounds. *)
Fixpoint InsertMatchHeapNode_loop (node : MatchHeapNode) (todo : nat) (i : ULONG)
    (nodes : list MatchHeapNode) : ULONG * list MatchHeapNode :=
  match todo with
  | O => (i, nodes)
  | S todo =>
      if 0 <? i then
        let parent := HeapParent i in
        let node2 := nodes !!! N.to_nat parent in
        if better node node2
        then InsertMatchHeapNode_loop node todo parent (<[N.to_nat i := node2]> nodes)
        else (i, nodes)
      else (i, nodes)
  end.

Definition InsertMatchHeapNode (node : MatchHeapNode) (heap : MatchHeap) : MatchHeap :=
  let numNodes := uadd (numNodes heap) 1 in
  (* add more memory to heap if necessary *)
  let '(size, nodes) :=
    if heapSize heap <? numNodes
    then
      let size := umul 2 (heapSize heap) in
      (size, resize (N.to_nat size) dummyMatchHeapNode (nodes heap))
    else (heapSize heap, nodes heap) in
  (* find right place for new node *)
  let '(i, nodes) :=
    InsertMatchHeapNode_loop node (N.to_nat numNodes) (usub numNodes 1) nodes in
  (* store new node *)
  mkMatchHeap size numNodes (<[N.to_nat i := node]> nodes).

(** [while (parent != best)] of [HeapifyMatchHeap]; a round that swaps
    goes on from a child. *)
Fixpoint HeapifyMatchHeap_loop (todo : nat) (parent : ULONG) (heap : MatchHeap)
    : MatchHeap :=
  match todo with
  | O => heap
  | S todo =>
      let parentNode := nodes heap !!! N.to_nat parent in
      let leftChild := HeapLeftChild parent in
      let rightChild := HeapRightChild parent in
      let '(best, bestNode) := (parent, parentNode) in
      (* check if left child better than parent *)
      let '(best, bestNode) :=
        if (leftChild <? numNodes heap)
           && better (nodes heap !!! N.to_nat leftChild) parentNode
        then (leftChild, nodes heap !!! N.to_nat leftChild)
        else (best, bestNode) in
      (* check if right child better than best so far *)
      let '(best, bestNode) :=
        if (rightChild <? numNodes heap)
           && better (nodes heap !!! N.to_nat rightChild) bestNode
        then (rightChild, nodes heap !!! N.to_nat rightChild)
        else (best, bestNode) in
      (* if child better than parent, then swap *)
      if negb (parent =? best)
      then
        HeapifyMatchHeap_loop todo best
          (mkMatchHeap (heapSize heap) (numNodes heap)
             (<[N.to_nat best := parentNode]>
                (<[N.to_nat parent := bestNode]> (nodes heap))))
      else heap
  end.

Definition HeapifyMatchHeap (heap : MatchHeap) : MatchHeap :=
  HeapifyMatchHeap_loop (N.to_nat (numNodes heap)) 0 heap.

(** [ExtractMatchHeapNode] returns the heap and the node that it
    copies the best node to. *)
Definition ExtractMatchHeapNode (heap : MatchHeap) : MatchHeap * MatchHeapNode :=
  (* copy best node to input storage node *)
  let node := nodes heap !!! 0%nat in
  (* copy last node in heap array to first *)
  let i := usub (numNodes heap) 1 in
  let heap :=
    mkMatchHeap (heapSize heap) (usub (numNodes heap) 1)
                (<[0%nat := nodes heap !!! N.to_nat i]> (nodes heap)) in
  (HeapifyMatchHeap heap, node).

(** [MergeMatchHeaps] returns [heap1], emptied, and [heap2]. *)
Definition MergeMatchHeaps (heap1 heap2 : MatchHeap) : MatchHeap * MatchHeap :=
  let '(heap1, heap2) :=
    ULONG_for (numNodes heap1)
      (λ i '(heap1, heap2),
         let node := nodes heap1 !!! N.to_nat i in
         let heap2 := InsertMatchHeapNode node heap2 in
         (mkMatchHeap (heapSize heap1) (numNodes heap1)
            (<[N.to_nat i := mkMatchHeapNode (depth node) (cost node) None]>
               (nodes heap1)),
          heap2))
      (heap1, heap2) in
  (mkMatchHeap (heapSize heap1) 0 (nodes heap1), heap2).

Definition ClearMatchHeap (heap : MatchHeap) : MatchHeap :=
  mkMatchHeap (heapSize heap) 0 (nodes heap).

(** *** The order of the nodes *)

Lemma better_spec a b :
  better a b = true
  ↔ (cost a < cost b)%R ∨ (cost a = cost b ∧ depth b < depth a).
Proof.
  unfold better, dlt, deq.
  rewrite orb_true_iff, andb_true_iff, !bool_decide_eq_true, N.ltb_lt. done.
Qed.

Lemma better_irrefl a : better a a = false.
Proof.
  apply not_true_iff_false. rewrite better_spec. intros [H|[_ H]]; [lra | lia].
Qed.

Lemma better_trans a b c : better a b = true → better b c = true → better a c = true.
Proof.
  rewrite !better_spec. intros [H1|[H1 H1']] [H2|[H2 H2']].
  - left. lra.
  - left. lra.
  - left. lra.
  - right. split; [congruence | lia].
Qed.

Lemma better_asym a b : better a b = true → better b a = false.
Proof.
  intros H. apply not_true_iff_false. intros H'.
  pose proof (better_trans a b a H H') as E. by rewrite better_irrefl in E.
Qed.

(** [b] is not better than [a]: a total preorder. *)
Lemma not_better_trans a b c :
  better b a = false → better c b = false → better c a = false.
Proof.
  intros H1 H2. apply not_true_iff_false. apply not_true_iff_false in H1, H2.
  rewrite better_spec in *.
  destruct (Rtotal_order (cost a) (cost b)) as [Hab|[Hab|Hab]];
    destruct (Rtotal_order (cost b) (cost c)) as [Hbc|[Hbc|Hbc]];
    intros [H|[H H']]; try lra;
    try (apply H1; left; lra); try (apply H2; left; lra).
  destruct (N.lt_ge_cases (depth b) (depth c)) as [Hd|Hd].
  - apply H2. right. split; [lra | done].
  - apply H1. right. split; [lra | lia].
Qed.

Lemma better_not_better a b c :
  better a b = true → better c b = false → better c a = false.
Proof.
  intros H1 H2. apply (not_better_trans a b c); [by apply better_asym | done].
Qed.

(** *** The heap property *)

Definition parent_index (j : nat) : nat := ((j - 1) / 2)%nat.

(** Among the first [n] nodes no node is better than its parent. *)
Definition heap_ordered (n : nat) (l : list MatchHeapNode) : Prop :=
  ∀ j, (0 < j < n)%nat → better (l !!! j) (l !!! parent_index j) = false.

Lemma parent_index_lt j : (0 < j)%nat → (parent_index j < j)%nat.
Proof. intros H. unfold parent_index. apply Nat.Div0.div_lt_upper_bound. lia. Qed.

Lemma parent_index_le j : (parent_index j ≤ j)%nat.
Proof.
  destruct (decide (j = 0%nat)) as [->|H]; [done|].
  pose proof (parent_index_lt j). lia.
Qed.

Lemma parent_index_children j p :
  (0 < j)%nat → parent_index j = p ↔ j = (2 * p + 1)%nat ∨ j = (2 * p + 2)%nat.
Proof.
  intros Hj. unfold parent_index. split.
  - intros <-. pose proof (Nat.div_mod_eq (j - 1) 2) as E.
    pose proof (Nat.mod_upper_bound (j - 1) 2). lia.
  - intros [-> | ->].
    + replace (2 * p + 1 - 1)%nat with (p * 2)%nat by lia. by rewrite Nat.div_mul.
    + replace (2 * p + 2 - 1)%nat with (1 + p * 2)%nat by lia.
      rewrite Nat.div_add by done. done.
Qed.

Definition swap_nodes (l : list MatchHeapNode) (i p : nat) : list MatchHeapNode :=
  <[p := l !!! i]> (<[i := l !!! p]> l).

Lemma swap_nodes_lookup l i p j :
  (i < length l)%nat → (p < length l)%nat →
  swap_nodes l i p !!! j
  = if decide (j = p) then l !!! i else if decide (j = i) then l !!! p else l !!! j.
Proof.
  intros Hi Hp. unfold swap_nodes.
  destruct (decide (j = p)) as [->|Hjp].
  - rewrite list_lookup_total_insert_eq; [done|]. by rewrite length_insert.
  - rewrite list_lookup_total_insert_ne by done.
    destruct (decide (j = i)) as [->|Hji].
    + by rewrite list_lookup_total_insert_eq.
    + by rewrite list_lookup_total_insert_ne.
Qed.

Lemma swap_nodes_length l i p : length (swap_nodes l i p) = length l.
Proof. unfold swap_nodes. by rewrite !length_insert. Qed.

Lemma swap_nodes_take l i p n :
  (i < n)%nat → (p < n)%nat → (n ≤ length l)%nat →
  take n (swap_nodes l i p) ≡ₚ take n l.
Proof.
  intros Hi Hp Hn. unfold swap_nodes.
  rewrite !take_insert_lt by done.
  apply Permutation_insert_swap.
  - rewrite lookup_take_lt by done. apply list_lookup_lookup_total_lt. lia.
  - rewrite lookup_take_lt by done. apply list_lookup_lookup_total_lt. lia.
Qed.

Lemma swap_nodes_drop l i p n :
  (i < n)%nat → (p < n)%nat → drop n (swap_nodes l i p) = drop n l.
Proof. intros Hi Hp. unfold swap_nodes. by rewrite !drop_insert_lt by lia. Qed.

(** Moving a node up: the order holds except between [i] and its
    parent, and the children of [i] are not better than the parent of
    [i]. *)
Definition up_inv (n : nat) (l : list MatchHeapNode) (i : nat) : Prop :=
  (∀ j, (0 < j < n)%nat → j ≠ i → better (l !!! j) (l !!! parent_index j) = false)
  ∧ (∀ j, (0 < j < n)%nat → parent_index j = i → (0 < i)%nat →
       better (l !!! j) (l !!! parent_index i) = false).

Lemma up_inv_done n l i :
  up_inv n l i →
  i = 0%nat ∨ better (l !!! i) (l !!! parent_index i) = false →
  heap_ordered n l.
Proof.
  intros [H1 H2] Hi j Hj. destruct (decide (j = i)) as [->|Hne]; [|by apply H1].
  destruct Hi as [->|Hi]; [lia | done].
Qed.

Lemma up_inv_step n l i :
  (0 < i < n)%nat → (n ≤ length l)%nat →
  up_inv n l i →
  better (l !!! i) (l !!! parent_index i) = true →
  up_inv n (swap_nodes l i (parent_index i)) (parent_index i).
Proof.
  intros Hi Hn [H1 H2] Hb. set (p := parent_index i).
  assert (Hp : (p < i)%nat) by (apply parent_index_lt; lia).
  assert (Hsw : ∀ j, swap_nodes l i p !!! j
                = if decide (j = p) then l !!! i
                  else if decide (j = i) then l !!! p else l !!! j)
    by (intros j; apply swap_nodes_lookup; lia).
  split.
  - intros j Hj Hjp. rewrite !Hsw. rewrite decide_False by done.
    assert (Hpj : (parent_index j < j)%nat)
      by (apply parent_index_lt; lia).
    destruct (decide (j = i)) as [->|Hji].
    + fold p. rewrite decide_True by done. by apply better_asym.
    + destruct (decide (parent_index j = p)) as [Hpp|Hpp].
      * apply (better_not_better _ (l !!! p)); [done|].
        rewrite <- Hpp. by apply H1.
      * destruct (decide (parent_index j = i)) as [Hpi|Hpi].
        -- apply H2; [done | done | lia].
        -- by apply H1.
  - intros j Hj Hpj Hp0. rewrite !Hsw.
    assert (Hpp : (parent_index p < p)%nat)
      by (apply parent_index_lt; lia).
    rewrite (decide_False (P := parent_index p = p)) by lia.
    rewrite (decide_False (P := parent_index p = i)) by lia.
    rewrite (decide_False (P := j = p)).
    2:{ intros ->. pose proof (parent_index_le p). lia. }
    assert (Hpl : better (l !!! p) (l !!! parent_index p) = false)
      by (apply H1; lia).
    destruct (decide (j = i)) as [->|Hji]; [done|].
    apply (not_better_trans _ (l !!! p)); [done|].
    rewrite <- Hpj. by apply H1.
Qed.

(** Moving a node down: the order holds except between [p] and its
    children, and the children of [p] are not better than the parent
    of [p]. *)
Definition down_inv (n : nat) (l : list MatchHeapNode) (p : nat) : Prop :=
  (∀ j, (0 < j < n)%nat → parent_index j ≠ p →
     better (l !!! j) (l !!! parent_index j) = false)
  ∧ (∀ j, (0 < j < n)%nat → parent_index j = p → (0 < p)%nat →
       better (l !!! j) (l !!! parent_index p) = false).

Lemma down_inv_done n l p :
  down_inv n l p →
  (∀ j, (0 < j < n)%nat → parent_index j = p → better (l !!! j) (l !!! p) = false) →
  heap_ordered n l.
Proof.
  intros [H1 H2] Hc j Hj. destruct (decide (parent_index j = p)) as [E|Hne].
  - rewrite E. by apply Hc.
  - by apply H1.
Qed.

Lemma down_inv_step n l p best :
  (0 < best < n)%nat → (n ≤ length l)%nat →
  parent_index best = p →
  down_inv n l p →
  better (l !!! best) (l !!! p) = true →
  (∀ j, (0 < j < n)%nat → parent_index j = p → better (l !!! j) (l !!! best) = false) →
  down_inv n (swap_nodes l p best) best.
Proof.
  intros Hbest Hn Hpb [H1 H2] Hb Hc.
  assert (Hp : (p < best)%nat)
    by (subst p; apply parent_index_lt; lia).
  assert (Hsw : ∀ j, swap_nodes l p best !!! j
                = if decide (j = best) then l !!! p
                  else if decide (j = p) then l !!! best else l !!! j)
    by (intros j; apply swap_nodes_lookup; lia).
  split.
  - intros j Hj Hjb. rewrite !Hsw.
    assert (Hpj : (parent_index j < j)%nat)
      by (apply parent_index_lt; lia).
    rewrite (decide_False (P := parent_index j = best)) by done.
    destruct (decide (j = best)) as [->|Hjb'].
    + rewrite Hpb. rewrite decide_True by done. by apply better_asym.
    + destruct (decide (j = p)) as [->|Hjp].
      * rewrite (decide_False (P := parent_index p = p)) by lia.
        apply H2; [lia | done | lia].
      * destruct (decide (parent_index j = p)) as [Hpp|Hpp].
        -- by apply Hc.
        -- by apply H1.
  - intros j Hj Hpj Hb0. rewrite !Hsw.
    assert (Hjb : (best < j)%nat)
      by (rewrite <- Hpj; apply parent_index_lt; lia).
    rewrite (decide_False (P := j = best)) by lia.
    rewrite (decide_False (P := j = p)) by lia.
    rewrite Hpb. rewrite (decide_False (P := p = best)) by lia.
    rewrite decide_True by done.
    pose proof (H1 j Hj ltac:(lia)) as H. by rewrite Hpj in H.
Qed.

(** In an ordered heap no node is better than the first. *)
Lemma heap_ordered_root n l :
  heap_ordered n l → ∀ j, (j < n)%nat → better (l !!! j) (l !!! 0%nat) = false.
Proof.
  intros Ho j. induction j as [j IH] using lt_wf_ind. intros Hj.
  destruct (decide (j = 0%nat)) as [->|Hne]; [apply better_irrefl|].
  assert (Hp : (parent_index j < j)%nat)
    by (apply parent_index_lt; lia).
  apply (not_better_trans _ (l !!! parent_index j)).
  - apply IH; lia.
  - apply Ho. lia.
Qed.

(** *** Insertion and extraction keep the heap *)

(** The array has [heapSize] slots, which is not 0, and holds the
    nodes of the heap. *)
Definition heap_wf (heap : MatchHeap) : Prop :=
  heapSize heap = N.of_nat (length (nodes heap))
  ∧ numNodes heap ≤ heapSize heap
  ∧ 0 < heapSize heap.

(** The nodes of the heap, in the order of the array. *)
Definition contents (heap : MatchHeap) : list MatchHeapNode :=
  take (N.to_nat (numNodes heap)) (nodes heap).

Definition heap_ok (heap : MatchHeap) : Prop :=
  heap_wf heap ∧ heap_ordered (N.to_nat (numNodes heap)) (nodes heap).

Lemma HeapParent_index (i : ULONG) :
  0 < i < ULONG_MODULUS → N.to_nat (HeapParent i) = parent_index (N.to_nat i).
Proof.
  intros Hi. unfold HeapParent, parent_index. rewrite usub_small by lia.
  rewrite N2Nat.inj_div, N2Nat.inj_sub. reflexivity.
Qed.

Lemma HeapLeftChild_index (i : ULONG) :
  2 * i + 2 < ULONG_MODULUS → HeapLeftChild i = 2 * i + 1.
Proof.
  intros Hi. unfold HeapLeftChild, umul. rewrite N.mod_small by lia.
  apply uadd_small. lia.
Qed.

Lemma HeapRightChild_index (i : ULONG) :
  2 * i + 2 < ULONG_MODULUS → HeapRightChild i = 2 * i + 2.
Proof.
  intros Hi. unfold HeapRightChild, umul. rewrite N.mod_small by lia.
  apply uadd_small. lia.
Qed.

Lemma InsertMatchHeapNode_loop_spec node todo (i : ULONG) nodes (n : nat) :
  (N.to_nat i < n ≤ length nodes)%nat →
  i < ULONG_MODULUS →
  (N.to_nat i ≤ todo)%nat →
  up_inv n (<[N.to_nat i := node]> nodes) (N.to_nat i) →
  let r := InsertMatchHeapNode_loop node todo i nodes in
  heap_ordered n (<[N.to_nat r.1 := node]> r.2)
  ∧ take n (<[N.to_nat r.1 := node]> r.2) ≡ₚ take n (<[N.to_nat i := node]> nodes)
  ∧ length r.2 = length nodes.
Proof.
  revert i nodes. induction todo as [|todo IH]; intros i nodes Hi Hb Hfuel Hinv;
    cbn [InsertMatchHeapNode_loop]; cbv zeta.
  - cbn [fst snd]. split; [|done]. apply (up_inv_done _ _ _ Hinv). left. lia.
  - destruct (N.ltb_spec 0 i) as [H0|H0]; cbn [fst snd].
    2:{ split; [|done]. apply (up_inv_done _ _ _ Hinv). left. lia. }
    pose proof (HeapParent_index i ltac:(lia)) as Hpar.
    pose proof (parent_index_lt (N.to_nat i) ltac:(lia)) as Hplt.
    set (V := <[N.to_nat i := node]> nodes) in *.
    assert (HVi : V !!! N.to_nat i = node)
      by (unfold V; apply list_lookup_total_insert_eq; lia).
    assert (HVp : V !!! N.to_nat (HeapParent i) = nodes !!! N.to_nat (HeapParent i))
      by (unfold V; apply list_lookup_total_insert_ne; lia).
    set (node2 := nodes !!! N.to_nat (HeapParent i)) in *.
    assert (E' : better (V !!! N.to_nat i) (V !!! parent_index (N.to_nat i))
                 = better node node2) by (by rewrite HVi, <- Hpar, HVp).
    destruct (better node node2) eqn:E; cbn [fst snd].
    + assert (Hsw : <[parent_index (N.to_nat i) := node]>
                      (<[N.to_nat i := node2]> nodes)
                    = swap_nodes V (N.to_nat i) (parent_index (N.to_nat i))).
      { unfold swap_nodes. rewrite HVi, <- Hpar, HVp. f_equal. unfold V.
        by rewrite list_insert_insert_eq. }
      destruct (IH (HeapParent i) (<[N.to_nat i := node2]> nodes))
        as (H1 & H2 & H3).
      * rewrite Hpar, length_insert. lia.
      * unfold HeapParent. rewrite usub_small by lia.
        apply (N.le_lt_trans _ (i - 1)); [apply N.Div0.div_le_upper_bound; lia | lia].
      * rewrite Hpar. lia.
      * rewrite Hpar, Hsw. apply up_inv_step; [lia | | done | done].
        unfold V. rewrite length_insert. lia.
      * cbv zeta in *. split; [done|]. split; [|by rewrite H3, length_insert].
        rewrite H2, Hpar, Hsw. apply swap_nodes_take; [lia | lia |].
        unfold V. rewrite length_insert. lia.
    + split; [|done]. apply (up_inv_done _ _ _ Hinv). right. by rewrite E'.
Qed.

Lemma InsertMatchHeapNode_spec node heap :
  heap_ok heap →
  2 * heapSize heap < ULONG_MODULUS →
  let r := InsertMatchHeapNode node heap in
  heap_ok r
  ∧ contents r ≡ₚ node :: contents heap
  ∧ numNodes r = numNodes heap + 1.
Proof.
  intros [(Hsize & Hnum & Hpos) Hord] Hb. cbv zeta. unfold InsertMatchHeapNode.
  assert (Hu : uadd (numNodes heap) 1 = numNodes heap + 1) by (apply uadd_small; lia).
  rewrite Hu. rewrite usub_small by lia.
  replace (numNodes heap + 1 - 1) with (numNodes heap) by lia.
  set (n := numNodes heap) in *.
  set (grown := if heapSize heap <? n + 1 then _ else _).
  assert (Hg : grown.1 = N.of_nat (length grown.2)
               ∧ n + 1 ≤ grown.1
               ∧ take (N.to_nat n) grown.2 = take (N.to_nat n) (nodes heap)).
  { unfold grown. destruct (N.ltb_spec (heapSize heap) (n + 1)) as [Hlt|Hge]; cbn [fst snd].
    - unfold umul. rewrite N.mod_small by lia.
      rewrite length_resize. split; [lia|]. split; [lia|].
      rewrite resize_ge by lia. rewrite take_app_le by lia. done.
    - done. }
  destruct grown as [size slots]. cbn [fst snd] in Hg. destruct Hg as (Hs & Hn & Htake).
  assert (Hlook : ∀ j, (j < N.to_nat n)%nat → slots !!! j = nodes heap !!! j).
  { intros j Hj.
    rewrite <- (lookup_total_take_lt slots (N.to_nat n) j) by lia.
    rewrite Htake. apply lookup_total_take_lt. lia. }
  pose proof (InsertMatchHeapNode_loop_spec node (N.to_nat (n + 1)) n slots
                (N.to_nat (n + 1))) as Hloop.
  destruct Hloop as (H1 & H2 & H3); [lia | lia | lia | |].
  { split.
    - intros j Hj Hne. rewrite !list_lookup_total_insert_ne.
      + rewrite !Hlook.
        * apply Hord. lia.
        * pose proof (parent_index_le j). lia.
        * lia.
      + pose proof (parent_index_le j). lia.
      + lia.
    - intros j Hj Hp H0. pose proof (parent_index_lt j ltac:(lia)). lia. }
  cbv zeta in *.
  destruct (InsertMatchHeapNode_loop node (N.to_nat (n + 1)) n slots) as [i slots'].
  cbn [fst snd] in *. unfold heap_ok, heap_wf, contents. cbn [heapSize numNodes nodes].
  split; [split; [|done]|split; [|done]].
  - rewrite length_insert, H3. split; [done|]. split; lia.
  - rewrite H2. replace (N.to_nat (n + 1)) with (S (N.to_nat n)) by lia.
    rewrite (take_S_r _ _ node).
    + rewrite take_insert_ge by lia. rewrite Htake.
      symmetry. apply Permutation_cons_append.
    + apply list_lookup_insert_eq. lia.
Qed.

Lemma HeapifyMatchHeap_loop_spec todo (p : ULONG) heap :
  (N.to_nat (numNodes heap) ≤ length (nodes heap))%nat →
  2 * numNodes heap + 2 < ULONG_MODULUS →
  p < numNodes heap →
  (N.to_nat (numNodes heap) - N.to_nat p ≤ todo)%nat →
  down_inv (N.to_nat (numNodes heap)) (nodes heap) (N.to_nat p) →
  let r := HeapifyMatchHeap_loop todo p heap in
  heap_ordered (N.to_nat (numNodes heap)) (nodes r)
  ∧ take (N.to_nat (numNodes heap)) (nodes r)
    ≡ₚ take (N.to_nat (numNodes heap)) (nodes heap)
  ∧ numNodes r = numNodes heap
  ∧ heapSize r = heapSize heap
  ∧ length (nodes r) = length (nodes heap).
Proof.
  revert p heap. induction todo as [|todo IH]; intros p heap Hlen Hb Hp Hfuel Hinv;
    [lia|].
  cbn [HeapifyMatchHeap_loop]. cbv zeta.
  rewrite HeapLeftChild_index, HeapRightChild_index by lia.
  set (n := numNodes heap) in *. set (l := nodes heap) in *.
  assert (HparL : parent_index (N.to_nat (2 * p + 1)) = N.to_nat p)
    by (apply parent_index_children; lia).
  assert (HparR : parent_index (N.to_nat (2 * p + 2)) = N.to_nat p)
    by (apply parent_index_children; lia).
  assert (Hchildren : ∀ j, (0 < j < N.to_nat n)%nat → parent_index j = N.to_nat p →
            j = N.to_nat (2 * p + 1) ∨ j = N.to_nat (2 * p + 2)).
  { intros j Hj Hpj. apply parent_index_children in Hpj; lia. }
  assert (Hswap : ∀ best : ULONG,
    p < best < n →
    parent_index (N.to_nat best) = N.to_nat p →
    better (l !!! N.to_nat best) (l !!! N.to_nat p) = true →
    (∀ j, (0 < j < N.to_nat n)%nat → parent_index j = N.to_nat p →
          better (l !!! j) (l !!! N.to_nat best) = false) →
    let r := HeapifyMatchHeap_loop todo best
               (mkMatchHeap (heapSize heap) n
                  (<[N.to_nat best := l !!! N.to_nat p]>
                     (<[N.to_nat p := l !!! N.to_nat best]> l))) in
    heap_ordered (N.to_nat n) (nodes r)
    ∧ take (N.to_nat n) (nodes r) ≡ₚ take (N.to_nat n) l
    ∧ numNodes r = n ∧ heapSize r = heapSize heap ∧ length (nodes r) = length l).
  { intros best Hbest Hpb Hbetter Hc.
    change (<[N.to_nat best := l !!! N.to_nat p]>
              (<[N.to_nat p := l !!! N.to_nat best]> l))
      with (swap_nodes l (N.to_nat p) (N.to_nat best)).
    destruct (IH best (mkMatchHeap (heapSize heap) n
                         (swap_nodes l (N.to_nat p) (N.to_nat best))))
      as (H1 & H2 & H3 & H4 & H5); cbn [numNodes nodes heapSize].
    - rewrite swap_nodes_length. done.
    - done.
    - lia.
    - lia.
    - apply down_inv_step; [lia | done | done | done | done | done].
    - cbn [numNodes nodes heapSize] in *. cbv zeta.
      split; [done|]. split; [|split; [done|split; [done|]]].
      + rewrite H2. apply swap_nodes_take; [lia | lia | done].
      + by rewrite H5, swap_nodes_length. }
  destruct ((2 * p + 1 <? n) && better (l !!! N.to_nat (2 * p + 1)) (l !!! N.to_nat p))
    eqn:EL.
  - apply andb_true_iff in EL as [EL1 EL2]. apply N.ltb_lt in EL1.
    destruct ((2 * p + 2 <? n)
              && better (l !!! N.to_nat (2 * p + 2)) (l !!! N.to_nat (2 * p + 1)))
      eqn:ER.
    + apply andb_true_iff in ER as [ER1 ER2]. apply N.ltb_lt in ER1.
      destruct (N.eqb_spec p (2 * p + 2)) as [E|_]; [lia|]. cbn [negb].
      apply Hswap; [lia | done | by apply (better_trans _ (l !!! N.to_nat (2 * p + 1)))|].
      intros j Hj Hpj. destruct (Hchildren j Hj Hpj) as [-> | ->].
      * by apply better_asym.
      * apply better_irrefl.
    + destruct (N.eqb_spec p (2 * p + 1)) as [E|_]; [lia|]. cbn [negb].
      apply Hswap; [lia | done | done |].
      intros j Hj Hpj. destruct (Hchildren j Hj Hpj) as [-> | ->].
      * apply better_irrefl.
      * apply andb_false_iff in ER as [ER|ER]; [|done]. apply N.ltb_ge in ER. lia.
  - destruct ((2 * p + 2 <? n)
              && better (l !!! N.to_nat (2 * p + 2)) (l !!! N.to_nat p)) eqn:ER.
    + apply andb_true_iff in ER as [ER1 ER2]. apply N.ltb_lt in ER1.
      destruct (N.eqb_spec p (2 * p + 2)) as [E|_]; [lia|]. cbn [negb].
      apply Hswap; [lia | done | done |].
      intros j Hj Hpj. destruct (Hchildren j Hj Hpj) as [-> | ->].
      * apply (better_not_better _ (l !!! N.to_nat p)); [done|].
        apply andb_false_iff in EL as [EL|EL]; [|done]. apply N.ltb_ge in EL. lia.
      * apply better_irrefl.
    + rewrite N.eqb_refl. cbn [negb]. fold l. fold n.
      split; [|done]. apply (down_inv_done _ _ _ Hinv).
      intros j Hj Hpj. destruct (Hchildren j Hj Hpj) as [-> | ->].
      * apply andb_false_iff in EL as [EL|EL]; [|done]. apply N.ltb_ge in EL. lia.
      * apply andb_false_iff in ER as [ER|ER]; [|done]. apply N.ltb_ge in ER. lia.
Qed.

(** X12.  [InsertMatchHeapNode] keeps the heap: after the insertion no
    node among the [numNodes] first is better (less cost, or the same
    cost and more depth) than its parent, the nodes are those of the
    heap before and the new node, and the array has room for them. *)
Theorem InsertMatchHeapNode_heap node heap :
  heap_ok heap →
  2 * heapSize heap < ULONG_MODULUS →
  let r := InsertMatchHeapNode node heap in
  heap_ok r
  ∧ contents r ≡ₚ node :: contents heap
  ∧ numNodes r = numNodes heap + 1.
Proof. apply InsertMatchHeapNode_spec. Qed.

(** X13.  [ExtractMatchHeapNode] on a heap that is not empty returns a
    best node: no node of the heap is better than the node returned.
    What is left is a heap, with the other nodes. *)
Theorem ExtractMatchHeapNode_best heap :
  heap_ok heap →
  0 < numNodes heap →
  2 * numNodes heap < ULONG_MODULUS →
  let r := ExtractMatchHeapNode heap in
  heap_ok r.1
  ∧ contents heap ≡ₚ r.2 :: contents r.1
  ∧ (∀ node, node ∈ contents heap → better node r.2 = false)
  ∧ numNodes r.1 = numNodes heap - 1.
Proof.
  intros [(Hsize & Hnum & Hpos) Hord] Hn Hb. cbv zeta. unfold ExtractMatchHeapNode.
  cbn [fst snd]. rewrite usub_small by lia.
  set (n := numNodes heap) in *. set (l := nodes heap) in *.
  assert (Hbest : ∀ node, node ∈ contents heap → better node (l !!! 0%nat) = false).
  { intros node Hin. unfold contents in Hin. fold n l in Hin.
    apply elem_of_take in Hin as (j & Hj & Hlt).
    apply list_lookup_total_correct in Hj. subst node.
    by apply (heap_ordered_root (N.to_nat n)). }
  assert (Hcontents : contents heap
                      ≡ₚ l !!! 0%nat
                         :: take (N.to_nat (n - 1)) (<[0%nat := l !!! N.to_nat (n - 1)]> l)).
  { unfold contents. fold n l.
    replace (N.to_nat n) with (S (N.to_nat (n - 1))) by lia.
    rewrite (take_S_r _ _ (l !!! N.to_nat (n - 1)))
      by (apply list_lookup_lookup_total_lt; lia).
    destruct (N.to_nat (n - 1)) as [|k] eqn:Ek.
    - done.
    - rewrite take_insert_lt by lia.
      destruct l as [|x l']; [cbn in Hsize; lia|]. cbn.
      apply perm_skip. symmetry. apply Permutation_cons_append. }
  unfold HeapifyMatchHeap. cbn [numNodes].
  destruct (decide (n = 1)) as [E1|Hne].
  - rewrite E1 in *. change (N.to_nat (1 - 1)) with 0%nat in *.
    change (1 - 1) with 0 in *. cbn [HeapifyMatchHeap_loop].
    unfold heap_ok, heap_wf, contents at 2. cbn [heapSize numNodes nodes].
    rewrite length_insert. fold l. change (N.to_nat 0) with 0%nat.
    split; [|done]. split; [split; [done|lia]|]. intros j Hj. lia.
  - pose proof (HeapifyMatchHeap_loop_spec (N.to_nat (n - 1)) 0
                  (mkMatchHeap (heapSize heap) (n - 1)
                     (<[0%nat := l !!! N.to_nat (n - 1)]> l))) as H.
    cbn [numNodes nodes heapSize] in H. rewrite length_insert in H.
    destruct H as (H1 & H2 & H3 & H4 & H5); [lia | lia | lia | lia | |].
    { split.
      - intros j Hj Hpj. change (N.to_nat 0) with 0%nat in Hpj.
        rewrite !list_lookup_total_insert_ne by lia. apply Hord. lia.
      - intros j Hj Hpj H0. change (N.to_nat 0) with 0%nat in H0. lia. }
    cbv zeta in *. unfold heap_ok, heap_wf, contents. rewrite H3, H4, H5.
    split; [split; [split; [done|lia]|done]|].
    split; [by rewrite H2|]. done.
Qed.

Lemma InsertMatchHeapNode_size node heap :
  heap_wf heap →
  2 * heapSize heap < ULONG_MODULUS →
  heapSize (InsertMatchHeapNode node heap)
  ≤ N.max (heapSize heap) (2 * numNodes heap).
Proof.
  intros (Hsize & Hnum & Hpos) Hb. unfold InsertMatchHeapNode.
  rewrite (uadd_small (numNodes heap) 1) by lia.
  destruct (N.ltb_spec (heapSize heap) (numNodes heap + 1)) as [Hlt|Hge].
  - destruct (InsertMatchHeapNode_loop _ _ _ _) as [i slots]. cbn [heapSize].
    unfold umul. rewrite N.mod_small by lia. lia.
  - destruct (InsertMatchHeapNode_loop _ _ _ _) as [i slots]. cbn [heapSize]. lia.
Qed.

(** The state of the loop of [MergeMatchHeaps] after [i] rounds. *)
Record merge_inv (heap1 heap2 : MatchHeap) (i : nat) (st : MatchHeap * MatchHeap)
    : Prop := {
  mi_num1 : numNodes st.1 = numNodes heap1;
  mi_size1 : heapSize st.1 = heapSize heap1;
  mi_len1 : length (nodes st.1) = length (nodes heap1);
  mi_todo : ∀ j, (i ≤ j)%nat → nodes st.1 !!! j = nodes heap1 !!! j;
  mi_ok : heap_ok st.2;
  mi_contents : contents st.2 ≡ₚ take i (nodes heap1) ++ contents heap2;
  mi_num2 : numNodes st.2 = numNodes heap2 + N.of_nat i;
  mi_size2 : heapSize st.2 ≤ N.max (heapSize heap2) (2 * numNodes st.2)
}.

(** X14.  [MergeMatchHeaps] moves the nodes of [heap1] to [heap2]:
    afterwards [heap2] is a heap that holds its nodes and those of
    [heap1], and [heap1] is empty. *)
Theorem MergeMatchHeaps_heap heap1 heap2 :
  (N.to_nat (numNodes heap1) ≤ length (nodes heap1))%nat →
  heap_ok heap2 →
  2 * heapSize heap2 < ULONG_MODULUS →
  4 * (numNodes heap1 + numNodes heap2) < ULONG_MODULUS →
  let r := MergeMatchHeaps heap1 heap2 in
  heap_ok r.2
  ∧ contents r.2 ≡ₚ contents heap1 ++ contents heap2
  ∧ numNodes r.2 = numNodes heap1 + numNodes heap2
  ∧ MatchHeapEmpty r.1 = true.
Proof.
  intros Hlen Hok Hb2 Hb. cbv zeta. unfold MergeMatchHeaps.
  match goal with |- context [ULONG_for ?n ?body ?s] =>
    pose proof (ULONG_for_ind (merge_inv heap1 heap2) n body s) as H
  end.
  destruct H as [H1 H2 H3 H4 H5 H6 H7 H8].
  - split; cbn [fst snd]; try done.
    + lia.
    + lia.
  - intros i [h1 h2] Hi [H1 H2 H3 H4 H5 H6 H7 H8]. cbn [fst snd] in *.
    rewrite Nat2N.id.
    set (node := nodes h1 !!! i).
    assert (Hsz : 2 * heapSize h2 < ULONG_MODULUS) by lia.
    destruct (InsertMatchHeapNode_spec node h2 H5 Hsz) as (Hok' & Hc' & Hn').
    pose proof (InsertMatchHeapNode_size node h2 (proj1 H5) Hsz) as Hs'.
    cbv zeta in *. split; cbn [fst snd numNodes heapSize nodes].
    + done.
    + done.
    + by rewrite length_insert.
    + intros j Hj. rewrite list_lookup_total_insert_ne by lia. apply H4. lia.
    + done.
    + rewrite Hc', H6. unfold node. rewrite (H4 i) by lia.
      rewrite (take_S_r _ _ (nodes heap1 !!! i))
        by (apply list_lookup_lookup_total_lt; lia).
      rewrite <- app_assoc. cbn. rewrite <- Permutation_middle. done.
    + lia.
    + lia.
  - destruct (ULONG_for (numNodes heap1) _ (heap1, heap2)) as [h1 h2].
    cbn [fst snd numNodes] in *. split; [done|]. split; [done|]. split; [lia | done].
Qed.

(** *** The theorems at work *)

(** A heap of two nodes of depth 1 and costs 0 and 1. *)
Definition example_heap : MatchHeap :=
  mkMatchHeap 2 2 [mkMatchHeapNode 1 0%R None; mkMatchHeapNode 1 1%R None].

Lemma example_heap_ok : heap_ok example_heap.
Proof.
  split; [split; [reflexivity | split; [cbn; lia | reflexivity]]|].
  intros j Hj. cbn in Hj. assert (j = 1%nat) as -> by lia. cbn.
  apply not_true_iff_false. rewrite better_spec. cbn. intros [H|[H _]]; lra.
Qed.

Lemma AllocateMatchHeap_ok size : 0 < size → heap_ok (AllocateMatchHeap size).
Proof.
  intros H. split; [split; [|split; [cbn; lia | done]]|].
  - cbn. rewrite length_replicate. lia.
  - intros j Hj. cbn in Hj. lia.
Qed.

Lemma InsertMatchHeapNode_heap_witness :
  let node := mkMatchHeapNode 2 0%R None in
  let r := InsertMatchHeapNode node example_heap in
  heap_ok r
  ∧ contents r ≡ₚ node :: contents example_heap
  ∧ numNodes r = numNodes example_heap + 1.
Proof.
  apply (InsertMatchHeapNode_heap (mkMatchHeapNode 2 0%R None) example_heap).
  - exact example_heap_ok.
  - reflexivity.
Defined.

Lemma ExtractMatchHeapNode_best_witness :
  let r := ExtractMatchHeapNode example_heap in
  heap_ok r.1
  ∧ contents example_heap ≡ₚ r.2 :: contents r.1
  ∧ (∀ node, node ∈ contents example_heap → better node r.2 = false)
  ∧ numNodes r.1 = numNodes example_heap - 1.
Proof.
  apply (ExtractMatchHeapNode_best example_heap).
  - exact example_heap_ok.
  - reflexivity.
  - reflexivity.
Defined.

Lemma MergeMatchHeaps_heap_witness :
  let r := MergeMatchHeaps example_heap (AllocateMatchHeap 1) in
  heap_ok r.2
  ∧ contents r.2 ≡ₚ contents example_heap ++ contents (AllocateMatchHeap 1)
  ∧ numNodes r.2 = numNodes example_heap + numNodes (AllocateMatchHeap 1)
  ∧ MatchHeapEmpty r.1 = true.
Proof.
  apply (MergeMatchHeaps_heap example_heap (AllocateMatchHeap 1)).
  - simpl. lia.
  - apply AllocateMatchHeap_ok. reflexivity.
  - reflexivity.
  - reflexivity.
Defined.

(** ** graphops.c: building a graph *)

(** [AddVertex]: the vertex array grows by [LIST_SIZE_INC] slots when
    it is full. *)
Definition AddVertex (graph : Graph) (labelIndex : ULONG) : Graph :=
  let graph :=
    if N.of_nat (length (vertices graph)) =? numVertices graph
    then set_vertices (vertices graph ++ replicate (N.to_nat LIST_SIZE_INC) dummyVertex)
                      graph
    else graph in
  let graph :=
    updV graph (numVertices graph)
         (λ _, mkVertex labelIndex [] VERTEX_UNMAPPED false) in
  set_numVertices (uadd (numVertices graph) 1) graph.

(** The endpoints of the edges are vertices of the graph, and the edge
    array of a vertex lists, in increasing order, the edges that have
    the vertex as an endpoint. *)
Record graph_consistent (g : Graph) : Prop := {
  gc_arrays : graph_arrays g;
  gc_endpoints : ∀ e, e < numEdges g →
    vertex1 (getE g e) < numVertices g ∧ vertex2 (getE g e) < numVertices g;
  gc_vedges : ∀ v e, v < numVertices g →
    e ∈ vedges (getV g v)
    ↔ e < numEdges g ∧ (vertex1 (getE g e) = v ∨ vertex2 (getE g e) = v);
  gc_increasing : ∀ v, v < numVertices g → increasing (vedges (getV g v))
}.

Lemma increasing_snoc l x : increasing l → (∀ y, y ∈ l → y < x) → increasing (l ++ [x]).
Proof.
  intros Hl Hx. apply StronglySorted_app_2; [|done|repeat constructor].
  intros y z Hy Hz. apply list_elem_of_singleton in Hz. subst. by apply Hx.
Qed.

Lemma numVertices_updV g i f : numVertices (updV g i f) = numVertices g.
Proof. done. Qed.

Lemma AllocateGraph_consistent : graph_consistent (AllocateGraph 0 0).
Proof. split; [by split | intros e He; cbn in He; lia | intros v e Hv; cbn in Hv; lia |
               intros v Hv; cbn in Hv; lia]. Qed.

Lemma AddVertex_spec graph labelIndex :
  graph_consistent graph →
  numVertices graph + 1 < ULONG_MODULUS →
  let r := AddVertex graph labelIndex in
  graph_consistent r
  ∧ numVertices r = numVertices graph + 1
  ∧ numEdges r = numEdges graph
  ∧ edges r = edges graph
  ∧ getV r (numVertices graph) = mkVertex labelIndex [] VERTEX_UNMAPPED false
  ∧ ∀ v, v < numVertices graph → getV r v = getV graph v.
Proof.
  intros [[Hnv Hne Hlv Hle] Hend Hved Hinc] Hb. cbv zeta. unfold AddVertex.
  set (g1 := if N.of_nat (length (vertices graph)) =? numVertices graph then _ else graph).
  assert (Hg1 : numVertices g1 = numVertices graph ∧ numEdges g1 = numEdges graph
                ∧ edges g1 = edges graph
                ∧ (N.to_nat (numVertices graph) < length (vertices g1))%nat
                ∧ ∀ v, v < numVertices graph → getV g1 v = getV graph v).
  { unfold g1. destruct (N.eqb_spec (N.of_nat (length (vertices graph))) (numVertices graph))
      as [E|E]; cbn.
    - rewrite length_app, length_replicate. unfold LIST_SIZE_INC.
      repeat split; try lia. intros v Hv. unfold getV. cbn.
      apply lookup_total_app_l. lia.
    - repeat split; first [lia | done]. }
  destruct Hg1 as (H1 & H2 & H3 & H4 & H5). rewrite numVertices_updV, H1.
  rewrite uadd_small by lia.
  set (g2 := updV g1 (numVertices graph) _).
  assert (Hnew : getV g2 (numVertices graph) = mkVertex labelIndex [] VERTEX_UNMAPPED false).
  { unfold g2. rewrite getV_updV by done. by rewrite decide_True. }
  assert (Hold : ∀ v, v < numVertices graph → getV g2 v = getV graph v).
  { intros v Hv. unfold g2. rewrite getV_updV by done.
    rewrite decide_False by lia. by apply H5. }
  assert (HgetV : ∀ v, getV (set_numVertices (numVertices graph + 1) g2) v = getV g2 v)
    by done.
  assert (HgetE : ∀ e, getE (set_numVertices (numVertices graph + 1) g2) e = getE graph e).
  { intros e. unfold getE. cbn. by rewrite H3. }
  split; [|split; [done|split; [done|split; [done|split; [done|]]]]].
  - split.
    + split; unfold g2, updV;
        cbn [numVertices numEdges vertices edges set_numVertices set_vertices];
        rewrite ?length_alter, ?H2, ?H3; lia.
    + intros e He. cbn in He. rewrite H2 in He. rewrite !HgetE. cbn.
      destruct (Hend e He). lia.
    + intros v e Hv. cbn in Hv. rewrite HgetV, HgetE. cbn [numEdges set_numVertices].
      change (numEdges g2) with (numEdges g1). rewrite H2.
      destruct (decide (v = numVertices graph)) as [->|Hne'].
      * rewrite Hnew. cbn. split; [intros H; by apply elem_of_nil in H|].
        intros [He [E|E]]; destruct (Hend e He); lia.
      * rewrite Hold by lia. apply Hved. lia.
    + intros v Hv. cbn in Hv. rewrite HgetV.
      destruct (decide (v = numVertices graph)) as [->|Hne'].
      * rewrite Hnew. cbn. constructor.
      * rewrite Hold by lia. apply Hinc. lia.
  - intros v Hv. rewrite HgetV. by apply Hold.
Qed.

Lemma AddEdge_spec graph source target directed labelIndex spansIncrement :
  graph_consistent graph →
  source < numVertices graph → target < numVertices graph →
  numEdges graph + 1 < ULONG_MODULUS →
  let r := AddEdge graph source target directed labelIndex spansIncrement in
  graph_consistent r
  ∧ numVertices r = numVertices graph
  ∧ numEdges r = numEdges graph + 1
  ∧ getE r (numEdges graph)
    = mkEdge source target labelIndex directed false spansIncrement true
  ∧ (∀ e, e < numEdges graph → getE r e = getE graph e)
  ∧ (∀ v, v < numVertices graph →
       vlabel (getV r v) = vlabel (getV graph v)
       ∧ vedges (getV r v)
         = vedges (getV graph v)
           ++ (if decide (v = source ∨ v = target) then [numEdges graph] else [])).
Proof.
  intros [[Hnv Hne Hlv Hle] Hend Hved Hinc] Hs Ht Hb. cbv zeta. unfold AddEdge.
  set (m := numEdges graph) in *.
  set (g1 := if N.of_nat (length (edges graph)) =? m then _ else graph).
  assert (Hg1 : numVertices g1 = numVertices graph ∧ numEdges g1 = m
                ∧ vertices g1 = vertices graph
                ∧ (N.to_nat m < length (edges g1))%nat
                ∧ ∀ e, e < m → getE g1 e = getE graph e).
  { unfold g1. destruct (N.eqb_spec (N.of_nat (length (edges graph))) m) as [E|E]; cbn.
    - rewrite length_app, length_replicate. unfold LIST_SIZE_INC.
      repeat split; try lia. intros e He. unfold getE. cbn.
      apply lookup_total_app_l. lia.
    - repeat split; first [lia | done]. }
  destruct Hg1 as (H1 & H2 & H3 & H4 & H5). rewrite H2.
  set (newEdge := mkEdge source target labelIndex directed false spansIncrement true).
  set (g2 := updE g1 m (λ _, newEdge)).
  assert (Hg2m : getE g2 m = newEdge)
    by (unfold g2; rewrite getE_updE by done; by rewrite decide_True).
  assert (Hg2e : ∀ e, e < m → getE g2 e = getE graph e).
  { intros e He. unfold g2. rewrite getE_updE by done.
    rewrite decide_False by lia. by apply H5. }
  assert (Hg2v : vertices g2 = vertices graph) by done.
  rewrite numEdges_AddEdgeToVertices.
  change (numEdges g2) with (numEdges g1). rewrite H2.
  rewrite uadd_small by lia.
  unfold AddEdgeToVertices. rewrite Hg2m. cbn [vertex1 vertex2 newEdge].
  set (g3 := updV g2 source _).
  set (g4 := if negb (source =? target) then _ else g3).
  assert (Hs' : (N.to_nat source < length (vertices g2))%nat) by (rewrite Hg2v; lia).
  assert (Ht' : (N.to_nat target < length (vertices g3))%nat).
  { unfold g3, updV. cbn. rewrite length_alter, H3. lia. }
  assert (Hg4v : ∀ v, getV g4 v
            = if decide (v = source ∨ v = target)
              then set_vedges (vedges (getV graph v) ++ [m]) (getV graph v)
              else getV graph v).
  { intros v. unfold g4. destruct (N.eqb_spec source target) as [E|E]; cbn [negb].
    - subst target. unfold g3. rewrite getV_updV by done.
      destruct (decide (v = source)) as [->|Hv].
      + rewrite decide_True by (by left). unfold getV. by rewrite Hg2v.
      + rewrite decide_False by tauto. unfold getV. by rewrite Hg2v.
    - rewrite getV_updV by done. unfold g3.
      destruct (decide (v = target)) as [->|Hv].
      + rewrite decide_True by (by right). rewrite getV_updV by done.
        rewrite decide_False by done. unfold getV. by rewrite Hg2v.
      + rewrite getV_updV by done. destruct (decide (v = source)) as [->|Hv'].
        * rewrite decide_True by (by left). unfold getV. by rewrite Hg2v.
        * rewrite decide_False by tauto. unfold getV. by rewrite Hg2v. }
  assert (Hg4e : edges g4 = edges g2).
  { unfold g4, g3. by destruct (negb _). }
  assert (Hg4n : numVertices g4 = numVertices graph ∧ length (vertices g4) = length (vertices graph)).
  { unfold g4, g3, updV. destruct (negb _); cbn; rewrite ?length_alter, H3; done. }
  destruct Hg4n as [Hg4n Hg4l].
  set (r := set_numEdges (m + 1) g4).
  assert (HrV : ∀ v, getV r v = getV g4 v) by done.
  assert (HrE : ∀ e, getE r e = getE g2 e) by (intros e; unfold getE; cbn; by rewrite Hg4e).
  assert (Hlt : ∀ v e, v < numVertices graph → e ∈ vedges (getV graph v) → e < m).
  { intros v e Hv He. apply Hved in He; [|done]. tauto. }
  split; [|split; [done|split; [done|split; [by rewrite HrE|split]]]].
  - split.
    + split; cbn; [lia | lia | lia |].
      rewrite Hg4e. unfold g2, updE. cbn. rewrite length_alter. lia.
    + intros e He. cbn in He. rewrite HrE. cbn [numVertices r set_numEdges]. rewrite Hg4n.
      destruct (decide (e = m)) as [->|Hne'].
      * rewrite Hg2m. cbn. done.
      * rewrite Hg2e by lia. apply Hend. lia.
    + intros v e Hv. cbn in Hv. rewrite Hg4n in Hv. rewrite HrV, HrE, Hg4v.
      cbn [numEdges r set_numEdges].
      destruct (decide (e = m)) as [->|Hne'].
      * rewrite Hg2m. cbn [vertex1 vertex2 newEdge].
        destruct (decide (v = source ∨ v = target)) as [Hst|Hst].
        -- cbn. rewrite elem_of_app, list_elem_of_singleton. split; [|by right].
           intros _. split; [lia|]. destruct Hst as [-> | ->]; tauto.
        -- split.
           ++ intros He. apply (Hlt v m Hv) in He. lia.
           ++ intros [_ [E|E]]; subst; tauto.
      * assert (Hiff : e ∈ vedges (getV graph v)
                       ↔ e < m + 1 ∧ (vertex1 (getE g2 e) = v ∨ vertex2 (getE g2 e) = v)).
        { rewrite (Hved v e Hv). fold m. split.
          - intros [He Hv']. rewrite Hg2e by done. split; [lia | done].
          - intros [He Hv']. assert (He' : e < m) by lia.
            rewrite Hg2e in Hv' by done. done. }
        destruct (decide (v = source ∨ v = target)) as [Hst|Hst]; [|done].
        cbn. rewrite elem_of_app, list_elem_of_singleton. rewrite Hiff. tauto.
    + intros v Hv. cbn in Hv. rewrite Hg4n in Hv. rewrite HrV, Hg4v.
      destruct (decide (v = source ∨ v = target)) as [Hst|Hst]; [|by apply Hinc].
      cbn. apply increasing_snoc; [by apply Hinc|]. intros y Hy. by apply (Hlt v).
  - intros e He. rewrite HrE. by apply Hg2e.
  - intros v Hv. rewrite HrV, Hg4v.
    destruct (decide (v = source ∨ v = target)); cbn; [done|]. by rewrite app_nil_r.
Qed.

(** X15.  [AddEdge] keeps a graph consistent: for endpoints that are
    vertices of the graph, the new edge is stored at index [numEdges]
    with [used] unset and [validPath] set, the other edges are as they
    were, and the index of the new edge is appended to the edge arrays
    of its endpoints, once for a self-edge.  Afterwards the endpoints
    of every edge are vertices, and the edge array of every vertex
    lists in increasing order exactly the edges at the vertex. *)
Theorem AddEdge_consistent graph source target directed labelIndex spansIncrement :
  graph_consistent graph →
  source < numVertices graph → target < numVertices graph →
  numEdges graph + 1 < ULONG_MODULUS →
  let r := AddEdge graph source target directed labelIndex spansIncrement in
  graph_consistent r
  ∧ numVertices r = numVertices graph
  ∧ numEdges r = numEdges graph + 1
  ∧ getE r (numEdges graph)
    = mkEdge source target labelIndex directed false spansIncrement true
  ∧ (∀ e, e < numEdges graph → getE r e = getE graph e)
  ∧ (∀ v, v < numVertices graph →
       vlabel (getV r v) = vlabel (getV graph v)
       ∧ vedges (getV r v)
         = vedges (getV graph v)
           ++ (if decide (v = source ∨ v = target) then [numEdges graph] else [])).
Proof. apply AddEdge_spec. Qed.

(** X16.  [AddVertex] keeps a graph consistent and appends a vertex
    with the given label, no edges, map [VERTEX_UNMAPPED] and [used]
    unset; the vertices and edges that the graph had are as they
    were.  The graph of [AllocateGraph(0, 0)] is consistent. *)
Theorem AddVertex_consistent graph labelIndex :
  graph_consistent graph →
  numVertices graph + 1 < ULONG_MODULUS →
  let r := AddVertex graph labelIndex in
  graph_consistent r
  ∧ numVertices r = numVertices graph + 1
  ∧ numEdges r = numEdges graph
  ∧ edges r = edges graph
  ∧ getV r (numVertices graph) = mkVertex labelIndex [] VERTEX_UNMAPPED false
  ∧ (∀ v, v < numVertices graph → getV r v = getV graph v)
  ∧ graph_consistent (AllocateGraph 0 0).
Proof.
  intros Hc Hb. destruct (AddVertex_spec graph labelIndex Hc Hb)
    as (H1 & H2 & H3 & H4 & H5 & H6).
  cbv zeta in *. repeat (split; [done|]). apply AllocateGraph_consistent.
Qed.

(** A graph of one vertex, built by [AddVertex]. *)
Definition example_built : Graph := AddVertex (AllocateGraph 0 0) 0.

Lemma example_built_consistent : graph_consistent example_built.
Proof.
  apply (AddVertex_spec (AllocateGraph 0 0) 0); [apply AllocateGraph_consistent|].
  reflexivity.
Qed.

Lemma AddEdge_consistent_witness :
  let r := AddEdge example_built 0 0 true 1 false in
  graph_consistent r
  ∧ numVertices r = numVertices example_built
  ∧ numEdges r = numEdges example_built + 1
  ∧ getE r (numEdges example_built) = mkEdge 0 0 1 true false false true
  ∧ (∀ e, e < numEdges example_built → getE r e = getE example_built e)
  ∧ (∀ v, v < numVertices example_built →
       vlabel (getV r v) = vlabel (getV example_built v)
       ∧ vedges (getV r v)
         = vedges (getV example_built v)
           ++ (if decide (v = 0 ∨ v = 0) then [numEdges example_built] else [])).
Proof.
  apply (AddEdge_consistent example_built 0 0 true 1 false).
  - exact example_built_consistent.
  - reflexivity.
  - reflexivity.
  - reflexivity.
Defined.

Lemma AddVertex_consistent_witness :
  let r := AddVertex (AllocateGraph 0 0) 7 in
  graph_consistent r
  ∧ numVertices r = numVertices (AllocateGraph 0 0) + 1
  ∧ numEdges r = numEdges (AllocateGraph 0 0)
  ∧ edges r = edges (AllocateGraph 0 0)
  ∧ getV r (numVertices (AllocateGraph 0 0)) = mkVertex 7 [] VERTEX_UNMAPPED false
  ∧ (∀ v, v < numVertices (AllocateGraph 0 0) → getV r v = getV (AllocateGraph 0 0) v)
  ∧ graph_consistent (AllocateGraph 0 0).
Proof.
  apply (AddVertex_consistent (AllocateGraph 0 0) 7).
  - exact AllocateGraph_consistent.
  - reflexivity.
Defined.

(** *** Copying a graph *)

(** The fields of an edge that [CopyGraph] copies. *)
Definition same_edge (e e' : Edge) : Prop :=
  vertex1 e' = vertex1 e ∧ vertex2 e' = vertex2 e ∧ elabel e' = elabel e
  ∧ directed e' = directed e ∧ eused e' = eused e.

Lemma CopyGraph_spec g :
  graph_arrays g →
  let c := CopyGraph g in
  numVertices c = numVertices g ∧ numEdges c = numEdges g
  ∧ length (vertices c) = N.to_nat (numVertices g)
  ∧ length (edges c) = N.to_nat (numEdges g)
  ∧ (∀ v, v < numVertices g → getV c v = getV g v)
  ∧ (∀ e, e < numEdges g → same_edge (getE g e) (getE c e)).
Proof.
  intros [Hnv Hne Hlv Hle]. cbv zeta. unfold CopyGraph.
  set (c0 := AllocateGraph (numVertices g) (numEdges g)).
  match goal with |- context [ULONG_for (numVertices g) ?body c0] =>
    pose proof (ULONG_for_ind
      (λ i c, numVertices c = numVertices g ∧ numEdges c = numEdges g
              ∧ length (vertices c) = N.to_nat (numVertices g)
              ∧ edges c = edges c0
              ∧ ∀ v, (N.to_nat v < i)%nat → getV c v = getV g v)
      (numVertices g) body c0) as H1;
    set (c1 := ULONG_for (numVertices g) body c0) in *
  end.
  cbv beta in H1. destruct H1 as (A1 & A2 & A3 & A4 & A5).
  { unfold c0. cbn. rewrite length_replicate. repeat split; try done. intros; lia. }
  { intros i c Hi (B1 & B2 & B3 & B4 & B5).
    split; [done|]. split; [done|]. split; [by unfold updV; cbn; rewrite length_alter|].
    split; [done|]. intros v Hv. rewrite getV_updV by lia.
    destruct (decide (v = N.of_nat i)) as [->|Hne'].
    - by destruct (getV g (N.of_nat i)).
    - apply B5. lia. }
  match goal with |- context [ULONG_for (numEdges g) ?body c1] =>
    pose proof (ULONG_for_ind
      (λ i c, numVertices c = numVertices g ∧ numEdges c = numEdges g
              ∧ length (edges c) = N.to_nat (numEdges g)
              ∧ vertices c = vertices c1
              ∧ ∀ e, (N.to_nat e < i)%nat → same_edge (getE g e) (getE c e))
      (numEdges g) body c1) as H2;
    set (c2 := ULONG_for (numEdges g) body c1) in *
  end.
  cbv beta in H2. destruct H2 as (B1 & B2 & B3 & B4 & B5).
  { rewrite A4. unfold c0. cbn. rewrite length_replicate.
    repeat split; try done; lia. }
  { intros i c Hi (C1 & C2 & C3 & C4 & C5).
    split; [done|]. split; [done|]. split; [by unfold updE; cbn; rewrite length_alter|].
    split; [done|]. intros e He. rewrite getE_updE by lia.
    destruct (decide (e = N.of_nat i)) as [->|Hne'].
    - by repeat split.
    - apply C5. lia. }
  split; [done|]. split; [done|]. split; [by rewrite B4|]. split; [done|]. split.
  - intros v Hv. unfold getV at 1. rewrite B4. apply A5. lia.
  - intros e He. apply B5. lia.
Qed.

(** X17.  [CopyGraph] returns a graph with as many vertices and edges
    as the given graph, in arrays of just that size, whose vertices
    have the label, edge array, map and [used] flag of the given ones
    and whose edges have their endpoints, label, directedness and
    [used] flag; the copy of a consistent graph is consistent. *)
Theorem CopyGraph_same g :
  graph_arrays g →
  let c := CopyGraph g in
  numVertices c = numVertices g ∧ numEdges c = numEdges g
  ∧ length (vertices c) = N.to_nat (numVertices g)
  ∧ length (edges c) = N.to_nat (numEdges g)
  ∧ (∀ v, v < numVertices g → getV c v = getV g v)
  ∧ (∀ e, e < numEdges g → same_edge (getE g e) (getE c e))
  ∧ (graph_consistent g → graph_consistent c).
Proof.
  intros Hga. destruct (CopyGraph_spec g Hga) as (H1 & H2 & H3 & H4 & H5 & H6).
  cbv zeta in *. repeat (split; [done|]).
  intros [_ Hend Hved Hinc]. destruct Hga as [Hnv Hne Hlv Hle]. split.
  - split; lia.
  - intros e He. rewrite H2 in He. rewrite H1. destruct (H6 e He) as (-> & -> & _).
    by apply Hend.
  - intros v e Hv. rewrite H1 in Hv. rewrite H5, H2 by done. rewrite (Hved v e Hv).
    split; intros [He Hi]; (split; [done|]); destruct (H6 e He) as (E1 & E2 & _);
      rewrite ?E1, ?E2 in *; done.
  - intros v Hv. rewrite H1 in Hv. rewrite H5 by done. by apply Hinc.
Qed.

Lemma CopyGraph_same_witness :
  let c := CopyGraph example_path in
  numVertices c = numVertices example_path ∧ numEdges c = numEdges example_path
  ∧ length (vertices c) = N.to_nat (numVertices example_path)
  ∧ length (edges c) = N.to_nat (numEdges example_path)
  ∧ (∀ v, v < numVertices example_path → getV c v = getV example_path v)
  ∧ (∀ e, e < numEdges example_path →
       same_edge (getE example_path e) (getE c e))
  ∧ (graph_consistent example_path → graph_consistent c).
Proof.
  apply (CopyGraph_same example_path). apply graph_arrays_check_ok. reflexivity.
Defined.

(** Two vertices and an edge between them, built by [AddVertex] and
    [AddEdge]. *)
Definition example_edge : Graph :=
  AddEdge (AddVertex example_built 0) 0 1 false 1 false.

Lemma example_edge_consistent : graph_consistent example_edge.
Proof.
  apply (AddEdge_spec (AddVertex example_built 0) 0 1 false 1 false);
    [|reflexivity..].
  apply (AddVertex_spec example_built 0); [exact example_built_consistent | reflexivity].
Qed.

(** ** compress.c: the edges of the compressed graph *)

(** X18.  Outside incremental mode and with overlap disallowed, the
    graph returned by [CompressGraph] has the edges of the graph less
    the distinct edges covered by the instances: an edge that several
    instances list is subtracted once.  When the instances are pairwise
    edge-disjoint this is [|E(g)| - Σ|E(insts_i)|]. *)
Theorem CompressGraph_numEdges graph insts parameters :
  incremental parameters = false →
  allowInstanceOverlap parameters = false →
  graph_arrays graph →
  edges_unused graph →
  edges_in_range graph insts →
  let compressedGraph := (CompressGraph graph insts parameters).1 in
  (Z.of_N (numEdges compressedGraph)
   = Z.of_N (numEdges graph) - Z.of_nat (size (instances_eset insts)))%Z
  ∧ (edge_disjoint insts →
     (Z.of_N (numEdges compressedGraph)
      = Z.of_N (numEdges graph) - Z.of_nat (sum_numEdges insts))%Z).
Proof.
  intros Hinc Hov Hga Hun Hr.
  destruct (CompressGraph_numEdges_eq graph insts parameters Hinc Hov Hga Hun Hr)
    as [Hne Hsz].
  cbv zeta in *. split.
  - rewrite Hne. lia.
  - intros Hd. rewrite Hne, <- (size_instances_eset_disjoint insts Hd). lia.
Qed.

Lemma CompressGraph_numEdges_witness :
  let p := example_parameters example_path false EVAL_SIZE in
  let insts := [example_instance [0; 1] [0]] in
  let compressedGraph := (CompressGraph example_path insts p).1 in
  (Z.of_N (numEdges compressedGraph)
   = Z.of_N (numEdges example_path) - Z.of_nat (size (instances_eset insts)))%Z
  ∧ (edge_disjoint insts →
     (Z.of_N (numEdges compressedGraph)
      = Z.of_N (numEdges example_path) - Z.of_nat (sum_numEdges insts))%Z).
Proof.
  apply (CompressGraph_numEdges example_path [example_instance [0; 1] [0]]
           (example_parameters example_path false EVAL_SIZE)).
  - reflexivity.
  - reflexivity.
  - apply graph_arrays_check_ok. reflexivity.
  - apply edges_unused_check. reflexivity.
  - apply edges_in_range_check_ok. reflexivity.
Defined.

(** X19.  Outside incremental mode, with overlap disallowed and
    instances that are pairwise vertex- and edge-disjoint,
    [SizeOfCompressedGraph] returns the size, vertices plus edges, of
    the graph that [CompressGraph] builds from the same instances, and
    does not write to the graph. *)
Theorem SizeOfCompressedGraph_as_compressed graph insts parameters graphType :
  incremental parameters = false →
  allowInstanceOverlap parameters = false →
  graph_arrays graph →
  vertices_unused graph →
  edges_unused graph →
  vertices_in_range graph insts →
  edges_in_range graph insts →
  vertex_disjoint insts →
  edge_disjoint insts →
  numVertices graph + numEdges graph + N.of_nat (length insts) + 1 < ULONG_MODULUS →
  (SizeOfCompressedGraph graph (Some insts) parameters graphType).1
    = GraphSize (CompressGraph graph insts parameters).1
  ∧ (SizeOfCompressedGraph graph (Some insts) parameters graphType).2 = graph.
Proof. apply SizeOfCompressedGraph_disjoint. Qed.

Lemma SizeOfCompressedGraph_as_compressed_witness :
  let p := example_parameters example_path false EVAL_SIZE in
  let insts := [example_instance [0; 1] [0]] in
  (SizeOfCompressedGraph example_path (Some insts) p POS).1
    = GraphSize (CompressGraph example_path insts p).1
  ∧ (SizeOfCompressedGraph example_path (Some insts) p POS).2 = example_path.
Proof.
  apply (SizeOfCompressedGraph_as_compressed example_path [example_instance [0; 1] [0]]
           (example_parameters example_path false EVAL_SIZE) POS).
  - reflexivity.
  - reflexivity.
  - apply graph_arrays_check_ok. reflexivity.
  - apply vertices_unused_check. reflexivity.
  - apply edges_unused_check. reflexivity.
  - apply vertices_in_range_check_ok. reflexivity.
  - apply edges_in_range_check_ok. reflexivity.
  - unfold vertex_disjoint. simpl. repeat constructor; set_solver.
  - unfold edge_disjoint. simpl. repeat constructor; set_solver.
  - reflexivity.
Defined.

(** ** compress.c: marking an example *)

(** [for (v = egStartVertexIndex; v <= egEndVertexIndex; v++)], for
    [egEndVertexIndex] below [ULONG_MAX], where the loop of the source
    ends. *)
Definition MarkExample (egStartVertexIndex egEndVertexIndex : ULONG) (graph : Graph)
    (value : bool) : Graph :=
  ULONG_for_from egStartVertexIndex (egEndVertexIndex + 1)
    (λ v graph,
       let graph := updV graph v (set_vused value) in
       foldl (λ graph e, updE graph e (set_eused value)) graph
             (vedges (getV graph v)))
    graph.

Lemma MarkExample_edges value l g :
  (∀ e, e ∈ l → (N.to_nat e < length (edges g))%nat) →
  let r := foldl (λ graph e, updE graph e (set_eused value)) g l in
  vertices r = vertices g ∧ numVertices r = numVertices g ∧ numEdges r = numEdges g
  ∧ length (edges r) = length (edges g)
  ∧ ∀ j, getE r j = if decide (j ∈ l) then set_eused value (getE g j) else getE g j.
Proof.
  revert g. induction l as [|e l IH]; intros g Hl; cbn [foldl]; cbv zeta.
  - repeat split.
  - destruct (IH (updE g e (set_eused value))) as (H1 & H2 & H3 & H4 & H5).
    { intros e' He'. unfold updE. cbn. rewrite length_alter. apply Hl. by right. }
    cbv zeta in *. rewrite H1, H2, H3, H4. split; [done|]. split; [done|].
    split; [done|]. split; [unfold updE; cbn; by rewrite length_alter|].
    intros j. rewrite H5. rewrite getE_updE by (apply Hl; left).
    destruct (decide (j = e)) as [->|Hne].
    + rewrite (decide_True (P := e ∈ e :: l)) by left.
      by destruct (decide (e ∈ l)).
    + destruct (decide (j ∈ l)) as [Hin|Hin].
      * rewrite decide_True by (by right). done.
      * rewrite decide_False; [done|]. intros H. apply elem_of_cons in H as [?|?]; done.
Qed.

Record MarkExample_inv (g : Graph) (s : ULONG) (value : bool) (i : nat) (st : Graph)
    : Prop := {
  me_nv : numVertices st = numVertices g;
  me_ne : numEdges st = numEdges g;
  me_lv : length (vertices st) = length (vertices g);
  me_le : length (edges st) = length (edges g);
  me_vertices : ∀ v, getV st v
    = if decide (s ≤ v ∧ (N.to_nat v < i)%nat)
      then set_vused value (getV g v) else getV g v;
  me_edges : ∀ j, j < numEdges g → getE st j
    = if decide ((s ≤ vertex1 (getE g j) ∧ (N.to_nat (vertex1 (getE g j)) < i)%nat)
                 ∨ (s ≤ vertex2 (getE g j) ∧ (N.to_nat (vertex2 (getE g j)) < i)%nat))
      then set_eused value (getE g j) else getE g j;
  me_edges_out : ∀ j, numEdges g ≤ j → getE st j = getE g j
}.

Lemma MarkExample_spec s e g value :
  graph_consistent g →
  s ≤ e → e < numVertices g →
  let r := MarkExample s e g value in
  (∀ v, getV r v = if decide (s ≤ v ≤ e) then set_vused value (getV g v) else getV g v)
  ∧ (∀ j, j < numEdges g →
       getE r j
       = if decide (s ≤ vertex1 (getE g j) ≤ e ∨ s ≤ vertex2 (getE g j) ≤ e)
         then set_eused value (getE g j) else getE g j)
  ∧ numVertices r = numVertices g ∧ numEdges r = numEdges g.
Proof.
  intros [[Hnv Hne Hlv Hle] Hend Hved Hinc] Hse He. cbv zeta. unfold MarkExample.
  match goal with |- context [ULONG_for_from s (e + 1) ?body g] =>
    pose proof (ULONG_for_from_ind (MarkExample_inv g s value) s (e + 1) body g) as H
  end.
  destruct H as [H1 H2 H3 H4 H5 H6 H7]; [lia | |  |].
  - split; try done.
    + intros v. rewrite decide_False by lia. done.
    + intros j Hj. rewrite decide_False by lia. done.
  - intros i st Hi [H1 H2 H3 H4 H5 H6 H7].
    set (v := N.of_nat i).
    assert (Hv : v < numVertices g) by lia.
    assert (Hlen : (N.to_nat v < length (vertices st))%nat) by lia.
    set (st1 := updV st v (set_vused value)).
    assert (Hved1 : vedges (getV st1 v) = vedges (getV g v)).
    { unfold st1. rewrite getV_updV by done. rewrite decide_True by done. cbn.
      rewrite H5. by destruct (decide _). }
    destruct (MarkExample_edges value (vedges (getV st1 v)) st1)
      as (G1 & G2 & G3 & G4 & G5).
    { intros j Hj. rewrite Hved1 in Hj. apply Hved in Hj; [|done].
      unfold st1, updE. cbn. lia. }
    cbv zeta in *.
    split.
    + by rewrite G2.
    + by rewrite G3.
    + rewrite G1. unfold st1, updV. cbn. by rewrite length_alter.
    + by rewrite G4.
    + intros w. unfold getV at 1. rewrite G1. fold (getV st1 w).
      unfold st1. rewrite getV_updV by done.
      destruct (decide (w = v)) as [->|Hne'].
      * rewrite decide_True by lia. rewrite H5.
        by destruct (decide _).
      * rewrite H5. destruct (decide (s ≤ w ∧ (N.to_nat w < i)%nat)).
        -- rewrite decide_True by lia. done.
        -- rewrite decide_False by lia. done.
    + intros j Hj. rewrite G5, Hved1.
      assert (HgE : getE st1 j = getE st j) by done. rewrite HgE, (H6 j Hj).
      pose proof (Hved v j Hv) as Hiff.
      destruct (Hend j Hj) as [Hv1 Hv2].
      destruct (decide (j ∈ vedges (getV g v))) as [Hin|Hin].
      * rewrite (decide_True (P := (_ ∧ (_ < S i)%nat) ∨ _)).
        2:{ apply Hiff in Hin as [_ [E|E]]; [left | right]; rewrite E; lia. }
        by destruct (decide _).
      * assert (Hnv1 : vertex1 (getE g j) ≠ v ∧ vertex2 (getE g j) ≠ v).
        { split; intros E; apply Hin; apply Hiff; tauto. }
        destruct (decide ((s ≤ vertex1 (getE g j) ∧ (N.to_nat (vertex1 (getE g j)) < i)%nat)
                   ∨ (s ≤ vertex2 (getE g j) ∧ (N.to_nat (vertex2 (getE g j)) < i)%nat)))
          as [Hc|Hc].
        -- rewrite decide_True by lia. done.
        -- rewrite decide_False by lia. done.
    + intros j Hj. rewrite G5, Hved1. rewrite decide_False.
      * assert (HgE : getE st1 j = getE st j) by done. rewrite HgE. by apply H7.
      * intros Hin. apply Hved in Hin; [|done]. lia.
  - split; [|split; [|done]].
    + intros v. rewrite H5. destruct (decide (s ≤ v ≤ e)).
      * rewrite decide_True by lia. done.
      * rewrite decide_False by lia. done.
    + intros j Hj. rewrite (H6 j Hj).
      destruct (decide (s ≤ vertex1 (getE g j) ≤ e ∨ s ≤ vertex2 (getE g j) ≤ e)).
      * rewrite decide_True by lia. done.
      * rewrite decide_False by lia. done.
Qed.

(** X20.  On a consistent graph, [MarkExample] sets the [used] flag of
    the vertices from [egStartVertexIndex] to [egEndVertexIndex] and of
    the edges with an endpoint among them to the given value, and
    leaves every other vertex and edge, and every other field, as it
    was. *)
Theorem MarkExample_marks egStartVertexIndex egEndVertexIndex graph value :
  graph_consistent graph →
  egStartVertexIndex ≤ egEndVertexIndex →
  egEndVertexIndex < numVertices graph →
  let r := MarkExample egStartVertexIndex egEndVertexIndex graph value in
  (∀ v, getV r v
        = if decide (egStartVertexIndex ≤ v ≤ egEndVertexIndex)
          then set_vused value (getV graph v) else getV graph v)
  ∧ (∀ j, j < numEdges graph →
       getE r j
       = if decide (egStartVertexIndex ≤ vertex1 (getE graph j) ≤ egEndVertexIndex
                    ∨ egStartVertexIndex ≤ vertex2 (getE graph j) ≤ egEndVertexIndex)
         then set_eused value (getE graph j) else getE graph j)
  ∧ numVertices r = numVertices graph ∧ numEdges r = numEdges graph.
Proof. apply MarkExample_spec. Qed.

Lemma MarkExample_marks_witness :
  let r := MarkExample 0 0 example_edge true in
  (∀ v, getV r v
        = if decide (0 ≤ v ≤ 0)
          then set_vused true (getV example_edge v) else getV example_edge v)
  ∧ (∀ j, j < numEdges example_edge →
       getE r j
       = if decide (0 ≤ vertex1 (getE example_edge j) ≤ 0
                    ∨ 0 ≤ vertex2 (getE example_edge j) ≤ 0)
         then set_eused true (getE example_edge j) else getE example_edge j)
  ∧ numVertices r = numVertices example_edge ∧ numEdges r = numEdges example_edge.
Proof.
  apply (MarkExample_marks 0 0 example_edge true).
  - exact example_edge_consistent.
  - reflexivity.
  - reflexivity.
Defined.

(** ** discover.c: the outer loop of [DiscoverSubs] *)

Section Discover_ends.
Variable InexactGraphMatch : Matcher.
Variable NewEdgeMatch :
  Graph → Instance → Graph → Instance → Parameters → double → double →
  NewEdgeMatchResult.
Variable matchCost0 : double.
Variable SubLabelNumber : ULONG → LabelList → ULONG.
Variable RecursifySub : Substructure → Parameters → option Substructure * Parameters.

Local Abbreviation loop :=
  (DiscoverSubs_loop InexactGraphMatch NewEdgeMatch matchCost0 SubLabelNumber
                     RecursifySub).

(** Once the condition of the loop is false, more rounds change
    nothing. *)
Lemma DiscoverSubs_loop_stable fuel more parameters0 st :
  DiscoverSubs_continue (loop fuel parameters0 st) = false →
  loop (fuel + more) parameters0 st = loop fuel parameters0 st.
Proof.
  revert st. induction fuel as [|fuel IH]; intros st H.
  - cbn in H. destruct more as [|more]; [done|]. cbn. by rewrite H.
  - cbn [DiscoverSubs_loop Nat.add] in *.
    destruct (DiscoverSubs_continue st); [by apply IH | done].
Qed.

Lemma DiscoverSubs_loop_limit fuel parameters0 st :
  ds_limit st < ULONG_MODULUS →
  ds_limit (loop fuel parameters0 st) ≤ ds_limit st.
Proof.
  revert st. induction fuel as [|fuel IH]; intros st Hb; [done|].
  cbn [DiscoverSubs_loop]. destruct (DiscoverSubs_continue st); [|done].
  destruct (DiscoverSubs_iteration_limit InexactGraphMatch NewEdgeMatch matchCost0
              SubLabelNumber RecursifySub parameters0 st Hb) as [Hle _].
  etrans; [apply IH; lia | done].
Qed.

End Discover_ends.

(** X21.  The outer loop of [DiscoverSubs] ends, whatever the graph
    match, [NewEdgeMatch], [SubLabelNumber] and [RecursifySub] return:
    after at most [limit + 1] rounds its condition [(limit > 0) &&
    (parentSubList->head != NULL)] is false, more rounds change
    nothing, and [limit] never grows. *)
Theorem DiscoverSubs_loop_terminates (InexactGraphMatch : Matcher)
    (NewEdgeMatch : Graph → Instance → Graph → Instance → Parameters → double →
                    double → NewEdgeMatchResult)
    (matchCost0 : double) (SubLabelNumber : ULONG → LabelList → ULONG)
    (RecursifySub : Substructure → Parameters → option Substructure * Parameters)
    (parameters : Parameters) (more : nat) :
  limit parameters < ULONG_MODULUS →
  let run fuel :=
    DiscoverSubs_loop InexactGraphMatch NewEdgeMatch matchCost0 SubLabelNumber
      RecursifySub fuel parameters (DiscoverSubs_initial InexactGraphMatch parameters) in
  let rounds := S (N.to_nat (limit parameters)) in
  DiscoverSubs_continue (run rounds) = false
  ∧ run (rounds + more)%nat = run rounds
  ∧ ds_limit (run rounds) ≤ limit parameters.
Proof.
  intros Hb. cbv zeta.
  pose proof (DiscoverSubs_fuel InexactGraphMatch NewEdgeMatch matchCost0 SubLabelNumber
                RecursifySub parameters Hb) as Hends.
  split; [done|]. split; [by apply DiscoverSubs_loop_stable|].
  etrans; [apply DiscoverSubs_loop_limit|].
  - unfold DiscoverSubs_initial. by destruct (GetInitialSubs _ _).
  - unfold DiscoverSubs_initial. by destruct (GetInitialSubs _ _).
Qed.

Lemma DiscoverSubs_loop_terminates_witness :
  let run fuel :=
    DiscoverSubs_loop example_matcher example_NewEdgeMatch 0%R example_SubLabelNumber
      example_RecursifySub fuel example_parameters_loop
      (DiscoverSubs_initial example_matcher example_parameters_loop) in
  let rounds := S (N.to_nat (limit example_parameters_loop)) in
  DiscoverSubs_continue (run rounds) = false
  ∧ run (rounds + 5)%nat = run rounds
  ∧ ds_limit (run rounds) ≤ limit example_parameters_loop.
Proof.
  apply (DiscoverSubs_loop_terminates example_matcher example_NewEdgeMatch 0%R
           example_SubLabelNumber example_RecursifySub example_parameters_loop 5).
  reflexivity.
Defined.

(** ** evaluate.c: [Log2Factorial] and the evaluation by size *)

(** X22.  [Log2Factorial] returns [lg (n!)], the sum of [Log2 i] for
    [i] from 1 to [n], which is [ln (n!) / ln 2], when the cache holds
    [lg (i!)] in each slot [i]; it changes nothing in the parameters
    but the cache, which afterwards again holds [lg (i!)] in each of
    its slots and has a slot for [n]. *)
Theorem Log2Factorial_value number parameters :
  cache_ok (log2Factorial parameters) →
  number + LIST_SIZE_INC < ULONG_MODULUS →
  let r := Log2Factorial number parameters in
  r.1 = (ln (INR (fact (N.to_nat number))) / ln 2)%R
  ∧ r.1 = lgfact (N.to_nat number)
  ∧ r.2 = set_log2Factorial (log2Factorial r.2) parameters
  ∧ cache_ok (log2Factorial r.2).
Proof.
  intros Hc Hb. destruct (Log2Factorial_spec number parameters Hc Hb) as (t & E & Ht).
  cbv zeta. rewrite E. cbn [fst snd]. rewrite set_log2Factorial_log2Factorial.
  split; [apply lgfact_fact|]. done.
Qed.

Lemma Log2Factorial_value_witness :
  let r := Log2Factorial 3 (example_parameters example_path false EVAL_SIZE) in
  r.1 = (ln (INR (fact (N.to_nat 3))) / ln 2)%R
  ∧ r.1 = lgfact (N.to_nat 3)
  ∧ r.2 = set_log2Factorial (log2Factorial r.2)
                            (example_parameters example_path false EVAL_SIZE)
  ∧ cache_ok (log2Factorial r.2).
Proof.
  apply (Log2Factorial_value 3 (example_parameters example_path false EVAL_SIZE)).
  - exact cache_ok_initial.
  - reflexivity.
Defined.
(** ** evaluate.c: the value by size in closed form *)

(** [SizeOfCompressedGraph] reads the overlap flag and the increments
    of the parameters, not their graphs. *)
Lemma SizeOfCompressedGraph_set_posGraph graph instanceList g parameters graphType :
  SizeOfCompressedGraph graph instanceList (set_posGraph g parameters) graphType
  = SizeOfCompressedGraph graph instanceList parameters graphType.
Proof. done. Qed.

(** The instances lie in the graph, on which nothing is marked, and no
    two of them share a vertex or an edge. *)
Record disjoint_instances (graph : Graph) (insts : list Instance) : Prop := {
  di_arrays : graph_arrays graph;
  di_vertices_unused : vertices_unused graph;
  di_edges_unused : edges_unused graph;
  di_vertices_in_range : vertices_in_range graph insts;
  di_edges_in_range : edges_in_range graph insts;
  di_vertex_disjoint : vertex_disjoint insts;
  di_edge_disjoint : edge_disjoint insts;
  di_bound : numVertices graph + numEdges graph + N.of_nat (length insts) + 1
             < ULONG_MODULUS
}.

(** [|V| + |E|]. *)
Definition size_of (g : Graph) : Z := Z.of_N (numVertices g) + Z.of_N (numEdges g).

(** The size of the graph with each instance replaced by one vertex:
    [|V| + |E| - Σ(|V_i| + |E_i|) + n]. *)
Definition size_compressed (g : Graph) (insts : list Instance) : Z :=
  size_of g - Z.of_nat (sum_numVertices insts) - Z.of_nat (sum_numEdges insts)
  + Z.of_nat (length insts).

Lemma SizeOfCompressedGraph_closed graph insts parameters graphType :
  incremental parameters = false →
  allowInstanceOverlap parameters = false →
  disjoint_instances graph insts →
  Z.of_N (SizeOfCompressedGraph graph (Some insts) parameters graphType).1
  = size_compressed graph insts
  ∧ (SizeOfCompressedGraph graph (Some insts) parameters graphType).2 = graph.
Proof.
  intros Hinc Hov [Hga Hvu Heu Hvr Her Hvd Hed Hb].
  destruct (CompressGraph_numVertices_eq graph insts parameters Hinc Hga Hvu Hvr)
    as (Hnv & Hvs & _); [lia|].
  destruct (CompressGraph_numEdges_eq graph insts parameters Hinc Hov Hga Heu Her)
    as (Hne & Hes).
  rewrite size_instances_vset_disjoint in * by done.
  rewrite size_instances_eset_disjoint in * by done.
  unfold SizeOfCompressedGraph. rewrite Hinc, Hov. split; [|done].
  cbn [fst].
  rewrite SizeOfCompressedGraph_loop by (unfold GraphSize, uadd; by apply N.mod_lt).
  unfold GraphSize, size_compressed, size_of. rewrite uadd_small by lia.
  rewrite Z.mod_small by lia. lia.
Qed.

Lemma GraphSize_AddEdge graph source target directed labelIndex spansIncrement :
  numVertices graph + numEdges graph + 1 < ULONG_MODULUS →
  Z.of_N (GraphSize (AddEdge graph source target directed labelIndex spansIncrement))
  = (size_of graph + 1)%Z.
Proof.
  intros Hb. unfold GraphSize, size_of.
  assert (Hv : numVertices (AddEdge graph source target directed labelIndex
                                    spansIncrement) = numVertices graph).
  { unfold AddEdge, AddEdgeToVertices. by repeat case_match. }
  assert (He : numEdges (AddEdge graph source target directed labelIndex
                                 spansIncrement) = uadd (numEdges graph) 1).
  { unfold AddEdge. cbn [numEdges set_numEdges]. f_equal.
    rewrite numEdges_AddEdgeToVertices. by case_match. }
  rewrite Hv, He, (uadd_small (numEdges graph) 1), uadd_small by lia. lia.
Qed.

(** X23.  The value by size in closed form.  Outside incremental
    mode, with overlap disallowed and instances that share no vertex
    and no edge, [EvaluateSub] under EVAL_SIZE sets the value to
    [size(G+) / (size(S) + size(G+|S))] and, with a negative graph, to
    [(size(G+) + size(G-)) / (size(S) + size(G+|S) + size(G-) - size(G-|S))],
    where [size(g) = |V(g)| + |E(g)|], [size(S)] counts one more edge
    when [S] is recursive, and
    [size(G|S) = |V(G)| + |E(G)| - Σ(|V(inst)| + |E(inst)|) + |insts|]
    over the instances of [S] in [G]. *)
Theorem EvaluateSub_SIZE_value sub parameters insts negInsts :
  evalMethod parameters = EVAL_SIZE →
  incremental parameters = false →
  allowInstanceOverlap parameters = false →
  graph_arrays (definition sub) →
  numVertices (definition sub) + numEdges (definition sub) + 1 < ULONG_MODULUS →
  instances sub = Some insts →
  disjoint_instances (posGraph parameters) insts →
  (∀ gn, negGraph parameters = Some gn →
     negInstances sub = Some negInsts ∧ disjoint_instances gn negInsts) →
  let sizeOfSub :=
    (size_of (definition sub) + (if recursive sub then 1 else 0))%Z in
  let sizeOfPosGraph := size_of (posGraph parameters) in
  let sizeOfCompressedPosGraph := size_compressed (posGraph parameters) insts in
  value (EvaluateSub sub parameters).1
  = match negGraph parameters with
    | None =>
        (IZR sizeOfPosGraph / (IZR sizeOfSub + IZR sizeOfCompressedPosGraph))%R
    | Some gn =>
        let sizeOfNegGraph := size_of gn in
        let sizeOfCompressedNegGraph := size_compressed gn negInsts in
        ((IZR sizeOfPosGraph + IZR sizeOfNegGraph)
         / (IZR sizeOfSub + IZR sizeOfCompressedPosGraph + IZR sizeOfNegGraph
            - IZR sizeOfCompressedNegGraph))%R
    end.
Proof.
  intros Hm Hinc Hov Hga Hb Hi Hpos Hneg. cbv zeta. unfold EvaluateSub. rewrite Hm.
  cbn [N.eqb Pos.eqb EVAL_MDL EVAL_SIZE].
  set (sub1 := match negGraph parameters with
               | Some _ => set_numNegExamples _ _
               | None => set_numNegExamples 0 _
               end).
  assert (H1 : definition sub1 = definition sub ∧ recursive sub1 = recursive sub
               ∧ recursiveEdgeLabel sub1 = recursiveEdgeLabel sub
               ∧ instances sub1 = instances sub ∧ negInstances sub1 = negInstances sub)
    by (unfold sub1; by destruct (negGraph parameters)).
  destruct H1 as (Hd & Hr & Hl & Hi1 & Hn). rewrite Hr, Hd, Hl.
  set (sub2 := if recursive sub then set_definition _ sub1 else sub1).
  assert (H2 : definition sub2
               = (if recursive sub
                  then AddEdge (CopyGraph (definition sub)) 0 0 true
                               (recursiveEdgeLabel sub) false
                  else definition sub)
               ∧ recursive sub2 = recursive sub
               ∧ instances sub2 = instances sub ∧ negInstances sub2 = negInstances sub)
    by (unfold sub2; by destruct (recursive sub)).
  destruct H2 as (Hd2 & Hr2 & Hi2 & Hn2).
  assert (Hsize : IZR (Z.of_N (GraphSize (definition sub2)))
                  = IZR (size_of (definition sub)
                         + (if recursive sub then 1 else 0))).
  { rewrite Hd2. f_equal. destruct (recursive sub).
    - destruct (CopyGraph_spec (definition sub) Hga) as (Cv & Ce & _).
      cbv zeta in Cv, Ce. rewrite GraphSize_AddEdge by (rewrite Cv, Ce; lia).
      unfold size_of. by rewrite Cv, Ce.
    - unfold GraphSize, size_of. rewrite uadd_small by lia. lia. }
  unfold EvaluateSub_SIZE, double_of_ULONG. rewrite Hinc, Hsize, Hi2, Hn2, Hi.
  destruct (SizeOfCompressedGraph_closed (posGraph parameters) insts parameters POS
              Hinc Hov Hpos) as [Ep Ep'].
  destruct (SizeOfCompressedGraph (posGraph parameters) (Some insts) parameters POS)
    as [size g'] eqn:Epos.
  cbn [fst snd] in Ep, Ep'. subst g'.
  change (negGraph (set_posGraph (posGraph parameters) parameters))
    with (negGraph parameters).
  assert (Hgs : ∀ g, graph_arrays g → numVertices g + numEdges g < ULONG_MODULUS →
                     Z.of_N (GraphSize g) = size_of g).
  { intros g _ Hg. unfold GraphSize, size_of. rewrite uadd_small by lia. lia. }
  destruct (negGraph parameters) as [ng|] eqn:Eng.
  - destruct (Hneg ng eq_refl) as [Hni Hnd]. rewrite Hni.
    rewrite SizeOfCompressedGraph_set_posGraph.
    destruct (SizeOfCompressedGraph_closed ng negInsts parameters NEG Hinc Hov Hnd)
      as [En En'].
    destruct (SizeOfCompressedGraph ng (Some negInsts) parameters NEG)
      as [size' ng'] eqn:Eneg.
    cbn [fst snd] in En, En'.
    cbv beta iota zeta. cbn [fst snd recursive set_value value].
    rewrite Hr2.
    assert (Ev : ∀ (c : bool) d x, value (if c then set_definition d x else x) = value x)
      by (by intros []).
    rewrite Ev. cbn [value set_value].
    rewrite Ep, En, !Hgs; [done | by destruct Hnd | destruct Hnd; lia
                          | by destruct Hpos | destruct Hpos; lia].
  - cbv beta iota zeta. cbn [fst snd recursive set_value value].
    rewrite Hr2.
    assert (Ev : ∀ (c : bool) d x, value (if c then set_definition d x else x) = value x)
      by (by intros []).
    rewrite Ev. cbn [value set_value].
    rewrite Ep, Hgs; [done | by destruct Hpos | destruct Hpos; lia].
Qed.

(** The substructure [A], taken as recursive, with its two instances
    in [example_pair]. *)
Definition example_sub_A_recursive : Substructure :=
  {| definition := example_vertex;
     numInstances := 2; numExamples := 0;
     instances := Some [example_instance [0] []; example_instance [1] []];
     numNegInstances := 0; numNegExamples := 0; negInstances := None;
     value := -1; recursive := true; recursiveEdgeLabel := 2;
     posIncrementValue := 0; negIncrementValue := 0 |}.

Lemma example_pair_disjoint_instances :
  disjoint_instances example_pair [example_instance [0] []; example_instance [1] []].
Proof.
  split.
  - apply graph_arrays_check_ok. reflexivity.
  - apply vertices_unused_check. reflexivity.
  - apply edges_unused_check. reflexivity.
  - apply vertices_in_range_check_ok. reflexivity.
  - apply edges_in_range_check_ok. reflexivity.
  - unfold vertex_disjoint. simpl. apply NoDup_cons. split; [|apply NoDup_singleton].
    intros H. apply list_elem_of_singleton in H. discriminate H.
  - unfold edge_disjoint. simpl. apply NoDup_nil_2.
  - reflexivity.
Qed.

(** On [example_pair], of size 2, the recursive substructure [A] has
    size 1 + 1 and the compressed graph size 2 - 2 + 2: the value is
    2 / (2 + 2). *)
Lemma EvaluateSub_SIZE_value_witness :
  value (EvaluateSub example_sub_A_recursive
                     (example_parameters example_pair false EVAL_SIZE)).1
  = (2 / (2 + 2))%R.
Proof.
  apply (EvaluateSub_SIZE_value example_sub_A_recursive
           (example_parameters example_pair false EVAL_SIZE)
           [example_instance [0] []; example_instance [1] []] []).
  - reflexivity.
  - reflexivity.
  - reflexivity.
  - apply graph_arrays_check_ok. reflexivity.
  - reflexivity.
  - reflexivity.
  - exact example_pair_disjoint_instances.
  - intros gn H. discriminate H.
Defined.

(** ** evaluate.c: the evaluation of a recursive substructure *)

(** The graph [g] is the graph [d] with one more edge: a directed edge
    from vertex 0 to vertex 0 with the given label, stored after the
    edges of [d] and appended to the edge array of vertex 0. *)
Record recursive_edge_added (d : Graph) (label : ULONG) (g : Graph) : Prop := {
  re_consistent : graph_consistent g;
  re_numVertices : numVertices g = numVertices d;
  re_numEdges : numEdges g = numEdges d + 1;
  re_vertices : ∀ v, v < numVertices d →
      vlabel (getV g v) = vlabel (getV d v)
      ∧ vedges (getV g v)
        = vedges (getV d v) ++ (if decide (v = 0) then [numEdges d] else []);
  re_edges : ∀ e, e < numEdges d → same_edge (getE d e) (getE g e);
  re_self_edge : vertex1 (getE g (numEdges d)) = 0
                 ∧ vertex2 (getE g (numEdges d)) = 0
                 ∧ elabel (getE g (numEdges d)) = label
                 ∧ directed (getE g (numEdges d)) = true
                 ∧ eused (getE g (numEdges d)) = false
}.

Lemma CopyGraph_consistent g : graph_consistent g → graph_consistent (CopyGraph g).
Proof.
  intros [Hga Hend Hved Hinc].
  destruct (CopyGraph_spec g Hga) as (H1 & H2 & H3 & H4 & H5 & H6).
  cbv zeta in *. destruct Hga as [Hnv Hne Hlv Hle]. split.
  - split; lia.
  - intros e He. rewrite H2 in He. rewrite H1. destruct (H6 e He) as (-> & -> & _).
    by apply Hend.
  - intros v e Hv. rewrite H1 in Hv. rewrite H5, H2 by done. rewrite (Hved v e Hv).
    split; intros [He Hi]; (split; [done|]); destruct (H6 e He) as (E1 & E2 & _);
      rewrite ?E1, ?E2 in *; done.
  - intros v Hv. rewrite H1 in Hv. rewrite H5 by done. by apply Hinc.
Qed.

(** The definition that [EvaluateSub] scores for a recursive
    substructure is the definition with the recursive edge added. *)
Lemma scored_definition_recursive sub :
  recursive sub = true →
  graph_consistent (definition sub) →
  0 < numVertices (definition sub) →
  numEdges (definition sub) + 1 < ULONG_MODULUS →
  recursive_edge_added (definition sub) (recursiveEdgeLabel sub) (scored_definition sub).
Proof.
  intros Hr Hc Hv Hb. unfold scored_definition. rewrite Hr.
  pose proof (CopyGraph_consistent _ Hc) as Hcc.
  destruct (CopyGraph_spec (definition sub) (gc_arrays _ Hc))
    as (C1 & C2 & _ & _ & C5 & C6).
  cbv zeta in C1, C2, C5, C6.
  destruct (AddEdge_spec (CopyGraph (definition sub)) 0 0 true (recursiveEdgeLabel sub)
              false Hcc) as (A1 & A2 & A3 & A4 & A5 & A6); [lia | lia | lia |].
  cbv zeta in A1, A2, A3, A4, A5, A6. rewrite C1, C2 in *. split.
  - done.
  - done.
  - done.
  - intros v Hlt. destruct (A6 v Hlt) as [L1 L2]. rewrite L1, L2, C5 by done.
    split; [done|]. f_equal. destruct (decide (v = 0)) as [->|Hne].
    + by rewrite decide_True by (by left).
    + rewrite decide_False; [done|]. by intros [?|?].
  - intros e He. rewrite A5 by done. by apply C6.
  - by rewrite A4.
Qed.

(** C9.  [EvaluateSub] on a recursive substructure.  The graph that is
    scored is the definition with one more edge, a directed edge from
    vertex 0 to itself labelled [recursiveEdgeLabel]; the definition is
    not touched.  The substructure that comes back has the given
    definition, instances, counts of instances, recursive flag and
    recursive label: [value], [numExamples] and [numNegExamples] are
    written, and the two increment values are written only in
    incremental mode by size or by set cover.  The value is the value
    of the graph with the added edge: by description length
    [DL(G+) / (DL(g) + DL(G+|g))], with a negative graph
    [(DL(G+) + DL(G-)) / (DL(g) + DL(G+|g) + DL(G-) - DL(G-|g))], where
    [DL(g)] and the external edge bits are taken on the graph [g] with
    the added edge; by size, outside incremental mode, with
    [|V| + |E| + 1] as the size of the substructure; by set cover,
    outside incremental mode, the share of examples that the instances
    decide. *)
Theorem EvaluateSub_recursive_frame sub p :
  recursive sub = true →
  graph_consistent (definition sub) →
  0 < numVertices (definition sub) →
  numEdges (definition sub) + 1 < ULONG_MODULUS →
  let sub' := (EvaluateSub sub p).1 in
  let g := scored_definition sub in
  let L := numLabels (labelList p) in
  let L' := compressed_numLabels sub p in
  let cpos := (CompressGraph (posGraph p) (deref_InstanceList (instances sub)) p).1 in
  let cneg gn := (CompressGraph gn (deref_InstanceList (negInstances sub)) p).1 in
  let sizeOfSub :=
    double_of_ULONG (uadd (numVertices (definition sub)) (numEdges (definition sub) + 1)) in
  let sizeOfCompressed graph instanceList graphType :=
    double_of_ULONG (SizeOfCompressedGraph graph instanceList p graphType).1 in
  recursive_edge_added (definition sub) (recursiveEdgeLabel sub) g
  ∧ sub' = mkSubstructure
             (definition sub) (numInstances sub) (numExamples sub') (instances sub)
             (numNegInstances sub) (numNegExamples sub') (negInstances sub)
             (value sub') true (recursiveEdgeLabel sub)
             (posIncrementValue sub') (negIncrementValue sub')
  ∧ numExamples sub' = PosExamplesCovered sub p
  ∧ numNegExamples sub'
    = match negGraph p with Some _ => NegExamplesCovered sub p | None => 0 end
  ∧ (incremental p = false ∨ evalMethod p = EVAL_MDL →
       posIncrementValue sub' = posIncrementValue sub
       ∧ negIncrementValue sub' = negIncrementValue sub)
  ∧ (evalMethod p = EVAL_MDL →
     cache_ok (log2Factorial p) → MDL_wf g → MDL_wf cpos →
     (∀ gn, negGraph p = Some gn → MDL_wf (cneg gn)) →
     value sub'
     = match negGraph p with
       | None =>
           (posGraphDL p
            / (DL g L + (DL cpos L' + ExternalEdgeBits cpos g (numInstances sub))))%R
       | Some gn =>
           ((posGraphDL p + negGraphDL p)
            / (DL g L
               + (DL cpos L' + ExternalEdgeBits cpos g (numInstances sub))
               + negGraphDL p
               - (DL (cneg gn) L'
                  + ExternalEdgeBits (cneg gn) g (numNegInstances sub))))%R
       end)
  ∧ (evalMethod p = EVAL_SIZE → incremental p = false →
     value sub'
     = match negGraph p with
       | None =>
           (double_of_ULONG (GraphSize (posGraph p))
            / (sizeOfSub + sizeOfCompressed (posGraph p) (instances sub) POS))%R
       | Some gn =>
           ((double_of_ULONG (GraphSize (posGraph p)) + double_of_ULONG (GraphSize gn))
            / (sizeOfSub + sizeOfCompressed (posGraph p) (instances sub) POS
               + double_of_ULONG (GraphSize gn)
               - sizeOfCompressed gn (negInstances sub) NEG))%R
       end)
  ∧ (evalMethod p = EVAL_SETCOVER → incremental p = false →
     value sub'
     = (double_of_ULONG
          (uadd (numExamples sub') (usub (numNegEgs p) (numNegExamples sub')))
        / double_of_ULONG (uadd (numPosEgs p) (numNegEgs p)))%R).
Proof.
  intros Hr Hc Hv Hb. cbv zeta.
  pose proof (scored_definition_recursive sub Hr Hc Hv Hb) as Hg.
  destruct (EvaluateSub_fields sub p) as (F0 & F1 & F2 & F3 & F4 & F5 & F6 & F8 & F9 & F7).
  cbv zeta in F0, F1, F2, F3, F4, F5, F6, F7, F8, F9.
  destruct (scored_sub_fields sub p) as (Hdef & Hinst & Hninst & Hnum & Hnnum).
  split; [done|]. split.
  { destruct (EvaluateSub sub p).1. cbn in *. rewrite F0 by done. congruence. }
  split; [done|]. split; [done|]. split; [done|]. split; [|split].
  - intros Hm Hcache Hwg Hwp Hwn. rewrite EvaluateSub_value_MDL by done.
    destruct (negGraph p) as [gn|] eqn:Eneg.
    + pose proof (EvaluateSub_MDL_neg (scored_sub sub p) p gn Eneg Hcache) as Hval.
      unfold DL_compressed, compressed_numLabels in Hval.
      rewrite Hdef, Hinst, Hninst, Hnum, Hnnum in Hval.
      exact (Hval Hwg Hwp (Hwn gn eq_refl)).
    + pose proof (EvaluateSub_MDL_pos (scored_sub sub p) p Eneg Hcache) as Hval.
      unfold DL_compressed, compressed_numLabels in Hval.
      rewrite Hdef, Hinst, Hninst, Hnum in Hval.
      exact (Hval Hwg Hwp).
  - intros Hm Hinc. rewrite EvaluateSub_value_SIZE by done.
    unfold EvaluateSub_SIZE. rewrite Hinc, Hdef, Hinst, Hninst.
    assert (Hsize : GraphSize (scored_definition sub)
                    = uadd (numVertices (definition sub)) (numEdges (definition sub) + 1)).
    { unfold GraphSize. by rewrite (re_numVertices _ _ _ Hg), (re_numEdges _ _ _ Hg). }
    rewrite Hsize.
    destruct (SizeOfCompressedGraph (posGraph p) (instances sub) p POS) as [size g'] eqn:Ep.
    change (negGraph (set_posGraph g' p)) with (negGraph p).
    destruct (negGraph p) as [gn|]; [|done].
    rewrite SizeOfCompressedGraph_set_posGraph.
    by destruct (SizeOfCompressedGraph gn (negInstances sub) p NEG) as [size' gn'] eqn:En.
  - intros Hm Hinc. rewrite EvaluateSub_value_SETCOVER by done.
    rewrite EvaluateSub_SETCOVER_spec by done.
    rewrite F8, F9. unfold PosExamplesCovered, NegExamplesCovered.
    by rewrite Hinst, Hninst.
Qed.

(** The substructure [A - A] built by [AddVertex] and [AddEdge], taken
    as recursive, with its two overlapping instances in
    [example_path]. *)
Definition example_sub_edge_recursive : Substructure :=
  {| definition := example_edge;
     numInstances := 2; numExamples := 0;
     instances := Some example_overlapping;
     numNegInstances := 0; numNegExamples := 0; negInstances := None;
     value := -1; recursive := true; recursiveEdgeLabel := 2;
     posIncrementValue := 0; negIncrementValue := 0 |}.

(** By size on [example_path], of size 6: the substructure counts
    2 + 1 + 1 with the recursive edge, the compressed graph 5. *)
Lemma EvaluateSub_recursive_frame_witness :
  let p := example_parameters example_path true EVAL_SIZE in
  let sub' := (EvaluateSub example_sub_edge_recursive p).1 in
  recursive_edge_added example_edge 2 (scored_definition example_sub_edge_recursive)
  ∧ definition sub' = example_edge
  ∧ instances sub' = Some example_overlapping
  ∧ numExamples sub' = 1
  ∧ value sub' = (6 / (4 + 5))%R.
Proof.
  intros p sub'.
  destruct (EvaluateSub_recursive_frame example_sub_edge_recursive p)
    as (H1 & H2 & H3 & _ & _ & _ & H5 & _).
  - reflexivity.
  - exact example_edge_consistent.
  - reflexivity.
  - reflexivity.
  - split; [exact H1|]. fold p sub' in H2, H3, H5.
    split; [by rewrite H2|]. split; [by rewrite H2|]. split; [exact H3|].
    rewrite (H5 eq_refl eq_refl). reflexivity.
Defined.

Example EvaluateSub_recursive_example :
  let g := scored_definition example_sub_edge_recursive in
  numEdges g = 2
  ∧ getE g 1 = mkEdge 0 0 2 true false false true
  ∧ vedges (getV g 0) = [0; 1]
  ∧ vedges (getV g 1) = [0].
Proof. vm_compute. done. Qed.
(** ** extend.c: extended instances keep their arrays in increasing order *)

(** The shifting loops of [CreateExtendedInstance] as they act on the
    array alone. *)
Fixpoint shift_array (x : ULONG) (i : nat) (l : list ULONG) : nat * list ULONG :=
  match i with
  | O => (O, l)
  | S k => if x <? l !!! k then shift_array x k (<[i := l !!! k]> l) else (i, l)
  end.

Lemma ivertices_CreateExtendedInstance_index edge i x :
  ivertices (CreateExtendedInstance_index edge i x) = ivertices x.
Proof. unfold CreateExtendedInstance_index. by repeat case_match. Qed.

Lemma iedges_CreateExtendedInstance_index edge i x :
  iedges (CreateExtendedInstance_index edge i x) = iedges x.
Proof. unfold CreateExtendedInstance_index. by repeat case_match. Qed.

Lemma parentInstance_CreateExtendedInstance_index edge i x :
  parentInstance (CreateExtendedInstance_index edge i x) = parentInstance x.
Proof. unfold CreateExtendedInstance_index. by repeat case_match. Qed.

Lemma newVertex_CreateExtendedInstance_index edge i x :
  newVertex (CreateExtendedInstance_index edge i x) = newVertex x.
Proof. unfold CreateExtendedInstance_index. by repeat case_match. Qed.

Lemma CreateExtendedInstance_shift_array edge v2 i x :
  let r := CreateExtendedInstance_shift edge v2 i x in
  r.1 = (shift_array v2 i (ivertices x)).1
  ∧ ivertices r.2 = (shift_array v2 i (ivertices x)).2
  ∧ iedges r.2 = iedges x
  ∧ parentInstance r.2 = parentInstance x.
Proof.
  cbv zeta. revert x. induction i as [|k IH]; intros x;
    cbn [CreateExtendedInstance_shift shift_array]; [done|].
  destruct (_ <? _); [|done].
  destruct (IH (CreateExtendedInstance_index edge (N.of_nat (S k))
                  (set_mapping
                     (<[S k := mkVertexMap (N.of_nat (S k))
                                 (vm_v2 (mapping
                                    (set_ivertices (<[S k := ivertices x !!! k]>
                                                      (ivertices x)) x) !!! k))]>
                        (mapping (set_ivertices (<[S k := ivertices x !!! k]>
                                                   (ivertices x)) x)))
                     (set_ivertices (<[S k := ivertices x !!! k]> (ivertices x)) x))))
    as (H1 & H2 & H3 & H4).
  rewrite ivertices_CreateExtendedInstance_index in H1, H2.
  rewrite iedges_CreateExtendedInstance_index in H3.
  rewrite parentInstance_CreateExtendedInstance_index in H4.
  done.
Qed.

Lemma CreateExtendedInstance_shiftEdges_array e i x :
  let r := CreateExtendedInstance_shiftEdges e i x in
  r.1 = (shift_array e i (iedges x)).1
  ∧ iedges r.2 = (shift_array e i (iedges x)).2
  ∧ ivertices r.2 = ivertices x
  ∧ parentInstance r.2 = parentInstance x
  ∧ newVertex r.2 = newVertex x.
Proof.
  cbv zeta. revert x. induction i as [|k IH]; intros x;
    cbn [CreateExtendedInstance_shiftEdges shift_array]; [done|].
  destruct (_ <? _); [|done].
  destruct (IH (set_iedges (<[S k := iedges x !!! k]> (iedges x)) x))
    as (H1 & H2 & H3 & H4 & H5).
  done.
Qed.

(** The loop opens a gap at the place of [x]: the elements from the
    gap on are greater than [x], the one before it is not. *)
Lemma shift_array_spec (x : ULONG) (a : list ULONG) (i : nat) (d : ULONG) :
  (i ≤ length a)%nat →
  (∀ y, y ∈ drop i a → x < y) →
  let r := shift_array x i (take i a ++ d :: drop i a) in
  (r.1 ≤ i)%nat
  ∧ <[r.1 := x]> r.2 = take r.1 a ++ x :: drop r.1 a
  ∧ (∀ y, y ∈ drop r.1 a → x < y)
  ∧ (r.1 = O ∨ ¬ x < a !!! (r.1 - 1)%nat).
Proof.
  cbv zeta. revert d. induction i as [|k IH]; intros d Hi Hgt.
  - cbn [shift_array fst snd]. rewrite take_0, drop_0. cbn. by auto.
  - cbn [shift_array].
    assert (Hk : (k < length a)%nat) by lia.
    assert (El : (take (S k) a ++ d :: drop (S k) a) !!! k = a !!! k).
    { rewrite lookup_total_app_l by (rewrite length_take; lia).
      by rewrite lookup_total_take_lt by lia. }
    rewrite El.
    destruct (x <? a !!! k) eqn:E.
    + apply N.ltb_lt in E.
      assert (Es : <[S k := a !!! k]> (take (S k) a ++ d :: drop (S k) a)
                   = take k a ++ a !!! k :: drop k a).
      { rewrite insert_app_r_alt by (rewrite length_take; lia).
        rewrite length_take, Nat.min_l by lia.
        replace (S k - S k)%nat with O by lia. cbn [insert list_insert].
        rewrite (take_S_r a k (a !!! k)) by (by apply list_lookup_lookup_total_lt).
        rewrite <- app_assoc. cbn.
        by rewrite <- (drop_S a (a !!! k) k) by (by apply list_lookup_lookup_total_lt). }
      rewrite Es.
      assert (Hgt' : ∀ y, y ∈ drop k a → x < y).
      { intros y Hy.
        rewrite (drop_S a (a !!! k) k) in Hy by (by apply list_lookup_lookup_total_lt).
        apply elem_of_cons in Hy as [-> | Hy]; [done | by apply Hgt]. }
      destruct (IH (a !!! k) ltac:(lia) Hgt') as (H1 & H2 & H3 & H4).
      split; [lia|]. done.
    + apply N.ltb_ge in E. cbn [fst snd].
      split; [done|]. split; [|split; [done|]].
      * rewrite insert_app_r_alt by (rewrite length_take; lia).
        rewrite length_take, Nat.min_l by lia.
        replace (S k - S k)%nat with O by lia. done.
      * right. replace (S k - 1)%nat with k by lia. lia.
Qed.

Lemma increasing_insert_gap (x : ULONG) (a : list ULONG) (k : nat) :
  increasing a →
  x ∉ a →
  (k ≤ length a)%nat →
  (∀ y, y ∈ drop k a → x < y) →
  (k = O ∨ ¬ x < a !!! (k - 1)%nat) →
  increasing (take k a ++ x :: drop k a).
Proof.
  intros Ha Hx Hk Hgt Hle.
  destruct (increasing_take_drop a k Ha) as (Ht & Hd & Htd).
  unfold increasing in *. apply StronglySorted_app.
  split; [|split; [done|]].
  2: { apply SSorted_cons; [done|]. apply Forall_forall. by intros y Hy; apply Hgt. }
  - intros y z Hy Hz. apply elem_of_cons in Hz as [-> | Hz]; [|by apply Htd].
    destruct (decide (k = O)) as [-> | Hk0];
      [by rewrite take_0 in Hy; apply elem_of_nil in Hy|].
    destruct Hle as [? | Hle]; [done|].
    assert (Hk1 : (k - 1 < length a)%nat) by lia.
    assert (Hlast : a !!! (k - 1)%nat < x).
    { assert (a !!! (k - 1)%nat ≠ x).
      { intros <-. apply Hx. by apply list_elem_of_lookup_total_2. }
      lia. }
    apply list_elem_of_lookup in Hy as [j Hj].
    apply lookup_take_Some in Hj as [Hj Hjk].
    destruct (decide (j = k - 1)%nat) as [-> | Hne].
    { apply list_lookup_total_correct in Hj. by rewrite Hj in Hlast. }
    transitivity (a !!! (k - 1)%nat); [|done].
    destruct (increasing_take_drop a (k - 1) Ha) as (_ & _ & H).
    apply H.
    + apply list_elem_of_lookup. exists j. apply lookup_take_Some. split; [done|lia].
    + rewrite (drop_S a (a !!! (k - 1)%nat) (k - 1))
        by (by apply list_lookup_lookup_total_lt). left.
Qed.

Lemma elem_of_insert_gap (x y : ULONG) (a : list ULONG) (k : nat) :
  y ∈ take k a ++ x :: drop k a ↔ y ∈ a ∨ y = x.
Proof.
  rewrite elem_of_app, elem_of_cons.
  rewrite <- (take_drop k a) at 3. rewrite elem_of_app. tauto.
Qed.

(** The copying loops fill the first slots of the new array. *)
Lemma copy_array_insert (a l : list ULONG) (i : nat) :
  (i < length a)%nat → (length a ≤ length l)%nat →
  <[i := a !!! i]> (take i a ++ drop i l) = take (S i) a ++ drop (S i) l.
Proof.
  intros Hi Hl.
  rewrite insert_app_r_alt by (rewrite length_take; lia).
  rewrite length_take, Nat.min_l by lia. replace (i - i)%nat with O by lia.
  rewrite (drop_S l (l !!! i) i) by (apply list_lookup_lookup_total_lt; lia).
  cbn [insert list_insert].
  rewrite (take_S_r a i (a !!! i)) by (by apply list_lookup_lookup_total_lt).
  by rewrite <- app_assoc.
Qed.

Lemma CreateExtendedInstance_copy_spec instance edge x :
  (length (ivertices instance) ≤ length (ivertices x))%nat →
  let r := ULONG_for (inumVertices instance) (CreateExtendedInstance_copy instance edge) x in
  ivertices r = ivertices instance ++ drop (length (ivertices instance)) (ivertices x)
  ∧ iedges r = iedges x
  ∧ parentInstance r = parentInstance x.
Proof.
  intros Hl. cbv zeta.
  pose proof (ULONG_for_ind
    (λ i st, ivertices st = take i (ivertices instance) ++ drop i (ivertices x)
             ∧ iedges st = iedges x ∧ parentInstance st = parentInstance x)
    (inumVertices instance) (CreateExtendedInstance_copy instance edge) x) as H.
  cbv beta in H.
  assert (En : N.to_nat (inumVertices instance) = length (ivertices instance))
    by (unfold inumVertices; lia).
  rewrite En, firstn_all in H. apply H; clear H.
  - by rewrite take_0, drop_0.
  - intros i st Hi (Hv & He & Hp).
    unfold CreateExtendedInstance_copy.
    rewrite ivertices_CreateExtendedInstance_index, iedges_CreateExtendedInstance_index,
      parentInstance_CreateExtendedInstance_index.
    cbn [set_mapping set_ivertices ivertices iedges parentInstance].
    rewrite Nat2N.id, Hv. split; [|done]. by apply copy_array_insert.
Qed.

Lemma CreateExtendedInstance_copyEdges_spec instance x :
  (length (iedges instance) ≤ length (iedges x))%nat →
  let r := ULONG_for (inumEdges instance)
             (λ i newInstance,
                set_iedges (<[N.to_nat i := iedges instance !!! N.to_nat i]>
                              (iedges newInstance)) newInstance) x in
  iedges r = iedges instance ++ drop (length (iedges instance)) (iedges x)
  ∧ ivertices r = ivertices x
  ∧ parentInstance r = parentInstance x
  ∧ newVertex r = newVertex x.
Proof.
  intros Hl. cbv zeta.
  pose proof (ULONG_for_ind
    (λ i st, iedges st = take i (iedges instance) ++ drop i (iedges x)
             ∧ ivertices st = ivertices x ∧ parentInstance st = parentInstance x
             ∧ newVertex st = newVertex x)
    (inumEdges instance)
    (λ i newInstance,
       set_iedges (<[N.to_nat i := iedges instance !!! N.to_nat i]>
                     (iedges newInstance)) newInstance) x) as H.
  cbv beta in H.
  assert (En : N.to_nat (inumEdges instance) = length (iedges instance))
    by (unfold inumEdges; lia).
  rewrite En, firstn_all in H. apply H; clear H.
  - by rewrite take_0, drop_0.
  - intros i st Hi (He & Hv & Hp & Hn).
    cbn [set_iedges ivertices iedges parentInstance newVertex].
    rewrite Nat2N.id, He. split; [|done]. by apply copy_array_insert.
Qed.

(** The other endpoint of edge [e] as seen from vertex [v]. *)
Definition other_vertex (graph : Graph) (v e : ULONG) : ULONG :=
  if vertex1 (getE graph e) =? v then vertex2 (getE graph e) else vertex1 (getE graph e).

Lemma CreateExtendedInstance_spec instance v e graph :
  N.of_nat (length (ivertices instance)) + 1 < ULONG_MODULUS →
  N.of_nat (length (iedges instance)) + 1 < ULONG_MODULUS →
  increasing (ivertices instance) →
  increasing (iedges instance) →
  e ∉ iedges instance →
  let r := CreateExtendedInstance instance v e graph in
  let v2 := other_vertex graph v e in
  increasing (ivertices r)
  ∧ increasing (iedges r)
  ∧ (∀ x, x ∈ ivertices r ↔ x ∈ ivertices instance ∨ x = v2)
  ∧ (∀ x, x ∈ iedges r ↔ x ∈ iedges instance ∨ x = e)
  ∧ iedges r !! N.to_nat (newEdge r) = Some e
  ∧ (if decide (v2 ∈ ivertices instance)
     then ivertices r = ivertices instance ∧ newVertex r = VERTEX_UNMAPPED
     else ivertices r !! N.to_nat (newVertex r) = Some v2)
  ∧ parentInstance r = Some instance.
Proof.
  intros Hbv Hbe Hiv Hie Hne. cbv zeta. unfold CreateExtendedInstance, other_vertex.
  set (edge := getE graph e).
  set (v2 := if vertex1 edge =? v then vertex2 edge else vertex1 edge).
  set (found := existsb (λ x, x =? v2) (ivertices instance)).
  assert (Hfound : found = true ↔ v2 ∈ ivertices instance).
  { unfold found. rewrite existsb_exists. split.
    - intros (y & Hy & E). apply N.eqb_eq in E. subst y. by apply list_elem_of_In.
    - intros H. exists v2. split; [by apply list_elem_of_In | apply N.eqb_refl]. }
  set (nv := length (ivertices instance)).
  set (ne := length (iedges instance)).
  set (x0 := if negb found then AllocateInstance _ _ else AllocateInstance _ _).
  assert (H0e : iedges x0 = replicate (S ne) 0).
  { unfold x0, inumEdges. fold ne. rewrite (uadd_small (N.of_nat ne) 1) by done.
    destruct (negb found); unfold AllocateInstance; cbn [iedges]; f_equal; lia. }
  assert (H0v : ivertices x0
                = replicate (if negb found then S nv else nv) 0).
  { unfold x0, inumVertices. fold nv. destruct (negb found); unfold AllocateInstance;
      cbn [ivertices]; [|by rewrite Nat2N.id].
    rewrite (uadd_small (N.of_nat nv) 1) by done.
    by replace (N.to_nat (N.of_nat nv + 1)) with (S nv) by lia. }
  set (x1 := set_parentInstance _ x0).
  destruct (CreateExtendedInstance_copy_spec instance edge x1) as (H2v & H2e & H2p).
  { cbn. rewrite H0v, length_replicate. fold nv. destruct (negb found); lia. }
  set (x2 := ULONG_for _ (CreateExtendedInstance_copy instance edge) x1) in *.
  fold nv in H2v. cbn [x1 set_parentInstance ivertices iedges parentInstance] in H2v, H2e, H2p.
  rewrite H0v in H2v. rewrite H0e in H2e.
  set (x3 := set_newVertex VERTEX_UNMAPPED x2).
  set (x4 := if negb found then _ else x3).
  assert (H4 : iedges x4 = replicate (S ne) 0
               ∧ parentInstance x4 = Some instance
               ∧ increasing (ivertices x4)
               ∧ (∀ x, x ∈ ivertices x4 ↔ x ∈ ivertices instance ∨ x = v2)
               ∧ (if decide (v2 ∈ ivertices instance)
                  then ivertices x4 = ivertices instance ∧ newVertex x4 = VERTEX_UNMAPPED
                  else ivertices x4 !! N.to_nat (newVertex x4) = Some v2)).
  { unfold x4. destruct found eqn:Ef; cbn [negb] in *.
    - assert (Hin : v2 ∈ ivertices instance) by (by apply Hfound).
      rewrite decide_True by done.
      assert (Ev : ivertices x3 = ivertices instance).
      { cbn. rewrite H2v. rewrite drop_replicate. replace (nv - nv)%nat with O by lia.
        cbn. by rewrite app_nil_r. }
      cbn [x3 set_newVertex iedges parentInstance newVertex].
      rewrite Ev. repeat split; try done.
      + by left.
      + by intros [? | ->].
    - assert (Hnin : v2 ∉ ivertices instance).
      { intros H. apply Hfound in H. done. }
      rewrite decide_False by done.
      assert (Ev : ivertices x3 = take nv (ivertices instance)
                                  ++ 0 :: drop nv (ivertices instance)).
      { cbn. rewrite H2v. rewrite drop_replicate.
        replace (S nv - nv)%nat with 1%nat by lia. cbn.
        unfold nv. by rewrite firstn_all, drop_all. }
      destruct (CreateExtendedInstance_shift_array edge v2 nv x3) as (S1 & S2 & S3 & S4).
      assert (Hnil : ∀ y, y ∈ drop nv (ivertices instance) → v2 < y).
      { unfold nv. rewrite drop_all. by intros y Hy; apply elem_of_nil in Hy. }
      destruct (shift_array_spec v2 (ivertices instance) nv 0 ltac:(done) Hnil)
        as (A1 & A2 & A3 & A4).
      rewrite <- Ev in A1, A2, A3, A4. rewrite <- S1 in A1, A2, A3, A4.
      rewrite <- S2 in A2.
      destruct (CreateExtendedInstance_shift edge v2 nv x3) as [i x]. cbn [fst snd] in *.
      rewrite ivertices_CreateExtendedInstance_index, iedges_CreateExtendedInstance_index,
        parentInstance_CreateExtendedInstance_index, newVertex_CreateExtendedInstance_index.
      cbn [set_mapping set_newVertex set_ivertices ivertices iedges parentInstance newVertex].
      rewrite Nat2N.id, A2, S3, S4. cbn [x3 set_newVertex iedges parentInstance].
      split; [done|]. split; [done|]. split; [|split].
      + by apply increasing_insert_gap.
      + intros y. apply elem_of_insert_gap.
      + rewrite lookup_app_r by (rewrite length_take; lia).
        rewrite length_take, Nat.min_l by (fold nv; lia).
        by replace (i - i)%nat with O by lia. }
  clearbody x4. destruct H4 as (H4e & H4p & H4i & H4v & H4n).
  destruct (CreateExtendedInstance_copyEdges_spec instance x4) as (H5e & H5v & H5p & H5n).
  { rewrite H4e, length_replicate. fold ne. lia. }
  set (x5 := ULONG_for _ _ x4) in *.
  fold ne in H5e. rewrite H4e, drop_replicate in H5e.
  replace (S ne - ne)%nat with 1%nat in H5e by lia. cbn in H5e.
  assert (Ee : iedges x5 = take ne (iedges instance) ++ 0 :: drop ne (iedges instance)).
  { rewrite H5e. unfold ne. by rewrite firstn_all, drop_all. }
  destruct (CreateExtendedInstance_shiftEdges_array e ne x5) as (S1 & S2 & S3 & S4 & S5).
  assert (Hnil : ∀ y, y ∈ drop ne (iedges instance) → e < y).
  { unfold ne. rewrite drop_all. by intros y Hy; apply elem_of_nil in Hy. }
  destruct (shift_array_spec e (iedges instance) ne 0 ltac:(done) Hnil)
    as (A1 & A2 & A3 & A4).
  rewrite <- Ee in A1, A2, A3, A4. rewrite <- S1 in A1, A2, A3, A4.
  rewrite <- S2 in A2.
  destruct (CreateExtendedInstance_shiftEdges e ne x5) as [i x]. cbn [fst snd] in *.
  cbn [set_newEdge set_iedges ivertices iedges parentInstance newVertex newEdge].
  rewrite Nat2N.id, A2, S3, S4, S5, H5v, H5p, H5n.
  split; [done|]. split; [by apply increasing_insert_gap|].
  split; [done|]. split; [intros y; apply elem_of_insert_gap|].
  split; [|done].
  rewrite lookup_app_r by (rewrite length_take; lia).
  rewrite length_take, Nat.min_l by (fold ne; lia).
  by replace (i - i)%nat with O by lia.
Qed.

(** X24.  [CreateExtendedInstance] keeps the arrays of an instance in
    increasing order.  For an instance with increasing vertex and edge
    arrays and an edge [e] of the graph that is not one of its edges,
    the new instance has increasing arrays, its edges are those of the
    instance and [e], and its vertices those of the instance and the
    other endpoint of [e].  [newEdge] is the index of [e] in the new edge
    array; [newVertex] is the index of the other endpoint if that
    vertex is new, and [VERTEX_UNMAPPED] if the instance had it, in
    which case the vertex array is the old one.  The given instance is
    the parent of the new one. *)
Theorem CreateExtendedInstance_increasing instance v e graph :
  (N.to_nat e < length (edges graph))%nat →
  N.of_nat (length (ivertices instance)) + 1 < ULONG_MODULUS →
  N.of_nat (length (iedges instance)) + 1 < ULONG_MODULUS →
  increasing (ivertices instance) →
  increasing (iedges instance) →
  e ∉ iedges instance →
  let r := CreateExtendedInstance instance v e graph in
  let v2 := other_vertex graph v e in
  increasing (ivertices r)
  ∧ increasing (iedges r)
  ∧ (∀ x, x ∈ ivertices r ↔ x ∈ ivertices instance ∨ x = v2)
  ∧ (∀ x, x ∈ iedges r ↔ x ∈ iedges instance ∨ x = e)
  ∧ iedges r !! N.to_nat (newEdge r) = Some e
  ∧ (if decide (v2 ∈ ivertices instance)
     then ivertices r = ivertices instance ∧ newVertex r = VERTEX_UNMAPPED
     else ivertices r !! N.to_nat (newVertex r) = Some v2)
  ∧ parentInstance r = Some instance.
Proof. intros _. apply CreateExtendedInstance_spec. Qed.

Lemma CreateExtendedInstance_increasing_witness :
  let instance := example_instance [1; 2] [1] in
  let r := CreateExtendedInstance instance 1 0 example_path in
  let v2 := other_vertex example_path 1 0 in
  increasing (ivertices r)
  ∧ increasing (iedges r)
  ∧ (∀ x, x ∈ ivertices r ↔ x ∈ ivertices instance ∨ x = v2)
  ∧ (∀ x, x ∈ iedges r ↔ x ∈ iedges instance ∨ x = 0)
  ∧ iedges r !! N.to_nat (newEdge r) = Some 0
  ∧ (if decide (v2 ∈ ivertices instance)
     then ivertices r = ivertices instance ∧ newVertex r = VERTEX_UNMAPPED
     else ivertices r !! N.to_nat (newVertex r) = Some v2)
  ∧ parentInstance r = Some instance.
Proof.
  apply (CreateExtendedInstance_increasing (example_instance [1; 2] [1]) 1 0 example_path).
  - simpl. lia.
  - reflexivity.
  - reflexivity.
  - simpl. repeat constructor.
  - simpl. repeat constructor.
  - simpl. intros H. apply list_elem_of_singleton in H. discriminate H.
Defined.

(** On the example: the instance [1 - 2] extended along vertex 1 by
    the edge 0 gets the vertex 0 and the edge 0 in front. *)
Example CreateExtendedInstance_example :
  let r := CreateExtendedInstance (example_instance [1; 2] [1]) 1 0 example_path in
  ivertices r = [0; 1; 2] ∧ iedges r = [0; 1] ∧ newVertex r = 0 ∧ newEdge r = 0.
Proof. by vm_compute. Qed.
(** ** extend.c: the instances that [ExtendInstances] returns *)

Lemma set_eused_idemp b b' (x : Edge) : set_eused b (set_eused b' x) = set_eused b x.
Proof. done. Qed.

(** [MarkInstanceEdges] sets the flag of the edges of the instance and
    leaves every other edge and every vertex as it is. *)
Lemma MarkInstanceEdges_spec instance graph value :
  (∀ e, e ∈ iedges instance → (N.to_nat e < length (edges graph))%nat) →
  let g := MarkInstanceEdges instance graph value in
  vertices g = vertices graph
  ∧ length (edges g) = length (edges graph)
  ∧ ∀ j, getE g j = if decide (j ∈ iedges instance)
                    then set_eused value (getE graph j) else getE graph j.
Proof.
  cbv zeta. unfold MarkInstanceEdges. generalize (iedges instance) as l.
  intros l. revert graph. induction l as [|a l IH]; intros graph Hr; cbn [foldl].
  - split; [done|]. split; [done|]. intros j. rewrite decide_False; [done|].
    apply not_elem_of_nil.
  - assert (Ha : (N.to_nat a < length (edges graph))%nat) by (apply Hr; left).
    destruct (IH (updE graph a (set_eused value))) as (H1 & H2 & H3).
    { intros e He. unfold updE. cbn. rewrite length_alter. apply Hr. by right. }
    split; [by rewrite H1|].
    split; [rewrite H2; unfold updE; cbn; by rewrite length_alter|].
    intros j. rewrite H3, (getE_updE graph a j) by done.
    destruct (decide (j = a)) as [->|Hne].
    + rewrite (decide_True (P := a ∈ a :: l)) by left.
      by destruct (decide (a ∈ l)).
    + destruct (decide (j ∈ l)) as [Hj|Hj].
      * rewrite decide_True by (by right). done.
      * rewrite decide_False; [done|]. intros H.
        apply elem_of_cons in H as [?|?]; done.
Qed.

(** What [ExtendInstances] asks of an instance: arrays in increasing
    order, edges and vertices that are edges and vertices of the graph,
    and room for one more vertex and edge. *)
Definition extendable (graph : Graph) (instance : Instance) : Prop :=
  increasing (ivertices instance)
  ∧ increasing (iedges instance)
  ∧ (∀ e, e ∈ iedges instance → (N.to_nat e < length (edges graph))%nat)
  ∧ N.of_nat (length (ivertices instance)) + 1 < ULONG_MODULUS
  ∧ N.of_nat (length (iedges instance)) + 1 < ULONG_MODULUS
  ∧ (∀ v, v ∈ ivertices instance → (N.to_nat v < length (vertices graph))%nat).

(** What it asks of the graph: the edge arrays of the vertices hold
    indices of edges of the graph. *)
Definition vertex_edges_in_range (graph : Graph) : Prop :=
  Forall (λ vertex, Forall (λ e, (N.to_nat e < length (edges graph))%nat) (vedges vertex))
         (vertices graph).

(** [r] is [instance] with one more edge, which is an edge of one of
    its vertices, and with the other endpoint of that edge. *)
Definition extends_by_edge (graph : Graph) (instance r : Instance) : Prop :=
  ∃ v e, v ∈ ivertices instance
         ∧ e ∈ vedges (getV graph v)
         ∧ (e ∉ iedges instance)
         ∧ (∀ x, x ∈ ivertices r ↔ x ∈ ivertices instance ∨ x = other_vertex graph v e)
         ∧ (∀ x, x ∈ iedges r ↔ x ∈ iedges instance ∨ x = e).

Definition extension_of (graph : Graph) (instances : list Instance) (r : Instance) : Prop :=
  increasing (ivertices r)
  ∧ increasing (iedges r)
  ∧ ∃ instance, instance ∈ instances
                ∧ parentInstance r = Some instance
                ∧ extends_by_edge graph instance r.

(** The graph [g] is [graph] with some of the [used] flags of its edges
    cleared. *)
Definition flags_cleared (graph g : Graph) : Prop :=
  vertices g = vertices graph
  ∧ length (edges g) = length (edges graph)
  ∧ ∀ j, getE g j = getE graph j ∨ getE g j = set_eused false (getE graph j).

Lemma instances_distinct_InstanceListInsert instance instanceList :
  instances_distinct instanceList →
  instances_distinct (InstanceListInsert instance instanceList true).
Proof.
  intros Hd. unfold InstanceListInsert. cbn [negb orb andb].
  pose proof (MemberOfInstanceList_spec instance instanceList) as Hm.
  destruct (MemberOfInstanceList instance instanceList) eqn:E; cbn [negb]; [done|].
  unfold instances_distinct. rewrite fmap_cons. cbn. apply NoDup_cons. split; [|done].
  intros H. apply Hm in H. done.
Qed.

Lemma Forall_InstanceListInsert_arrays (P : Instance → Prop) instance instanceList :
  (∀ x, P x → P (set_refCount (uadd (refCount x) 1) x)) →
  P instance → Forall P instanceList →
  Forall P (InstanceListInsert instance instanceList true).
Proof.
  intros HP Hx Hl. unfold InstanceListInsert. destruct (_ || _); [|done].
  constructor; [by apply HP | done].
Qed.

(** X25.  [ExtendInstances] returns extensions by one edge.  For a
    list of instances with increasing arrays whose vertices and edges
    are vertices and edges of the graph, no two instances of the
    returned list have the same vertices and edges; each of them has
    increasing arrays, has one of the given instances as its parent,
    and consists of the parent, one further edge of a vertex of the
    parent and the other endpoint of that edge.  The graph comes back
    with its vertices and edges; only [used] flags of edges may have
    been cleared. *)
Theorem ExtendInstances_extensions instanceList graph :
  vertex_edges_in_range graph →
  Forall (extendable graph) (deref_InstanceList instanceList) →
  let r := ExtendInstances instanceList graph in
  instances_distinct r.1
  ∧ Forall (extension_of graph (deref_InstanceList instanceList)) r.1
  ∧ flags_cleared graph r.2.
Proof.
  intros _ Hall. cbv zeta. unfold ExtendInstances.
  set (insts := deref_InstanceList instanceList) in *.
  apply (foldl_invariant
           (λ st, instances_distinct st.1
                  ∧ Forall (extension_of graph insts) st.1
                  ∧ flags_cleared graph st.2)).
  { split; [apply NoDup_nil_2|]. split; [constructor|]. split; [done|].
    split; [done|]. by left. }
  intros [l g] instance (Hd & Hl & Hg) Hin. cbn [fst snd] in Hd, Hl, Hg.
  rewrite Forall_forall in Hall.
  destruct (Hall _ Hin) as (Hiv & Hie & Hrange & Hbv & Hbe & _).
  destruct Hg as (Hgv & Hgl & Hge).
  unfold ExtendInstances_instance.
  destruct (MarkInstanceEdges_spec instance g true) as (M1 & M2 & M3).
  { intros e He. rewrite Hgl. by apply Hrange. }
  set (g1 := MarkInstanceEdges instance g true) in *.
  destruct (MarkInstanceEdges_spec instance g1 false) as (N1 & N2 & N3).
  { intros e He. rewrite M2, Hgl. by apply Hrange. }
  set (g2 := MarkInstanceEdges instance g1 false) in *.
  assert (Hg1 : ∀ v e, other_vertex g1 v e = other_vertex graph v e).
  { intros v e. unfold other_vertex. rewrite M3.
    destruct (decide (e ∈ iedges instance)); by destruct (Hge e) as [-> | ->]. }
  cbn [fst snd]. split; [|split].
  - apply (foldl_invariant instances_distinct); [done|].
    intros l1 v Hl1 _. unfold ExtendInstances_edges.
    apply (foldl_invariant instances_distinct); [done|].
    intros l2 e Hl2 _. destruct (negb _); [|done].
    by apply instances_distinct_InstanceListInsert.
  - apply (foldl_invariant (Forall (extension_of graph insts))); [done|].
    intros l1 v Hl1 Hv. unfold ExtendInstances_edges.
    apply (foldl_invariant (Forall (extension_of graph insts))); [done|].
    intros l2 e Hl2 He. destruct (eused (getE g1 e)) eqn:Eu; cbn [negb]; [done|].
    assert (Hne : e ∉ iedges instance).
    { intros H. rewrite M3, decide_True in Eu by done. done. }
    apply Forall_InstanceListInsert_arrays; [by intros x Hx| |done].
    destruct (CreateExtendedInstance_spec instance v e g1 Hbv Hbe Hiv Hie Hne)
      as (C1 & C2 & C3 & C4 & _ & _ & C7).
    split; [done|]. split; [done|]. exists instance. split; [done|]. split; [done|].
    exists v, e. split; [done|]. split.
    { unfold getV in *. by rewrite M1, Hgv in He. }
    split; [done|]. split; [|done]. intros x. by rewrite C3, Hg1.
  - split; [by rewrite N1, M1|]. split; [by rewrite N2, M2|].
    intros j. rewrite N3, M3.
    destruct (decide (j ∈ iedges instance)); [|done].
    rewrite set_eused_idemp. destruct (Hge j) as [-> | ->]; by right.
Qed.

Lemma example_path_in_range : vertex_edges_in_range example_path.
Proof. unfold vertex_edges_in_range. simpl. repeat constructor. Qed.

Lemma example_overlapping_extendable :
  Forall (extendable example_path) example_overlapping.
Proof.
  unfold example_overlapping.
  apply Forall_cons; split; [|apply Forall_cons; split; [|constructor]];
    (split; [simpl; repeat constructor|]; split; [simpl; repeat constructor|];
     split; [|split; [reflexivity|]; split; [reflexivity|]]);
    intros e He; simpl in He; repeat (apply elem_of_cons in He as [-> | He]);
    simpl; first [lia | by apply elem_of_nil in He].
Qed.

Lemma ExtendInstances_extensions_witness :
  let r := ExtendInstances (Some example_overlapping) example_path in
  instances_distinct r.1
  ∧ Forall (extension_of example_path example_overlapping) r.1
  ∧ flags_cleared example_path r.2.
Proof.
  apply (ExtendInstances_extensions (Some example_overlapping) example_path).
  - apply example_path_in_range.
  - apply example_overlapping_extendable.
Defined.
(** ** extend.c: [ExtendInstances] misses no extension *)

(** A loop reaches what one of its steps establishes and the later
    steps keep. *)
Lemma foldl_establish {A B : Type} (I P : A → Prop) (f : A → B → A) (l : list B)
    (s : A) (b : B) :
  (∀ a c, I a → c ∈ l → I (f a c)) →
  (∀ a c, I a → c ∈ l → P a → P (f a c)) →
  (∀ a, I a → P (f a b)) →
  I s → b ∈ l → P (foldl f s l).
Proof.
  revert s. induction l as [|c l IH]; intros s HI HP Hb Hs Hin.
  - by apply elem_of_nil in Hin.
  - cbn [foldl]. apply elem_of_cons in Hin as [-> | Hin].
    + assert (H : I (foldl f (f s c) l) ∧ P (foldl f (f s c) l)); [|by destruct H].
      apply (foldl_invariant (λ a, I a ∧ P a)).
      * split; [apply HI; [done|left] | by apply Hb].
      * intros a d [Ha Hp] Hd. split; [apply HI | apply HP]; try done; by right.
    + apply IH; try done.
      * intros a d Ha Hd. apply HI; [done | by right].
      * intros a d Ha Hd. apply HP; [done | by right].
      * apply HI; [done | left].
Qed.

Section Extensions.

(** A property of the arrays of an instance. *)
Variable A : Instance → Prop.
Hypothesis A_arrays :
  ∀ x y, ivertices x = ivertices y → iedges x = iedges y → A x → A y.

Definition holds_one (l : list Instance) : Prop := ∃ x, x ∈ l ∧ A x.

Lemma holds_one_InstanceListInsert_keeps instance l :
  holds_one l → holds_one (InstanceListInsert instance l true).
Proof.
  intros (x & Hx & Ha). exists x. split; [|done].
  unfold InstanceListInsert. destruct (_ || _); [by right | done].
Qed.

Lemma holds_one_InstanceListInsert instance l :
  A instance → holds_one (InstanceListInsert instance l true).
Proof.
  intros Ha. unfold InstanceListInsert. cbn [negb orb andb].
  pose proof (MemberOfInstanceList_spec instance l) as Hm.
  destruct (MemberOfInstanceList instance l) eqn:E; cbn [negb].
  - destruct Hm as [Hm _]. specialize (Hm eq_refl).
    apply list_elem_of_fmap in Hm as (i & [= Hv He] & Hi).
    exists i. split; [done|]. by apply (A_arrays instance).
  - eexists. split; [left|]. by apply (A_arrays instance).
Qed.

Lemma holds_one_ExtendInstances_edges instance graph v l :
  holds_one l → holds_one (ExtendInstances_edges instance graph v l).
Proof.
  intros H. unfold ExtendInstances_edges. apply (foldl_invariant holds_one); [done|].
  intros l' e Hl' _. destruct (negb _); [|done].
  by apply holds_one_InstanceListInsert_keeps.
Qed.

Lemma holds_one_ExtendInstances_instance st instance :
  holds_one st.1 → holds_one (ExtendInstances_instance st instance).1.
Proof.
  destruct st as [l g]. intros H. unfold ExtendInstances_instance. cbn [fst].
  apply (foldl_invariant holds_one); [done|].
  intros l' v Hl' _. by apply holds_one_ExtendInstances_edges.
Qed.

End Extensions.

Lemma ExtendInstances_instance_flags graph st instance :
  extendable graph instance →
  flags_cleared graph st.2 →
  flags_cleared graph (ExtendInstances_instance st instance).2.
Proof.
  destruct st as [l g]. intros (_ & _ & Hrange & _ & _) (Hgv & Hgl & Hge).
  unfold ExtendInstances_instance. cbn [fst snd] in *.
  destruct (MarkInstanceEdges_spec instance g true) as (M1 & M2 & M3).
  { intros e He. rewrite Hgl. by apply Hrange. }
  set (g1 := MarkInstanceEdges instance g true) in *.
  destruct (MarkInstanceEdges_spec instance g1 false) as (N1 & N2 & N3).
  { intros e He. rewrite M2, Hgl. by apply Hrange. }
  split; [by rewrite N1, M1|]. split; [by rewrite N2, M2|].
  intros j. rewrite N3, M3.
  destruct (decide (j ∈ iedges instance)); [|done].
  rewrite set_eused_idemp. destruct (Hge j) as [-> | ->]; by right.
Qed.

(** X26.  [ExtendInstances] misses no extension.  For a list of
    instances with increasing arrays whose vertices and edges are
    vertices and edges of the graph, every edge of a vertex of one of the instances that is not
    an edge of that instance and is not marked as used gives an
    instance of the returned list: one whose edges are those of the
    instance and the edge, and whose vertices are those of the instance
    and the other endpoint of the edge. *)
Theorem ExtendInstances_complete instanceList graph instance v e :
  vertex_edges_in_range graph →
  Forall (extendable graph) (deref_InstanceList instanceList) →
  instance ∈ deref_InstanceList instanceList →
  v ∈ ivertices instance →
  e ∈ vedges (getV graph v) →
  e ∉ iedges instance →
  eused (getE graph e) = false →
  ∃ r, r ∈ (ExtendInstances instanceList graph).1
       ∧ (∀ x, x ∈ ivertices r ↔ x ∈ ivertices instance ∨ x = other_vertex graph v e)
       ∧ (∀ x, x ∈ iedges r ↔ x ∈ iedges instance ∨ x = e).
Proof.
  intros _ Hall Hin Hv He Hne Hu.
  set (A := λ r : Instance,
         (∀ x, x ∈ ivertices r ↔ x ∈ ivertices instance ∨ x = other_vertex graph v e)
         ∧ (∀ x, x ∈ iedges r ↔ x ∈ iedges instance ∨ x = e)).
  assert (A_arrays : ∀ x y, ivertices x = ivertices y → iedges x = iedges y → A x → A y).
  { intros x y Ev Ee [H1 H2]. unfold A. by rewrite <- Ev, <- Ee. }
  change (holds_one A (ExtendInstances instanceList graph).1).
  unfold ExtendInstances. set (insts := deref_InstanceList instanceList) in *.
  rewrite Forall_forall in Hall.
  apply (foldl_establish (λ st, flags_cleared graph st.2) (λ st, holds_one A st.1)
           ExtendInstances_instance insts ([], graph) instance); [| | | |done].
  - intros st c Hst Hc. apply ExtendInstances_instance_flags; [by apply Hall | done].
  - intros st c _ _ Hst. by apply holds_one_ExtendInstances_instance.
  - intros [l g] (Hgv & Hgl & Hge). cbn [fst snd] in *.
    destruct (Hall _ Hin) as (Hiv & Hie & Hrange & Hbv & Hbe & _).
    unfold ExtendInstances_instance. cbn [fst].
    destruct (MarkInstanceEdges_spec instance g true) as (M1 & M2 & M3).
    { intros e' He'. rewrite Hgl. by apply Hrange. }
    set (g1 := MarkInstanceEdges instance g true) in *.
    assert (Hg1 : other_vertex g1 v e = other_vertex graph v e).
    { unfold other_vertex. rewrite M3, decide_False by done.
      by destruct (Hge e) as [-> | ->]. }
    assert (Hu1 : eused (getE g1 e) = false).
    { rewrite M3, decide_False by done. by destruct (Hge e) as [-> | ->]. }
    apply (foldl_establish (λ _, True) (holds_one A)
             (λ newInstanceList v, ExtendInstances_edges instance g1 v newInstanceList)
             (ivertices instance) l v); [done| | |done|done].
    + intros l' c _ _ Hl'. by apply holds_one_ExtendInstances_edges.
    + intros l' _. unfold ExtendInstances_edges.
      apply (foldl_establish (λ _, True) (holds_one A)
               (λ newInstanceList e,
                  if negb (eused (getE g1 e))
                  then InstanceListInsert (CreateExtendedInstance instance v e g1)
                                          newInstanceList true
                  else newInstanceList)
               (vedges (getV g1 v)) l' e); [done| | |done|].
      * intros l2 c _ _ Hl2. destruct (negb _); [|done].
        by apply holds_one_InstanceListInsert_keeps.
      * intros l2 _. rewrite Hu1. cbn [negb].
        apply holds_one_InstanceListInsert; [done|].
        destruct (CreateExtendedInstance_spec instance v e g1 Hbv Hbe Hiv Hie Hne)
          as (_ & _ & C3 & C4 & _).
        split; [|done]. intros x. by rewrite C3, Hg1.
      * unfold getV in *. by rewrite M1, Hgv.
  - split; [done|]. split; [done|]. by left.
Qed.

Lemma ExtendInstances_complete_witness :
  let instance := example_instance [0; 1] [0] in
  ∃ r, r ∈ (ExtendInstances (Some example_overlapping) example_path).1
       ∧ (∀ x, x ∈ ivertices r ↔ x ∈ ivertices instance ∨ x = other_vertex example_path 1 2)
       ∧ (∀ x, x ∈ iedges r ↔ x ∈ iedges instance ∨ x = 2).
Proof.
  apply (ExtendInstances_complete (Some example_overlapping) example_path
           (example_instance [0; 1] [0]) 1 2).
  - apply example_path_in_range.
  - apply example_overlapping_extendable.
  - simpl. left.
  - simpl. right. left.
  - simpl. right. right. left.
  - simpl. intros H. apply list_elem_of_singleton in H. discriminate H.
  - reflexivity.
Defined.
(** ** subops.c: marking the edges of an instance, and overlap in a list *)

Lemma MarkInstanceEdges_counts instance graph value :
  let g := MarkInstanceEdges instance graph value in
  numVertices g = numVertices graph ∧ numEdges g = numEdges graph.
Proof.
  cbv zeta. unfold MarkInstanceEdges.
  apply (foldl_invariant
           (λ g, numVertices g = numVertices graph ∧ numEdges g = numEdges graph));
    [done|].
  by intros g ie [? ?] _.
Qed.

Lemma graph_eq (g g' : Graph) :
  numVertices g = numVertices g' → numEdges g = numEdges g' →
  vertices g = vertices g' →
  length (edges g) = length (edges g') →
  (∀ j, getE g j = getE g' j) →
  g = g'.
Proof.
  destruct g as [nv ne vs es], g' as [nv' ne' vs' es']. cbn.
  intros -> -> -> Hl He. f_equal. apply list_eq. intros i.
  destruct (decide (i < length es)%nat) as [Hi|Hi].
  - rewrite (list_lookup_lookup_total_lt es i), (list_lookup_lookup_total_lt es' i) by lia.
    f_equal. specialize (He (N.of_nat i)). unfold getE in He. cbn in He.
    by rewrite Nat2N.id in He.
  - by rewrite !lookup_ge_None_2 by lia.
Qed.

(** X27.  [MarkInstanceEdges] with TRUE sets the [used] flag of the
    edges of the instance and of no other edge, and changes nothing
    else in the graph; if none of these edges was marked, a second call
    with FALSE gives the graph back as it was. *)
Theorem MarkInstanceEdges_round_trip instance graph :
  (∀ e, e ∈ iedges instance → (N.to_nat e < length (edges graph))%nat) →
  (∀ e, e ∈ iedges instance → eused (getE graph e) = false) →
  let g := MarkInstanceEdges instance graph true in
  (∀ j, getE g j = if decide (j ∈ iedges instance)
                   then set_eused true (getE graph j) else getE graph j)
  ∧ vertices g = vertices graph
  ∧ MarkInstanceEdges instance g false = graph.
Proof.
  intros Hr Hu. cbv zeta.
  destruct (MarkInstanceEdges_spec instance graph true Hr) as (M1 & M2 & M3).
  destruct (MarkInstanceEdges_counts instance graph true) as (M4 & M5).
  set (g := MarkInstanceEdges instance graph true) in *.
  split; [done|]. split; [done|].
  destruct (MarkInstanceEdges_spec instance g false) as (N1 & N2 & N3).
  { intros e He. rewrite M2. by apply Hr. }
  destruct (MarkInstanceEdges_counts instance g false) as (N4 & N5).
  apply graph_eq; [congruence..|].
  intros j. rewrite N3, M3. destruct (decide (j ∈ iedges instance)) as [Hj|Hj]; [|done].
  rewrite set_eused_idemp. specialize (Hu j Hj).
  destruct (getE graph j). cbn in *. by subst.
Qed.

Lemma MarkInstanceEdges_round_trip_witness :
  let instance := example_instance [0; 1] [0] in
  let g := MarkInstanceEdges instance example_path true in
  (∀ j, getE g j = if decide (j ∈ iedges instance)
                   then set_eused true (getE example_path j) else getE example_path j)
  ∧ vertices g = vertices example_path
  ∧ MarkInstanceEdges instance g false = example_path.
Proof.
  apply (MarkInstanceEdges_round_trip (example_instance [0; 1] [0]) example_path).
  - simpl. intros e He. apply list_elem_of_singleton in He. subst e. simpl. lia.
  - simpl. intros e He. apply list_elem_of_singleton in He. subst e. reflexivity.
Defined.

(** Two instances of the list, at different places, share a vertex. *)
Definition share_vertex (l : list Instance) : Prop :=
  ∃ (i j : nat) instance1 instance2 v,
    (i < j)%nat ∧ l !! i = Some instance1 ∧ l !! j = Some instance2
    ∧ v ∈ ivertices instance1 ∧ v ∈ ivertices instance2.

Lemma InstanceListOverlap_spec instance l :
  increasing (ivertices instance) →
  Forall (λ x, increasing (ivertices x)) l →
  InstanceListOverlap instance (Some l) = true
  ↔ ∃ x v, x ∈ l ∧ v ∈ ivertices instance ∧ v ∈ ivertices x.
Proof.
  intros Hi Hl. unfold InstanceListOverlap. rewrite existsb_exists.
  rewrite Forall_forall in Hl. split.
  - intros (x & Hx & Ho). apply list_elem_of_In in Hx.
    apply InstanceOverlap_loop_spec in Ho as (v & Hv1 & Hv2); [|done|by apply Hl].
    by exists x, v.
  - intros (x & v & Hx & Hv1 & Hv2). exists x. split; [by apply list_elem_of_In|].
    apply InstanceOverlap_loop_spec; [done|by apply Hl|]. by exists v.
Qed.

(** X28.  On a list of instances with increasing vertex arrays,
    [InstanceListOverlap] tells whether the given instance shares a
    vertex with an instance of the list, and [InstancesOverlap] whether
    two instances at different places of the list share a vertex. *)
Theorem InstancesOverlap_share_vertex instance l :
  increasing (ivertices instance) →
  Forall (λ x, increasing (ivertices x)) l →
  (InstanceListOverlap instance (Some l) = true
   ↔ ∃ x v, x ∈ l ∧ v ∈ ivertices instance ∧ v ∈ ivertices x)
  ∧ (InstancesOverlap (Some l) = true ↔ share_vertex l).
Proof.
  intros Hi Hl. split; [by apply InstanceListOverlap_spec|].
  clear Hi instance. unfold InstancesOverlap.
  induction l as [|a l IH]; cbn [InstancesOverlap_loop].
  - split; [done|]. intros (i & j & x & y & v & _ & H & _). done.
  - apply Forall_cons in Hl as [Ha Hl]. specialize (IH Hl).
    rewrite orb_true_iff, IH.
    pose proof (InstanceListOverlap_spec a l Ha Hl) as Hs.
    unfold InstanceListOverlap in Hs. rewrite Hs. clear Hs IH. split.
    + intros [(x & v & Hx & Hv1 & Hv2) | (i & j & x & y & v & Hij & Hx & Hy & Hv1 & Hv2)].
      * apply list_elem_of_lookup in Hx as [j Hj].
        exists O, (S j), a, x, v. repeat split; try done. lia.
      * exists (S i), (S j), x, y, v. repeat split; try done. lia.
    + intros (i & j & x & y & v & Hij & Hx & Hy & Hv1 & Hv2).
      destruct j as [|j]; [lia|]. cbn in Hy.
      destruct i as [|i]; cbn in Hx.
      * injection Hx as ->. left. exists y, v. split; [|done].
        by apply list_elem_of_lookup_2 in Hy.
      * right. exists i, j, x, y, v. repeat split; try done. lia.
Qed.

Lemma InstancesOverlap_share_vertex_witness :
  (InstanceListOverlap (example_instance [0; 1] [0]) (Some example_overlapping) = true
   ↔ ∃ x v, x ∈ example_overlapping ∧ v ∈ ivertices (example_instance [0; 1] [0])
            ∧ v ∈ ivertices x)
  ∧ (InstancesOverlap (Some example_overlapping) = true
     ↔ share_vertex example_overlapping).
Proof.
  apply (InstancesOverlap_share_vertex (example_instance [0; 1] [0]) example_overlapping).
  - simpl. repeat constructor.
  - unfold example_overlapping. repeat (apply Forall_cons; split); simpl;
      repeat constructor.
Defined.
(** ** subops.c: the graph of an instance *)

(** The search for the endpoints of an edge finds their places in the
    vertex array of the instance. *)
Lemma InstanceToGraph_find_spec (full : list ULONG) (edge : Edge) :
  N.of_nat (length full) < ULONG_MODULUS →
  ∀ rest pre j v1 v2 (found1 found2 : bool),
    full = pre ++ rest → j = N.of_nat (length pre) →
    (if found1 then full !! N.to_nat v1 = Some (vertex1 edge) else vertex1 edge ∈ rest) →
    (if found2 then full !! N.to_nat v2 = Some (vertex2 edge) else vertex2 edge ∈ rest) →
    full !! N.to_nat (InstanceToGraph_find rest edge j v1 v2 found1 found2).1
      = Some (vertex1 edge)
    ∧ full !! N.to_nat (InstanceToGraph_find rest edge j v1 v2 found1 found2).2
      = Some (vertex2 edge).
Proof.
  intros Hb rest. induction rest as [|x rest IH];
    intros pre j v1 v2 f1 f2 Hfull Hj H1 H2; cbn [InstanceToGraph_find].
  - destruct f1; [|by apply elem_of_nil in H1].
    destruct f2; [|by apply elem_of_nil in H2]. done.
  - destruct (f1 && f2) eqn:Ef.
    { apply andb_true_iff in Ef as [-> ->]. done. }
    assert (Hfull' : full = (pre ++ [x]) ++ rest) by (by rewrite <- app_assoc).
    assert (Hlen : (length pre < length full)%nat).
    { rewrite Hfull, length_app. cbn. lia. }
    assert (Hj' : uadd j 1 = N.of_nat (length (pre ++ [x]))).
    { rewrite uadd_small by lia. rewrite length_app. cbn. lia. }
    assert (Hx : full !! N.to_nat j = Some x).
    { rewrite Hj, Nat2N.id, Hfull. apply list_lookup_middle. done. }
    destruct (N.eqb_spec x (vertex1 edge)) as [E1|E1];
      destruct (N.eqb_spec x (vertex2 edge)) as [E2|E2].
    + apply (IH (pre ++ [x])); try done; congruence.
    + apply (IH (pre ++ [x])); try done; [congruence|].
      destruct f2; [done|]. apply elem_of_cons in H2 as [?|?]; [congruence|done].
    + apply (IH (pre ++ [x])); try done; [|congruence].
      destruct f1; [done|]. apply elem_of_cons in H1 as [?|?]; [congruence|done].
    + apply (IH (pre ++ [x])); try done.
      * destruct f1; [done|]. apply elem_of_cons in H1 as [?|?]; [congruence|done].
      * destruct f2; [done|]. apply elem_of_cons in H2 as [?|?]; [congruence|done].
Qed.

(** The instance is a part of the graph: its vertices and edges are
    vertices and edges of the graph, and the endpoints of its edges
    are among its vertices. *)
Record instance_in_graph (instance : Instance) (graph : Graph) : Prop := {
  ig_vertices : ∀ v, v ∈ ivertices instance → (N.to_nat v < length (vertices graph))%nat;
  ig_edges : ∀ e, e ∈ iedges instance → (N.to_nat e < length (edges graph))%nat;
  ig_endpoints : ∀ e, e ∈ iedges instance →
    vertex1 (getE graph e) ∈ ivertices instance
    ∧ vertex2 (getE graph e) ∈ ivertices instance;
  ig_numVertices : N.of_nat (length (ivertices instance)) < ULONG_MODULUS;
  ig_numEdges : N.of_nat (length (iedges instance)) < ULONG_MODULUS
}.

(** Edge [j] of the new graph joins the places of the endpoints of the
    [j]-th edge of the instance and has its label and direction. *)
Definition edge_of_instance (instance : Instance) (graph g : Graph) (j : ULONG) : Prop :=
  let edge := getE graph (iedges instance !!! N.to_nat j) in
  ivertices instance !! N.to_nat (vertex1 (getE g j)) = Some (vertex1 edge)
  ∧ ivertices instance !! N.to_nat (vertex2 (getE g j)) = Some (vertex2 edge)
  ∧ elabel (getE g j) = elabel edge
  ∧ directed (getE g j) = directed edge
  ∧ eused (getE g j) = false.

Lemma InstanceToGraph_vertices_spec instance graph g0 :
  length (vertices g0) = length (ivertices instance) →
  (∀ k, vedges (getV g0 k) = []) →
  let g := ULONG_for (inumVertices instance) (InstanceToGraph_vertex instance graph) g0 in
  numVertices g = numVertices g0 ∧ numEdges g = numEdges g0
  ∧ edges g = edges g0
  ∧ length (vertices g) = length (ivertices instance)
  ∧ (∀ k, k < inumVertices instance →
          vlabel (getV g k) = vlabel (getV graph (ivertices instance !!! N.to_nat k)))
  ∧ (∀ k, vedges (getV g k) = []).
Proof.
  intros Hl H0. cbv zeta.
  pose proof (ULONG_for_ind
    (λ i g, numVertices g = numVertices g0 ∧ numEdges g = numEdges g0
            ∧ edges g = edges g0
            ∧ length (vertices g) = length (ivertices instance)
            ∧ (∀ k, k < N.of_nat i →
                    vlabel (getV g k)
                    = vlabel (getV graph (ivertices instance !!! N.to_nat k)))
            ∧ (∀ k, vedges (getV g k) = []))
    (inumVertices instance) (InstanceToGraph_vertex instance graph) g0) as H.
  cbv beta in H. rewrite N2Nat.id in H. apply H; clear H.
  - repeat split; try done. intros k Hk. lia.
  - intros i g Hi (H1 & H2 & H3 & H4 & H5 & H6).
    unfold inumVertices in Hi. rewrite Nat2N.id in Hi.
    unfold InstanceToGraph_vertex.
    split; [done|]. split; [done|]. split; [done|].
    split; [unfold updV; cbn; by rewrite length_alter|].
    split.
    + intros k Hk. rewrite getV_updV by (rewrite Nat2N.id; lia).
      destruct (decide (k = N.of_nat i)) as [->|Hne]; [by rewrite Nat2N.id|].
      apply H5. lia.
    + intros k. rewrite getV_updV by (rewrite Nat2N.id; lia).
      by destruct (decide (k = N.of_nat i)).
Qed.

Record InstanceToGraph_inv (instance : Instance) (graph : Graph) (i : nat) (g : Graph)
    : Prop := {
  ii_numVertices : numVertices g = inumVertices instance;
  ii_numEdges : numEdges g = inumEdges instance;
  ii_vertices : length (vertices g) = length (ivertices instance);
  ii_edges : length (edges g) = length (iedges instance);
  ii_labels : ∀ k, k < inumVertices instance →
    vlabel (getV g k) = vlabel (getV graph (ivertices instance !!! N.to_nat k));
  ii_edge : ∀ j, j < N.of_nat i → edge_of_instance instance graph g j;
  ii_vedges : ∀ k e, k < inumVertices instance →
    e ∈ vedges (getV g k)
    ↔ e < N.of_nat i ∧ (vertex1 (getE g e) = k ∨ vertex2 (getE g e) = k);
  ii_increasing : ∀ k, k < inumVertices instance → increasing (vedges (getV g k))
}.

Lemma InstanceToGraph_edge_inv instance graph i g v1 v2 :
  instance_in_graph instance graph →
  (i < length (iedges instance))%nat →
  InstanceToGraph_inv instance graph i g →
  InstanceToGraph_inv instance graph (S i)
    (InstanceToGraph_edge instance graph (N.of_nat i) (g, v1, v2)).1.1.
Proof.
  intros Hig Hi Hinv. destruct Hig as [Hgv Hge Hend Hnv Hne].
  destruct Hinv as [I1 I2 I3 I4 I5 I6 I7 I8].
  unfold InstanceToGraph_edge. rewrite Nat2N.id.
  set (edge := getE graph (iedges instance !!! i)).
  assert (Hin : iedges instance !!! i ∈ iedges instance)
    by (by apply list_elem_of_lookup_total_2).
  destruct (Hend _ Hin) as [He1 He2]. fold edge in He1, He2.
  destruct (InstanceToGraph_find_spec (ivertices instance) edge Hnv
              (ivertices instance) [] 0 v1 v2 false false) as [F1 F2]; try done.
  destruct (InstanceToGraph_find (ivertices instance) edge 0 v1 v2 false false)
    as [p1 p2]. cbn [fst snd] in F1, F2 |- *.
  assert (Hp1 : (N.to_nat p1 < length (ivertices instance))%nat)
    by (by apply lookup_lt_Some in F1).
  assert (Hp2 : (N.to_nat p2 < length (ivertices instance))%nat)
    by (by apply lookup_lt_Some in F2).
  set (new := λ old : Edge, mkEdge p1 p2 (elabel edge) (directed edge) false
                                   (spansIncrement old) (validPath old)).
  set (g1 := updE g (N.of_nat i) new).
  set (app := λ vx : Vertex, set_vedges (vedges vx ++ [N.of_nat i]) vx).
  set (g2 := updV g1 p1 app).
  set (g3 := if negb (p1 =? p2) then updV g2 p2 app else g2).
  assert (E3 : ∀ j, getE g3 j = if decide (j = N.of_nat i) then new (getE g (N.of_nat i))
                                else getE g j).
  { intros j. rewrite <- (getE_updE g (N.of_nat i) j new) by (rewrite Nat2N.id; lia).
    unfold g3. by destruct (negb (p1 =? p2)). }
  assert (L2 : length (vertices g2) = length (ivertices instance)).
  { unfold g2, updV. cbn. by rewrite length_alter. }
  assert (V3 : ∀ k, getV g3 k = if decide (k = p1 ∨ k = p2) then app (getV g k)
                                else getV g k).
  { intros k. unfold g3. destruct (N.eqb_spec p1 p2) as [Heq|Hneq]; cbn [negb].
    - unfold g2. rewrite getV_updV by (unfold g1, updE; cbn; lia).
      subst p2. destruct (decide (k = p1)) as [->|Hk].
      + by rewrite decide_True by (by left).
      + by rewrite decide_False by tauto.
    - rewrite getV_updV by lia. unfold g2.
      rewrite !getV_updV by (unfold g1, updE; cbn; lia).
      destruct (decide (k = p2)) as [->|H2].
      + rewrite decide_False by done. by rewrite decide_True by (by right).
      + destruct (decide (k = p1)) as [->|Hk].
        * by rewrite decide_True by (by left).
        * by rewrite decide_False by tauto. }
  assert (C3 : numVertices g3 = numVertices g ∧ numEdges g3 = numEdges g
               ∧ length (vertices g3) = length (vertices g)
               ∧ length (edges g3) = length (edges g)).
  { unfold g3, g2, g1, updV, updE. destruct (negb _); cbn; rewrite ?length_alter; done. }
  destruct C3 as (C1 & C2 & C3 & C4). clearbody g3. split.
  - congruence.
  - congruence.
  - congruence.
  - congruence.
  - intros k Hk. rewrite V3. destruct (decide _); cbn; by apply I5.
  - intros j Hj. unfold edge_of_instance. rewrite E3.
    destruct (decide (j = N.of_nat i)) as [->|Hji].
    + rewrite Nat2N.id. done.
    + assert (Hj' : j < N.of_nat i) by lia. apply (I6 j Hj').
  - intros k e Hk. rewrite V3, E3.
    destruct (decide (k = p1 ∨ k = p2)) as [Hkp|Hkp];
      destruct (decide (e = N.of_nat i)) as [->|Hei]; cbn.
    + rewrite elem_of_app, list_elem_of_singleton. split; [|by auto].
      intros _. split; [lia|]. destruct Hkp; by auto.
    + rewrite elem_of_app, list_elem_of_singleton, (I7 k e Hk). split.
      * intros [[? ?]|?]; [|done]. split; [lia|done].
      * intros [? ?]. left. split; [lia|done].
    + rewrite (I7 k _ Hk). split; [intros [? _]; lia|].
      intros [_ [?|?]]; exfalso; apply Hkp; by auto.
    + rewrite (I7 k e Hk). split; intros [? ?]; (split; [lia|done]).
  - intros k Hk. rewrite V3. destruct (decide _); cbn; [|by apply I8].
    apply increasing_snoc; [by apply I8|].
    intros y Hy. by apply (I7 k y Hk) in Hy as [? _].
Qed.

Lemma InstanceToGraph_spec instance graph :
  instance_in_graph instance graph →
  InstanceToGraph_inv instance graph (length (iedges instance))
                      (InstanceToGraph instance graph).
Proof.
  intros Hig. unfold InstanceToGraph.
  set (g0 := AllocateGraph (inumVertices instance) (inumEdges instance)).
  destruct (InstanceToGraph_vertices_spec instance graph g0)
    as (H1 & H2 & H3 & H4 & H5 & H6).
  { unfold g0, AllocateGraph, inumVertices. cbn. by rewrite length_replicate, Nat2N.id. }
  { intros k. unfold g0, AllocateGraph, getV. cbn.
    destruct (decide (N.to_nat k < N.to_nat (inumVertices instance))%nat).
    - by rewrite lookup_total_replicate_2.
    - rewrite list_lookup_total_alt, lookup_ge_None_2; [done|].
      rewrite length_replicate. lia. }
  set (g1 := ULONG_for _ (InstanceToGraph_vertex instance graph) g0) in *.
  pose proof (ULONG_for_ind
    (λ i st, InstanceToGraph_inv instance graph i st.1.1)
    (inumEdges instance) (InstanceToGraph_edge instance graph) (g1, 0, 0)) as H.
  cbv beta in H.
  assert (En : N.to_nat (inumEdges instance) = length (iedges instance))
    by (unfold inumEdges; lia).
  rewrite En in H. apply H; clear H.
  - cbn [fst]. split; try done.
    + rewrite H3. unfold g0, AllocateGraph. cbn. by rewrite length_replicate.
    + intros j Hj. lia.
    + intros k e Hk. rewrite H6. split; [by intros ?%elem_of_nil | intros [? _]; lia].
    + intros k Hk. rewrite H6. constructor.
  - intros i [[g v1] v2] Hi Hinv. cbn [fst] in Hinv.
    by apply InstanceToGraph_edge_inv.
Qed.

(** X29.  [InstanceToGraph] builds a well-formed graph from an
    instance whose edges have their endpoints among its vertices.  The
    graph has one vertex for each vertex of the instance, with its
    label, and one edge for each edge of the instance, with its label
    and direction, that joins the places of its endpoints in the
    vertex array of the instance; no edge is marked.  The edge array of
    each vertex lists in increasing order the edges that have the
    vertex as an endpoint. *)
Theorem InstanceToGraph_consistent instance graph :
  instance_in_graph instance graph →
  let g := InstanceToGraph instance graph in
  graph_consistent g
  ∧ numVertices g = inumVertices instance
  ∧ numEdges g = inumEdges instance
  ∧ (∀ k, k < numVertices g →
          vlabel (getV g k) = vlabel (getV graph (ivertices instance !!! N.to_nat k)))
  ∧ (∀ j, j < numEdges g → edge_of_instance instance graph g j).
Proof.
  intros Hig. cbv zeta.
  destruct (InstanceToGraph_spec instance graph Hig) as [I1 I2 I3 I4 I5 I6 I7 I8].
  destruct Hig as [Hgv Hge Hend Hnv Hne].
  set (g := InstanceToGraph instance graph) in *.
  assert (Hne' : N.of_nat (length (iedges instance)) = numEdges g)
    by (by rewrite I2).
  split; [|split; [done|split; [done|split]]].
  - split.
    + split; unfold inumVertices, inumEdges in *; lia.
    + intros e He. destruct (I6 e) as (F1 & F2 & _); [lia|].
      apply lookup_lt_Some in F1, F2. rewrite I1. unfold inumVertices. lia.
    + intros v e Hv. rewrite I1 in Hv. rewrite (I7 v e Hv), Hne'. done.
    + intros v Hv. rewrite I1 in Hv. by apply I8.
  - intros k Hk. rewrite I1 in Hk. by apply I5.
  - intros j Hj. apply I6. lia.
Qed.

Lemma example_instance_in_graph :
  instance_in_graph (example_instance [0; 1] [0]) example_path.
Proof.
  split; simpl.
  - intros v Hv. repeat (apply elem_of_cons in Hv as [->|Hv]); simpl;
      first [lia | by apply elem_of_nil in Hv].
  - intros e He. apply list_elem_of_singleton in He. subst e. simpl. lia.
  - intros e He. apply list_elem_of_singleton in He. subst e.
    split; [left | right; left].
  - reflexivity.
  - reflexivity.
Qed.

Lemma InstanceToGraph_consistent_witness :
  let instance := example_instance [0; 1] [0] in
  let g := InstanceToGraph instance example_path in
  graph_consistent g
  ∧ numVertices g = inumVertices instance
  ∧ numEdges g = inumEdges instance
  ∧ (∀ k, k < numVertices g →
          vlabel (getV g k)
          = vlabel (getV example_path (ivertices instance !!! N.to_nat k)))
  ∧ (∀ j, j < numEdges g → edge_of_instance instance example_path g j).
Proof.
  apply (InstanceToGraph_consistent (example_instance [0; 1] [0]) example_path).
  apply example_instance_in_graph.
Defined.
(** ** graphmatch.c: the order in which the matcher takes the vertices *)

(** [while ((j > 0) && (degree > vertexDegree[j-1]))]: returns the
    index at which the loop ends and the two arrays. *)
Fixpoint OrderVerticesByDegree_shift (degree : ULONG) (j : nat)
    (st : list ULONG * list ULONG) : nat * (list ULONG * list ULONG) :=
  match j with
  | O => (O, st)
  | S k =>
      let '(vertexDegree, orderedVertices) := st in
      if vertexDegree !!! k <? degree
      then OrderVerticesByDegree_shift degree k
             (<[j := vertexDegree !!! k]> vertexDegree,
              <[j := orderedVertices !!! k]> orderedVertices)
      else (j, st)
  end.

Definition OrderVerticesByDegree_insert (g : Graph) (i : ULONG)
    (st : list ULONG * list ULONG) : list ULONG * list ULONG :=
  let degree := vnumEdges (getV g i) in
  let '(j, (vertexDegree, orderedVertices)) :=
    OrderVerticesByDegree_shift degree (N.to_nat i) st in
  (<[j := degree]> vertexDegree, <[j := i]> orderedVertices).

(** The slots of [vertexDegree] come from [malloc]; each is written
    before it is read.  The function returns the array of the caller. *)
Definition OrderVerticesByDegree (g : Graph) (orderedVertices : list ULONG)
    : list ULONG :=
  let nv := numVertices g in
  let vertexDegree := replicate (N.to_nat nv) 0 in
  (ULONG_for nv (OrderVerticesByDegree_insert g) (vertexDegree, orderedVertices)).2.

(** Vertex [a] comes before vertex [b]: it has more edges, or as many
    and the smaller index. *)
Definition degree_before (g : Graph) (a b : ULONG) : Prop :=
  vnumEdges (getV g b) < vnumEdges (getV g a)
  ∨ (vnumEdges (getV g a) = vnumEdges (getV g b) ∧ a < b).

Lemma shift_insert_middle {X : Type} (l t : list X) (k : nat) (d x : X) :
  (k ≤ length l)%nat →
  <[k := x]> (take k l ++ d :: drop k l ++ t) = take k l ++ x :: drop k l ++ t.
Proof.
  intros Hk. rewrite insert_app_r_alt by (rewrite length_take; lia).
  rewrite length_take, Nat.min_l by lia. by replace (k - k)%nat with O by lia.
Qed.

Lemma shift_insert_step {X : Type} `{Inhabited X} (l t : list X) (k : nat) (d : X) :
  (k < length l)%nat →
  <[S k := l !!! k]> (take (S k) l ++ d :: drop (S k) l ++ t)
  = take k l ++ l !!! k :: drop k l ++ t.
Proof.
  intros Hk. rewrite shift_insert_middle by lia.
  rewrite (take_S_r l k (l !!! k)) by (by apply list_lookup_lookup_total_lt).
  rewrite (drop_S l (l !!! k) k) by (by apply list_lookup_lookup_total_lt).
  by rewrite <- app_assoc.
Qed.

Lemma shift_lookup_before {X : Type} `{Inhabited X} (l t : list X) (k : nat) (d : X) :
  (k < length l)%nat →
  (take (S k) l ++ d :: drop (S k) l ++ t) !!! k = l !!! k.
Proof.
  intros Hk. rewrite lookup_total_app_l by (rewrite length_take; lia).
  by rewrite lookup_total_take_lt by lia.
Qed.

Lemma OrderVerticesByDegree_shift_spec (degree : ULONG) (ds os t1 t2 : list ULONG)
    (j : nat) (d o : ULONG) :
  length ds = length os →
  (j ≤ length ds)%nat →
  (∀ y, y ∈ drop j ds → y < degree) →
  let r := OrderVerticesByDegree_shift degree j
             (take j ds ++ d :: drop j ds ++ t1, take j os ++ o :: drop j os ++ t2) in
  (r.1 ≤ j)%nat
  ∧ (∀ x, <[r.1 := x]> r.2.1 = take r.1 ds ++ x :: drop r.1 ds ++ t1)
  ∧ (∀ x, <[r.1 := x]> r.2.2 = take r.1 os ++ x :: drop r.1 os ++ t2)
  ∧ (∀ y, y ∈ drop r.1 ds → y < degree)
  ∧ (r.1 = O ∨ ¬ ds !!! (r.1 - 1)%nat < degree).
Proof.
  intros Hl. cbv zeta. revert d o. induction j as [|k IH]; intros d o Hj Hlt.
  - cbn [OrderVerticesByDegree_shift fst snd]. rewrite !take_0, !drop_0. cbn.
    split; [done|]. split; [done|]. split; [done|]. split; [|by left].
    intros y Hy. apply Hlt. by rewrite drop_0.
  - cbn [OrderVerticesByDegree_shift].
    rewrite !shift_lookup_before by lia.
    destruct (ds !!! k <? degree) eqn:E.
    + apply N.ltb_lt in E. rewrite !shift_insert_step by lia.
      assert (Hlt' : ∀ y, y ∈ drop k ds → y < degree).
      { intros y Hy.
        rewrite (drop_S ds (ds !!! k) k) in Hy by (apply list_lookup_lookup_total_lt; lia).
        apply elem_of_cons in Hy as [-> | Hy]; [done | by apply Hlt]. }
      destruct (IH (ds !!! k) (os !!! k) ltac:(lia) Hlt') as (H1 & H2 & H3 & H4 & H5).
      split; [lia|]. done.
    + apply N.ltb_ge in E. cbn [fst snd].
      split; [done|]. split; [|split; [|split; [done|]]].
      * intros x. by apply shift_insert_middle.
      * intros x. apply shift_insert_middle. lia.
      * right. replace (S k - 1)%nat with k by lia. lia.
Qed.

Record OrderVerticesByDegree_inv (g : Graph) (i : nat) (st : list ULONG * list ULONG)
    (t1 t2 : list ULONG) : Prop := {
  oi_degrees : take i st.1 = (λ v, vnumEdges (getV g v)) <$> take i st.2;
  oi_length1 : (i ≤ length st.1)%nat;
  oi_length2 : (i ≤ length st.2)%nat;
  oi_rest1 : drop i st.1 = t1;
  oi_rest2 : drop i st.2 = t2;
  oi_perm : take i st.2 ≡ₚ N.of_nat <$> seq 0 i;
  oi_sorted : StronglySorted (degree_before g) (take i st.2)
}.

Lemma OrderVerticesByDegree_insert_inv g i st d o t1 t2 :
  OrderVerticesByDegree_inv g i st (d :: t1) (o :: t2) →
  OrderVerticesByDegree_inv g (S i) (OrderVerticesByDegree_insert g (N.of_nat i) st) t1 t2.
Proof.
  destruct st as [vd ov]. intros [I1 I2 I3 I4 I5 I6 I7]. cbn [fst snd] in *.
  set (ds := take i vd) in *. set (os := take i ov) in *.
  assert (Lds : length ds = i) by (unfold ds; rewrite length_take; lia).
  assert (Los : length os = i) by (unfold os; rewrite length_take; lia).
  assert (Evd : vd = take i ds ++ d :: drop i ds ++ t1).
  { rewrite take_ge, drop_ge by lia. cbn. unfold ds. rewrite <- I4.
    symmetry. apply take_drop. }
  assert (Eov : ov = take i os ++ o :: drop i os ++ t2).
  { rewrite take_ge, drop_ge by lia. cbn. unfold os. rewrite <- I5.
    symmetry. apply take_drop. }
  unfold OrderVerticesByDegree_insert. rewrite Nat2N.id.
  set (degree := vnumEdges (getV g (N.of_nat i))).
  assert (Hnil : ∀ y, y ∈ drop i ds → y < degree).
  { rewrite drop_ge by lia. by intros y Hy; apply elem_of_nil in Hy. }
  destruct (OrderVerticesByDegree_shift_spec degree ds os t1 t2 i d o
              ltac:(lia) ltac:(lia) Hnil) as (S1 & S2 & S3 & S4 & S5).
  rewrite <- Evd, <- Eov in S1, S2, S3, S4, S5.
  destruct (OrderVerticesByDegree_shift degree i (vd, ov)) as [k [vd' ov']].
  cbn [fst snd] in *. rewrite (S2 degree), (S3 (N.of_nat i)).
  assert (T1 : take (S i) (take k ds ++ degree :: drop k ds ++ t1)
               = take k ds ++ degree :: drop k ds).
  { rewrite app_comm_cons, app_assoc. apply take_app_length'.
    rewrite length_app. cbn. rewrite length_take, length_drop. lia. }
  assert (T2 : take (S i) (take k os ++ N.of_nat i :: drop k os ++ t2)
               = take k os ++ N.of_nat i :: drop k os).
  { rewrite app_comm_cons, app_assoc. apply take_app_length'.
    rewrite length_app. cbn. rewrite length_take, length_drop. lia. }
  assert (D1 : drop (S i) (take k ds ++ degree :: drop k ds ++ t1) = t1).
  { rewrite app_comm_cons, app_assoc. apply drop_app_length'.
    rewrite length_app. cbn. rewrite length_take, length_drop. lia. }
  assert (D2 : drop (S i) (take k os ++ N.of_nat i :: drop k os ++ t2) = t2).
  { rewrite app_comm_cons, app_assoc. apply drop_app_length'.
    rewrite length_app. cbn. rewrite length_take, length_drop. lia. }
  assert (Hlt : ∀ y, y ∈ os → y < N.of_nat i).
  { intros y Hy. rewrite I6 in Hy. apply list_elem_of_fmap in Hy as (m & -> & Hm).
    apply elem_of_seq in Hm. lia. }
  split; cbn [fst snd].
  - rewrite T1, T2, I1, fmap_app, fmap_cons, fmap_take, fmap_drop. done.
  - rewrite !length_app. cbn. rewrite !length_app, length_take, length_drop. lia.
  - rewrite !length_app. cbn. rewrite !length_app, length_take, length_drop. lia.
  - done.
  - done.
  - rewrite T2. rewrite <- Permutation_middle, take_drop, seq_S, fmap_app. cbn.
    rewrite <- Permutation_cons_append. by rewrite I6.
  - rewrite T2. rewrite <- (take_drop k os) in I7.
    apply StronglySorted_app in I7 as (Hc & Ht & Hd).
    apply StronglySorted_app. split; [|split; [done|]].
    2: { apply SSorted_cons; [done|]. apply Forall_forall. intros y Hy. left.
         apply S4. rewrite I1, <- fmap_drop. apply list_elem_of_fmap. by exists y. }
    intros y z Hy Hz. apply elem_of_cons in Hz as [-> | Hz]; [|by apply Hc].
    assert (Hyi : y < N.of_nat i).
    { apply Hlt. rewrite <- (take_drop k os). apply elem_of_app. by left. }
    destruct (decide (k = O)) as [-> | Hk0];
      [by rewrite take_0 in Hy; apply elem_of_nil in Hy|].
    destruct S5 as [? | S5]; [done|].
    assert (Hk1 : (k - 1 < length os)%nat) by lia.
    assert (Hlast : degree ≤ vnumEdges (getV g (os !!! (k - 1)%nat))).
    { rewrite I1 in S5.
      rewrite (list_lookup_total_fmap (λ v, vnumEdges (getV g v)) os (k - 1)) in S5
        by lia.
      lia. }
    assert (Hge : degree ≤ vnumEdges (getV g y)).
    { apply list_elem_of_lookup in Hy as [m Hm].
      apply lookup_take_Some in Hm as [Hm Hmk].
      destruct (decide (m = k - 1)%nat) as [-> | Hne].
      { apply list_lookup_total_correct in Hm. by rewrite Hm in Hlast. }
      assert (Hb : degree_before g y (os !!! (k - 1)%nat)).
      { pose proof (StronglySorted_app_1_elem_of (degree_before g)
                      (take (k - 1) (take k os)) (drop (k - 1) (take k os))) as Hs.
        rewrite take_drop in Hs. apply (Hs _ _ Ht).
        - apply list_elem_of_lookup. exists m. apply lookup_take_Some.
          split; [|lia]. apply lookup_take_Some. split; [done|lia].
        - apply list_elem_of_lookup. exists O. rewrite lookup_drop.
          replace (k - 1 + 0)%nat with (k - 1)%nat by lia.
          apply lookup_take_Some. split; [|lia].
          by apply list_lookup_lookup_total_lt. }
      destruct Hb as [Hb | [Hb _]]; lia. }
    unfold degree_before. fold degree. lia.
Qed.

(** X30.  [OrderVerticesByDegree] fills the first [numVertices] slots
    of the array with the vertex indices of the graph, each once,
    ordered by the number of edges of the vertex, larger first, and
    among vertices with as many edges by index; the rest of the array
    is left as it was. *)
Theorem OrderVerticesByDegree_sorted g orderedVertices :
  graph_arrays g →
  (N.to_nat (numVertices g) ≤ length orderedVertices)%nat →
  let nv := N.to_nat (numVertices g) in
  let r := OrderVerticesByDegree g orderedVertices in
  length r = length orderedVertices
  ∧ drop nv r = drop nv orderedVertices
  ∧ take nv r ≡ₚ N.of_nat <$> seq 0 nv
  ∧ StronglySorted (degree_before g) (take nv r).
Proof.
  intros _ Hl. cbv zeta. unfold OrderVerticesByDegree.
  set (nv := N.to_nat (numVertices g)) in *.
  set (vd0 := replicate nv 0).
  pose proof (ULONG_for_ind
    (λ i st, OrderVerticesByDegree_inv g i st (drop i vd0) (drop i orderedVertices))
    (numVertices g) (OrderVerticesByDegree_insert g) (vd0, orderedVertices)) as H.
  cbv beta in H. fold nv in H.
  destruct H as [I1 I2 I3 I4 I5 I6 I7].
  - split; cbn [fst snd]; rewrite ?take_0; try done; try lia. constructor.
  - intros i st Hi Hinv.
    assert (Hi1 : (i < length vd0)%nat) by (unfold vd0; rewrite length_replicate; lia).
    assert (Hi2 : (i < length orderedVertices)%nat) by lia.
    rewrite (drop_S vd0 (vd0 !!! i) i) in Hinv by (by apply list_lookup_lookup_total_lt).
    rewrite (drop_S orderedVertices (orderedVertices !!! i) i) in Hinv
      by (by apply list_lookup_lookup_total_lt).
    by apply (OrderVerticesByDegree_insert_inv g i st _ _ _ _ Hinv).
  - set (st := ULONG_for _ _ _) in *. split; [|done].
    assert (Hd : length (drop nv st.2) = length (drop nv orderedVertices))
      by (by rewrite I5).
    rewrite !length_drop in Hd. lia.
Qed.

Lemma OrderVerticesByDegree_sorted_witness :
  let nv := N.to_nat (numVertices example_path) in
  let r := OrderVerticesByDegree example_path [0; 0; 0] in
  length r = 3%nat
  ∧ drop nv r = drop nv [0; 0; 0]
  ∧ take nv r ≡ₚ N.of_nat <$> seq 0 nv
  ∧ StronglySorted (degree_before example_path) (take nv r).
Proof.
  apply (OrderVerticesByDegree_sorted example_path [0; 0; 0]).
  - apply graph_arrays_check_ok. reflexivity.
  - simpl. lia.
Defined.

(** On the example path the middle vertex, with three edges, comes
    first. *)
Example OrderVerticesByDegree_example :
  OrderVerticesByDegree example_path [0; 0; 0] = [1; 0; 2].
Proof. reflexivity. Qed.

(** ** graphmatch.c: the search of [InexactGraphMatch] *)

(** The costs of the transformations (subdue.h). *)
Definition INSERT_VERTEX_COST : double := 1.
Definition DELETE_VERTEX_COST : double := 1.
Definition SUBSTITUTE_VERTEX_LABEL_COST : double := 1.
Definition INSERT_EDGE_COST : double := 1.
Definition INSERT_EDGE_WITH_VERTEX_COST : double := 1.
Definition DELETE_EDGE_COST : double := 1.
Definition DELETE_EDGE_WITH_VERTEX_COST : double := 1.
Definition SUBSTITUTE_EDGE_LABEL_COST : double := 1.
Definition SUBSTITUTE_EDGE_DIRECTION_COST : double := 1.
Definition REVERSE_EDGE_DIRECTION_COST : double := 1.

(** [MATCH_SEARCH_THRESHOLD_EXPONENT] is 4.0. *)
Definition MATCH_SEARCH_THRESHOLD_EXPONENT : ULONG := 4.

(** [(ULONG) pow((double) n, 4.0)]: the power is a whole number, which
    the [double] holds exactly while it is below [2^53]. *)
Definition MaximumNodes (n : ULONG) : ULONG :=
  if MATCH_SEARCH_THRESHOLD_EXPONENT =? 0 then MAX_UNSIGNED_LONG
  else n ^ MATCH_SEARCH_THRESHOLD_EXPONENT.

(** The cost of matching [edge1] of [g1], between [v1] and
    [otherVertex1], to [edge2] of [g2], between [v2] and
    [otherVertex2]. *)
Definition DeletedEdgesCost_matchCost (edge1 edge2 : Edge)
    (v1 v2 otherVertex1 otherVertex2 : ULONG) (labelList : LabelList) : double :=
  let matchCost := 0%R in
  let matchCost :=
    if negb (eqb (directed edge1) (directed edge2))
    then (matchCost + SUBSTITUTE_EDGE_DIRECTION_COST)%R else matchCost in
  let matchCost :=
    if directed edge1 && directed edge2
       && negb (vertex1 edge1 =? vertex2 edge1)
       && (((vertex1 edge1 =? v1) && (vertex1 edge2 =? otherVertex2))
           || ((vertex1 edge1 =? otherVertex1) && (vertex1 edge2 =? v2)))
    then (matchCost + REVERSE_EDGE_DIRECTION_COST)%R else matchCost in
  (matchCost
   + SUBSTITUTE_EDGE_LABEL_COST
     * LabelMatchFactor (elabel edge1) (elabel edge2) labelList)%R.

(** [for (e2 = 0; e2 < g2->vertices[v2].numEdges; e2++)]: the best
    unused edge of [g2] between [v2] and [otherVertex2], as its index,
    and its cost; [None] is the null pointer. *)
Definition DeletedEdgesCost_best (g2 : Graph) (edge1 : Edge)
    (v1 v2 otherVertex1 otherVertex2 : ULONG) (labelList : LabelList)
    : option ULONG * double :=
  foldl (λ '(bestMatchEdge, bestMatchCost) e2,
           let edge2 := getE g2 e2 in
           if negb (eused edge2)
              && (((vertex1 edge2 =? otherVertex2) && (vertex2 edge2 =? v2))
                  || ((vertex1 edge2 =? v2) && (vertex2 edge2 =? otherVertex2)))
           then
             (* compute cost of matching edge in g1 to edge in g2 *)
             let matchCost :=
               DeletedEdgesCost_matchCost edge1 edge2 v1 v2 otherVertex1 otherVertex2
                                          labelList in
             if dlt matchCost bestMatchCost || dlt bestMatchCost 0
             then (Some e2, matchCost)
             else (bestMatchEdge, bestMatchCost)
           else (bestMatchEdge, bestMatchCost))
        (None, (-1)%R) (vedges (getV g2 v2)).

(** [DeletedEdgesCost] returns the cost and [g2], in which it marks the
    edges that it matches. *)
Definition DeletedEdgesCost (g1 g2 : Graph) (v1 v2 : ULONG) (mapped1 : list ULONG)
    (labelList : LabelList) : double * Graph :=
  (* try to match each edge involving v1 to an edge involving v2 *)
  foldl (λ '(totalCost, g2) e1,
           let edge1 := getE g1 e1 in
           let otherVertex1 :=
             if vertex1 edge1 =? v1 then vertex2 edge1 else vertex1 edge1 in
           let m := mapped1 !!! N.to_nat otherVertex1 in
           if negb (m =? VERTEX_UNMAPPED) && negb (m =? VERTEX_DELETED)
           then
             (* target vertex of edge also mapped *)
             let otherVertex2 := m in
             match DeletedEdgesCost_best g2 edge1 v1 v2 otherVertex1 otherVertex2
                                         labelList with
             | (Some bestMatchEdge, bestMatchCost) =>
                 ((totalCost + bestMatchCost)%R, updE g2 bestMatchEdge (set_eused true))
             | (None, _) => ((totalCost + DELETE_EDGE_COST)%R, g2)
             end
           else (totalCost, g2))
        (0%R, g2) (vedges (getV g1 v1)).

(** [InsertedEdgesCost] returns the cost and [g2], in which it clears
    the marks of the edges of [v2]. *)
Definition InsertedEdgesCost (g2 : Graph) (v2 : ULONG) (mapped2 : list ULONG)
    : double * Graph :=
  foldl (λ '(totalCost, g2) e2,
           let edge2 := getE g2 e2 in
           let totalCost :=
             if negb (eused edge2)
                && negb (mapped2 !!! N.to_nat (vertex1 edge2) =? VERTEX_UNMAPPED)
                && negb (mapped2 !!! N.to_nat (vertex2 edge2) =? VERTEX_UNMAPPED)
             then (totalCost + INSERT_EDGE_COST)%R else totalCost in
           (totalCost, updE g2 e2 (set_eused false)))
        (0%R, g2) (vedges (getV g2 v2)).

Definition InsertedVerticesCost (g2 : Graph) (mapped2 : list ULONG) : double :=
  ULONG_for (numVertices g2)
    (λ v cost,
       if mapped2 !!! N.to_nat v =? VERTEX_UNMAPPED
       then
         (* add cost for edges to mapped vertices and self edges *)
         foldl (λ cost e,
                  let v2 :=
                    if v =? vertex1 (getE g2 e)
                    then vertex2 (getE g2 e) else vertex1 (getE g2 e) in
                  if negb (mapped2 !!! N.to_nat v2 =? VERTEX_UNMAPPED) || (v2 =? v)
                  then (cost + INSERT_EDGE_WITH_VERTEX_COST)%R else cost)
               (cost + INSERT_VERTEX_COST)%R (vedges (getV g2 v))
       else cost)
    0%R.

(** Reading through a [VertexMap *]; the null pointer reads as the
    empty array. *)
Definition deref_mapping (mapping : option (list VertexMap)) : list VertexMap :=
  default [] mapping.

Definition AllocateNewMapping (depth : ULONG) (mapping : option (list VertexMap))
    (v1 v2 : ULONG) : list VertexMap :=
  let newMapping := replicate (N.to_nat depth) (mkVertexMap 0 0) in
  let newMapping :=
    ULONG_for (usub depth 1)
      (λ i newMapping,
         <[N.to_nat i := deref_mapping mapping !!! N.to_nat i]> newMapping)
      newMapping in
  <[N.to_nat (usub depth 1) := mkVertexMap v1 v2]> newMapping.

(** [while ((n > 0) && (! MatchHeapEmpty(heap)))] of
    [CompressMatchHeap]; each round takes a node from [heap], [todo]
    bounds the rounds. *)
Fixpoint CompressMatchHeap_keep (todo : nat) (n : ULONG) (heap newHeap : MatchHeap)
    (node1 : MatchHeapNode) : MatchHeap * MatchHeap * MatchHeapNode :=
  match todo with
  | O => (heap, newHeap, node1)
  | S todo =>
      if (0 <? n) && negb (MatchHeapEmpty heap)
      then
        let '(heap, node1) := ExtractMatchHeapNode heap in
        let newHeap := InsertMatchHeapNode node1 newHeap in
        CompressMatchHeap_keep todo (usub n 1) heap newHeap node1
      else (heap, newHeap, node1)
  end.

(** [while (! MatchHeapEmpty(heap))] of [CompressMatchHeap]; [cost1] is
    [node1.cost]. *)
Fixpoint CompressMatchHeap_unique (todo : nat) (heap newHeap : MatchHeap)
    (cost1 : double) : MatchHeap :=
  match todo with
  | O => newHeap
  | S todo =>
      if negb (MatchHeapEmpty heap)
      then
        let '(heap, node2) := ExtractMatchHeapNode heap in
        if deq cost1 (cost node2)
        then CompressMatchHeap_unique todo heap newHeap cost1
        else CompressMatchHeap_unique todo heap (InsertMatchHeapNode node2 newHeap)
                                      (cost node2)
      else newHeap
  end.

(** [node1] is written before it is read: the second loop runs only
    after a round of the first one, for [n > 0]. *)
Definition CompressMatchHeap (heap : MatchHeap) (n : ULONG) : MatchHeap :=
  let newHeap := AllocateMatchHeap n in
  let todo := N.to_nat (numNodes heap) in
  (* keep best n nodes *)
  let '(heap, newHeap, node1) :=
    CompressMatchHeap_keep todo n heap newHeap dummyMatchHeapNode in
  (* keep remaining nodes with unique costs *)
  CompressMatchHeap_unique todo heap newHeap (cost node1).

(** [(newCost <= threshold) && (newCost < bestNode.cost)] *)
Definition InexactGraphMatch_within (newCost threshold : double)
    (bestNode : MatchHeapNode) : bool :=
  dle newCost threshold && dlt newCost (cost bestNode).

(** The mappings between the vertices of the graphs that the partial
    mapping of [node] gives; the arrays are written in all their
    slots. *)
Definition InexactGraphMatch_mapped (nv1 nv2 : ULONG) (node : MatchHeapNode)
    : list ULONG * list ULONG :=
  let mapped1 := replicate (N.to_nat nv1) VERTEX_UNMAPPED in
  let mapped2 := replicate (N.to_nat nv2) VERTEX_UNMAPPED in
  ULONG_for (depth node)
    (λ i '(mapped1, mapped2),
       let m := deref_mapping (nodeMapping node) !!! N.to_nat i in
       let mapped1 := <[N.to_nat (vm_v1 m) := vm_v2 m]> mapped1 in
       let mapped2 :=
         if negb (vm_v2 m =? VERTEX_DELETED)
         then <[N.to_nat (vm_v2 m) := vm_v1 m]> mapped2 else mapped2 in
       (mapped1, mapped2))
    (mapped1, mapped2).

(** The edges of [v1] that go with it when it is deleted. *)
Definition InexactGraphMatch_deletedEdges (g1 : Graph) (v1 : ULONG)
    (mapped1 : list ULONG) (newCost : double) : double :=
  foldl (λ newCost e,
           let edge := getE g1 e in
           let v2 := if v1 =? vertex1 edge then vertex2 edge else vertex1 edge in
           if negb (mapped1 !!! N.to_nat v2 =? VERTEX_DELETED) || (v2 =? v1)
           then (newCost + DELETE_EDGE_WITH_VERTEX_COST)%R else newCost)
        newCost (vedges (getV g1 v1)).

(** First, try mapping [v1] to nothing. *)
Definition InexactGraphMatch_delete (g1 g2 : Graph) (threshold : double)
    (bestNode node : MatchHeapNode) (v1 : ULONG) (mapped1 mapped2 : list ULONG)
    (localQueue : MatchHeap) : MatchHeap :=
  let nv1 := numVertices g1 in
  let newCost := (cost node + DELETE_VERTEX_COST)%R in
  let newCost :=
    if InexactGraphMatch_within newCost threshold bestNode
    then InexactGraphMatch_deletedEdges g1 v1 mapped1 newCost else newCost in
  (* if complete mapping, add cost for any unmapped vertices and edges in g2 *)
  let newCost :=
    if InexactGraphMatch_within newCost threshold bestNode
    then if depth node =? usub nv1 1
         then (newCost + InsertedVerticesCost g2 mapped2)%R else newCost
    else newCost in
  if InexactGraphMatch_within newCost threshold bestNode
  then
    (* add new node to local queue *)
    InsertMatchHeapNode
      (mkMatchHeapNode (uadd (depth node) 1) newCost
         (Some (AllocateNewMapping (uadd (depth node) 1) (nodeMapping node) v1
                                   VERTEX_DELETED)))
      localQueue
  else localQueue.

(** Second, try mapping [v1] to the vertex [v2] of [g2]: one round of
    [for (v2 = 0; v2 < nv2; v2++)], on the local queue, [g2] and the two
    arrays. *)
Definition InexactGraphMatch_map (g1 : Graph) (labelList : LabelList)
    (threshold : double) (bestNode node : MatchHeapNode) (v1 v2 : ULONG)
    (st : MatchHeap * Graph * list ULONG * list ULONG)
    : MatchHeap * Graph * list ULONG * list ULONG :=
  let '(localQueue, g2, mapped1, mapped2) := st in
  let nv1 := numVertices g1 in
  if mapped2 !!! N.to_nat v2 =? VERTEX_UNMAPPED
  then
    let mapped1 := <[N.to_nat v1 := v2]> mapped1 in
    let mapped2 := <[N.to_nat v2 := v1]> mapped2 in
    let newCost := cost node in
    let newCost :=
      (newCost
       + SUBSTITUTE_VERTEX_LABEL_COST
         * LabelMatchFactor (vlabel (getV g1 v1)) (vlabel (getV g2 v2)) labelList)%R in
    let '(newCost, g2) :=
      if InexactGraphMatch_within newCost threshold bestNode
      then
        let '(cost, g2) := DeletedEdgesCost g1 g2 v1 v2 mapped1 labelList in
        let newCost := (newCost + cost)%R in
        let '(cost, g2) := InsertedEdgesCost g2 v2 mapped2 in
        ((newCost + cost)%R, g2)
      else (newCost, g2) in
    (* if complete mapping, add cost for any unmapped vertices and edges in g2 *)
    let newCost :=
      if InexactGraphMatch_within newCost threshold bestNode
      then if depth node =? usub nv1 1
           then (newCost + InsertedVerticesCost g2 mapped2)%R else newCost
      else newCost in
    let localQueue :=
      if InexactGraphMatch_within newCost threshold bestNode
      then
        (* add new node to local queue *)
        InsertMatchHeapNode
          (mkMatchHeapNode (uadd (depth node) 1) newCost
             (Some (AllocateNewMapping (uadd (depth node) 1) (nodeMapping node) v1 v2)))
          localQueue
      else localQueue in
    let mapped1 := <[N.to_nat v1 := VERTEX_UNMAPPED]> mapped1 in
    let mapped2 := <[N.to_nat v2 := VERTEX_UNMAPPED]> mapped2 in
    (localQueue, g2, mapped1, mapped2)
  else st.

(** The expansion of the partial mapping of [node]: the new nodes go to
    the local queue. *)
Definition InexactGraphMatch_expand (g1 g2 : Graph) (labelList : LabelList)
    (threshold : double) (orderedVertices : list ULONG)
    (bestNode node : MatchHeapNode) (localQueue : MatchHeap) : MatchHeap * Graph :=
  let nv1 := numVertices g1 in
  let nv2 := numVertices g2 in
  (* compute mappings between graphs' vertices *)
  let '(mapped1, mapped2) := InexactGraphMatch_mapped nv1 nv2 node in
  let v1 := orderedVertices !!! N.to_nat (depth node) in
  let localQueue :=
    InexactGraphMatch_delete g1 g2 threshold bestNode node v1 mapped1 mapped2
                             localQueue in
  let '(localQueue, g2, _, _) :=
    ULONG_for nv2 (InexactGraphMatch_map g1 labelList threshold bestNode node v1)
              (localQueue, g2, mapped1, mapped2) in
  (localQueue, g2).

(** The variables of [InexactGraphMatch] that live across the rounds
    of its loop, and [g2], whose marks the cost functions write. *)
Record InexactGraphMatch_state : Type := mkInexactGraphMatch_state {
  s_globalQueue : MatchHeap;
  s_localQueue : MatchHeap;
  s_bestNode : MatchHeapNode;
  s_numNodes : ULONG;
  s_quickMatch : bool;
  s_done : bool;
  s_g2 : Graph
}.

(** One round of [while ((! MatchHeapEmpty(globalQueue)) && (! done))]. *)
Definition InexactGraphMatch_round (g1 : Graph) (labelList : LabelList)
    (threshold : double) (quickMatchThreshold : ULONG) (orderedVertices : list ULONG)
    (st : InexactGraphMatch_state) : InexactGraphMatch_state :=
  let nv1 := numVertices g1 in
  let '(globalQueue, node) := ExtractMatchHeapNode (s_globalQueue st) in
  let '(globalQueue, localQueue, bestNode, done, g2) :=
    if dlt (cost node) (cost (s_bestNode st))
    then
      if depth node =? nv1
      then
        (* complete mapping found *)
        (globalQueue, s_localQueue st, node,
         if negb (s_quickMatch st) then true else s_done st, s_g2 st)
      else
        (* expand node's partial mapping *)
        let '(localQueue, g2) :=
          InexactGraphMatch_expand g1 (s_g2 st) labelList threshold orderedVertices
                                   (s_bestNode st) node (s_localQueue st) in
        (* add nodes in localQueue to globalQueue *)
        if s_quickMatch st
        then
          if negb (MatchHeapEmpty localQueue)
          then
            let '(localQueue, node) := ExtractMatchHeapNode localQueue in
            (InsertMatchHeapNode node globalQueue, ClearMatchHeap localQueue,
             s_bestNode st, s_done st, g2)
          else (globalQueue, localQueue, s_bestNode st, s_done st, g2)
        else
          let '(localQueue, globalQueue) := MergeMatchHeaps localQueue globalQueue in
          (globalQueue, localQueue, s_bestNode st, s_done st, g2)
    else (globalQueue, s_localQueue st, s_bestNode st, s_done st, s_g2 st) in
  (* check if maximum nodes exceeded, and if so, switch to greedy search *)
  let numNodes := uadd (s_numNodes st) 1 in
  if negb (s_quickMatch st) && (quickMatchThreshold <? numNodes)
  then mkInexactGraphMatch_state (CompressMatchHeap globalQueue nv1) localQueue
                                 bestNode numNodes true done g2
  else mkInexactGraphMatch_state globalQueue localQueue bestNode numNodes
                                 (s_quickMatch st) done g2.

(** The loop goes on while the global queue holds a node and no
    complete mapping has ended the search. *)
Definition InexactGraphMatch_running (st : InexactGraphMatch_state) : bool :=
  negb (MatchHeapEmpty (s_globalQueue st)) && negb (s_done st).

Fixpoint InexactGraphMatch_loop (rounds : nat) (g1 : Graph) (labelList : LabelList)
    (threshold : double) (quickMatchThreshold : ULONG) (orderedVertices : list ULONG)
    (st : InexactGraphMatch_state) : InexactGraphMatch_state :=
  match rounds with
  | O => st
  | S rounds =>
      if InexactGraphMatch_running st
      then InexactGraphMatch_loop rounds g1 labelList threshold quickMatchThreshold
             orderedVertices
             (InexactGraphMatch_round g1 labelList threshold quickMatchThreshold
                                      orderedVertices st)
      else st
  end.

(** The rounds that the loop can take: at most [quickMatchThreshold + 1]
    before the search turns greedy, with at most [nv2 + 1] new nodes
    each, and afterwards at most [nv1 + 1] for each node of the queue,
    since a round then puts at most one node back, which is deeper. *)
Definition InexactGraphMatch_rounds (nv1 nv2 : ULONG) : nat :=
  let q := MaximumNodes nv1 + 1 in
  N.to_nat (q + (1 + q * (nv2 + 1)) * (nv1 + 1) + 1).

(** The state in which the loop starts. *)
Definition InexactGraphMatch_start (g1 g2 : Graph) : InexactGraphMatch_state :=
  let nv1 := numVertices g1 in
  let globalQueue := AllocateMatchHeap (umul nv1 nv1) in
  let localQueue := AllocateMatchHeap nv1 in
  let node := mkMatchHeapNode 0 0%R None in
  let globalQueue := InsertMatchHeapNode node globalQueue in
  let bestNode := mkMatchHeapNode 0 MAX_DOUBLE None in
  mkInexactGraphMatch_state globalQueue localQueue bestNode 0 false false g2.

(** The state in which the loop ends. *)
Definition InexactGraphMatch_search (g1 g2 : Graph) (labelList : LabelList)
    (threshold : double) : InexactGraphMatch_state :=
  let nv1 := numVertices g1 in
  let nv2 := numVertices g2 in
  (* compute threshold on mappings tried before changing from optimal
     search to greedy search *)
  let quickMatchThreshold := MaximumNodes nv1 in
  (* order vertices of g1 by degree *)
  let orderedVertices :=
    OrderVerticesByDegree g1 (replicate (N.to_nat nv1) 0) in
  InexactGraphMatch_loop (InexactGraphMatch_rounds nv1 nv2) g1 labelList threshold
    quickMatchThreshold orderedVertices (InexactGraphMatch_start g1 g2).

(** [InexactGraphMatch] returns the cost of the best node and the
    mapping that it copies to the array of the caller, none if the
    search has found no mapping. *)
Definition InexactGraphMatch (g1 g2 : Graph) (labelList : LabelList)
    (threshold : double) : double * list VertexMap :=
  let bestNode := s_bestNode (InexactGraphMatch_search g1 g2 labelList threshold) in
  (cost bestNode,
   match nodeMapping bestNode with
   | Some mapping => take (N.to_nat (numVertices g1)) mapping
   | None => []
   end).

(** *** The heap functions as the search uses them *)

Lemma HeapifyMatchHeap_loop_size todo p heap :
  heapSize (HeapifyMatchHeap_loop todo p heap) = heapSize heap
  ∧ length (nodes (HeapifyMatchHeap_loop todo p heap)) = length (nodes heap).
Proof.
  revert p heap. induction todo as [|todo IH]; intros p heap; [done|].
  cbn [HeapifyMatchHeap_loop]. cbv zeta.
  repeat case_match; try done;
    match goal with
    | |- context [HeapifyMatchHeap_loop todo ?q ?h] =>
        destruct (IH q h) as [-> ->]
    end;
    cbn [heapSize nodes]; by rewrite !length_insert.
Qed.

Lemma ExtractMatchHeapNode_size heap :
  heapSize (ExtractMatchHeapNode heap).1 = heapSize heap
  ∧ length (nodes (ExtractMatchHeapNode heap).1) = length (nodes heap).
Proof.
  unfold ExtractMatchHeapNode, HeapifyMatchHeap. cbn [fst].
  destruct (HeapifyMatchHeap_loop_size
              (N.to_nat (numNodes (mkMatchHeap (heapSize heap) (usub (numNodes heap) 1)
                 (<[0%nat := nodes heap !!! N.to_nat (usub (numNodes heap) 1)]>
                    (nodes heap))))) 0
              (mkMatchHeap (heapSize heap) (usub (numNodes heap) 1)
                 (<[0%nat := nodes heap !!! N.to_nat (usub (numNodes heap) 1)]>
                    (nodes heap)))) as [-> ->].
  cbn. by rewrite length_insert.
Qed.

Lemma ExtractMatchHeapNode_spec heap :
  heap_ok heap →
  0 < numNodes heap →
  2 * numNodes heap < ULONG_MODULUS →
  let r := ExtractMatchHeapNode heap in
  heap_ok r.1
  ∧ contents heap ≡ₚ r.2 :: contents r.1
  ∧ (∀ node, node ∈ contents heap → better node r.2 = false)
  ∧ numNodes r.1 = numNodes heap - 1.
Proof.
  intros [(Hsize & Hnum & Hpos) Hord] Hn Hb. cbv zeta. unfold ExtractMatchHeapNode.
  cbn [fst snd]. rewrite usub_small by lia.
  set (n := numNodes heap) in *. set (l := nodes heap) in *.
  assert (Hbest : ∀ node, node ∈ contents heap → better node (l !!! 0%nat) = false).
  { intros node Hin. unfold contents in Hin. fold n l in Hin.
    apply elem_of_take in Hin as (j & Hj & Hlt).
    apply list_lookup_total_correct in Hj. subst node.
    by apply (heap_ordered_root (N.to_nat n)). }
  assert (Hcontents : contents heap
                      ≡ₚ l !!! 0%nat
                         :: take (N.to_nat (n - 1)) (<[0%nat := l !!! N.to_nat (n - 1)]> l)).
  { unfold contents. fold n l.
    replace (N.to_nat n) with (S (N.to_nat (n - 1))) by lia.
    rewrite (take_S_r _ _ (l !!! N.to_nat (n - 1)))
      by (apply list_lookup_lookup_total_lt; lia).
    destruct (N.to_nat (n - 1)) as [|k] eqn:Ek.
    - done.
    - rewrite take_insert_lt by lia.
      destruct l as [|x l']; [cbn in Hsize; lia|]. cbn.
      apply perm_skip. symmetry. apply Permutation_cons_append. }
  unfold HeapifyMatchHeap. cbn [numNodes].
  destruct (decide (n = 1)) as [E1|Hne].
  - rewrite E1 in *. change (N.to_nat (1 - 1)) with 0%nat in *.
    change (1 - 1) with 0 in *. cbn [HeapifyMatchHeap_loop].
    unfold heap_ok, heap_wf, contents at 2. cbn [heapSize numNodes nodes].
    rewrite length_insert. fold l. change (N.to_nat 0) with 0%nat.
    split; [|done]. split; [split; [done|lia]|]. intros j Hj. lia.
  - pose proof (HeapifyMatchHeap_loop_spec (N.to_nat (n - 1)) 0
                  (mkMatchHeap (heapSize heap) (n - 1)
                     (<[0%nat := l !!! N.to_nat (n - 1)]> l))) as H.
    cbn [numNodes nodes heapSize] in H. rewrite length_insert in H.
    destruct H as (H1 & H2 & H3 & H4 & H5); [lia | lia | lia | lia | |].
    { split.
      - intros j Hj Hpj. change (N.to_nat 0) with 0%nat in Hpj.
        rewrite !list_lookup_total_insert_ne by lia. apply Hord. lia.
      - intros j Hj Hpj H0. change (N.to_nat 0) with 0%nat in H0. lia. }
    cbv zeta in *. unfold heap_ok, heap_wf, contents. rewrite H3, H4, H5.
    split; [split; [split; [done|lia]|done]|].
    split; [by rewrite H2|]. done.
Qed.

Lemma MergeMatchHeaps_spec heap1 heap2 :
  (N.to_nat (numNodes heap1) ≤ length (nodes heap1))%nat →
  heap_ok heap2 →
  2 * heapSize heap2 < ULONG_MODULUS →
  4 * (numNodes heap1 + numNodes heap2) < ULONG_MODULUS →
  let r := MergeMatchHeaps heap1 heap2 in
  heap_ok r.2
  ∧ contents r.2 ≡ₚ contents heap1 ++ contents heap2
  ∧ numNodes r.2 = numNodes heap1 + numNodes heap2
  ∧ heapSize r.2 ≤ N.max (heapSize heap2) (2 * numNodes r.2)
  ∧ numNodes r.1 = 0
  ∧ heapSize r.1 = heapSize heap1
  ∧ length (nodes r.1) = length (nodes heap1).
Proof.
  intros Hlen Hok Hb2 Hb. cbv zeta. unfold MergeMatchHeaps.
  match goal with |- context [ULONG_for ?n ?body ?s] =>
    pose proof (ULONG_for_ind (merge_inv heap1 heap2) n body s) as H
  end.
  destruct H as [H1 H2 H3 H4 H5 H6 H7 H8].
  - split; cbn [fst snd]; try done.
    + lia.
    + lia.
  - intros i [h1 h2] Hi [H1 H2 H3 H4 H5 H6 H7 H8]. cbn [fst snd] in *.
    rewrite Nat2N.id.
    set (node := nodes h1 !!! i).
    assert (Hsz : 2 * heapSize h2 < ULONG_MODULUS) by lia.
    destruct (InsertMatchHeapNode_spec node h2 H5 Hsz) as (Hok' & Hc' & Hn').
    pose proof (InsertMatchHeapNode_size node h2 (proj1 H5) Hsz) as Hs'.
    cbv zeta in *. split; cbn [fst snd numNodes heapSize nodes].
    + done.
    + done.
    + by rewrite length_insert.
    + intros j Hj. rewrite list_lookup_total_insert_ne by lia. apply H4. lia.
    + done.
    + rewrite Hc', H6. unfold node. rewrite (H4 i) by lia.
      rewrite (take_S_r _ _ (nodes heap1 !!! i))
        by (apply list_lookup_lookup_total_lt; lia).
      rewrite <- app_assoc. cbn. rewrite <- Permutation_middle. done.
    + lia.
    + lia.
  - destruct (ULONG_for (numNodes heap1) _ (heap1, heap2)) as [h1 h2].
    cbn [fst snd numNodes heapSize nodes] in *.
    split; [done|]. split; [done|]. split; [lia|]. split; [lia|]. done.
Qed.

(** *** The costs of the search *)

Lemma LabelMatchFactor_nonneg a b l : (0 <= LabelMatchFactor a b l)%R.
Proof. unfold LabelMatchFactor. destruct (_ =? _); lra. Qed.

Lemma DeletedEdgesCost_matchCost_nonneg edge1 edge2 v1 v2 o1 o2 l :
  (0 <= DeletedEdgesCost_matchCost edge1 edge2 v1 v2 o1 o2 l)%R.
Proof.
  unfold DeletedEdgesCost_matchCost, SUBSTITUTE_EDGE_DIRECTION_COST,
    REVERSE_EDGE_DIRECTION_COST, SUBSTITUTE_EDGE_LABEL_COST.
  pose proof (LabelMatchFactor_nonneg (elabel edge1) (elabel edge2) l).
  repeat case_match; lra.
Qed.

(** The edge that [DeletedEdgesCost] matches is an edge of [v2], at a
    cost that is not negative. *)
Lemma DeletedEdgesCost_best_spec g2 edge1 v1 v2 o1 o2 l :
  match DeletedEdgesCost_best g2 edge1 v1 v2 o1 o2 l with
  | (Some e, c) => e ∈ vedges (getV g2 v2) ∧ (0 <= c)%R
  | (None, _) => True
  end.
Proof.
  unfold DeletedEdgesCost_best.
  apply (foldl_invariant
           (λ st : option ULONG * double,
              match st with
              | (Some e, c) => e ∈ vedges (getV g2 v2) ∧ (0 <= c)%R
              | (None, _) => True
              end)); [done|].
  intros [best c] e2 Hst Hin.
  destruct (negb _ && _); [|done].
  destruct (_ || _); [|done].
  split; [done | apply DeletedEdgesCost_matchCost_nonneg].
Qed.

(** No edge of the graph is marked. *)
Definition edges_unmarked (g : Graph) : Prop :=
  Forall (λ e, eused e = false) (edges g).

Definition edges_unmarked_check (g : Graph) : bool :=
  forallb (λ e, negb (eused e)) (edges g).

Lemma edges_unmarked_check_ok g : edges_unmarked_check g = true → edges_unmarked g.
Proof.
  unfold edges_unmarked_check, edges_unmarked. rewrite forallb_forall, Forall_forall.
  intros H e He. apply list_elem_of_In in He. apply H in He. by destruct (eused e).
Qed.

(** [g] is [g2] with marks on some of the edges of [es]. *)
Definition marked_within (es : list ULONG) (g2 g : Graph) : Prop :=
  numVertices g = numVertices g2 ∧ numEdges g = numEdges g2
  ∧ vertices g = vertices g2
  ∧ ∀ k, edges g !! k = edges g2 !! k
         ∨ (N.of_nat k ∈ es ∧ edges g !! k = set_eused true <$> edges g2 !! k).

Lemma DeletedEdgesCost_spec g1 g2 v1 v2 mapped1 l :
  let r := DeletedEdgesCost g1 g2 v1 v2 mapped1 l in
  (0 <= r.1)%R ∧ marked_within (vedges (getV g2 v2)) g2 r.2.
Proof.
  cbv zeta. unfold DeletedEdgesCost.
  apply (foldl_invariant
           (λ st : double * Graph,
              (0 <= st.1)%R ∧ marked_within (vedges (getV g2 v2)) g2 st.2)).
  { cbn. split; [lra|]. repeat split. intros k. by left. }
  intros [c g] e1 [Hc (Hnv & Hne & Hv & Hk)] _. cbn [fst snd] in *.
  destruct (negb _ && negb _); [|done].
  pose proof (DeletedEdgesCost_best_spec g (getE g1 e1) v1 v2
                (if vertex1 (getE g1 e1) =? v1
                 then vertex2 (getE g1 e1) else vertex1 (getE g1 e1))
                (mapped1 !!! N.to_nat
                   (if vertex1 (getE g1 e1) =? v1
                    then vertex2 (getE g1 e1) else vertex1 (getE g1 e1))) l) as Hb.
  destruct (DeletedEdgesCost_best _ _ _ _ _ _ _) as [[e|] bc]; cbn [fst snd].
  - destruct Hb as [Hin Hbc]. split; [lra|].
    unfold getV in Hin. rewrite Hv in Hin. fold (getV g2 v2) in Hin.
    repeat split; try done. intros k. unfold updE. cbn [edges set_edges].
    destruct (decide (k = N.to_nat e)) as [->|Hne'].
    + right. rewrite N2Nat.id. split; [done|]. rewrite list_lookup_alter, decide_True by done.
      destruct (Hk (N.to_nat e)) as [-> | [_ ->]]; [done|].
      by destruct (edges g2 !! N.to_nat e).
    + rewrite list_lookup_alter_ne by done. apply Hk.
  - split; [unfold DELETE_EDGE_COST; lra|]. done.
Qed.

Lemma InsertedEdgesCost_loop (es : list ULONG) (mapped2 : list ULONG)
    (c : double) (g : Graph) :
  let r :=
    foldl (λ '(totalCost, g2) e2,
             let edge2 := getE g2 e2 in
             let totalCost :=
               if negb (eused edge2)
                  && negb (mapped2 !!! N.to_nat (vertex1 edge2) =? VERTEX_UNMAPPED)
                  && negb (mapped2 !!! N.to_nat (vertex2 edge2) =? VERTEX_UNMAPPED)
               then (totalCost + INSERT_EDGE_COST)%R else totalCost in
             (totalCost, updE g2 e2 (set_eused false)))
          (c, g) es in
  (c <= r.1)%R
  ∧ numVertices r.2 = numVertices g ∧ numEdges r.2 = numEdges g
  ∧ vertices r.2 = vertices g
  ∧ ∀ k, edges r.2 !! k
         = if decide (N.of_nat k ∈ es)
           then set_eused false <$> edges g !! k else edges g !! k.
Proof.
  revert c g. induction es as [|e es IH]; intros c g; cbn [foldl]; cbv zeta.
  - cbn [fst snd]. split; [lra|]. split; [done|]. split; [done|]. split; [done|].
    intros k. rewrite decide_False; [done|]. apply not_elem_of_nil.
  - match goal with |- context [foldl _ (?c', ?g') es] =>
      destruct (IH c' g') as (H1 & H2 & H3 & H4 & H5)
    end.
    cbv zeta in H1, H2, H3, H4, H5. split.
    { eapply Rle_trans; [|exact H1]. unfold INSERT_EDGE_COST.
      destruct (_ && _); lra. }
    split; [done|]. split; [done|]. split; [done|].
    intros k. rewrite H5. unfold updE. cbn [edges set_edges].
    destruct (decide (k = N.to_nat e)) as [->|Hne].
    + rewrite N2Nat.id. rewrite (decide_True (P := e ∈ e :: es)) by left.
      rewrite list_lookup_alter.
      rewrite (decide_True (P := N.to_nat e = N.to_nat e)) by done.
      destruct (decide (e ∈ es)); [|done].
      by destruct (edges g !! N.to_nat e).
    + rewrite list_lookup_alter_ne by done.
      destruct (decide (N.of_nat k ∈ es)) as [Hin|Hin].
      * rewrite decide_True by (by right). done.
      * rewrite decide_False; [done|]. intros H.
        apply elem_of_cons in H as [H|H]; [|done]. apply Hne. subst e.
        by rewrite Nat2N.id.
Qed.

Lemma InsertedEdgesCost_spec g2 v2 mapped2 :
  let r := InsertedEdgesCost g2 v2 mapped2 in
  (0 <= r.1)%R
  ∧ numVertices r.2 = numVertices g2 ∧ numEdges r.2 = numEdges g2
  ∧ vertices r.2 = vertices g2
  ∧ ∀ k, edges r.2 !! k
         = if decide (N.of_nat k ∈ vedges (getV g2 v2))
           then set_eused false <$> edges g2 !! k else edges g2 !! k.
Proof. apply InsertedEdgesCost_loop. Qed.

Lemma set_eused_false_unused e : eused e = false → set_eused false e = e.
Proof. destruct e. cbn. by intros ->. Qed.

(** After [DeletedEdgesCost] and [InsertedEdgesCost] a graph without
    marks is as it was. *)
Lemma InsertedEdgesCost_restores g1 g2 v1 v2 mapped1 mapped2 l :
  edges_unmarked g2 →
  (InsertedEdgesCost (DeletedEdgesCost g1 g2 v1 v2 mapped1 l).2 v2 mapped2).2 = g2.
Proof.
  intros Hu.
  destruct (DeletedEdgesCost_spec g1 g2 v1 v2 mapped1 l) as (_ & D1 & D2 & D3 & D4).
  cbv zeta in *. set (g := (DeletedEdgesCost g1 g2 v1 v2 mapped1 l).2) in *.
  destruct (InsertedEdgesCost_spec g v2 mapped2) as (_ & I1 & I2 & I3 & I4).
  cbv zeta in *. set (r := (InsertedEdgesCost g v2 mapped2).2) in *.
  assert (He : edges r = edges g2).
  { apply list_eq. intros k. rewrite I4.
    assert (Hun : set_eused false <$> edges g2 !! k = edges g2 !! k).
    { destruct (edges g2 !! k) as [e|] eqn:E; [|done]. cbn. f_equal.
      apply set_eused_false_unused.
      unfold edges_unmarked in Hu. rewrite Forall_forall in Hu. apply Hu.
      by apply list_elem_of_lookup_2 in E. }
    unfold getV. rewrite D3. fold (getV g2 v2).
    destruct (decide (N.of_nat k ∈ vedges (getV g2 v2))) as [Hin|Hin].
    - destruct (D4 k) as [-> | [_ ->]]; [done|].
      rewrite <- Hun at 2. by destruct (edges g2 !! k).
    - destruct (D4 k) as [-> | [? _]]; done. }
  destruct r, g2. cbn in *. congruence.
Qed.

Lemma InsertedVerticesCost_nonneg g2 mapped2 : (0 <= InsertedVerticesCost g2 mapped2)%R.
Proof.
  unfold InsertedVerticesCost.
  apply (ULONG_for_invariant (λ c : double, (0 <= c)%R)); [lra|].
  intros v c _ Hc. destruct (_ =? _); [|done].
  apply (foldl_invariant (λ c : double, (0 <= c)%R));
    [unfold INSERT_VERTEX_COST; lra|].
  intros c' e Hc' _. unfold INSERT_EDGE_WITH_VERTEX_COST. destruct (_ || _); lra.
Qed.

Lemma InexactGraphMatch_deletedEdges_le g1 v1 mapped1 c :
  (c <= InexactGraphMatch_deletedEdges g1 v1 mapped1 c)%R.
Proof.
  unfold InexactGraphMatch_deletedEdges.
  apply (foldl_invariant (λ c' : double, (c <= c')%R)); [lra|].
  intros c' e Hc' _. unfold DELETE_EDGE_WITH_VERTEX_COST. destruct (_ || _); lra.
Qed.

(** *** The nodes that an expansion makes *)

(** The cost of the node that maps [v1] to nothing. *)
Definition delete_cost (g1 g2 : Graph) (node : MatchHeapNode) (v1 : ULONG)
    (mapped1 mapped2 : list ULONG) : double :=
  let newCost :=
    InexactGraphMatch_deletedEdges g1 v1 mapped1 (cost node + DELETE_VERTEX_COST) in
  if depth node =? usub (numVertices g1) 1
  then (newCost + InsertedVerticesCost g2 mapped2)%R else newCost.

(** The cost of the node that maps [v1] to [v2]. *)
Definition map_cost (g1 g2 : Graph) (labelList : LabelList) (node : MatchHeapNode)
    (v1 v2 : ULONG) (mapped1 mapped2 : list ULONG) : double :=
  let mapped1 := <[N.to_nat v1 := v2]> mapped1 in
  let mapped2 := <[N.to_nat v2 := v1]> mapped2 in
  let newCost :=
    (cost node
     + SUBSTITUTE_VERTEX_LABEL_COST
       * LabelMatchFactor (vlabel (getV g1 v1)) (vlabel (getV g2 v2)) labelList)%R in
  let deleted := DeletedEdgesCost g1 g2 v1 v2 mapped1 labelList in
  let inserted := InsertedEdgesCost deleted.2 v2 mapped2 in
  let newCost := (newCost + deleted.1 + inserted.1)%R in
  if depth node =? usub (numVertices g1) 1
  then (newCost + InsertedVerticesCost g2 mapped2)%R else newCost.

Lemma delete_cost_le g1 g2 node v1 mapped1 mapped2 :
  (cost node <= delete_cost g1 g2 node v1 mapped1 mapped2)%R.
Proof.
  unfold delete_cost.
  pose proof (InexactGraphMatch_deletedEdges_le g1 v1 mapped1
                (cost node + DELETE_VERTEX_COST)) as H1.
  pose proof (InsertedVerticesCost_nonneg g2 mapped2) as H2.
  unfold DELETE_VERTEX_COST in *. destruct (_ =? _); lra.
Qed.

Lemma map_cost_le g1 g2 l node v1 v2 mapped1 mapped2 :
  (cost node <= map_cost g1 g2 l node v1 v2 mapped1 mapped2)%R.
Proof.
  unfold map_cost. cbv zeta.
  pose proof (LabelMatchFactor_nonneg (vlabel (getV g1 v1)) (vlabel (getV g2 v2)) l).
  destruct (DeletedEdgesCost_spec g1 g2 v1 v2 (<[N.to_nat v1 := v2]> mapped1) l)
    as [H1 _].
  destruct (InsertedEdgesCost_spec
              (DeletedEdgesCost g1 g2 v1 v2 (<[N.to_nat v1 := v2]> mapped1) l).2 v2
              (<[N.to_nat v2 := v1]> mapped2)) as [H2 _].
  pose proof (InsertedVerticesCost_nonneg g2 (<[N.to_nat v2 := v1]> mapped2)) as H3.
  cbv zeta in *. unfold SUBSTITUTE_VERTEX_LABEL_COST. destruct (_ =? _); lra.
Qed.

Lemma InexactGraphMatch_within_le c c' threshold bestNode :
  (c <= c')%R →
  InexactGraphMatch_within c' threshold bestNode = true →
  InexactGraphMatch_within c threshold bestNode = true.
Proof.
  unfold InexactGraphMatch_within, dle, dlt.
  rewrite !andb_true_iff, !bool_decide_eq_true. lra.
Qed.

Lemma InexactGraphMatch_within_false c c' threshold bestNode :
  (c <= c')%R →
  InexactGraphMatch_within c threshold bestNode = false →
  InexactGraphMatch_within c' threshold bestNode = false.
Proof.
  intros Hle Hc. apply not_true_iff_false. intros Hc'.
  by rewrite (InexactGraphMatch_within_le c c' _ _ Hle Hc') in Hc.
Qed.

(** The tests between the parts of the cost leave out no node: the
    node is queued exactly when its whole cost is within the bounds. *)
Lemma InexactGraphMatch_delete_spec g1 g2 threshold bestNode node v1 mapped1 mapped2
    localQueue :
  InexactGraphMatch_delete g1 g2 threshold bestNode node v1 mapped1 mapped2 localQueue
  = if InexactGraphMatch_within (delete_cost g1 g2 node v1 mapped1 mapped2)
                                threshold bestNode
    then InsertMatchHeapNode
           (mkMatchHeapNode (uadd (depth node) 1)
              (delete_cost g1 g2 node v1 mapped1 mapped2)
              (Some (AllocateNewMapping (uadd (depth node) 1) (nodeMapping node) v1
                                        VERTEX_DELETED)))
           localQueue
    else localQueue.
Proof.
  unfold InexactGraphMatch_delete, delete_cost. cbv zeta.
  set (c0 := (cost node + DELETE_VERTEX_COST)%R).
  pose proof (InexactGraphMatch_deletedEdges_le g1 v1 mapped1 c0) as H1.
  set (c1 := InexactGraphMatch_deletedEdges g1 v1 mapped1 c0) in *.
  pose proof (InsertedVerticesCost_nonneg g2 mapped2) as H2.
  set (c2 := if depth node =? usub (numVertices g1) 1
             then (c1 + InsertedVerticesCost g2 mapped2)%R else c1).
  assert (H12 : (c1 <= c2)%R) by (unfold c2; destruct (_ =? _); lra).
  destruct (InexactGraphMatch_within c0 threshold bestNode) eqn:E0.
  - destruct (InexactGraphMatch_within c1 threshold bestNode) eqn:E1.
    + done.
    + repeat (rewrite E1; cbv iota).
      by rewrite (InexactGraphMatch_within_false c1 c2 _ _ H12 E1).
  - repeat (rewrite E0; cbv iota).
    by rewrite (InexactGraphMatch_within_false c0 c2 _ _ ltac:(lra) E0).
Qed.

Lemma InexactGraphMatch_map_spec g1 g2 labelList threshold bestNode node v1 v2
    mapped1 mapped2 localQueue :
  edges_unmarked g2 →
  mapped1 !! N.to_nat v1 = Some VERTEX_UNMAPPED →
  mapped2 !! N.to_nat v2 = Some VERTEX_UNMAPPED →
  InexactGraphMatch_map g1 labelList threshold bestNode node v1 v2
                        (localQueue, g2, mapped1, mapped2)
  = (if InexactGraphMatch_within (map_cost g1 g2 labelList node v1 v2 mapped1 mapped2)
                                 threshold bestNode
     then InsertMatchHeapNode
            (mkMatchHeapNode (uadd (depth node) 1)
               (map_cost g1 g2 labelList node v1 v2 mapped1 mapped2)
               (Some (AllocateNewMapping (uadd (depth node) 1) (nodeMapping node) v1 v2)))
            localQueue
     else localQueue,
     g2, mapped1, mapped2).
Proof.
  intros Hu Hm1 Hm2. unfold InexactGraphMatch_map, map_cost. cbv zeta.
  rewrite (list_lookup_total_correct _ _ _ Hm2), N.eqb_refl.
  rewrite !list_insert_insert_eq, (list_insert_id _ _ _ Hm1), (list_insert_id _ _ _ Hm2).
  set (m1 := <[N.to_nat v1 := v2]> mapped1).
  set (m2 := <[N.to_nat v2 := v1]> mapped2).
  set (c0 := (cost node + SUBSTITUTE_VERTEX_LABEL_COST
                          * LabelMatchFactor (vlabel (getV g1 v1)) (vlabel (getV g2 v2))
                                             labelList)%R).
  destruct (DeletedEdgesCost_spec g1 g2 v1 v2 m1 labelList) as [H1 _].
  destruct (InsertedEdgesCost_spec (DeletedEdgesCost g1 g2 v1 v2 m1 labelList).2 v2 m2)
    as [H2 _].
  pose proof (InsertedEdgesCost_restores g1 g2 v1 v2 m1 m2 labelList Hu) as Hr.
  cbv zeta in H1, H2.
  destruct (DeletedEdgesCost g1 g2 v1 v2 m1 labelList) as [dc g'] eqn:Ed.
  cbn [fst snd] in *.
  destruct (InsertedEdgesCost g' v2 m2) as [ic g''] eqn:Ei.
  cbn [fst snd] in *. subst g''.
  pose proof (InsertedVerticesCost_nonneg g2 m2) as H3.
  set (c1 := (c0 + dc + ic)%R).
  set (c2 := if depth node =? usub (numVertices g1) 1
             then (c1 + InsertedVerticesCost g2 m2)%R else c1).
  assert (H12 : (c1 <= c2)%R) by (unfold c2; destruct (_ =? _); lra).
  destruct (InexactGraphMatch_within c0 threshold bestNode) eqn:E0.
  - replace (c0 + dc + ic)%R with c1 by done.
    destruct (InexactGraphMatch_within c1 threshold bestNode) eqn:E1.
    + done.
    + repeat (rewrite E1; cbv iota).
      by rewrite (InexactGraphMatch_within_false c1 c2 _ _ H12 E1).
  - repeat (rewrite E0; cbv iota).
    by rewrite (InexactGraphMatch_within_false c0 c2 _ _ ltac:(unfold c1 in *; lra) E0).
Qed.

Lemma InexactGraphMatch_map_skip g1 labelList threshold bestNode node v1 v2 st :
  st.2 !!! N.to_nat v2 ≠ VERTEX_UNMAPPED →
  InexactGraphMatch_map g1 labelList threshold bestNode node v1 v2 st = st.
Proof.
  intros H. destruct st as [[[lq g2] m1] m2]. cbn in H. unfold InexactGraphMatch_map.
  apply N.eqb_neq in H. by rewrite H.
Qed.

(** *** The nodes of the search *)

(** The mapping of a node that maps the vertices [orderedVertices[0]],
    [orderedVertices[1]], ... to the vertices [choices], where
    [VERTEX_DELETED] stands for "to nothing". *)
Definition path_mapping (orderedVertices choices : list ULONG) : list VertexMap :=
  imap (λ i c, mkVertexMap (orderedVertices !!! i) c) choices.

Lemma path_mapping_length ov p : length (path_mapping ov p) = length p.
Proof. unfold path_mapping. by rewrite length_imap. Qed.

Lemma path_mapping_snoc ov p c :
  path_mapping ov (p ++ [c])
  = path_mapping ov p ++ [mkVertexMap (ov !!! length p) c].
Proof. unfold path_mapping. rewrite imap_app. cbn. by rewrite Nat.add_0_r. Qed.

Lemma path_mapping_lookup ov p i c :
  p !! i = Some c → path_mapping ov p !!! i = mkVertexMap (ov !!! i) c.
Proof.
  intros H. apply list_lookup_total_correct. unfold path_mapping.
  rewrite list_lookup_imap, H. done.
Qed.

Lemma path_mapping_choices ov p : vm_v2 <$> path_mapping ov p = p.
Proof.
  unfold path_mapping. revert ov. induction p as [|c p IH] using rev_ind; intros ov.
  - done.
  - rewrite imap_app, fmap_app, IH. done.
Qed.

Lemma AllocateNewMapping_spec (mapping : list VertexMap) m v1 v2 :
  deref_mapping m = mapping →
  N.of_nat (length mapping) + 1 < ULONG_MODULUS →
  AllocateNewMapping (N.of_nat (length mapping) + 1) m v1 v2
  = mapping ++ [mkVertexMap v1 v2].
Proof.
  intros Hm Hb. unfold AllocateNewMapping. rewrite Hm.
  rewrite usub_small by lia.
  replace (N.of_nat (length mapping) + 1 - 1) with (N.of_nat (length mapping)) by lia.
  set (d := length mapping).
  replace (N.to_nat (N.of_nat d + 1)) with (S d) by lia.
  pose proof (ULONG_for_ind
    (λ i st, st = take i mapping ++ replicate (S d - i) (mkVertexMap 0 0))
    (N.of_nat d)
    (λ i newMapping, <[N.to_nat i := mapping !!! N.to_nat i]> newMapping)
    (replicate (S d) (mkVertexMap 0 0))) as H.
  cbv beta in H. rewrite Nat2N.id in H. rewrite H; clear H.
  - rewrite take_ge by (unfold d; lia). replace (S d - d)%nat with 1%nat by lia.
    cbn [replicate]. rewrite Nat2N.id. rewrite insert_app_r_alt by (fold d; lia).
    fold d. by rewrite Nat.sub_diag.
  - by rewrite take_0.
  - intros i st Hi ->. rewrite Nat2N.id.
    assert (Hl : length (take i mapping) = i) by (rewrite length_take; fold d; lia).
    rewrite insert_app_r_alt by lia. rewrite Hl, Nat.sub_diag.
    replace (S d - i)%nat with (S (d - i)) by lia. cbn [replicate].
    rewrite (take_S_r mapping i (mapping !!! i))
      by (apply list_lookup_lookup_total_lt; fold d; lia).
    rewrite <- app_assoc. cbn. repeat f_equal. all: lia.
Qed.

(** The arrays [mapped1] and [mapped2] of a node with the mapping of
    [choices]. *)
Lemma InexactGraphMatch_mapped_spec (nv1 nv2 : ULONG) (ov p : list ULONG) node :
  depth node = N.of_nat (length p) →
  deref_mapping (nodeMapping node) = path_mapping ov p →
  let r := InexactGraphMatch_mapped nv1 nv2 node in
  length r.1 = N.to_nat nv1 ∧ length r.2 = N.to_nat nv2
  ∧ (∀ v, v < nv1 → (∀ i, (i < length p)%nat → ov !!! i ≠ v) →
          r.1 !! N.to_nat v = Some VERTEX_UNMAPPED)
  ∧ (∀ v2, v2 < nv2 → v2 ∉ p → r.2 !! N.to_nat v2 = Some VERTEX_UNMAPPED)
  ∧ (∀ v2, v2 < nv2 → v2 ∈ p → v2 ≠ VERTEX_DELETED →
           (∀ i, (i < length p)%nat → ov !!! i ≠ VERTEX_UNMAPPED) →
           r.2 !!! N.to_nat v2 ≠ VERTEX_UNMAPPED).
Proof.
  intros Hd Hm. cbv zeta. unfold InexactGraphMatch_mapped. rewrite Hd, Hm.
  match goal with |- context [ULONG_for ?n ?body ?s] =>
    pose proof (ULONG_for_ind
      (λ i (st : list ULONG * list ULONG),
         length st.1 = N.to_nat nv1 ∧ length st.2 = N.to_nat nv2
         ∧ (∀ v, v < nv1 → (∀ j, (j < i)%nat → ov !!! j ≠ v) →
                 st.1 !! N.to_nat v = Some VERTEX_UNMAPPED)
         ∧ (∀ v2, v2 < nv2 → v2 ∉ take i p →
                  st.2 !! N.to_nat v2 = Some VERTEX_UNMAPPED)
         ∧ (∀ v2, v2 < nv2 → v2 ∈ take i p → v2 ≠ VERTEX_DELETED →
                  (∀ j, (j < length p)%nat → ov !!! j ≠ VERTEX_UNMAPPED) →
                  st.2 !!! N.to_nat v2 ≠ VERTEX_UNMAPPED))
      n body s) as H
  end.
  rewrite Nat2N.id in H. rewrite firstn_all in H. apply H; clear H.
  - cbn [fst snd]. rewrite !length_replicate. split; [done|]. split; [done|].
    split; [|split].
    + intros v Hv _. apply lookup_replicate_2. lia.
    + intros v2 Hv _. apply lookup_replicate_2. lia.
    + intros v2 _ Hin. rewrite take_0 in Hin. by apply elem_of_nil in Hin.
  - intros i [m1 m2] Hi (L1 & L2 & I1 & I2 & I3). cbn [fst snd] in *.
    rewrite Nat2N.id.
    destruct (lookup_lt_is_Some_2 p i Hi) as [c Hc].
    rewrite (path_mapping_lookup ov p i c Hc). cbn [vm_v1 vm_v2].
    rewrite (take_S_r p i c Hc).
    split; [by rewrite length_insert|].
    split; [destruct (negb _); by rewrite ?length_insert|].
    split; [|split].
    + intros v Hv Hov. rewrite list_lookup_insert_ne.
      * apply I1; [done|]. intros j Hj. apply Hov. lia.
      * intros E. apply (Hov i); [lia|]. lia.
    + intros v2 Hv Hin.
      assert (Hne : v2 ≠ c) by (intros ->; apply Hin, elem_of_app; right; left).
      assert (Hin' : v2 ∉ take i p) by (intros ?; apply Hin, elem_of_app; by left).
      destruct (negb _); [|by apply I2].
      rewrite list_lookup_insert_ne by lia. by apply I2.
    + intros v2 Hv Hin Hdel Hov.
      destruct (c =? VERTEX_DELETED) eqn:Ec; cbn [negb].
      * apply N.eqb_eq in Ec. apply elem_of_app in Hin as [Hin|Hin].
        -- by apply I3.
        -- apply list_elem_of_singleton in Hin. congruence.
      * destruct (decide (v2 = c)) as [->|Hne].
        -- rewrite list_lookup_total_insert_eq by lia. by apply Hov.
        -- rewrite list_lookup_total_insert_ne by lia.
           apply elem_of_app in Hin as [Hin|Hin]; [by apply I3|].
           apply list_elem_of_singleton in Hin. done.
Qed.

Section Search.
Variables (g1 g2 : Graph) (labelList : LabelList) (orderedVertices : list ULONG).

(** The node at which the search starts. *)
Definition root_node : MatchHeapNode := mkMatchHeapNode 0 0%R None.

(** The whole cost of the node that extends the mapping of [node] by
    [orderedVertices[depth]] to [c], where [VERTEX_DELETED] is "to
    nothing". *)
Definition child_cost (node : MatchHeapNode) (c : ULONG) : double :=
  let mapped := InexactGraphMatch_mapped (numVertices g1) (numVertices g2) node in
  let v1 := orderedVertices !!! N.to_nat (depth node) in
  if c =? VERTEX_DELETED
  then delete_cost g1 g2 node v1 mapped.1 mapped.2
  else map_cost g1 g2 labelList node v1 c mapped.1 mapped.2.

Definition child_node (node : MatchHeapNode) (c : ULONG) : MatchHeapNode :=
  mkMatchHeapNode (uadd (depth node) 1) (child_cost node c)
    (Some (AllocateNewMapping (uadd (depth node) 1) (nodeMapping node)
             (orderedVertices !!! N.to_nat (depth node)) c)).

(** The node that the choices lead to, and the cost of the mapping
    that they make. *)
Definition node_of (choices : list ULONG) : MatchHeapNode :=
  foldl child_node root_node choices.

Definition mapping_cost (choices : list ULONG) : double := cost (node_of choices).

(** Each vertex of [g1] goes to nothing or to a vertex of [g2], and no
    two of them go to the same vertex. *)
Definition valid_choices (choices : list ULONG) : Prop :=
  (∀ c, c ∈ choices → c = VERTEX_DELETED ∨ c < numVertices g2)
  ∧ NoDup (filter (λ c, c ≠ VERTEX_DELETED) choices).

(** A mapping of all vertices of [g1]. *)
Definition complete_mapping (choices : list ULONG) : Prop :=
  length choices = N.to_nat (numVertices g1) ∧ valid_choices choices.

(** What [InexactGraphMatch] tries for the next vertex: nothing, and
    the vertices of [g2] that are not mapped to. *)
Definition candidates (mapped2 : list ULONG) : list ULONG :=
  VERTEX_DELETED
  :: filter (λ v2, mapped2 !!! N.to_nat v2 = VERTEX_UNMAPPED)
            (N.of_nat <$> seq 0 (N.to_nat (numVertices g2))).

(** The graphs are small, [g2] carries no marks, and [orderedVertices]
    lists the vertices of [g1]. *)
Record search_inputs : Prop := {
  si_nv1 : 0 < numVertices g1 < 4096;
  si_nv2 : numVertices g2 < 4096;
  si_unmarked : edges_unmarked g2;
  si_length : length orderedVertices = N.to_nat (numVertices g1);
  si_nodup : NoDup orderedVertices;
  si_range : ∀ v, v ∈ orderedVertices → v < numVertices g1
}.

Lemma node_of_snoc p c : node_of (p ++ [c]) = child_node (node_of p) c.
Proof. unfold node_of. by rewrite foldl_app. Qed.

Lemma node_of_fields p :
  N.of_nat (length p) < ULONG_MODULUS →
  depth (node_of p) = N.of_nat (length p)
  ∧ deref_mapping (nodeMapping (node_of p)) = path_mapping orderedVertices p.
Proof.
  induction p as [|c p IH] using rev_ind; intros Hb; [done|].
  rewrite length_app in Hb. cbn in Hb.
  destruct IH as [Hd Hm]; [lia|].
  rewrite node_of_snoc. unfold child_node. cbn [depth nodeMapping deref_mapping default].
  rewrite Hd, uadd_small by lia. split.
  - rewrite length_app. cbn. lia.
  - rewrite path_mapping_snoc, Nat2N.id.
    rewrite <- (path_mapping_length orderedVertices p).
    apply AllocateNewMapping_spec; [done|]. rewrite path_mapping_length. lia.
Qed.

Lemma node_of_inj p q :
  N.of_nat (length p) < ULONG_MODULUS → N.of_nat (length q) < ULONG_MODULUS →
  node_of p = node_of q → p = q.
Proof.
  intros Hp Hq E. destruct (node_of_fields p Hp) as [_ Mp].
  destruct (node_of_fields q Hq) as [_ Mq]. rewrite E in Mp. rewrite Mq in Mp.
  rewrite <- (path_mapping_choices orderedVertices p).
  rewrite <- (path_mapping_choices orderedVertices q). by rewrite Mp.
Qed.

Lemma child_cost_le node c : (cost node <= child_cost node c)%R.
Proof.
  unfold child_cost. cbv zeta. destruct (c =? VERTEX_DELETED).
  - apply delete_cost_le.
  - apply map_cost_le.
Qed.

Lemma node_of_cost_app p q : (cost (node_of p) <= cost (node_of (p ++ q)))%R.
Proof.
  induction q as [|c q IH] using rev_ind.
  - rewrite app_nil_r. lra.
  - rewrite app_assoc, node_of_snoc. cbn [child_node cost].
    pose proof (child_cost_le (node_of (p ++ q)) c). lra.
Qed.

Lemma mapping_cost_nonneg p : (0 <= mapping_cost p)%R.
Proof. apply (node_of_cost_app [] p). Qed.

Lemma valid_choices_snoc p c :
  valid_choices (p ++ [c])
  ↔ valid_choices p ∧ (c = VERTEX_DELETED ∨ (c < numVertices g2 ∧ c ∉ p)).
Proof.
  unfold valid_choices. rewrite filter_app.
  assert (Hf : filter (λ c, c ≠ VERTEX_DELETED) [c]
               = if decide (c = VERTEX_DELETED) then [] else [c]).
  { rewrite filter_cons, filter_nil.
    destruct (decide (c ≠ VERTEX_DELETED)), (decide (c = VERTEX_DELETED)); done. }
  rewrite Hf. split.
  - intros [Hr Hn]. split; [split|].
    + intros x Hx. apply Hr, elem_of_app. by left.
    + destruct (decide (c = VERTEX_DELETED)).
      * by rewrite app_nil_r in Hn.
      * by apply NoDup_app in Hn as [? _].
    + destruct (decide (c = VERTEX_DELETED)) as [?|Hne]; [by left|]. right.
      destruct (Hr c) as [?|Hc]; [apply elem_of_app; right; left | done |].
      split; [done|]. apply NoDup_app in Hn as (_ & Hn & _). intros Hin.
      apply (Hn c); [|left]. apply list_elem_of_filter. done.
  - intros [[Hr Hn] Hc]. split.
    + intros x Hx. apply elem_of_app in Hx as [Hx|Hx]; [by apply Hr|].
      apply list_elem_of_singleton in Hx. subst x. destruct Hc as [?|[? _]]; auto.
    + destruct (decide (c = VERTEX_DELETED)) as [?|Hne]; [by rewrite app_nil_r|].
      destruct Hc as [?|[_ Hc]]; [done|].
      apply NoDup_app. split; [done|]. split; [|apply NoDup_singleton].
      intros x Hx Hx'. apply list_elem_of_singleton in Hx'. subst x.
      apply list_elem_of_filter in Hx as [_ Hx]. done.
Qed.

Lemma valid_choices_app p q : valid_choices (p ++ q) → valid_choices p.
Proof.
  induction q as [|c q IH] using rev_ind.
  - by rewrite app_nil_r.
  - rewrite app_assoc. intros H. apply valid_choices_snoc in H as [H _]. by apply IH.
Qed.

Lemma elem_of_candidates mapped2 c :
  c ∈ candidates mapped2
  ↔ c = VERTEX_DELETED
    ∨ (c < numVertices g2 ∧ mapped2 !!! N.to_nat c = VERTEX_UNMAPPED).
Proof.
  unfold candidates. rewrite elem_of_cons, list_elem_of_filter, list_elem_of_fmap.
  split; (intros [?|H]; [by left | right]).
  - destruct H as (Hm & i & -> & Hi). apply elem_of_seq in Hi. split; [lia | done].
  - destruct H as [Hc Hm]. split; [done|]. exists (N.to_nat c).
    split; [lia|]. apply elem_of_seq. lia.
Qed.

Lemma candidates_length mapped2 :
  (length (candidates mapped2) ≤ S (N.to_nat (numVertices g2)))%nat.
Proof.
  unfold candidates. cbn [length]. apply le_n_S.
  etrans; [apply length_filter|]. by rewrite length_fmap, length_seq.
Qed.

(** The arrays of the node of valid choices. *)
Lemma node_of_mapped p :
  search_inputs → valid_choices p → (length p < N.to_nat (numVertices g1))%nat →
  let m := InexactGraphMatch_mapped (numVertices g1) (numVertices g2) (node_of p) in
  m.1 !! N.to_nat (orderedVertices !!! length p) = Some VERTEX_UNMAPPED
  ∧ length m.2 = N.to_nat (numVertices g2)
  ∧ ∀ c, c ∈ candidates m.2
         ↔ c = VERTEX_DELETED ∨ (c < numVertices g2 ∧ c ∉ p).
Proof.
  intros [Hnv1 Hnv2 _ Hlen Hnd Hrange] [Hr _] Hp. cbv zeta.
  assert (Hb : N.of_nat (length p) < ULONG_MODULUS) by (unfold ULONG_MODULUS; lia).
  destruct (node_of_fields p Hb) as [Hd Hm].
  destruct (InexactGraphMatch_mapped_spec (numVertices g1) (numVertices g2)
              orderedVertices p (node_of p) Hd Hm) as (L1 & L2 & M1 & M2 & M3).
  cbv zeta in *.
  assert (Hov : ∀ i, (i < length orderedVertices)%nat →
                     orderedVertices !!! i ∈ orderedVertices).
  { intros i Hi. apply list_elem_of_lookup_total_2. done. }
  split; [|split; [done|]].
  - apply M1.
    + apply Hrange, Hov. lia.
    + intros i Hi E.
      assert (i = length p); [|lia].
      apply (NoDup_lookup orderedVertices i (length p) (orderedVertices !!! i)); [done| |].
      * apply list_lookup_lookup_total_lt. lia.
      * rewrite E. apply list_lookup_lookup_total_lt. lia.
  - intros c. rewrite elem_of_candidates. split; (intros [?|[Hc H]]; [by left | right]).
    + split; [done|]. intros Hin. apply (M3 c Hc Hin); [| |done].
      * unfold VERTEX_DELETED, MAX_UNSIGNED_LONG. lia.
      * intros i Hi E. pose proof (Hrange _ (Hov i ltac:(lia))) as Hlt.
        rewrite E in Hlt. unfold VERTEX_UNMAPPED, MAX_UNSIGNED_LONG in Hlt. lia.
    + split; [done|]. apply list_lookup_total_correct. by apply M2.
Qed.

(** The expansion of a node queues the candidates whose cost is
    within the bounds and leaves [g2] as it is. *)
Lemma InexactGraphMatch_expand_spec threshold bestNode node localQueue :
  edges_unmarked g2 →
  numVertices g2 < 4096 →
  let m := InexactGraphMatch_mapped (numVertices g1) (numVertices g2) node in
  m.1 !! N.to_nat (orderedVertices !!! N.to_nat (depth node)) = Some VERTEX_UNMAPPED →
  length m.2 = N.to_nat (numVertices g2) →
  heap_ok localQueue → heapSize localQueue ≤ 16384 → numNodes localQueue = 0 →
  let kept :=
    filter (λ c, InexactGraphMatch_within (child_cost node c) threshold bestNode = true)
           (candidates m.2) in
  let r := InexactGraphMatch_expand g1 g2 labelList threshold orderedVertices
                                    bestNode node localQueue in
  r.2 = g2 ∧ heap_ok r.1
  ∧ contents r.1 ≡ₚ child_node node <$> kept
  ∧ numNodes r.1 = N.of_nat (length kept)
  ∧ heapSize r.1 ≤ 16384.
Proof.
  intros Hu Hnv2 m Hm1 Hm2 Hok Hsize Hempty kept r.
  assert (Hc0 : contents localQueue = []).
  { unfold contents. rewrite Hempty. done. }
  subst r kept. unfold InexactGraphMatch_expand, child_node, child_cost. cbv zeta.
  fold m. destruct m as [m1 m2] eqn:Em. cbn [fst snd] in *.
  set (v1 := orderedVertices !!! N.to_nat (depth node)) in *.
  set (cc := λ c, if c =? VERTEX_DELETED
                  then delete_cost g1 g2 node v1 m1 m2
                  else map_cost g1 g2 labelList node v1 c m1 m2).
  set (W := λ c, InexactGraphMatch_within (cc c) threshold bestNode = true).
  set (mk := λ c, mkMatchHeapNode (uadd (depth node) 1) (cc c)
                    (Some (AllocateNewMapping (uadd (depth node) 1)
                             (nodeMapping node) v1 c))).
  rewrite InexactGraphMatch_delete_spec.
  set (lq1 := if InexactGraphMatch_within _ threshold bestNode then _ else localQueue).
  set (U := λ v2 : ULONG, m2 !!! N.to_nat v2 = VERTEX_UNMAPPED).
  assert (H1 : heap_ok lq1
               ∧ contents lq1 ≡ₚ mk <$> filter W [VERTEX_DELETED]
               ∧ numNodes lq1 = N.of_nat (length (filter W [VERTEX_DELETED]))
               ∧ heapSize lq1 ≤ 16384).
  { rewrite filter_cons, filter_nil. unfold lq1.
    destruct (decide (W VERTEX_DELETED)) as [Hw|Hw]; unfold W, cc in Hw;
      rewrite N.eqb_refl in Hw.
    - rewrite Hw.
      destruct (InsertMatchHeapNode_spec (mk VERTEX_DELETED) localQueue Hok)
        as (I1 & I2 & I3); [unfold ULONG_MODULUS; lia|].
      pose proof (InsertMatchHeapNode_size (mk VERTEX_DELETED) localQueue (proj1 Hok))
        as I4.
      cbv zeta in *. unfold mk in I1, I2, I3, I4 |- *. unfold cc in I1, I2, I3, I4 |- *.
      rewrite N.eqb_refl in *.
      split; [done|]. split; [by rewrite I2, Hc0|]. split; [rewrite I3, Hempty; done|].
      etrans; [apply I4; unfold ULONG_MODULUS; lia|]. lia.
    - apply not_true_is_false in Hw. rewrite Hw. cbn.
      split; [done|]. split; [by rewrite Hc0|]. split; [done|]. done. }
  match goal with |- context [ULONG_for ?n ?body ?s] =>
    pose proof (ULONG_for_ind
      (λ i (st : MatchHeap * Graph * list ULONG * list ULONG),
         let keep := filter W (VERTEX_DELETED :: filter U (N.of_nat <$> seq 0 i)) in
         st.1.1.2 = g2 ∧ st.1.2 = m1 ∧ st.2 = m2
         ∧ heap_ok st.1.1.1
         ∧ contents st.1.1.1 ≡ₚ mk <$> keep
         ∧ numNodes st.1.1.1 = N.of_nat (length keep)
         ∧ heapSize st.1.1.1 ≤ 16384)
      n body s) as H
  end.
  cbv zeta in H.
  destruct H as (R1 & R2 & R3 & R4 & R5 & R6 & R7).
  { cbn [fst snd seq fmap list_fmap]. rewrite filter_nil. by destruct H1 as (? & ? & ? & ?). }
  { intros i [[[lq g] a1] a2] Hi (I1 & I2 & I3 & I4 & I5 & I6 & I7).
    cbn [fst snd] in *. subst g a1 a2.
    assert (Hseq : filter W (VERTEX_DELETED :: filter U (N.of_nat <$> seq 0 (S i)))
                   = filter W (VERTEX_DELETED :: filter U (N.of_nat <$> seq 0 i))
                     ++ (if decide (U (N.of_nat i))
                         then if decide (W (N.of_nat i)) then [N.of_nat i] else []
                         else [])).
    { rewrite seq_S, fmap_app, filter_app, app_comm_cons, filter_app. f_equal.
      cbn [fmap list_fmap Nat.add]. rewrite (filter_cons U), filter_nil.
      destruct (decide (U (N.of_nat i))); [|done].
      by rewrite filter_cons, filter_nil. }
    rewrite Hseq.
    assert (Hlen : (length (filter W (VERTEX_DELETED
                                      :: filter U (N.of_nat <$> seq 0 i)))
                    ≤ S i)%nat).
    { etrans; [apply length_filter|]. cbn [length]. apply le_n_S.
      etrans; [apply length_filter|]. by rewrite length_fmap, length_seq. }
    destruct (decide (U (N.of_nat i))) as [HU|HU].
    - unfold U in HU.
      rewrite InexactGraphMatch_map_spec; [|done|done|].
      2: { rewrite <- HU. apply list_lookup_lookup_total_lt. lia. }
      cbn [fst snd]. split; [done|]. split; [done|]. split; [done|].
      assert (Hne : (N.of_nat i =? VERTEX_DELETED) = false).
      { apply N.eqb_neq. unfold VERTEX_DELETED, MAX_UNSIGNED_LONG. lia. }
      destruct (decide (W (N.of_nat i))) as [Hw|Hw]; unfold W, cc in Hw;
        rewrite Hne in Hw.
      + rewrite Hw.
        destruct (InsertMatchHeapNode_spec (mk (N.of_nat i)) lq I4)
          as (J1 & J2 & J3); [unfold ULONG_MODULUS; lia|].
        pose proof (InsertMatchHeapNode_size (mk (N.of_nat i)) lq (proj1 I4)) as J4.
        cbv zeta in *. unfold mk at 1 in J1. unfold mk at 1 in J2.
        unfold mk at 1 in J3. unfold mk at 1 in J4. unfold cc in J1, J2, J3, J4.
        rewrite Hne in *.
        split; [done|]. split.
        { rewrite J2, I5, fmap_app. cbn [fmap list_fmap].
          rewrite <- Permutation_cons_append. apply perm_skip. done. }
        split; [rewrite J3, I6, length_app; cbn; lia|].
        etrans; [apply J4; unfold ULONG_MODULUS; lia|]. lia.
      + apply not_true_is_false in Hw. rewrite Hw, app_nil_r. done.
    - rewrite InexactGraphMatch_map_skip by done. cbn [fst snd].
      rewrite app_nil_r. done. }
  destruct (ULONG_for _ _ _) as [[[lq g] a1] a2]. cbn [fst snd] in *.
  change (VERTEX_DELETED :: filter U (N.of_nat <$> seq 0 (N.to_nat (numVertices g2))))
    with (candidates m2) in *.
  done.
Qed.

End Search.

(** *** The search while it is exhaustive *)

(** The nodes that the search can expand below a node that has
    [levels] vertices left to map, the node included. *)
Fixpoint subtree_size (nv2 : ULONG) (levels : nat) : N :=
  match levels with
  | O => 0
  | S levels => 1 + (nv2 + 1) * subtree_size nv2 levels
  end.

(** The search cannot reach the number of nodes at which it turns
    greedy. *)
Definition exhaustive_search (g1 g2 : Graph) : Prop :=
  subtree_size (numVertices g2) (N.to_nat (numVertices g1))
  ≤ MaximumNodes (numVertices g1).

Definition exhaustive_search_check (g1 g2 : Graph) : bool :=
  subtree_size (numVertices g2) (N.to_nat (numVertices g1))
  <=? MaximumNodes (numVertices g1).

(** The nodes that are left to expand from the nodes of a queue. *)
Definition nodes_left (nv1 nv2 : ULONG) (l : list MatchHeapNode) : N :=
  foldr (λ node s, subtree_size nv2 (N.to_nat nv1 - N.to_nat (depth node)) + s) 0 l.

Lemma nodes_left_app nv1 nv2 l k :
  nodes_left nv1 nv2 (l ++ k) = nodes_left nv1 nv2 l + nodes_left nv1 nv2 k.
Proof.
  unfold nodes_left. induction l as [|x l IH]; cbn [foldr app]; [done|].
  rewrite IH. lia.
Qed.

Lemma nodes_left_perm nv1 nv2 l k :
  l ≡ₚ k → nodes_left nv1 nv2 l = nodes_left nv1 nv2 k.
Proof.
  unfold nodes_left.
  induction 1 as [|x l k _ IH|x y l|l k m _ IH1 _ IH2]; cbn [foldr].
  - done.
  - by rewrite IH.
  - lia.
  - congruence.
Qed.

Lemma nodes_left_same_depth nv1 nv2 (d : nat) l :
  Forall (λ node, N.to_nat (depth node) = d) l →
  nodes_left nv1 nv2 l = N.of_nat (length l) * subtree_size nv2 (N.to_nat nv1 - d).
Proof.
  unfold nodes_left. induction 1 as [|x l Hx _ IH]; cbn [foldr length]; [lia|].
  rewrite IH, Hx. lia.
Qed.

Lemma nodes_left_0 nv1 nv2 l node :
  nodes_left nv1 nv2 l = 0 → node ∈ l → nv1 ≤ depth node.
Proof.
  unfold nodes_left.
  induction l as [|x l IH]; intros H Hin; [by apply elem_of_nil in Hin|].
  cbn [foldr] in H. apply elem_of_cons in Hin as [->|Hin].
  - destruct (N.to_nat nv1 - N.to_nat (depth x))%nat as [|k] eqn:E; [lia|].
    cbn [subtree_size] in H. lia.
  - apply IH; [lia|done].
Qed.

(** The order in which [InexactGraphMatch] maps the vertices. *)
Definition search_order (g1 : Graph) : list ULONG :=
  OrderVerticesByDegree g1 (replicate (N.to_nat (numVertices g1)) 0).

Lemma search_order_perm g1 :
  search_order g1 ≡ₚ N.of_nat <$> seq 0 (N.to_nat (numVertices g1)).
Proof.
  unfold search_order, OrderVerticesByDegree.
  set (nv := N.to_nat (numVertices g1)) in *.
  set (vd0 := replicate nv 0).
  pose proof (ULONG_for_ind
    (λ i st, OrderVerticesByDegree_inv g1 i st (drop i vd0) (drop i vd0))
    (numVertices g1) (OrderVerticesByDegree_insert g1) (vd0, vd0)) as H.
  cbv beta in H. fold nv in H.
  destruct H as [I1 I2 I3 I4 I5 I6 I7].
  - split; cbn [fst snd]; rewrite ?take_0; try done; try lia. constructor.
  - intros i st Hi Hinv.
    assert (Hi1 : (i < length vd0)%nat) by (unfold vd0; rewrite length_replicate; lia).
    rewrite (drop_S vd0 (vd0 !!! i) i) in Hinv by (by apply list_lookup_lookup_total_lt).
    by apply (OrderVerticesByDegree_insert_inv g1 i st _ _ _ _ Hinv).
  - set (st := ULONG_for _ _ _) in *.
    assert (Hd : length (drop nv st.2) = length (drop nv vd0)) by (by rewrite I5).
    rewrite !length_drop in Hd. unfold vd0 in Hd. rewrite length_replicate in Hd.
    rewrite take_ge in I6 by lia. done.
Qed.

Lemma search_order_inputs g1 g2 :
  0 < numVertices g1 < 4096 → numVertices g2 < 4096 → edges_unmarked g2 →
  search_inputs g1 g2 (search_order g1).
Proof.
  intros H1 H2 Hu. pose proof (search_order_perm g1) as Hp. split; try done.
  - by rewrite Hp, length_fmap, length_seq.
  - rewrite Hp. apply NoDup_fmap_2; [|apply NoDup_seq]. intros x y. lia.
  - intros v Hv. rewrite Hp in Hv. apply list_elem_of_fmap in Hv as (i & -> & Hi).
    apply elem_of_seq in Hi. lia.
Qed.

Lemma MaximumNodes_small nv1 : nv1 < 4096 → MaximumNodes nv1 < 281474976710656.
Proof.
  intros H. unfold MaximumNodes, MATCH_SEARCH_THRESHOLD_EXPONENT. cbn [N.eqb].
  change 281474976710656 with (4096 ^ 4). apply N.pow_lt_mono_l; [done | lia].
Qed.

Lemma empty_heap_ok heap :
  heap_wf heap → numNodes heap = 0 → heap_ok heap.
Proof. intros Hwf H0. split; [done|]. intros j Hj. rewrite H0 in Hj. cbn in Hj. lia. Qed.

Section Exhaustive.
Variables (g1 g2 : Graph) (labelList : LabelList) (threshold : double).

Local Abbreviation nv1 := (numVertices g1).
Local Abbreviation nv2 := (numVertices g2).
Local Abbreviation nodeOf := (node_of g1 g2 labelList (search_order g1)).
Local Abbreviation costOf := (mapping_cost g1 g2 labelList (search_order g1)).
Local Abbreviation round :=
  (InexactGraphMatch_round g1 labelList threshold (MaximumNodes (numVertices g1))
                           (search_order g1)).

(** The node that stands for "no mapping found". *)
Definition no_node : MatchHeapNode := mkMatchHeapNode 0 MAX_DOUBLE None.

(** The state at the head of the loop while the search is exhaustive:
    every node of the global queue stands for valid choices within the
    threshold, and every complete mapping within the threshold has a
    part in the queue. *)
Record search_inv (st : InexactGraphMatch_state) : Prop := {
  inv_quick : s_quickMatch st = false;
  inv_done : s_done st = false;
  inv_best : s_bestNode st = no_node;
  inv_g2 : s_g2 st = g2;
  inv_global : heap_ok (s_globalQueue st);
  inv_global_size :
    heapSize (s_globalQueue st) ≤ N.max (nv1 * nv1) (2 * (1 + s_numNodes st * (nv2 + 1)));
  inv_global_num : numNodes (s_globalQueue st) ≤ 1 + s_numNodes st * (nv2 + 1);
  inv_local : heap_ok (s_localQueue st);
  inv_local_num : numNodes (s_localQueue st) = 0;
  inv_local_size : heapSize (s_localQueue st) ≤ 16384;
  inv_nodes : ∀ node, node ∈ contents (s_globalQueue st) →
      ∃ p, node = nodeOf p ∧ valid_choices g2 p
           ∧ (length p ≤ N.to_nat nv1)%nat ∧ (cost node <= threshold)%R;
  inv_frontier : ∀ p, complete_mapping g1 g2 p → (costOf p <= threshold)%R →
      ∃ k, nodeOf (take k p) ∈ contents (s_globalQueue st);
  inv_left :
    s_numNodes st + nodes_left nv1 nv2 (contents (s_globalQueue st))
    ≤ subtree_size nv2 (N.to_nat nv1)
}.

(** The state in which the search ends: no complete mapping is within
    the threshold, or the best node is a cheapest one. *)
Definition search_result (st : InexactGraphMatch_state) : Prop :=
  InexactGraphMatch_running st = false
  ∧ ((s_bestNode st = no_node
      ∧ ∀ p, complete_mapping g1 g2 p → ¬ (costOf p <= threshold)%R)
     ∨ (∃ p, s_bestNode st = nodeOf p ∧ complete_mapping g1 g2 p
             ∧ (costOf p <= threshold)%R
             ∧ ∀ q, complete_mapping g1 g2 q → (costOf q <= threshold)%R →
                    (costOf p <= costOf q)%R)).

Hypothesis Hinputs : search_inputs g1 g2 (search_order g1).
Hypothesis Hexhaustive : exhaustive_search g1 g2.
Hypothesis Hthreshold : (0 <= threshold < MAX_DOUBLE)%R.

Lemma search_inv_start : search_inv (InexactGraphMatch_start g1 g2).
Proof.
  destruct Hinputs as [Hnv1 Hnv2 _ _ _ _].
  unfold InexactGraphMatch_start. cbv zeta.
  assert (Hu : umul nv1 nv1 = nv1 * nv1).
  { unfold umul. apply N.mod_small. unfold ULONG_MODULUS. nia. }
  rewrite Hu.
  destruct (InsertMatchHeapNode_spec (mkMatchHeapNode 0 0%R None)
              (AllocateMatchHeap (nv1 * nv1))) as (I1 & I2 & I3).
  { apply AllocateMatchHeap_ok. nia. }
  { cbn. unfold ULONG_MODULUS. nia. }
  pose proof (InsertMatchHeapNode_size (mkMatchHeapNode 0 0%R None)
                (AllocateMatchHeap (nv1 * nv1))) as I4.
  cbv zeta in *. cbn [numNodes heapSize AllocateMatchHeap] in I3, I4.
  assert (Hc : contents (AllocateMatchHeap (nv1 * nv1)) = []) by done.
  rewrite Hc in I2.
  split; cbn [s_quickMatch s_done s_bestNode s_g2 s_globalQueue s_localQueue s_numNodes].
  - done.
  - done.
  - done.
  - done.
  - done.
  - etrans; [apply I4|].
    + apply AllocateMatchHeap_ok. nia.
    + unfold ULONG_MODULUS. nia.
    + lia.
  - rewrite I3. lia.
  - apply AllocateMatchHeap_ok. lia.
  - done.
  - cbn. lia.
  - intros node Hn. rewrite I2 in Hn. apply list_elem_of_singleton in Hn. subst node.
    exists []. split; [done|]. split; [|split; [cbn; lia | cbn; lra]].
    split; [intros c Hc'; by apply elem_of_nil in Hc' | constructor].
  - intros p _ _. exists 0%nat. rewrite take_0, I2. by left.
  - rewrite (nodes_left_perm _ _ _ _ I2). cbn. rewrite Nat.sub_0_r. lia.
Qed.

Lemma search_inv_done st :
  search_inv st → InexactGraphMatch_running st = false → search_result st.
Proof.
  intros Hinv Hrun. split; [done|]. left. split; [by destruct Hinv|].
  intros p Hp Hc. destruct (inv_frontier st Hinv p Hp Hc) as [k Hk].
  unfold InexactGraphMatch_running in Hrun. rewrite (inv_done st Hinv) in Hrun.
  rewrite andb_true_r in Hrun. apply negb_false_iff in Hrun.
  unfold MatchHeapEmpty in Hrun. apply N.eqb_eq in Hrun.
  unfold contents in Hk. rewrite Hrun in Hk. cbn in Hk. by apply elem_of_nil in Hk.
Qed.

(** A round of the exhaustive search ends the search with a cheapest
    mapping or keeps the invariant with one node more counted. *)
Lemma search_inv_round st :
  search_inv st → InexactGraphMatch_running st = true →
  (search_inv (round st) ∧ s_numNodes (round st) = s_numNodes st + 1)
  ∨ search_result (round st).
Proof.
  intros [Hq Hd Hb Hg Hgq Hgs Hgn Hlq Hln Hls Hnodes Hfront Hleft] Hrun.
  pose proof Hinputs as [Hnv1 Hnv2 Hunm Hovl Hovn Hovr].
  pose proof (MaximumNodes_small nv1 ltac:(lia)) as HQ.
  pose proof Hexhaustive as Hex. unfold exhaustive_search in Hex.
  set (W0 := subtree_size nv2 (N.to_nat nv1)) in *.
  unfold InexactGraphMatch_running in Hrun. rewrite Hd, andb_true_r in Hrun.
  apply negb_true_iff in Hrun. unfold MatchHeapEmpty in Hrun. apply N.eqb_neq in Hrun.
  assert (Hn : s_numNodes st ≤ W0) by lia.
  destruct (ExtractMatchHeapNode_spec (s_globalQueue st) Hgq) as (E1 & E2 & E3 & E4);
    [lia | unfold ULONG_MODULUS; nia |].
  destruct (ExtractMatchHeapNode_size (s_globalQueue st)) as [E5 _].
  cbv zeta in E1, E2, E3, E4.
  unfold InexactGraphMatch_round. cbv zeta.
  destruct (ExtractMatchHeapNode (s_globalQueue st)) as [gq node] eqn:Eext.
  cbn [fst snd] in *.
  assert (Hin : node ∈ contents (s_globalQueue st)) by (rewrite E2; left).
  destruct (Hnodes node Hin) as (p & Hp & Hvalid & Hlen & Hcost).
  assert (Hpb : N.of_nat (length p) < ULONG_MODULUS) by (unfold ULONG_MODULUS; lia).
  destruct (node_of_fields g1 g2 labelList (search_order g1) p Hpb) as [Hdepth Hmap].
  rewrite <- Hp in Hdepth, Hmap.
  assert (Hlt0 : dlt (cost node) (cost no_node) = true).
  { unfold dlt, no_node. cbn [cost]. apply bool_decide_eq_true_2. lra. }
  rewrite Hb, Hlt0.
  rewrite Hq. cbn [negb andb].
  rewrite (uadd_small (s_numNodes st) 1) by (unfold ULONG_MODULUS; lia).
  destruct (N.eqb_spec (depth node) nv1) as [Hcomplete|Hpartial].
  - (* complete mapping found *)
    right.
    assert (Hres : ∀ gq' n' q',
              search_result (mkInexactGraphMatch_state gq' (s_localQueue st) node n' q'
                                                       true (s_g2 st))).
    { intros gq' n' q'. split.
      - unfold InexactGraphMatch_running. cbn. apply andb_false_r.
      - right. exists p. cbn [s_bestNode]. split; [done|].
        split; [split; [lia | done]|]. unfold mapping_cost. rewrite <- Hp.
        split; [done|]. intros q Hq' Hqc.
        destruct (Hfront q Hq' Hqc) as [k Hk].
        pose proof (E3 _ Hk) as Hbetter.
        apply not_true_iff_false in Hbetter. rewrite better_spec in Hbetter.
        pose proof (node_of_cost_app g1 g2 labelList (search_order g1)
                      (take k q) (drop k q)) as Hmono.
        rewrite take_drop in Hmono.
        destruct (Rle_or_lt (cost node) (cost (nodeOf (take k q)))) as [Hle|Hlt].
        + lra.
        + exfalso. apply Hbetter. by left. }
    destruct (_ <? _); apply Hres.
  - (* expand node's partial mapping *)
    assert (Hlt : (length p < N.to_nat nv1)%nat) by lia.
    destruct (node_of_mapped g1 g2 labelList (search_order g1) p Hinputs Hvalid Hlt)
      as (M1 & M2 & M3).
    cbv zeta in M1, M2, M3. rewrite <- Hp in M1, M2, M3.
    assert (Hdn : N.to_nat (depth node) = length p) by lia.
    rewrite Hg.
    destruct (InexactGraphMatch_expand_spec g1 g2 labelList (search_order g1) threshold
                no_node node (s_localQueue st) Hunm Hnv2)
      as (X1 & X2 & X3 & X4 & X5); [by rewrite Hdn | done | done | done | done |].
    cbv zeta in X1, X2, X3, X4, X5.
    set (kept := filter _ _) in X3, X4.
    destruct (InexactGraphMatch_expand _ _ _ _ _ _ _ _) as [lq g2'].
    cbn [fst snd] in *. subst g2'.
    assert (Hkl : (length kept ≤ S (N.to_nat nv2))%nat).
    { unfold kept. etrans; [apply length_filter|]. apply candidates_length. }
    assert (Hwf : heap_wf lq) by apply X2.
    destruct (MergeMatchHeaps_spec lq gq) as (G1 & G2 & G3 & G4 & G5 & G6 & G7).
    { destruct Hwf as (Hs & Hnn & _). lia. }
    { done. }
    { rewrite E5. unfold ULONG_MODULUS. nia. }
    { rewrite X4, E4. unfold ULONG_MODULUS. nia. }
    cbv zeta in G1, G2, G3, G4, G5, G6, G7.
    destruct (MergeMatchHeaps lq gq) as [lq' gq'].
    cbn [fst snd] in *.
    (* the nodes that are left *)
    assert (Hkept : ∀ c, c ∈ kept →
              child_node g1 g2 labelList (search_order g1) node c = nodeOf (p ++ [c])
              ∧ valid_choices g2 (p ++ [c])
              ∧ (child_cost g1 g2 labelList (search_order g1) node c <= threshold)%R).
    { intros c Hc. unfold kept in Hc. apply list_elem_of_filter in Hc as [Hw Hc].
      split; [by rewrite node_of_snoc, <- Hp|]. split.
      - apply valid_choices_snoc. split; [done|]. by apply M3.
      - unfold InexactGraphMatch_within, dle in Hw.
        apply andb_true_iff in Hw as [Hw _]. by apply bool_decide_eq_true in Hw. }
    assert (Hchild_depth :
              Forall (λ n, N.to_nat (depth n) = S (length p))
                     (child_node g1 g2 labelList (search_order g1) node <$> kept)).
    { apply Forall_forall. intros n Hn'.
      apply list_elem_of_fmap in Hn' as (c & -> & _). unfold child_node. cbn [depth].
      rewrite uadd_small by (unfold ULONG_MODULUS; lia). lia. }
    assert (Hleft' : s_numNodes st + 1 + nodes_left nv1 nv2 (contents gq') ≤ W0).
    { rewrite (nodes_left_perm _ _ _ _ G2), nodes_left_app.
      rewrite (nodes_left_perm _ _ _ _ X3).
      rewrite (nodes_left_same_depth nv1 nv2 (S (length p)) _ Hchild_depth).
      rewrite length_fmap.
      rewrite (nodes_left_perm _ _ _ _ E2) in Hleft. cbn [nodes_left foldr] in Hleft.
      fold (nodes_left nv1 nv2 (contents gq)) in Hleft.
      rewrite Hdn in Hleft.
      replace (N.to_nat nv1 - length p)%nat with (S (N.to_nat nv1 - S (length p)))
        in Hleft by lia.
      cbn [subtree_size] in Hleft.
      assert (N.of_nat (length kept) * subtree_size nv2 (N.to_nat nv1 - S (length p))
              ≤ (nv2 + 1) * subtree_size nv2 (N.to_nat nv1 - S (length p)))
        by (apply N.mul_le_mono_r; lia).
      lia. }
    assert (Htest : (MaximumNodes nv1 <? s_numNodes st + 1) = false)
      by (apply N.ltb_ge; lia).
    rewrite Htest. left. split; [|done].
    split; cbn [s_quickMatch s_done s_bestNode s_g2 s_globalQueue s_localQueue
                s_numNodes].
    + done.
    + done.
    + done.
    + done.
    + done.
    + etrans; [apply G4|]. rewrite G3, X4, E4, E5. lia.
    + rewrite G3, X4, E4. lia.
    + apply empty_heap_ok; [|done]. destruct Hwf as (Hs & Hnn & Hpos).
      split; [|split]; [lia | lia | lia].
    + done.
    + lia.
    + intros n Hn'. rewrite G2, X3 in Hn'. apply elem_of_app in Hn' as [Hn'|Hn'].
      * apply list_elem_of_fmap in Hn' as (c & -> & Hc).
        destruct (Hkept c Hc) as (K1 & K2 & K3).
        exists (p ++ [c]). split; [done|]. split; [done|].
        split; [rewrite length_app; cbn; lia | done].
      * apply Hnodes. rewrite E2. by right.
    + intros q Hq' Hqc. destruct (Hfront q Hq' Hqc) as [k Hk].
      rewrite E2 in Hk. apply elem_of_cons in Hk as [Hk|Hk].
      * (* the part of [q] in the queue is the node taken out *)
        rewrite Hp in Hk.
        apply node_of_inj in Hk;
          [|rewrite length_take; unfold ULONG_MODULUS; destruct Hq'; lia
           |done].
        destruct Hq' as [Hql Hqv].
        assert (Hkq : (k < length q)%nat).
        { assert (length (take k q) = length p) by (by rewrite Hk).
          rewrite length_take in H. lia. }
        destruct (lookup_lt_is_Some_2 q k Hkq) as [c Hc].
        pose proof (take_S_r q k c Hc) as Hs. rewrite Hk in Hs.
        assert (Hv' : valid_choices g2 (p ++ [c])).
        { rewrite <- Hs. apply (valid_choices_app g2 _ (drop (S k) q)).
          by rewrite take_drop. }
        pose proof (node_of_cost_app g1 g2 labelList (search_order g1)
                      (take (S k) q) (drop (S k) q)) as Hmono.
        rewrite take_drop, Hs, node_of_snoc, <- Hp in Hmono.
        cbn [child_node cost] in Hmono. unfold mapping_cost in Hqc.
        exists (S k). rewrite Hs, G2, X3. apply elem_of_app. left.
        rewrite node_of_snoc, <- Hp. apply list_elem_of_fmap. exists c.
        split; [done|]. unfold kept. apply list_elem_of_filter. split.
        -- unfold InexactGraphMatch_within, dle, dlt, no_node. cbn [cost].
           apply andb_true_iff.
           split; apply bool_decide_eq_true; lra.
        -- apply M3. apply valid_choices_snoc in Hv' as [_ Hv']. done.
      * exists k. rewrite G2. apply elem_of_app. by right.
    + done.
Qed.

Lemma InexactGraphMatch_loop_stop rounds quickMatchThreshold orderedVertices st :
  InexactGraphMatch_running st = false →
  InexactGraphMatch_loop rounds g1 labelList threshold quickMatchThreshold
                         orderedVertices st = st.
Proof. intros H. destruct rounds; cbn [InexactGraphMatch_loop]; by rewrite ?H. Qed.

(** The loop ends within the rounds that are left. *)
Lemma search_inv_loop rounds st :
  search_inv st →
  (N.to_nat (subtree_size nv2 (N.to_nat nv1) - s_numNodes st) < rounds)%nat →
  search_result
    (InexactGraphMatch_loop rounds g1 labelList threshold (MaximumNodes nv1)
                            (search_order g1) st).
Proof.
  revert st. induction rounds as [|rounds IH]; intros st Hinv Hr; [lia|].
  cbn [InexactGraphMatch_loop].
  destruct (InexactGraphMatch_running st) eqn:Erun.
  - destruct (search_inv_round st Hinv Erun) as [[Hinv' Hn] | Hres].
    + apply IH; [done|]. pose proof (inv_left _ Hinv'). lia.
    + rewrite InexactGraphMatch_loop_stop by apply Hres. done.
  - by apply search_inv_done.
Qed.

Lemma InexactGraphMatch_search_result :
  search_result (InexactGraphMatch_search g1 g2 labelList threshold).
Proof.
  unfold InexactGraphMatch_search. cbv zeta.
  change (OrderVerticesByDegree g1 (replicate (N.to_nat nv1) 0))
    with (search_order g1).
  apply search_inv_loop; [apply search_inv_start|].
  pose proof Hexhaustive as Hex. unfold exhaustive_search in Hex.
  unfold InexactGraphMatch_start, InexactGraphMatch_rounds. cbn [s_numNodes]. lia.
Qed.

End Exhaustive.

(** ** [GraphMatch] on [InexactGraphMatch] *)

Lemma GraphMatch_order_le g1 g2 :
  numVertices (GraphMatch_order g1 g2).2 ≤ numVertices (GraphMatch_order g1 g2).1.
Proof.
  unfold GraphMatch_order.
  destruct (N.ltb_spec (numVertices g1) (numVertices g2)); cbn [fst snd]; lia.
Qed.


(** A single vertex labelled [e]. *)
Definition example_vertex_e : Graph :=
  mkGraph 1 0 [mkVertex 1 [] VERTEX_UNMAPPED false] [].

Lemma MAX_DOUBLE_gt_1 : (1 < MAX_DOUBLE)%R.
Proof. unfold MAX_DOUBLE. apply (IZR_lt 1). vm_compute. reflexivity. Qed.

(** Mapping the vertex [A] to the vertex [e] costs the substitution of
    the label, 1.0; deleting [A] and inserting [e] costs 2.0. *)
Lemma example_mapping_cost_substitute :
  mapping_cost example_vertex example_vertex_e example_labels
               (search_order example_vertex) [0] = 1%R.
Proof.
  lazy -[Rplus Rmult Rminus Rdiv Rinv Ropp IZR]. lra.
Qed.

Lemma example_mapping_cost_delete :
  mapping_cost example_vertex example_vertex_e example_labels
               (search_order example_vertex) [VERTEX_DELETED] = 2%R.
Proof. lazy -[Rplus Rmult Rminus Rdiv Rinv Ropp IZR]. lra. Qed.

Lemma example_complete_mapping p :
  complete_mapping example_vertex example_vertex_e p → p = [0] ∨ p = [VERTEX_DELETED].
Proof.
  intros [Hl [Hr _]]. destruct p as [|c [|? ?]]; try discriminate Hl.
  destruct (Hr c) as [->|Hc]; [left | by right |].
  left. f_equal. change (numVertices example_vertex_e) with 1 in Hc. lia.
Qed.

Lemma example_complete_mapping_substitute :
  complete_mapping example_vertex example_vertex_e [0].
Proof.
  split; [reflexivity|]. split.
  - intros c Hc. apply list_elem_of_singleton in Hc. subst c. right. reflexivity.
  - vm_compute. apply NoDup_singleton.
Qed.


